(** * findimg: a shallow embedding of the multiscale template matcher

    The development follows [main.go]: the pixel difference metric
    ([bitwiseAbsDiff], [rgbAbsSumSliceBitwise], [sumOfAbsDiffRGBA]), the
    bounded top-k scan of one worker, the fork/join matcher
    [convolutionTopKParallel], the pyramid driver [findImage], the
    coordinate transform [Match.Scale] and the two serialisations of [main].

    Conventions.
    - Go's [uint8] is [Byte.byte]; [uint32], [int32] and [int] (64 bit) are
      [Z] with the wrap-around written at every operation that can leave
      the range ([wrap_uint32], [wrap_int32], [wrap_int]).  Pixel
      coordinates and buffer offsets are kept as exact [Z].
    - Go's [float64] is the primitive binary64 type [float].
    - A run-time panic (index or slice bound out of range) is [None] in the
      [option] monad. *)

From Stdlib Require Import ZArith Zpower Floats Lia Strings.Byte Strings.String Strings.Ascii DecimalString.
From stdpp Require Import base tactics option list list_numbers sorting.

#[local] Set Warnings "-inexact-float".

Local Open Scope Z_scope.

(** ** Machine integers *)

Definition wrap_uint32 (z : Z) : Z := z mod 2 ^ 32.
Definition wrap_int32 (z : Z) : Z := (z + 2 ^ 31) mod 2 ^ 32 - 2 ^ 31.
Definition wrap_int (z : Z) : Z := (z + 2 ^ 63) mod 2 ^ 64 - 2 ^ 63.

(** [uint8] read as an integer. *)
Definition u8 (b : byte) : Z := Z.of_N (Byte.to_N b).

(** ** Loops that may panic *)

Fixpoint foldM {S A : Type} (f : S → A → option S) (s : S) (l : list A) : option S :=
  match l with
  | [] => Some s
  | a :: l' => s' ← f s a; foldM f s' l'
  end.

(** ** The difference metric *)

(** [func bitwiseAbsDiff(a, b uint8) uint32]:
    [v := int32(a) - int32(b); m := v >> (32 - 1); return uint32((v + m) ^ m)]. *)
Definition bitwiseAbsDiff (a b : byte) : Z :=
  let v := wrap_int32 (u8 a - u8 b) in
  let m := Z.shiftr v (32 - 1) in
  wrap_uint32 (Z.lxor (wrap_int32 (v + m)) m).

(** [func rgbAbsSumSliceBitwise(a, b []uint8) uint32]; indexing a slice
    shorter than three bytes panics. *)
Definition rgbAbsSumSliceBitwise (a b : list byte) : option Z :=
  a0 ← a !! 0%nat; a1 ← a !! 1%nat; a2 ← a !! 2%nat;
  b0 ← b !! 0%nat; b1 ← b !! 1%nat; b2 ← b !! 2%nat;
  Some (wrap_uint32 (wrap_uint32 (bitwiseAbsDiff a0 b0 + bitwiseAbsDiff a1 b1)
                     + bitwiseAbsDiff a2 b2)).


(** ** Go's [float64] and its conversions *)

(** [float64(n)] for an integer [n]: the correctly rounded binary64 value. *)
Definition float64_of_int (z : Z) : float :=
  SF2Prim (binary_normalize prec emax z 0 false).

(** The result of [int(f)] when [f] is NaN, infinite or outside the range
    of [int]: Go leaves it to the implementation; amd64 yields the least
    [int]. *)
Definition int_indefinite : Z := - 2 ^ 63.

(** [int(f)]: truncation towards zero. *)
Definition int_of_float64 (f : float) : Z :=
  match Prim2SF f with
  | S754_zero _ => 0
  | S754_finite s m e =>
      let a := if 0 <=? e then Z.pos m * 2 ^ e else Z.pos m / 2 ^ (- e) in
      let v := if s then - a else a in
      if (- 2 ^ 63 <=? v) && (v <? 2 ^ 63) then v else int_indefinite
  | _ => int_indefinite
  end.

(** ** Package [image]: points, rectangles and RGBA rasters *)

Module image.

Record Point : Type := mkPoint { X : Z; Y : Z }.

Record Rectangle : Type := mkRectangle { Min : Point; Max : Point }.

(** [image.Rect(x0, y0, x1, y1)] swaps the coordinates of an ill-ordered
    pair, so that the result is well formed. *)
Definition Rect (x0 y0 x1 y1 : Z) : Rectangle :=
  let '(x0, x1) := if x1 <? x0 then (x1, x0) else (x0, x1) in
  let '(y0, y1) := if y1 <? y0 then (y1, y0) else (y0, y1) in
  mkRectangle (mkPoint x0 y0) (mkPoint x1 y1).

Definition Dx (r : Rectangle) : Z := X (Max r) - X (Min r).
Definition Dy (r : Rectangle) : Z := Y (Max r) - Y (Min r).

(** [*image.RGBA]: four bytes per pixel, rows [Stride] bytes apart. *)
Record RGBA : Type := mkRGBA { Pix : list byte; Stride : Z; Bounds : Rectangle }.

Definition PixOffset (p : RGBA) (x y : Z) : Z :=
  (y - Y (Min (Bounds p))) * Stride p + (x - X (Min (Bounds p))) * 4.

(** [image.NewRGBA(r)]: a zeroed buffer of [4 * r.Dx() * r.Dy()] bytes. *)
Definition NewRGBA (r : Rectangle) : RGBA :=
  mkRGBA (replicate (Z.to_nat (4 * Dx r * Dy r)) x00) (4 * Dx r) r.

(** The full slice expression [s[lo:hi:hi]]; it panics unless
    [0 <= lo <= hi <= cap(s)]. *)
Definition slice (s : list byte) (lo hi : Z) : option (list byte) :=
  if decide (0 ≤ lo ∧ lo ≤ hi ∧ hi ≤ Z.of_nat (length s))
  then Some (take (Z.to_nat (hi - lo)) (drop (Z.to_nat lo) s))
  else None.

End image.

Import image.

(** [func sumOfAbsDiffRGBA(img *image.RGBA, x int, y int, subimg *image.RGBA) uint32].
    The accumulator is a [uint32]. *)
Definition sumOfAbsDiffRGBA (img : RGBA) (x y : Z) (subimg : RGBA) : option Z :=
  let b := Bounds subimg in
  let w := Dx b in
  let h := Dy b in
  let ipix := Pix img in
  let spix := Pix subimg in
  foldM (λ sum ny,
    foldM (λ sum nx,
      let i := PixOffset img (x + nx) (y + ny) in
      let j := PixOffset subimg (X (Min b) + nx) (Y (Min b) + ny) in
      ip ← slice ipix i (i + 3);
      sp ← slice spix j (j + 3);
      d ← rgbAbsSumSliceBitwise ip sp;
      Some (wrap_uint32 (sum + d)))
    sum (seqZ 0 w))
  0 (seqZ 0 h).

(** ** Matches *)

(** [type Match struct { Bounds image.Rectangle; Match float64 }]. *)
Record Match : Type := mkMatch { m_Bounds : Rectangle; m_Match : float }.

Abbreviation Matches := (list Match).

(** [func (m Match) Scale(scale float64) Match]. *)
Definition Match_Scale (m : Match) (scale : float) : Match :=
  let sc (c : Z) := int_of_float64 (PrimFloat.mul (float64_of_int c) scale) in
  mkMatch
    (mkRectangle
       (mkPoint (sc (X (Min (m_Bounds m)))) (sc (Y (Min (m_Bounds m)))))
       (mkPoint (sc (X (Max (m_Bounds m)))) (sc (Y (Max (m_Bounds m))))))
    (m_Match m).

(** [func (m Matches) Scale(scale float64) Matches] overwrites the elements
    of the receiver's backing array and returns the receiver: after the
    call the receiver and the result are the same, scaled, slice. *)
Definition Matches_Scale (m : Matches) (scale : float) : Matches :=
  (λ x, Match_Scale x scale) <$> m.

(** The zero value of [Match], which fills a fresh backing array. *)
Definition zeroMatch : Match :=
  mkMatch (mkRectangle (mkPoint 0 0) (mkPoint 0 0)) 0%float.

(** ** The bounded top-k scan *)

(** [s[i]] for a Go [int] index. *)
Definition index {A : Type} (s : list A) (i : Z) : option A :=
  if 0 <=? i then s !! Z.to_nat i else None.

(** [maxDiffIndex := 0; for i := 1; i < k; i++ { if minSums[i] >
    minSums[maxDiffIndex] { maxDiffIndex = i } }]. *)
Definition maxDiffIndex (k : Z) (minSums : list Z) : option Z :=
  foldM (λ maxDiffIndex i,
    a ← index minSums i;
    b ← index minSums maxDiffIndex;
    Some (if b <? a then i else maxDiffIndex))
  0 (seqZ 1 (k - 1)).

(** The body of the scan for one offset, whose rectangle is [bounds] and
    whose raw dissimilarity is [sum]. *)
Definition topk_step (k : Z) (st : list Match * list Z) (bounds : Rectangle) (sum : Z)
    : option (list Match * list Z) :=
  let '(matches, minSums) := st in
  if Z.of_nat (length matches) <? k then
    Some (matches ++ [mkMatch bounds (float64_of_int sum)], minSums ++ [sum])
  else
    i ← maxDiffIndex k minSums;
    worst ← index minSums i;
    if sum <? worst then
      _ ← index matches i;
      Some (<[Z.to_nat i := mkMatch bounds (float64_of_int sum)]> matches,
            <[Z.to_nat i := sum]> minSums)
    else Some (matches, minSums).

(** A scan pass over offsets whose sums are already known. *)
Definition topk_scan (k : Z) (seen : list (Rectangle * Z)) : option (list Match * list Z) :=
  foldM (λ st o, topk_step k st o.1 o.2) ([], []) seen.

(** The two nested [for] loops over the offsets
    [[xa, xb) x [ya, yb)], rows outermost. *)
Definition scan_region (img subimg : RGBA) (k subw subh xa xb ya yb : Z)
    : option (list Match * list Z) :=
  foldM (λ st y,
    foldM (λ st x,
      sum ← sumOfAbsDiffRGBA img x y subimg;
      topk_step k st (Rect x y (x + subw) (y + subh)) sum)
    st (seqZ xa (xb - xa)))
  ([], []) (seqZ ya (yb - ya)).

(** ** The run-time choices of a fork/join episode *)

(** The order in which the channel delivers the workers' matches and the
    permutation [sort.Slice] (which is not stable) settles on are not
    fixed by the program. *)
Record Runtime : Type := mkRuntime {
  fanIn : list (list Match) → list Match;
  sortSlice : (Match → Match → bool) → list Match → list Match
}.

(** Every worker sends its matches in order; the receiver sees some
    interleaving. *)
Inductive interleaving : list (list Match) → list Match → Prop :=
  | interleaving_nil ws :
      Forall (λ w, w = []) ws → interleaving ws []
  | interleaving_cons ws i m q l :
      ws !! i = Some (m :: q) →
      interleaving (<[i := q]> ws) l →
      interleaving ws (m :: l).

(** What the results below rely on: the receiver sees an interleaving of
    what the workers sent, and [sort.Slice] permutes its argument.  The
    order it gives to the permutation is left open, so every statement made
    for an admissible run-time holds whatever [sort.Slice] does with ties. *)
Record admissible (rt : Runtime) : Prop := mkAdmissible {
  fanIn_interleaving : ∀ ws, interleaving ws (fanIn rt ws);
  sortSlice_perm : ∀ less l, sortSlice rt less l ≡ₚ l
}.

(** One admissible choice: the workers are drained in the order of their
    identifiers and the sort is a stable insertion sort. *)
Fixpoint insert_sorted (less : Match → Match → bool) (x : Match) (l : list Match) : list Match :=
  match l with
  | [] => [x]
  | y :: l' => if less y x then y :: insert_sorted less x l' else x :: y :: l'
  end.

Definition insertion_sort (less : Match → Match → bool) (l : list Match) : list Match :=
  foldr (insert_sorted less) [] l.

Definition in_order : Runtime := mkRuntime (λ ws, mjoin ws) insertion_sort.

(** ** The sequential and the parallel per-scale matcher *)

(** The final normalisation loop of both matchers:
    [norm := 1 / float64(subimgr.Max.X*subimgr.Max.Y*0xFF*3)],
    [matches[i].Match = 1 - matches[i].Match*norm]. *)
Definition norm_of (subimgr : Rectangle) : float :=
  PrimFloat.div 1%float
    (float64_of_int (wrap_int (wrap_int (wrap_int (X (Max subimgr) * Y (Max subimgr)) * 255) * 3))).

Definition normalize (norm : float) (m : Match) : Match :=
  mkMatch (m_Bounds m) (PrimFloat.sub 1%float (PrimFloat.mul (m_Match m) norm)).

(** [func convolutionTopK(img *image.RGBA, subimg *image.RGBA, k int) Matches]. *)
Definition convolutionTopK (rt : Runtime) (img subimg : RGBA) (k : Z) : option Matches :=
  let imgr := Bounds img in
  let subimgr := Bounds subimg in
  let subw := Dx subimgr in
  let subh := Dy subimgr in
  let inner := Rect (X (Min imgr)) (Y (Min imgr)) (X (Max imgr) - subw) (Y (Max imgr) - subh) in
  st ← scan_region img subimg k subw subh
        (X (Min inner)) (X (Max inner)) (Y (Min inner)) (Y (Max inner));
  let matches := normalize (norm_of subimgr) <$> st.1 in
  Some (sortSlice rt (λ a b, PrimFloat.ltb (m_Match b) (m_Match a)) matches).

(** The goroutine of worker [workerID]. *)
Definition worker (img subimg : RGBA) (k : Z) (inner : Rectangle) (subw subh : Z)
    (numWorkers sliceHeight workerID : Z) : option (list Match) :=
  let ya := Y (Min inner) + workerID * sliceHeight in
  let yb := if workerID =? numWorkers - 1 then Dy inner else ya + sliceHeight in
  let xa := X (Min inner) in
  let xb := X (Max inner) in
  st ← scan_region img subimg k subw subh xa xb ya yb;
  Some st.1.

(** [matches = matches[:k]]: the upper bound of a slice expression is the
    capacity, so a slice shorter than [k] is extended over the zeroed rest
    of its backing array. *)
Definition reslice (matches : list Match) (k capacity : Z) : option (list Match) :=
  if decide (0 ≤ k ∧ k ≤ capacity)
  then Some (take (Z.to_nat k)
               (matches ++ replicate (Z.to_nat capacity - length matches) zeroMatch))
  else None.

(** [make([]Match, 0, n)] returns a slice of capacity [n]; the run-time
    panics when [n] is negative or when [n] elements are more than it can
    allocate: on amd64, [2^48] bytes, of which a [Match] (four [int] and one
    [float64]) takes 40. *)
Definition makeslice_Match (n : Z) : option Z :=
  if decide (0 ≤ n ∧ n * 40 ≤ 2 ^ 48) then Some n else None.

(** [func convolutionTopKParallel(img *image.RGBA, subimg *image.RGBA, k int) Matches];
    [numCPU] is [runtime.NumCPU()], small enough for [numWorkers] not to
    wrap.  A panic in any goroutine ends the program.  The capacity [k*numWorkers] is an [int] product and wraps.
    [append] leaves the capacity as [make] set it unless more matches arrive
    than it holds, which only a wrapped product allows; the slice is then
    grown to hold them, and its capacity is taken to be its length (every
    capacity is at most [2^48 / 40], and with fewer than [2^19] CPUs a [k]
    whose product wraps is larger than that, so that [matches[:k]] panics
    whatever the capacity is grown to). *)
Definition convolutionTopKParallel (rt : Runtime) (numCPU : positive)
    (img subimg : RGBA) (k : Z) : option Matches :=
  let imgr := Bounds img in
  let subimgr := Bounds subimg in
  let subw := Dx subimgr in
  let subh := Dy subimgr in
  let inner := Rect (X (Min imgr)) (Y (Min imgr)) (X (Max imgr) - subw) (Y (Max imgr) - subh) in
  let k := if k <? 1 then 1 else k in
  let numWorkers := Z.pos numCPU * 2 in
  let sliceHeight := Z.quot (Dy inner) numWorkers in
  sent ← mapM (worker img subimg k inner subw subh numWorkers sliceHeight) (seqZ 0 numWorkers);
  made ← makeslice_Match (wrap_int (k * numWorkers));
  let received := fanIn rt sent in
  let capacity := Z.max made (Z.of_nat (length received)) in
  let sorted := sortSlice rt (λ a b, PrimFloat.ltb (m_Match a) (m_Match b)) received in
  kept ← reslice sorted k capacity;
  Some (fmap (M:=list) (normalize (norm_of subimgr)) kept).

(** ** The pyramid driver *)

(** The numeric options of [Opts]; the remaining fields ([html], [verbose],
    [convolution], [visualize], [runTmpl]) only drive logging and the HTML
    report, and the model follows a run in which they are off. *)
Record Opts : Type := mkOpts {
  imgMinWidth : Z;
  imgMaxWidth : Z;
  subMinArea : Z;
  subMaxDiv : Z;
  opt_k : Z
}.

Definition DEFAULT_OPTS : Opts :=
  {| opt_k := 6; imgMinWidth := 8; imgMaxWidth := 256; subMaxDiv := 64; subMinArea := 5 * 5 |}.

(** The outcome of a loop run with a bound on the number of iterations. *)
Inductive run (A : Type) : Type :=
  | Returns (a : A)
  | Panics
  | OutOfFuel.
Arguments Returns {A} a.
Arguments Panics {A}.
Arguments OutOfFuel {A}.

(** How one iteration of the inner loop ends. *)
Inductive step : Type :=
  | Continue (lastTopMatch : float) (matches : Matches) (subruns : nat)
  | Break (matches : Matches)
  | Done (matches : Matches).

Section findImage.

(** [image.Image], the decoded rasters handed to [findImage]. *)
Context {Image : Type}.
Variable Image_Bounds : Image → Rectangle.

(** [draw.CatmullRom.Scale(resized, resized.Bounds(), img, img.Bounds(),
    draw.Over, nil)]: the pixel buffer of [resized] after the call. *)
Variable CatmullRom_Scale : Rectangle → Image → list byte.

Variable rt : Runtime.
Variable numCPU : positive.

(** [func resizeImage(img image.Image, width, height int) *image.RGBA]. *)
Definition resizeImage (img : Image) (width height : Z) : RGBA :=
  let bounds := Image_Bounds img in
  let imgWidth := X (Max bounds) - X (Min bounds) in
  let imgHeight := Y (Max bounds) - Y (Min bounds) in
  let '(width, height) :=
    if width =? 0 then
      (int_of_float64
         (PrimFloat.div (PrimFloat.mul (float64_of_int height) (float64_of_int imgWidth))
                        (float64_of_int imgHeight)), height)
    else if height =? 0 then
      (width,
       int_of_float64
         (PrimFloat.div (PrimFloat.mul (float64_of_int width) (float64_of_int imgHeight))
                        (float64_of_int imgWidth)))
    else (width, height) in
  let width := if width <? 1 then 1 else width in
  let height := if height <? 1 then 1 else height in
  let r := Rect 0 0 width height in
  mkRGBA (CatmullRom_Scale r img) (4 * Dx r) r.

Variable subsrc : Image.
Variable opts : Opts.

(** The needle size at division [div] of a level of scale [imgScale]. *)
Definition sub_size (imgScale : float) (div : Z) : Z * Z :=
  let sscale := PrimFloat.div 1%float (float64_of_int div) in
  let sw := int_of_float64
              (PrimFloat.mul (PrimFloat.mul (float64_of_int (Dx (Image_Bounds subsrc))) sscale)
                             imgScale) in
  let sh := int_of_float64
              (PrimFloat.mul (PrimFloat.mul (float64_of_int (Dy (Image_Bounds subsrc))) sscale)
                             imgScale) in
  (sw, sh).

(** The body of [for div := 1; div <= opts.subMaxDiv; div *= 2].
    [subruns] is [len(run.Subruns)] on entry. *)
Definition inner_body (img : RGBA) (imgWidth imgHeight : Z) (imgScale : float)
    (div : Z) (lastTopMatch : float) (matches : Matches) (subruns : nat) : option step :=
  let '(sw, sh) := sub_size imgScale div in
  let sarea := wrap_int (sw * sh) in
  if (sarea <? subMinArea opts) || (imgWidth <=? sw) || (imgHeight <=? sh) then
    Some (Break matches)
  else
    let subimg := resizeImage subsrc sw sh in
    divMatches ← convolutionTopKParallel rt numCPU img subimg (opt_k opts);
    if (length divMatches =? 0)%nat then Some (Break matches)
    else
      divTopMatch ← divMatches !! 0%nat;
      (* [subrun.Matches = divMatches.Scale(1 / imgScale)] scales
         [divMatches] itself *)
      let divMatches := Matches_Scale divMatches (PrimFloat.div 1%float imgScale) in
      let subruns := S subruns in
      if PrimFloat.ltb (m_Match divTopMatch) lastTopMatch then
        (* [run.Subruns[len(run.Subruns)-2].Selected = true] *)
        if (subruns <? 2)%nat then None else Some (Done matches)
      else Some (Continue (m_Match divTopMatch) divMatches subruns).

Fixpoint inner_loop (fuel : nat) (img : RGBA) (imgWidth imgHeight : Z) (imgScale : float)
    (div : Z) (lastTopMatch : float) (matches : Matches) (subruns : nat)
    : run (Matches * bool) :=
  match fuel with
  | O => OutOfFuel
  | S fuel' =>
      if subMaxDiv opts <? div then Returns (matches, false)
      else
        match inner_body img imgWidth imgHeight imgScale div lastTopMatch matches subruns with
        | None => Panics
        | Some (Break matches') => Returns (matches', false)
        | Some (Done matches') => Returns (matches', true)
        | Some (Continue lastTopMatch' matches' subruns') =>
            inner_loop fuel' img imgWidth imgHeight imgScale (wrap_int (div * 2))
              lastTopMatch' matches' subruns'
        end
  end.

(** The inner step at division [div] reaches the matcher, which returns
    [divMatches] with first element [divTopMatch]. *)
Definition step_matches (img : RGBA) (imgWidth imgHeight : Z) (imgScale : float) (div : Z)
    (divMatches : Matches) (divTopMatch : Match) : Prop :=
  let '(sw, sh) := sub_size imgScale div in
  (wrap_int (sw * sh) <? subMinArea opts) || (imgWidth <=? sw) || (imgHeight <=? sh) = false ∧
  convolutionTopKParallel rt numCPU img (resizeImage subsrc sw sh) (opt_k opts) = Some divMatches ∧
  divMatches !! 0%nat = Some divTopMatch.

Variable imgsrc : Image.

(** [for imgWidth := opts.imgMinWidth; imgWidth <= opts.imgMaxWidth; imgWidth *= 2]. *)
Fixpoint outer_loop (fuel : nat) (imgWidth : Z) (matches : Matches) : run Matches :=
  match fuel with
  | O => OutOfFuel
  | S fuel' =>
      if imgMaxWidth opts <? imgWidth then Returns matches
      else
        let img := resizeImage imgsrc imgWidth 0 in
        let imgHeight := Y (Max (Bounds img)) in
        let imgScale := PrimFloat.div (float64_of_int imgWidth)
                          (float64_of_int (X (Max (Image_Bounds imgsrc)))) in
        match inner_loop fuel img imgWidth imgHeight imgScale 1 0%float matches 0 with
        | Returns (matches', done) =>
            if done then Returns matches'
            else outer_loop fuel' (wrap_int (imgWidth * 2)) matches'
        | Panics => Panics
        | OutOfFuel => OutOfFuel
        end
  end.

End findImage.

(** [func findImage(imgsrc image.Image, subsrc image.Image, opts Opts) []Match]. *)
Definition findImage {Image : Type} (Image_Bounds : Image → Rectangle)
    (CatmullRom_Scale : Rectangle → Image → list byte) (rt : Runtime) (numCPU : positive)
    (fuel : nat) (imgsrc subsrc : Image) (opts : Opts) : run Matches :=
  let dflt (v d : Z) := if v =? 0 then d else v in
  let opts :=
    {| imgMinWidth := dflt (imgMinWidth opts) (imgMinWidth DEFAULT_OPTS);
       imgMaxWidth := dflt (imgMaxWidth opts) (imgMaxWidth DEFAULT_OPTS);
       subMinArea := dflt (subMinArea opts) (subMinArea DEFAULT_OPTS);
       subMaxDiv := dflt (subMaxDiv opts) (subMaxDiv DEFAULT_OPTS);
       opt_k := dflt (opt_k opts) (opt_k DEFAULT_OPTS) |} in
  let opts :=
    if X (Max (Image_Bounds imgsrc)) <? imgMaxWidth opts
    then {| imgMinWidth := imgMinWidth opts;
            imgMaxWidth := X (Max (Image_Bounds imgsrc));
            subMinArea := subMinArea opts;
            subMaxDiv := subMaxDiv opts;
            opt_k := opt_k opts |}
    else opts in
  outer_loop Image_Bounds CatmullRom_Scale rt numCPU subsrc opts imgsrc
    fuel (imgMinWidth opts) [].

(** ** The output of [main] *)

Module fmt.

Definition cat (a b : string) : string := String.append a b.

Fixpoint fill (n : nat) (c : ascii) : string :=
  match n with
  | O => EmptyString
  | S n' => String c (fill n' c)
  end.

(** A minimum field width pads on the left. *)
Definition pad_left (width : nat) (c : ascii) (s : string) : string :=
  cat (fill (width - String.length s) c) s.

Definition decimal (z : Z) : string := NilZero.string_of_int (Z.to_int z).

(** The verb [%4d] and its like. *)
Definition d (width : nat) (z : Z) : string := pad_left width " " (decimal z).

(** [num / den] rounded to the nearest integer, ties to even. *)
Definition round_half_even (num den : Z) : Z :=
  let q := num / den in
  let r := num mod den in
  if 2 * r <? den then q
  else if den <? 2 * r then q + 1
  else if Z.even q then q else q + 1.

(** The verb [%6f] and its like: six digits after the point, the decimal
    expansion of the binary value correctly rounded. *)
Definition f (width : nat) (x : float) : string :=
  pad_left width " "
    match Prim2SF x with
    | S754_nan => "NaN"%string
    | S754_infinity s => if s then "-Inf"%string else "+Inf"%string
    | S754_zero s => cat (if s then "-"%string else ""%string) "0.000000"%string
    | S754_finite s m e =>
        let n := if 0 <=? e then Z.pos m * 2 ^ e * 10 ^ 6
                 else round_half_even (Z.pos m * 10 ^ 6) (2 ^ (- e)) in
        cat (if s then "-"%string else ""%string)
          (cat (decimal (n / 10 ^ 6))
             (cat "."%string (pad_left 6 "0" (decimal (n mod 10 ^ 6)))))
    end.

Definition newline : string := String "010" EmptyString.

End fmt.

(** The line [main] prints for a match in the text format:
    [fmt.Printf("%6f %4d %4d %4d %4d\n", match.Match, match.Bounds.Min.X,
    match.Bounds.Min.Y, match.Bounds.Max.X, match.Bounds.Max.Y)]. *)
Definition text_line (m : Match) : string :=
  let b := m_Bounds m in
  fmt.cat (fmt.f 6 (m_Match m))
    (fmt.cat " "%string (fmt.cat (fmt.d 4 (X (Min b)))
    (fmt.cat " "%string (fmt.cat (fmt.d 4 (Y (Min b)))
    (fmt.cat " "%string (fmt.cat (fmt.d 4 (X (Max b)))
    (fmt.cat " "%string (fmt.cat (fmt.d 4 (Y (Max b))) fmt.newline)))))))).

(** The line the README documents: [<match> <x> <y> <width> <height>]. *)
Definition documented_text_line (m : Match) : string :=
  let b := m_Bounds m in
  fmt.cat (fmt.f 6 (m_Match m))
    (fmt.cat " "%string (fmt.cat (fmt.d 4 (X (Min b)))
    (fmt.cat " "%string (fmt.cat (fmt.d 4 (Y (Min b)))
    (fmt.cat " "%string (fmt.cat (fmt.d 4 (Dx b))
    (fmt.cat " "%string (fmt.cat (fmt.d 4 (Dy b)) fmt.newline)))))))).

(** The value [encoding/json] is asked to encode. *)
#[warnings="-register-all"]
Inductive JSON : Type :=
  | JInt (z : Z)
  | JFloat (x : float)
  | JObject (fields : list (string * JSON)).

(** [func (m Match) MarshalJSON() ([]byte, error)]: the anonymous struct
    handed to [json.Marshal], with its field tags. *)
Definition Match_MarshalJSON (m : Match) : JSON :=
  JObject
    [("bounds"%string,
      JObject [("x"%string, JInt (X (Min (m_Bounds m))));
               ("y"%string, JInt (Y (Min (m_Bounds m))));
               ("w"%string, JInt (Dx (m_Bounds m)));
               ("h"%string, JInt (Dy (m_Bounds m)))]);
     ("match"%string, JFloat (m_Match m))].

(** ** The difference metric as the specification words it *)

Definition Zsum (l : list Z) : Z := foldr Z.add 0 l.

(** Channel [c] (0 red, 1 green, 2 blue, 3 alpha) of the pixel at [(x, y)]. *)
Definition channel (p : RGBA) (x y c : Z) : Z :=
  from_option u8 0 (index (Pix p) (PixOffset p x y + c)).

(** The absolute differences of the R, G and B channels between
    [haystack[hx+nx, hy+ny]] and [needle[nx, ny]]. *)
Definition pixel_abs_diff (haystack : RGBA) (hx hy : Z) (needle : RGBA) (nx ny : Z) : Z :=
  let nb := Bounds needle in
  Zsum ((λ c, Z.abs (channel haystack (hx + nx) (hy + ny) c
                     - channel needle (X (Min nb) + nx) (Y (Min nb) + ny) c)) <$> [0; 1; 2]).

(** The sum over every needle pixel. *)
Definition patch_abs_diff (haystack : RGBA) (hx hy : Z) (needle : RGBA) : Z :=
  let nb := Bounds needle in
  Zsum ((λ ny, Zsum ((λ nx, pixel_abs_diff haystack hx hy needle nx ny) <$> seqZ 0 (Dx nb)))
          <$> seqZ 0 (Dy nb)).

(** A raster as [image.NewRGBA] lays it out. *)
Record well_formed (p : RGBA) : Prop := mkWellFormed {
  wf_dx : 0 ≤ Dx (Bounds p);
  wf_dy : 0 ≤ Dy (Bounds p);
  wf_stride : Stride p = 4 * Dx (Bounds p);
  wf_length : Z.of_nat (length (Pix p)) = 4 * Dx (Bounds p) * Dy (Bounds p)
}.

(** The needle placed at [(hx, hy)] lies within the haystack. *)
Definition placed_within (haystack : RGBA) (hx hy : Z) (needle : RGBA) : Prop :=
  X (Min (Bounds haystack)) ≤ hx ∧ hx + Dx (Bounds needle) ≤ X (Max (Bounds haystack)) ∧
  Y (Min (Bounds haystack)) ≤ hy ∧ hy + Dy (Bounds needle) ≤ Y (Max (Bounds haystack)).

(** A [w] by [h] raster at the origin all of whose bytes are [c]. *)
Definition uniform (c : byte) (w h : Z) : RGBA :=
  mkRGBA (replicate (Z.to_nat (4 * w * h)) c) (4 * w) (mkRectangle (mkPoint 0 0) (mkPoint w h)).

(** A [w] by [h] raster at the origin over the given bytes. *)
Definition raster (w h : Z) (pix : list byte) : RGBA :=
  mkRGBA pix (4 * w) (mkRectangle (mkPoint 0 0) (mkPoint w h)).


(** The candidate the scan stores for an offset: its rectangle and its raw
    sum converted to [float64]. *)
Definition candidate (o : Rectangle * Z) : Match := mkMatch o.1 (float64_of_int o.2).


(** "Earliest-seen preferred on ties", as the specification words the
    outcome of a scan: of two offsets with equal sums the later one is
    retained only if the earlier one is. *)
Definition earliest_seen_preferred (seen retained : list (Rectangle * Z)) : Prop :=
  ∀ (i j : nat) a b,
    (i < j)%nat → seen !! i = Some a → seen !! j = Some b →
    a.2 = b.2 → b ∈ retained → a ∈ retained.


(** ** Rasters for worked examples *)

Definition byte_of_Z (z : Z) : byte := default x00 (Byte.of_N (Z.to_N (z mod 256))).

(** The raster whose pixel at [(x, y)] has the four bytes [f x y]. *)
Definition raster_of (w h : Z) (f : Z → Z → list byte) : RGBA :=
  raster w h (y ← seqZ 0 h; x ← seqZ 0 w; f x y).

(** A nearest-neighbour resampler, standing in for the Catmull-Rom filter
    where an example needs a concrete one.  Like the scalers of [draw], it
    returns at once when the source rectangle is empty, which leaves the
    destination as [image.NewRGBA] made it: zeroed. *)
Definition nearest_Scale (r : Rectangle) (src : RGBA) : list byte :=
  if (Dx (Bounds src) <=? 0) || (Dy (Bounds src) <=? 0)
  then replicate (Z.to_nat (4 * Dx r * Dy r)) x00
  else
    y ← seqZ 0 (Dy r); x ← seqZ 0 (Dx r);
    let sx := X (Min (Bounds src)) + x * Dx (Bounds src) / Dx r in
    let sy := Y (Min (Bounds src)) + y * Dy (Bounds src) / Dy r in
    take 4 (drop (Z.to_nat (PixOffset src sx sy)) (Pix src)).

(** A haystack with a colour gradient and the needle cut from it at (2, 2). *)
Definition gradient (x y : Z) : list byte :=
  [byte_of_Z (16 * x + 2 * y); byte_of_Z (x * y); x07; xff].

Definition gradient_haystack : RGBA := raster_of 8 8 gradient.

Definition gradient_needle : RGBA := raster_of 4 4 (λ x y, gradient (x + 2) (y + 2)).


(** ** Shapes of binary64 rounding results *)

(** The result of rounding once the shifted mantissa [m2] and its exponent
    [e1] are known: a mantissa that reached [2^53] is renormalised. *)
Definition finish_round (sx : bool) (m2 e1 : Z) : spec_float :=
  if m2 =? 0 then S754_zero sx
  else if m2 =? 2 ^ 53 then
    (if e1 + 1 <=? emax - prec then S754_finite sx (2 ^ 52)%positive (e1 + 1)
     else S754_infinity sx)
  else if e1 <=? emax - prec then S754_finite sx (Z.to_pos m2) e1
  else S754_infinity sx.

(** A rounding result carries the sign it was given and is never NaN. *)
Definition SF_signed (s : bool) (x : spec_float) : Prop :=
  match x with
  | S754_nan => False
  | S754_zero s' | S754_infinity s' | S754_finite s' _ _ => s' = s
  end.

Definition SF_finite (x : spec_float) : Prop :=
  match x with
  | S754_zero _ | S754_finite _ _ _ => True
  | _ => False
  end.


(** An offset of the scan together with its raw sum. *)
Definition scanned (img subimg : RGBA) (subw subh xa xb ya yb : Z) (m : Match) : Prop :=
  ∃ x y sum,
    xa ≤ x < xb ∧ ya ≤ y < yb ∧
    sumOfAbsDiffRGBA img x y subimg = Some sum ∧
    m = candidate (Rect x y (x + subw) (y + subh), sum).


(** The [float64] value [2^e]. *)
Definition pow2_float (e : Z) : float := SF2Prim (S754_finite false (2 ^ 52)%positive (e - 52)).

(** What scaling by [2^-j] and back does to a coordinate: the bits below
    [2^j] are lost. *)
Definition truncated_to (j c c' : Z) : Prop :=
  c' = c / 2 ^ j * 2 ^ j ∧ c - 2 ^ j < c' ≤ c.

(** What scaling by [float64(w) / float64(W)] does to a coordinate [c]:
    the result [c'] is the quotient [c * w / W], or one less than the
    quotient when it is exact. *)
Definition scaled_to (w W c c' : Z) : Prop := 0 ≤ c' ∧ c' * W ≤ c * w ≤ c' * W + W.

(** What scaling by [float64(w) / float64(W)] and back does to a
    coordinate [c]: the result [c'] is not above [c], and below it by at
    most [W / w + 1]. *)
Definition within_scale (w W c c' : Z) : Prop := c' ≤ c ∧ w * (c - c') ≤ W + w.


(** A value that is zero or NaN, and one that is not negative. *)
Definition SF_zero_or_nan (x : spec_float) : Prop :=
  match x with
  | S754_zero _ | S754_nan => True
  | _ => False
  end.

Definition SF_nonneg_or_nan (x : spec_float) : Prop :=
  match x with
  | S754_nan => True
  | S754_zero s | S754_infinity s | S754_finite s _ _ => s = false
  end.

(** ** The other pixel metrics of [main.go] *)

Definition wrap_uint8 (z : Z) : Z := z mod 2 ^ 8.

(** [func rgbAbsSumSlice(a, b []uint8) uint32]: each difference is taken in
    [uint8], the smaller byte from the larger, and widened for the sum. *)
Definition rgbAbsSumSlice (a b : list byte) : option Z :=
  ar ← a !! 0%nat; ag ← a !! 1%nat; ab ← a !! 2%nat;
  br ← b !! 0%nat; bg ← b !! 1%nat; bb ← b !! 2%nat;
  let dr := if u8 br <? u8 ar then wrap_uint8 (u8 ar - u8 br) else wrap_uint8 (u8 br - u8 ar) in
  let dg := if u8 bg <? u8 ag then wrap_uint8 (u8 ag - u8 bg) else wrap_uint8 (u8 bg - u8 ag) in
  let db := if u8 bb <? u8 ab then wrap_uint8 (u8 ab - u8 bb) else wrap_uint8 (u8 bb - u8 ab) in
  Some (wrap_uint32 (wrap_uint32 (dr + dg) + db)).


(** ** The offsets of a scan and what [sort.Slice] guarantees *)

(** The offsets of the region [[xa, xb) x [ya, yb)] in the order of the two
    nested loops, rows outermost. *)
Definition offsets (xa xb ya yb : Z) : list (Z * Z) :=
  y ← seqZ ya (yb - ya); x ← seqZ xa (xb - xa); [(x, y)].

(** The rectangle and the raw sum the scan computes at an offset. *)
Definition offset_sum (img subimg : RGBA) (subw subh : Z) (o : Z * Z) : Rectangle * Z :=
  (Rect o.1 o.2 (o.1 + subw) (o.2 + subh),
   default 0 (sumOfAbsDiffRGBA img o.1 o.2 subimg)).

(** Every offset of the matchers' region of a haystack and a needle: the
    needle's top-left corner ranges over
    [[Min.X, Max.X - subw) x [Min.Y, Max.Y - subh)]. *)
Definition all_offsets (img subimg : RGBA) : list (Rectangle * Z) :=
  let subw := Dx (Bounds subimg) in
  let subh := Dy (Bounds subimg) in
  offset_sum img subimg subw subh <$>
    offsets (X (Min (Bounds img))) (X (Max (Bounds img)) - subw)
            (Y (Min (Bounds img))) (Y (Max (Bounds img)) - subh).

(** A slice is sorted by [less] when no element is less than an earlier
    one. *)
Definition sorted_by (less : Match → Match → bool) (l : list Match) : Prop :=
  ∀ (i j : nat) (x y : Match), (i < j)%nat → l !! i = Some x → l !! j = Some y → less y x = false.

(** [less] is a strict weak ordering of the elements of [l]. *)
Definition strict_weak (less : Match → Match → bool) (l : list Match) : Prop :=
  (∀ x y, x ∈ l → y ∈ l → less x y = true → less y x = false) ∧
  (∀ x y z, x ∈ l → y ∈ l → z ∈ l → less x y = false → less y z = false → less x z = false).

(** [sort.Slice] sorts: on a strict weak ordering its result is sorted. *)
Definition sorting (rt : Runtime) : Prop :=
  ∀ less l, strict_weak less l → sorted_by less (sortSlice rt less l).


(** ** Package [image/color] and the pixel accessors of [*image.RGBA] *)

Module color.

(** [color.RGBA]: four 8 bit channels. *)
Record RGBA : Type := mkRGBA { R : byte; G : byte; B : byte; A : byte }.

(** The interface [color.Color]: its one method [RGBA()] returns the
    channels as 16 bit values held in [uint32]s. *)
Class Color (C : Type) : Type := Color_RGBA : C → Z * Z * Z * Z.

(** [func (c RGBA) RGBA() (r, g, b, a uint32)]:
    [r = uint32(c.R); r |= r << 8], and likewise for the others. *)
#[global] Instance RGBA_Color : Color RGBA := λ c,
  let widen (v : byte) := Z.lor (u8 v) (wrap_uint32 (Z.shiftl (u8 v) 8)) in
  (widen (R c), widen (G c), widen (B c), widen (A c)).

End color.

(** [func (p Point) In(r Rectangle) bool]. *)
Definition Point_In (p : Point) (r : Rectangle) : bool :=
  (X (Min r) <=? X p) && (X p <? X (Max r)) && (Y (Min r) <=? Y p) && (Y p <? Y (Max r)).

(** [func (p *RGBA) RGBAAt(x, y int) color.RGBA], which [At] returns as a
    [color.Color]: the zero colour outside the bounds, else the four bytes
    of [p.Pix[i : i+4 : i+4]]. *)
Definition RGBA_RGBAAt (p : RGBA) (x y : Z) : option color.RGBA :=
  if Point_In (mkPoint x y) (Bounds p) then
    let i := PixOffset p x y in
    s ← slice (Pix p) i (i + 4);
    r ← s !! 0%nat; g ← s !! 1%nat; b ← s !! 2%nat; a ← s !! 3%nat;
    Some (color.mkRGBA r g b a)
  else Some (color.mkRGBA x00 x00 x00 x00).

(** [func (p *RGBA) Set(x, y int, c color.Color)] for a [color.RGBA], which
    [color.RGBAModel.Convert] returns as it is: nothing outside the bounds,
    else the four bytes of [p.Pix[i : i+4 : i+4]] are overwritten. *)
Definition RGBA_Set (p : RGBA) (x y : Z) (c : color.RGBA) : option RGBA :=
  if Point_In (mkPoint x y) (Bounds p) then
    let i := PixOffset p x y in
    _ ← slice (Pix p) i (i + 4);
    let n := Z.to_nat i in
    Some (mkRGBA
            (<[S (S (S n)) := color.A c]>
               (<[S (S n) := color.B c]> (<[S n := color.G c]> (<[n := color.R c]> (Pix p)))))
            (Stride p) (Bounds p))
  else Some p.

(** ** The dissimilarity map [convolutionParallel] *)

(** [uint8(f)] for a [float64]: truncation towards zero when the result
    fits.  Go leaves the other cases to the implementation; amd64 truncates
    to 32 bits, with [-2^31] for what does not fit, and keeps the low
    byte. *)
Definition uint8_of_float64 (f : float) : Z :=
  let v := int_of_float64 f in
  if (- 2 ^ 31 <=? v) && (v <? 2 ^ 31) then wrap_uint8 v else 0.

(** [out := 255 - uint8(float64(sum)*norm)]. *)
Definition gray_level (norm : float) (sum : Z) : Z :=
  wrap_uint8 (255 - uint8_of_float64 (PrimFloat.mul (float64_of_int sum) norm)).

(** [color.RGBA{out, out, out, 255}]. *)
Definition gray (out : Z) : color.RGBA :=
  color.mkRGBA (byte_of_Z out) (byte_of_Z out) (byte_of_Z out) xff.

(** One call [outputImage.Set(x, y, c)] of a goroutine. *)
Record write : Type := mkWrite { w_x : Z; w_y : Z; w_c : color.RGBA }.

(** The goroutine of worker [workerID]: the pixels it sets, in order. *)
Definition convolutionParallel_worker (img subimg : RGBA) (imgr : Rectangle) (norm : float)
    (numWorkers sliceHeight workerID : Z) : option (list write) :=
  let ya := workerID * sliceHeight in
  let yb := if workerID =? numWorkers - 1 then Y (Max imgr) else ya + sliceHeight in
  let xb := X (Max imgr) in
  mapM (λ o : Z * Z,
          sum ← sumOfAbsDiffRGBA img o.1 o.2 subimg;
          Some (mkWrite o.1 o.2 (gray (gray_level norm sum))))
       (offsets 0 xb ya yb).

(** [func convolutionParallel(img *image.RGBA, subimg *image.RGBA) image.Image].
    The goroutines share [outputImage]; [schedule] is the order in which
    their calls of [Set] take effect.  The sums read [img] and [subimg]
    only, so they do not depend on that order. *)
Definition convolutionParallel (schedule : list (list write) → list write) (numCPU : positive)
    (img subimg : RGBA) : option RGBA :=
  let imgr := Bounds img in
  let subimgr := Bounds subimg in
  let outputImage := NewRGBA imgr in
  let imgr := mkRectangle (Min imgr)
                (mkPoint (X (Max imgr) - X (Max subimgr)) (Y (Max imgr) - Y (Max subimgr))) in
  let nw := X (Max subimgr) in
  let nh := Y (Max subimgr) in
  let numWorkers := Z.pos numCPU * 2 in
  let sliceHeight := Z.quot (Dy imgr) numWorkers in
  let norm := PrimFloat.div 1%float (float64_of_int (wrap_int (wrap_int (nw * nh) * 3))) in
  writes ← mapM (convolutionParallel_worker img subimg imgr norm numWorkers sliceHeight)
             (seqZ 0 numWorkers);
  foldM (λ out w, RGBA_Set out (w_x w) (w_y w) (w_c w)) outputImage (schedule writes).


(** ** The colour metric of the generic path *)

(** [func rgbAbsSum(a, b color.Color) uint32]: the differences of the 16
    bit channels, summed and divided by [0xFF]. *)
Definition rgbAbsSum {C1 C2 : Type} `{!color.Color C1, !color.Color C2} (a : C1) (b : C2) : Z :=
  let '(ar, ag, ab, _) := color.Color_RGBA a in
  let '(br, bg, bb, _) := color.Color_RGBA b in
  let dr := if br <? ar then wrap_uint32 (ar - br) else wrap_uint32 (br - ar) in
  let dg := if bg <? ag then wrap_uint32 (ag - bg) else wrap_uint32 (bg - ag) in
  let db := if bb <? ab then wrap_uint32 (ab - bb) else wrap_uint32 (bb - ab) in
  wrap_uint32 (wrap_uint32 (dr + dg) + db) / 255.

(** The interface [image.Image] as the code uses it: [Bounds()] and
    [At(x, y)], whose colour is only asked for its [RGBA()].  [None] is a
    panic of [At]. *)
Class image_Image (I C : Type) `{!color.Color C} : Type := {
  image_Bounds : I → Rectangle;
  image_At : I → Z → Z → option C
}.

#[global] Instance RGBA_Image : image_Image RGBA color.RGBA := {|
  image_Bounds := Bounds;
  image_At := RGBA_RGBAAt
|}.

(** [func sumOfAbsDiff(img image.Image, x int, y int, subimg image.Image) uint32]. *)
Definition sumOfAbsDiff {I1 C1 I2 C2 : Type} `{!color.Color C1, !color.Color C2}
    `{!image_Image I1 C1, !image_Image I2 C2} (img : I1) (x y : Z) (subimg : I2) : option Z :=
  let b := image_Bounds subimg in
  let w := Dx b in
  let h := Dy b in
  foldM (λ sum ny,
    foldM (λ sum nx,
      t ← image_At img (x + nx) (y + ny);
      n ← image_At subimg (X (Min b) + nx) (Y (Min b) + ny);
      Some (wrap_uint32 (sum + rgbAbsSum t n)))
    sum (seqZ 0 w))
  0 (seqZ 0 h).

(** [func calculateMeanColor(img image.Image) color.Color]: the channel
    sums and the pixel count are [uint32]s; dividing by a count of 0
    panics. *)
Definition calculateMeanColor {I C : Type} `{!color.Color C} `{!image_Image I C} (img : I)
    : option color.RGBA :=
  let bounds := image_Bounds img in
  acc ← foldM (λ acc y,
           foldM (λ '(r, g, b, a, count) x,
             pixel ← image_At img x y;
             let '(pr, pg, pb, pa) := color.Color_RGBA pixel in
             Some (wrap_uint32 (r + pr), wrap_uint32 (g + pg), wrap_uint32 (b + pb),
                   wrap_uint32 (a + pa), wrap_uint32 (count + 1)))
           acc (seqZ (X (Min bounds)) (X (Max bounds) - X (Min bounds))))
         (0, 0, 0, 0, 0) (seqZ (Y (Min bounds)) (Y (Max bounds) - Y (Min bounds)));
  let '(r, g, b, a, count) := acc in
  if count =? 0 then None
  else
    let mean (v : Z) := byte_of_Z (wrap_uint8 (Z.shiftr (v / count) 8)) in
    Some (color.mkRGBA (mean r) (mean g) (mean b) (mean a)).

(** ** The random needle of [-random] *)

Section randomSubimage.

Context {Image : Type}.
Variable Image_Bounds : Image → Rectangle.

(** [draw.Draw(subimg, subimg.Bounds(), img, image.Point{x, y}, draw.Src)]:
    the pixel buffer of [subimg] after the call. *)
Variable draw_Draw_Src : Rectangle → Image → Point → list byte.

(** The value of the [i]-th call [rand.Intn(n)] of a run, for [n > 0]. *)
Variable rand_Intn : nat → Z → Z.

(** [rand.Intn(n)] panics if [n <= 0]. *)
Definition Intn (i : nat) (n : Z) : option Z :=
  if n <=? 0 then None else Some (rand_Intn i n).

(** [func randomSubimage(img image.Image) image.Image]. *)
Definition randomSubimage (img : Image) : option RGBA :=
  let bounds := Image_Bounds img in
  let w := X (Max bounds) in
  let h := Y (Max bounds) in
  x ← Intn 0 w;
  y ← Intn 1 h;
  sw' ← Intn 2 (wrap_int (w - x));
  let sw := wrap_int (sw' + 1) in
  sh' ← Intn 3 (wrap_int (h - y));
  let sh := wrap_int (sh' + 1) in
  let r := Rect 0 0 sw sh in
  Some (mkRGBA (draw_Draw_Src r img (mkPoint x y)) (4 * Dx r) r).

End randomSubimage.


(** A value that is at most 1 and not negative: [+0], or [m * 2^e] with
    [m <= 2^-e]. *)
Definition SF_at_most_one (x : spec_float) : Prop :=
  match x with
  | S754_zero false => True
  | S754_finite false m e => e ≤ 0 ∧ Z.pos m ≤ 2 ^ (- e)
  | _ => False
  end.


(** [draw.CatmullRom.Scale] writes into the buffer [image.NewRGBA] allocated
    for the destination and leaves its length as it is: for the source
    [src], whatever size at least 1 by 1 is asked for. *)
Definition fills {Image : Type} (CatmullRom_Scale : Rectangle → Image → list byte)
    (src : Image) : Prop :=
  ∀ w h, 1 ≤ w → 1 ≤ h →
    length (CatmullRom_Scale (Rect 0 0 w h) src) = Z.to_nat (4 * w * h).


(** ** The states a search passes through *)

Section reaches.

Context {Image : Type}.
Variable Image_Bounds : Image → Rectangle.
Variable CatmullRom_Scale : Rectangle → Image → list byte.
Variable rt : Runtime.
Variable numCPU : positive.
Variable subsrc : Image.
Variable opts : Opts.

(** The states of the inner loop of one level, which starts with the
    running result [matches0]: the loop reaches the head of its body with
    the division [div] and the values [lastTopMatch], [matches] and
    [len(run.Subruns)] of its variables. *)
Inductive inner_reaches (img : RGBA) (imgWidth imgHeight : Z) (imgScale : float)
    (matches0 : Matches) : Z → float → Matches → nat → Prop :=
  | inner_reaches_first :
      inner_reaches img imgWidth imgHeight imgScale matches0 1 0%float matches0 0
  | inner_reaches_next div lastTopMatch matches subruns lastTopMatch' matches' subruns' :
      inner_reaches img imgWidth imgHeight imgScale matches0 div lastTopMatch matches subruns →
      div ≤ subMaxDiv opts →
      inner_body Image_Bounds CatmullRom_Scale rt numCPU subsrc opts
        img imgWidth imgHeight imgScale div lastTopMatch matches subruns
        = Some (Continue lastTopMatch' matches' subruns') →
      inner_reaches img imgWidth imgHeight imgScale matches0
        (wrap_int (div * 2)) lastTopMatch' matches' subruns'.

Variable imgsrc : Image.

(** The states of the outer loop: it reaches the level of width [imgWidth]
    with the running result [matches]. *)
Inductive outer_reaches : Z → Matches → Prop :=
  | outer_reaches_first : outer_reaches (imgMinWidth opts) []
  | outer_reaches_next imgWidth matches matches' :
      outer_reaches imgWidth matches →
      imgWidth ≤ imgMaxWidth opts →
      (∃ fuel,
         inner_loop Image_Bounds CatmullRom_Scale rt numCPU subsrc opts fuel
           (resizeImage Image_Bounds CatmullRom_Scale imgsrc imgWidth 0) imgWidth
           (Y (Max (Bounds (resizeImage Image_Bounds CatmullRom_Scale imgsrc imgWidth 0))))
           (PrimFloat.div (float64_of_int imgWidth)
              (float64_of_int (X (Max (Image_Bounds imgsrc)))))
           1 0%float matches 0 = Returns (matches', false)) →
      outer_reaches (wrap_int (imgWidth * 2)) matches'.

End reaches.

(** The options [findImage] runs its loops with: every option left at 0
    replaced by its default, and [imgMaxWidth] capped at the haystack's
    [Max.X]. *)
Definition effective_opts {Image : Type} (Image_Bounds : Image → Rectangle)
    (imgsrc : Image) (opts : Opts) : Opts :=
  let dflt (v d : Z) := if v =? 0 then d else v in
  let opts :=
    {| imgMinWidth := dflt (imgMinWidth opts) (imgMinWidth DEFAULT_OPTS);
       imgMaxWidth := dflt (imgMaxWidth opts) (imgMaxWidth DEFAULT_OPTS);
       subMinArea := dflt (subMinArea opts) (subMinArea DEFAULT_OPTS);
       subMaxDiv := dflt (subMaxDiv opts) (subMaxDiv DEFAULT_OPTS);
       opt_k := dflt (opt_k opts) (opt_k DEFAULT_OPTS) |} in
  if X (Max (Image_Bounds imgsrc)) <? imgMaxWidth opts
  then {| imgMinWidth := imgMinWidth opts;
          imgMaxWidth := X (Max (Image_Bounds imgsrc));
          subMinArea := subMinArea opts;
          subMaxDiv := subMaxDiv opts;
          opt_k := opt_k opts |}
  else opts.

(** A haystack and a needle of twice the size of [gradient_haystack] and
    [gradient_needle], every pixel of those doubled in both directions. *)
Definition coarse_haystack : RGBA := raster_of 16 16 (λ x y, gradient (x / 2) (y / 2)).

Definition coarse_needle : RGBA := raster_of 8 8 (λ x y, gradient (x / 2 + 2) (y / 2 + 2)).


(** ** Machine integer facts *)

Lemma u8_range b : 0 ≤ u8 b < 256.
Proof.
  unfold u8. pose proof (Byte.to_N_bounded b) as Hb.
  split; [apply N2Z.is_nonneg|]. apply N2Z.inj_le in Hb. simpl in Hb. lia.
Qed.

Lemma wrap_int32_small z : - 2 ^ 31 ≤ z < 2 ^ 31 → wrap_int32 z = z.
Proof. intros Hz. unfold wrap_int32. rewrite Z.mod_small; lia. Qed.

Lemma wrap_uint32_small z : 0 ≤ z < 2 ^ 32 → wrap_uint32 z = z.
Proof. intros Hz. unfold wrap_uint32. by rewrite Z.mod_small. Qed.

Lemma wrap_uint32_range z : 0 ≤ wrap_uint32 z < 2 ^ 32.
Proof. unfold wrap_uint32. apply Z.mod_pos_bound. lia. Qed.

Lemma wrap_uint32_add_l a b : wrap_uint32 (wrap_uint32 a + b) = wrap_uint32 (a + b).
Proof. unfold wrap_uint32. by rewrite Zplus_mod_idemp_l. Qed.

(** The branch-free absolute value on a difference of two bytes. *)
Lemma bitwiseAbsDiff_abs a b : bitwiseAbsDiff a b = Z.abs (u8 a - u8 b).
Proof.
  unfold bitwiseAbsDiff.
  pose proof (u8_range a) as Ha. pose proof (u8_range b) as Hb.
  set (d := u8 a - u8 b) in *.
  assert (Hd : -256 < d < 256) by (subst d; lia).
  rewrite (wrap_int32_small d) by lia.
  change (32 - 1) with 31. rewrite Z.shiftr_div_pow2 by lia.
  destruct (Z_lt_le_dec d 0) as [Hneg|Hpos].
  - assert (Hq : d / 2 ^ 31 = -1).
    { symmetry. apply (Z.div_unique d (2 ^ 31) (-1) (d + 2 ^ 31)); lia. }
    rewrite Hq. rewrite (wrap_int32_small (d + -1)) by lia.
    rewrite Z.lxor_m1_r. unfold Z.lnot.
    rewrite wrap_uint32_small by lia. lia.
  - rewrite Z.div_small by lia.
    rewrite Z.add_0_r, (wrap_int32_small d) by lia.
    rewrite Z.lxor_0_r. rewrite wrap_uint32_small by lia. lia.
Qed.

Lemma bitwiseAbsDiff_range a b : 0 ≤ bitwiseAbsDiff a b ≤ 255.
Proof.
  rewrite bitwiseAbsDiff_abs.
  pose proof (u8_range a). pose proof (u8_range b). lia.
Qed.

(** C10: for all bytes, [bitwiseAbsDiff] is the integer absolute difference;
    on two 3-byte slices [rgbAbsSumSliceBitwise] returns the exact sum of
    the three channel differences, which is at most 765. *)
Theorem C10_bitwise_abs_diff_exact :
  (∀ a b : byte, bitwiseAbsDiff a b = Z.abs (u8 a - u8 b)) ∧
  (∀ a0 a1 a2 b0 b1 b2 : byte,
     rgbAbsSumSliceBitwise [a0; a1; a2] [b0; b1; b2]
       = Some (Z.abs (u8 a0 - u8 b0) + Z.abs (u8 a1 - u8 b1) + Z.abs (u8 a2 - u8 b2))
     ∧ Z.abs (u8 a0 - u8 b0) + Z.abs (u8 a1 - u8 b1) + Z.abs (u8 a2 - u8 b2) ≤ 765).
Proof.
  split; [apply bitwiseAbsDiff_abs|].
  intros a0 a1 a2 b0 b1 b2.
  pose proof (bitwiseAbsDiff_range a0 b0). pose proof (bitwiseAbsDiff_range a1 b1).
  pose proof (bitwiseAbsDiff_range a2 b2).
  rewrite <- !bitwiseAbsDiff_abs. split; [|lia].
  unfold rgbAbsSumSliceBitwise. simpl.
  rewrite wrap_uint32_add_l, wrap_uint32_small by lia. done.
Qed.

(** ** Facts on loops and slices *)

Lemma foldM_app {S A : Type} (f : S → A → option S) (s : S) (l1 l2 : list A) :
  foldM f s (l1 ++ l2) = s' ← foldM f s l1; foldM f s' l2.
Proof.
  revert s. induction l1 as [|a l1 IH]; intros s; simpl; [done|].
  destruct (f s a) as [s'|]; simpl; [apply IH|done].
Qed.

(** A loop that adds [g a] to a [uint32] accumulator at every step. *)
Lemma foldM_uint32_sum {A : Type} (f : Z → A → option Z) (g : A → Z) (l : list A) (s : Z) :
  0 ≤ s < 2 ^ 32 →
  Forall (λ a, ∀ s', 0 ≤ s' < 2 ^ 32 → f s' a = Some (wrap_uint32 (s' + g a))) l →
  foldM f s l = Some (wrap_uint32 (s + Zsum (g <$> l))).
Proof.
  intros Hs Hl. revert s Hs.
  induction Hl as [|a l Ha Hl IH]; intros s Hs; simpl.
  - rewrite Z.add_0_r, wrap_uint32_small; done.
  - rewrite Ha by done. simpl. rewrite IH by apply wrap_uint32_range.
    rewrite wrap_uint32_add_l. f_equal. f_equal.
    rewrite <- Z.add_assoc. reflexivity.
Qed.

Lemma Zsum_cons (x : Z) (l : list Z) : Zsum (x :: l) = x + Zsum l.
Proof. reflexivity. Qed.

Lemma Zsum_bounds {A : Type} (g : A → Z) (c : Z) (l : list A) :
  Forall (λ a, 0 ≤ g a ≤ c) l →
  0 ≤ Zsum (g <$> l) ≤ c * Z.of_nat (length l).
Proof.
  induction 1 as [|a l Ha Hl IH]; [simpl; lia|].
  rewrite fmap_cons, Zsum_cons, length_cons. lia.
Qed.

Lemma Zsum_const {A : Type} (g : A → Z) (c : Z) (l : list A) :
  Forall (λ a, g a = c) l → Zsum (g <$> l) = c * Z.of_nat (length l).
Proof.
  induction 1 as [|a l Ha Hl IH]; [simpl; lia|].
  rewrite fmap_cons, Zsum_cons, length_cons. lia.
Qed.

Lemma index_Some {A : Type} (s : list A) (i : Z) :
  0 ≤ i < Z.of_nat (length s) → ∃ a, index s i = Some a.
Proof.
  intros Hi. unfold index.
  destruct (Z.leb_spec 0 i); [|lia].
  apply lookup_lt_is_Some_2. lia.
Qed.

Lemma slice3 (s : list byte) (i : Z) :
  0 ≤ i → i + 3 ≤ Z.of_nat (length s) →
  ∃ a0 a1 a2,
    slice s i (i + 3) = Some [a0; a1; a2] ∧
    index s (i + 0) = Some a0 ∧ index s (i + 1) = Some a1 ∧ index s (i + 2) = Some a2.
Proof.
  intros Hi Hlen. unfold slice.
  rewrite decide_True by lia.
  replace (i + 3 - i) with 3 by lia.
  destruct (lookup_lt_is_Some_2 s (Z.to_nat i)) as [a0 H0]; [lia|].
  destruct (lookup_lt_is_Some_2 s (S (Z.to_nat i))) as [a1 H1]; [lia|].
  destruct (lookup_lt_is_Some_2 s (S (S (Z.to_nat i)))) as [a2 H2]; [lia|].
  exists a0, a1, a2. split.
  - f_equal. change (Z.to_nat 3) with 3%nat.
    rewrite (drop_S _ _ _ H0). simpl.
    rewrite (drop_S _ _ _ H1). simpl.
    rewrite (drop_S _ _ _ H2). simpl. by rewrite take_0.
  - unfold index.
    destruct (Z.leb_spec 0 (i + 0)); [|lia].
    destruct (Z.leb_spec 0 (i + 1)); [|lia].
    destruct (Z.leb_spec 0 (i + 2)); [|lia].
    rewrite Z.add_0_r.
    replace (Z.to_nat (i + 1)) with (S (Z.to_nat i)) by lia.
    replace (Z.to_nat (i + 2)) with (S (S (Z.to_nat i))) by lia.
    done.
Qed.

(** Every pixel inside a well-formed raster has its four bytes in the
    buffer. *)
Lemma PixOffset_in_range (p : RGBA) (x y : Z) :
  well_formed p →
  X (Min (Bounds p)) ≤ x < X (Max (Bounds p)) →
  Y (Min (Bounds p)) ≤ y < Y (Max (Bounds p)) →
  0 ≤ PixOffset p x y ∧ PixOffset p x y + 4 ≤ Z.of_nat (length (Pix p)).
Proof.
  intros [Hdx Hdy Hst Hlen] Hx Hy.
  unfold PixOffset. rewrite Hst, Hlen. unfold Dx, Dy in *.
  set (W := X (Max (Bounds p)) - X (Min (Bounds p))) in *.
  set (u := x - X (Min (Bounds p))). set (v := y - Y (Min (Bounds p))).
  assert (0 ≤ u < W) by (subst u W; lia).
  assert (0 ≤ v ∧ v + 1 ≤ Y (Max (Bounds p)) - Y (Min (Bounds p))) as [Hv0 Hv1]
    by (subst v; lia).
  split; [nia|].
  assert (v * (4 * W) + 4 * W ≤ 4 * W * (Y (Max (Bounds p)) - Y (Min (Bounds p)))) by nia.
  lia.
Qed.

(** One step of the inner loop of [sumOfAbsDiffRGBA]. *)
Lemma sumOfAbsDiffRGBA_pixel (img subimg : RGBA) (x y nx ny s : Z) :
  well_formed img → well_formed subimg →
  placed_within img x y subimg →
  0 ≤ nx < Dx (Bounds subimg) → 0 ≤ ny < Dy (Bounds subimg) →
  (let b := Bounds subimg in
   let i := PixOffset img (x + nx) (y + ny) in
   let j := PixOffset subimg (X (Min b) + nx) (Y (Min b) + ny) in
   ip ← slice (Pix img) i (i + 3);
   sp ← slice (Pix subimg) j (j + 3);
   d ← rgbAbsSumSliceBitwise ip sp;
   Some (wrap_uint32 (s + d)))
  = Some (wrap_uint32 (s + pixel_abs_diff img x y subimg nx ny)).
Proof.
  intros Himg Hsub (Hx0 & Hx1 & Hy0 & Hy1) Hnx Hny. cbv zeta.
  destruct (PixOffset_in_range img (x + nx) (y + ny) Himg) as [Hi0 Hi1];
    [unfold Dx in *; lia | unfold Dy in *; lia |].
  destruct (PixOffset_in_range subimg (X (Min (Bounds subimg)) + nx)
              (Y (Min (Bounds subimg)) + ny) Hsub) as [Hj0 Hj1];
    [unfold Dx in *; lia | unfold Dy in *; lia |].
  destruct (slice3 (Pix img) _ Hi0) as (a0 & a1 & a2 & -> & Ha0 & Ha1 & Ha2); [lia|].
  destruct (slice3 (Pix subimg) _ Hj0) as (b0 & b1 & b2 & -> & Hb0 & Hb1 & Hb2); [lia|].
  simpl.
  unfold pixel_abs_diff, channel. simpl.
  rewrite Ha0, Ha1, Ha2, Hb0, Hb1, Hb2. simpl.
  pose proof (bitwiseAbsDiff_range a0 b0). pose proof (bitwiseAbsDiff_range a1 b1).
  pose proof (bitwiseAbsDiff_range a2 b2).
  rewrite wrap_uint32_add_l, (wrap_uint32_small (_ + _ + _)) by lia.
  rewrite !bitwiseAbsDiff_abs. do 2 f_equal. lia.
Qed.

Lemma channel_range (p : RGBA) (x y c : Z) : 0 ≤ channel p x y c < 256.
Proof.
  unfold channel. destruct (index _ _) as [b|]; simpl; [apply u8_range|lia].
Qed.

Lemma pixel_abs_diff_range (haystack : RGBA) (hx hy : Z) (needle : RGBA) (nx ny : Z) :
  0 ≤ pixel_abs_diff haystack hx hy needle nx ny ≤ 765.
Proof.
  unfold pixel_abs_diff. cbv zeta. simpl.
  repeat match goal with
         | |- context [channel ?p ?x ?y ?c] =>
             let H := fresh in
             pose proof (channel_range p x y c) as H;
             generalize dependent (channel p x y c); intros
         end.
  lia.
Qed.

Lemma patch_abs_diff_range (haystack : RGBA) (hx hy : Z) (needle : RGBA) :
  0 ≤ Dx (Bounds needle) → 0 ≤ Dy (Bounds needle) →
  0 ≤ patch_abs_diff haystack hx hy needle
    ≤ Dx (Bounds needle) * Dy (Bounds needle) * 765.
Proof.
  intros Hw Hh. unfold patch_abs_diff. cbv zeta.
  pose proof (Zsum_bounds
    (λ ny, Zsum ((λ nx, pixel_abs_diff haystack hx hy needle nx ny)
                   <$> seqZ 0 (Dx (Bounds needle))))
    (765 * Dx (Bounds needle)) (seqZ 0 (Dy (Bounds needle)))) as Hrows.
  rewrite length_seqZ in Hrows.
  assert (Hall : Forall (λ ny, 0 ≤ Zsum ((λ nx, pixel_abs_diff haystack hx hy needle nx ny)
                   <$> seqZ 0 (Dx (Bounds needle))) ≤ 765 * Dx (Bounds needle))
                  (seqZ 0 (Dy (Bounds needle)))).
  { apply Forall_forall. intros ny _.
    pose proof (Zsum_bounds (λ nx, pixel_abs_diff haystack hx hy needle nx ny) 765
                  (seqZ 0 (Dx (Bounds needle)))) as Hrow.
    rewrite length_seqZ in Hrow.
    assert (Forall (λ nx, 0 ≤ pixel_abs_diff haystack hx hy needle nx ny ≤ 765)
              (seqZ 0 (Dx (Bounds needle)))) as Hpx
      by (apply Forall_forall; intros; apply pixel_abs_diff_range).
    specialize (Hrow Hpx). lia. }
  specialize (Hrows Hall). nia.
Qed.

(** [sumOfAbsDiffRGBA] never panics on a needle that lies within the
    haystack, and returns the specified sum reduced modulo [2^32]. *)
Lemma sumOfAbsDiffRGBA_wraps (img : RGBA) (x y : Z) (subimg : RGBA) :
  well_formed img → well_formed subimg → placed_within img x y subimg →
  sumOfAbsDiffRGBA img x y subimg = Some (wrap_uint32 (patch_abs_diff img x y subimg)).
Proof.
  intros Himg Hsub Hin. unfold sumOfAbsDiffRGBA, patch_abs_diff. cbv zeta.
  erewrite (foldM_uint32_sum _
    (λ ny, Zsum ((λ nx, pixel_abs_diff img x y subimg nx ny) <$> seqZ 0 (Dx (Bounds subimg))))).
  - by rewrite Z.add_0_l.
  - lia.
  - apply Forall_forall. intros ny Hny%elem_of_seqZ s Hs.
    apply foldM_uint32_sum; [done|].
    apply Forall_forall. intros nx Hnx%elem_of_seqZ s' _.
    apply sumOfAbsDiffRGBA_pixel; try done; lia.
Qed.

(** ** Uniform rasters *)

Lemma uniform_well_formed (c : byte) (w h : Z) : 0 ≤ w → 0 ≤ h → well_formed (uniform c w h).
Proof.
  intros Hw Hh. split; unfold uniform, Dx, Dy; simpl; try lia.
  rewrite length_replicate. nia.
Qed.

Lemma uniform_channel (a : byte) (w h x y c : Z) :
  0 ≤ x < w → 0 ≤ y < h → 0 ≤ c < 4 → channel (uniform a w h) x y c = u8 a.
Proof.
  intros Hx Hy Hc.
  destruct (PixOffset_in_range (uniform a w h) x y) as [H0 H1];
    [apply uniform_well_formed; lia | simpl; lia | simpl; lia |].
  unfold channel, index.
  destruct (Z.leb_spec 0 (PixOffset (uniform a w h) x y + c)); [|lia].
  cbn [Pix uniform] in *. rewrite length_replicate in H1.
  rewrite lookup_replicate_2 by lia. done.
Qed.

Lemma uniform_patch_abs_diff (a b : byte) (W H w h x y : Z) :
  0 ≤ x → 0 ≤ y → 0 ≤ w → 0 ≤ h → x + w ≤ W → y + h ≤ H →
  patch_abs_diff (uniform a W H) x y (uniform b w h) = w * h * (3 * Z.abs (u8 a - u8 b)).
Proof.
  intros Hx Hy Hw Hh HW HH. unfold patch_abs_diff. cbv zeta.
  change (Dx (Bounds (uniform b w h))) with (w - 0).
  change (Dy (Bounds (uniform b w h))) with (h - 0).
  rewrite !Z.sub_0_r.
  rewrite (Zsum_const _ (w * (3 * Z.abs (u8 a - u8 b)))).
  { rewrite length_seqZ. nia. }
  apply Forall_forall. intros ny Hny%elem_of_seqZ.
  rewrite (Zsum_const _ (3 * Z.abs (u8 a - u8 b))).
  { rewrite length_seqZ. nia. }
  apply Forall_forall. intros nx Hnx%elem_of_seqZ.
  unfold pixel_abs_diff. cbv zeta. cbn [fmap list_fmap Zsum foldr].
  change (X (Min (Bounds (uniform b w h)))) with 0.
  change (Y (Min (Bounds (uniform b w h)))) with 0.
  rewrite !(uniform_channel a W H) by lia.
  rewrite !(uniform_channel b w h) by lia.
  lia.
Qed.

(** ** The difference metric against its specification *)

(** C5 (amended): for every well-formed haystack and needle with the needle
    placed within the haystack, [sumOfAbsDiffRGBA] returns the sum, over
    every needle pixel, of the absolute R, G and B differences reduced
    modulo [2^32]; it is that sum itself whenever
    [needleW * needleH * 765 < 2^32]. *)
Theorem C5_sumOfAbsDiffRGBA_sum_mod_2_32 (haystack : RGBA) (hx hy : Z) (needle : RGBA) :
  well_formed haystack → well_formed needle → placed_within haystack hx hy needle →
  sumOfAbsDiffRGBA haystack hx hy needle
    = Some (patch_abs_diff haystack hx hy needle mod 2 ^ 32) ∧
  (Dx (Bounds needle) * Dy (Bounds needle) * 765 < 2 ^ 32 →
   sumOfAbsDiffRGBA haystack hx hy needle = Some (patch_abs_diff haystack hx hy needle)).
Proof.
  intros Hh Hn Hin.
  rewrite (sumOfAbsDiffRGBA_wraps _ _ _ _ Hh Hn Hin). split; [done|].
  intros Hsmall. f_equal. apply wrap_uint32_small.
  pose proof (patch_abs_diff_range haystack hx hy needle (wf_dx _ Hn) (wf_dy _ Hn)). lia.
Qed.

Lemma C5_sumOfAbsDiffRGBA_sum_mod_2_32_witness :
  let haystack := raster 2 2 [x0a; x14; x1e; xff;  x00; x00; x00; xff;
                              x05; x05; x05; xff;  xc8; x64; x32; xff] in
  let needle := raster 1 1 [xc9; x60; x32; x00] in
  well_formed haystack ∧ well_formed needle ∧ placed_within haystack 1 1 needle ∧
  sumOfAbsDiffRGBA haystack 1 1 needle = Some (patch_abs_diff haystack 1 1 needle mod 2 ^ 32) ∧
  (Dx (Bounds needle) * Dy (Bounds needle) * 765 < 2 ^ 32 →
   sumOfAbsDiffRGBA haystack 1 1 needle = Some (patch_abs_diff haystack 1 1 needle)).
Proof.
  intros haystack needle.
  assert (Hh : well_formed haystack) by (split; vm_compute; congruence).
  assert (Hn : well_formed needle) by (split; vm_compute; congruence).
  assert (Hin : placed_within haystack 1 1 needle) by (vm_compute; intuition congruence).
  split; [exact Hh|]. split; [exact Hn|]. split; [exact Hin|].
  exact (C5_sumOfAbsDiffRGBA_sum_mod_2_32 haystack 1 1 needle Hh Hn Hin).
Defined.

(** C5, as stated, fails on a needle of 5614337 white pixels over a black
    haystack: the exact sum is [5614337 * 765 = 4294967805], which does not
    fit the [uint32] accumulator, and the function returns 509. *)
Lemma C5_counterexample_uint32_wraps :
  let haystack := uniform x00 5614337 1 in
  let needle := uniform xff 5614337 1 in
  well_formed haystack ∧ well_formed needle ∧ placed_within haystack 0 0 needle ∧
  patch_abs_diff haystack 0 0 needle = 4294967805 ∧
  sumOfAbsDiffRGBA haystack 0 0 needle = Some 509 ∧
  sumOfAbsDiffRGBA haystack 0 0 needle ≠ Some (patch_abs_diff haystack 0 0 needle).
Proof.
  intros haystack needle.
  assert (Hh : well_formed haystack) by (apply uniform_well_formed; lia).
  assert (Hn : well_formed needle) by (apply uniform_well_formed; lia).
  assert (Hin : placed_within haystack 0 0 needle).
  { unfold placed_within, Dx, Dy, haystack, needle, uniform. cbn [Bounds Min Max X Y]. lia. }
  assert (Hsum : patch_abs_diff haystack 0 0 needle = 4294967805).
  { unfold haystack, needle. rewrite uniform_patch_abs_diff by lia. reflexivity. }
  assert (Hcode : sumOfAbsDiffRGBA haystack 0 0 needle = Some 509).
  { rewrite (sumOfAbsDiffRGBA_wraps _ _ _ _ Hh Hn Hin), Hsum. reflexivity. }
  refine (conj Hh (conj Hn (conj Hin (conj Hsum (conj Hcode _))))).
  rewrite Hcode, Hsum. congruence.
Qed.

(** ** The worst-replacement scan *)

Lemma index_lookup {A : Type} (s : list A) (i : nat) : index s (Z.of_nat i) = s !! i.
Proof. unfold index. destruct (Z.leb_spec 0 (Z.of_nat i)); [|lia]. by rewrite Nat2Z.id. Qed.

(** The search loop returns the lowest index of a largest sum among the
    first [n + 1] entries. *)
Lemma maxDiffIndex_prefix (minSums : list Z) (n : nat) :
  (n < length minSums)%nat →
  ∃ (i : nat) (w : Z),
    foldM (λ maxDiffIndex i,
             a ← index minSums i;
             b ← index minSums maxDiffIndex;
             Some (if b <? a then i else maxDiffIndex)) 0 (seqZ 1 (Z.of_nat n))
      = Some (Z.of_nat i) ∧
    (i ≤ n)%nat ∧ minSums !! i = Some w ∧
    (∀ (j : nat) v, (j ≤ n)%nat → minSums !! j = Some v → v ≤ w) ∧
    (∀ (j : nat) v, (j < i)%nat → minSums !! j = Some v → v < w).
Proof.
  induction n as [|n IH]; intros Hn.
  - destruct (lookup_lt_is_Some_2 minSums 0%nat) as [w Hw]; [lia|].
    exists 0%nat, w. simpl. repeat split; try done; try lia.
    intros j v Hj Hv. replace j with 0%nat in Hv by lia. naive_solver lia.
  - destruct IH as (i & w & Hfold & Hi & Hw & Hmax & Hfirst); [lia|].
    destruct (lookup_lt_is_Some_2 minSums (S n)) as [a Ha]; [lia|].
    rewrite seqZ_S, foldM_app, Hfold. simpl.
    replace (1 + Z.of_nat n) with (Z.of_nat (S n)) by lia.
    rewrite !index_lookup, Ha, Hw. simpl.
    destruct (Z.ltb_spec w a) as [Hlt|Hge].
    + exists (S n), a. repeat split; try done.
      * intros j v Hj Hv. destruct (decide (j = S n)) as [->|Hne]; [naive_solver lia|].
        assert (v ≤ w) by (apply (Hmax j); [lia|done]). lia.
      * intros j v Hj Hv. assert (v ≤ w) by (apply (Hmax j); [lia|done]). lia.
    + exists i, w. repeat split; try done; [lia|].
      intros j v Hj Hv. destruct (decide (j = S n)) as [->|Hne]; [naive_solver lia|].
      apply (Hmax j); [lia|done].
Qed.

Lemma maxDiffIndex_first_max (k : Z) (minSums : list Z) :
  1 ≤ k → Z.of_nat (length minSums) = k →
  ∃ (i : nat) (w : Z),
    maxDiffIndex k minSums = Some (Z.of_nat i) ∧ minSums !! i = Some w ∧
    (∀ (j : nat) v, minSums !! j = Some v → v ≤ w) ∧
    (∀ (j : nat) v, (j < i)%nat → minSums !! j = Some v → v < w).
Proof.
  intros Hk Hlen. unfold maxDiffIndex.
  destruct (maxDiffIndex_prefix minSums (Z.to_nat (k - 1))) as (i & w & Hf & Hi & Hw & Hmax & Hfirst);
    [lia|].
  rewrite Z2Nat.id in Hf by lia.
  exists i, w. repeat split; try done.
  intros j v Hv. apply (Hmax j); [|done].
  apply lookup_lt_Some in Hv. lia.
Qed.

(** What one step of the scan does to a list of retained offsets. *)
Lemma topk_step_policy (k : Z) (retained : list (Rectangle * Z)) (bounds : Rectangle) (sum : Z) :
  1 ≤ k → Z.of_nat (length retained) ≤ k →
  (Z.of_nat (length retained) < k →
   topk_step k (candidate <$> retained, snd <$> retained) bounds sum
     = Some (candidate <$> (retained ++ [(bounds, sum)]),
             snd <$> (retained ++ [(bounds, sum)]))) ∧
  (Z.of_nat (length retained) = k →
   ∃ (i : nat) (worst : Rectangle * Z),
     retained !! i = Some worst ∧
     (∀ r, r ∈ retained → r.2 ≤ worst.2) ∧
     (∀ (j : nat) r, (j < i)%nat → retained !! j = Some r → r.2 < worst.2) ∧
     topk_step k (candidate <$> retained, snd <$> retained) bounds sum
       = Some (if sum <? worst.2
               then (candidate <$> <[i := (bounds, sum)]> retained,
                     snd <$> <[i := (bounds, sum)]> retained)
               else (candidate <$> retained, snd <$> retained))).
Proof.
  intros Hk Hlen. split.
  - intros Hlt. unfold topk_step. rewrite length_fmap.
    destruct (Z.ltb_spec (Z.of_nat (length retained)) k); [|lia].
    by rewrite !fmap_app.
  - intros Hfull. unfold topk_step. rewrite length_fmap.
    destruct (Z.ltb_spec (Z.of_nat (length retained)) k); [lia|].
    destruct (maxDiffIndex_first_max k (snd <$> retained)) as (i & w & -> & Hw & Hmax & Hfirst);
      [done | by rewrite length_fmap |].
    rewrite list_lookup_fmap in Hw.
    destruct (retained !! i) as [worst|] eqn:Hworst; [|done].
    simpl in Hw. injection Hw as <-.
    exists i, worst. split; [done|]. split; [|split].
    + intros r [j Hj]%list_elem_of_lookup. apply (Hmax j).
      by rewrite list_lookup_fmap, Hj.
    + intros j r Hj Hr. apply (Hfirst j); [done|].
      by rewrite list_lookup_fmap, Hr.
    + simpl. rewrite !index_lookup, !list_lookup_fmap, Hworst. simpl.
      rewrite Nat2Z.id.
      destruct (Z.ltb_spec sum worst.2); [|done].
      by rewrite !list_fmap_insert.
Qed.

Lemma topk_scan_snoc (k : Z) (seen : list (Rectangle * Z)) (bounds : Rectangle) (sum : Z)
    (st : list Match * list Z) :
  topk_scan k seen = Some st →
  topk_scan k (seen ++ [(bounds, sum)]) = topk_step k st bounds sum.
Proof.
  unfold topk_scan. intros Hst. rewrite foldM_app, Hst. simpl.
  by destruct (topk_step k st bounds sum).
Qed.

(** The retained offsets are a choice of the [min k n] smallest sums among
    the [n] offsets seen. *)
Lemma topk_scan_invariant (k : Z) (seen : list (Rectangle * Z)) :
  1 ≤ k →
  ∃ retained dropped : list (Rectangle * Z),
    topk_scan k seen = Some (candidate <$> retained, snd <$> retained) ∧
    Z.of_nat (length retained) = Z.min k (Z.of_nat (length seen)) ∧
    retained ++ dropped ≡ₚ seen ∧
    (∀ r d, r ∈ retained → d ∈ dropped → r.2 ≤ d.2).
Proof.
  intros Hk. induction seen as [|o seen IH] using rev_ind.
  - exists [], []. split; [done|]. split; [simpl; lia|]. split; [done|].
    intros r d Hr. by apply elem_of_nil in Hr.
  - destruct IH as (retained & dropped & Hscan & Hlen & Hperm & Hord).
    destruct o as [b s].
    rewrite (topk_scan_snoc _ _ _ _ _ Hscan).
    assert (Hcount : (length retained + length dropped = length seen)%nat).
    { rewrite <- length_app. by rewrite Hperm. }
    destruct (topk_step_policy k retained b s Hk) as [Hgrow Hfull]; [lia|].
    destruct (Z_lt_le_dec (Z.of_nat (length retained)) k) as [Hlt|Hge].
    + exists (retained ++ [(b, s)]), dropped.
      assert (dropped = []) as -> by (apply nil_length_inv; lia).
      rewrite Hgrow by done.
      repeat split.
      * rewrite !length_app. simpl. lia.
      * rewrite !app_nil_r in *. by rewrite Hperm.
      * intros r d _ Hd. by apply elem_of_nil in Hd.
    + destruct Hfull as (i & worst & Hworst & Hmax & _ & Hstep); [lia|].
      rewrite Hstep. rewrite length_app. cbn [length].
      destruct (Z.ltb_spec s worst.2) as [Hless|Hnot].
      * exists (<[i := (b, s)]> retained), (worst :: dropped).
        split; [done|]. split; [rewrite length_insert; lia|].
        pose proof (lookup_lt_Some _ _ _ Hworst) as Hi.
        split.
        -- rewrite insert_take_drop by done. rewrite <- Hperm.
           pose proof (take_drop_middle retained i worst Hworst) as Hmid.
           revert Hmid. generalize (take i retained), (drop (S i) retained).
           intros A B <-. solve_Permutation.
        -- intros r d Hr Hd.
           assert (Hr' : r = (b, s) ∨ r ∈ retained).
           { rewrite insert_take_drop in Hr by done.
             apply elem_of_app in Hr as [Hr|Hr]; [right; by eapply subseteq_take|].
             apply elem_of_cons in Hr as [->|Hr]; [by left|right; by eapply subseteq_drop]. }
           assert (Hw : worst ∈ retained) by (by eapply list_elem_of_lookup_2).
           apply elem_of_cons in Hd as [->|Hd]; destruct Hr' as [->|Hr']; simpl.
           ++ lia.
           ++ by apply Hmax.
           ++ specialize (Hord worst d Hw Hd). lia.
           ++ by apply Hord.
      * exists retained, ((b, s) :: dropped).
        split; [done|]. split; [lia|]. split.
        -- rewrite <- Hperm. solve_Permutation.
        -- intros r d Hr Hd.
           apply elem_of_cons in Hd as [->|Hd]; [|by apply Hord].
           specialize (Hmax r Hr). simpl. lia.
Qed.

(** C4 (amended): in a scan pass with cap [k ≥ 1], after any sequence
    [seen] of offsets the candidate list holds [min k (length seen)] of
    them, every sum seen and not retained is at least every retained sum
    (so the list holds the k smallest raw sums as a multiset), and the next
    offset is appended while the list is short and otherwise replaces the
    lowest-index entry of largest sum exactly when its own sum is strictly
    smaller.  Which of several equal sums is retained is not fixed by the
    order in which they were seen. *)
Theorem C4_worst_replacement_keeps_k_smallest (k : Z) (seen : list (Rectangle * Z)) :
  1 ≤ k →
  ∃ retained dropped : list (Rectangle * Z),
    topk_scan k seen = Some (candidate <$> retained, snd <$> retained) ∧
    Z.of_nat (length retained) = Z.min k (Z.of_nat (length seen)) ∧
    retained ++ dropped ≡ₚ seen ∧
    (∀ r d, r ∈ retained → d ∈ dropped → r.2 ≤ d.2) ∧
    (∀ bounds sum,
       (Z.of_nat (length retained) < k →
        topk_scan k (seen ++ [(bounds, sum)])
          = Some (candidate <$> (retained ++ [(bounds, sum)]),
                  snd <$> (retained ++ [(bounds, sum)]))) ∧
       (Z.of_nat (length retained) = k →
        ∃ (i : nat) (worst : Rectangle * Z),
          retained !! i = Some worst ∧
          (∀ r, r ∈ retained → r.2 ≤ worst.2) ∧
          (∀ (j : nat) r, (j < i)%nat → retained !! j = Some r → r.2 < worst.2) ∧
          topk_scan k (seen ++ [(bounds, sum)])
            = Some (if sum <? worst.2
                    then (candidate <$> <[i := (bounds, sum)]> retained,
                          snd <$> <[i := (bounds, sum)]> retained)
                    else (candidate <$> retained, snd <$> retained)))).
Proof.
  intros Hk.
  destruct (topk_scan_invariant k seen Hk) as (retained & dropped & Hscan & Hlen & Hperm & Hord).
  exists retained, dropped. repeat (split; [done|]).
  intros bounds sum. rewrite (topk_scan_snoc _ _ _ _ _ Hscan).
  apply topk_step_policy; lia.
Qed.

Lemma C4_worst_replacement_keeps_k_smallest_witness :
  let seen := [(Rect 0 0 1 1, 5); (Rect 1 0 2 1, 5); (Rect 2 0 3 1, 1)] in
  1 ≤ 2 ∧
  ∃ retained dropped : list (Rectangle * Z),
    topk_scan 2 seen = Some (candidate <$> retained, snd <$> retained) ∧
    retained ++ dropped ≡ₚ seen ∧
    (∀ r d, r ∈ retained → d ∈ dropped → r.2 ≤ d.2).
Proof.
  intros seen.
  assert (Hk : 1 ≤ 2) by lia.
  split; [exact Hk|].
  destruct (C4_worst_replacement_keeps_k_smallest 2 seen Hk)
    as (retained & dropped & Hscan & _ & Hperm & Hord & _).
  exists retained, dropped. exact (conj Hscan (conj Hperm Hord)).
Defined.

(** C4, as stated, fails on a haystack row whose first three offsets have
    the raw sums 5, 5 and 1: with [k = 2] the scan ends with the offsets
    [(2,0)] and [(1,0)], so of the two offsets of sum 5 it keeps the one
    seen later. *)
Lemma C4_counterexample_later_tie_retained :
  let haystack := raster 4 2 [x05; x00; x00; xff;  x05; x00; x00; xff;
                              x01; x00; x00; xff;  x09; x09; x09; xff;
                              x00; x00; x00; xff;  x00; x00; x00; xff;
                              x00; x00; x00; xff;  x00; x00; x00; xff] in
  let needle := raster 1 1 [x00; x00; x00; xff] in
  let seen := [(Rect 0 0 1 1, 5); (Rect 1 0 2 1, 5); (Rect 2 0 3 1, 1)] in
  let retained := [(Rect 2 0 3 1, 1); (Rect 1 0 2 1, 5)] in
  sumOfAbsDiffRGBA haystack 0 0 needle = Some 5 ∧
  sumOfAbsDiffRGBA haystack 1 0 needle = Some 5 ∧
  sumOfAbsDiffRGBA haystack 2 0 needle = Some 1 ∧
  scan_region haystack needle 2 1 1 0 3 0 1
    = Some (candidate <$> retained, snd <$> retained) ∧
  topk_scan 2 seen = Some (candidate <$> retained, snd <$> retained) ∧
  ¬ earliest_seen_preferred seen retained.
Proof.
  intros haystack needle seen retained.
  repeat (split; [vm_compute; reflexivity|]).
  intros Hpref.
  specialize (Hpref 0%nat 1%nat (Rect 0 0 1 1, 5) (Rect 1 0 2 1, 5)).
  assert (Hin : (Rect 0 0 1 1, 5) ∈ retained)
    by (apply Hpref; [lia | done | done | done | by right; left]).
  unfold retained in Hin. vm_compute in Hin.
  repeat (apply elem_of_cons in Hin as [Hin|Hin]; [discriminate Hin|]).
  by apply elem_of_nil in Hin.
Qed.

(** ** The per-scale matcher on needles that leave few or no offsets *)

(** C1: a needle exactly as large as the haystack leaves no offset, yet
    [convolutionTopKParallel] returns one match, the zero value of its
    backing array normalised to score 1, where the sequential
    [convolutionTopK] returns the empty list; on a needle larger than the
    haystack both panic on a negative buffer offset. *)
Theorem C1_no_fit_is_not_empty :
  let haystack := uniform x00 2 2 in
  let needle := uniform xff 2 2 in
  let small := uniform x00 1 1 in
  convolutionTopKParallel in_order 4 haystack needle 1
    = Some [mkMatch (mkRectangle (mkPoint 0 0) (mkPoint 0 0)) 1%float] ∧
  convolutionTopK in_order haystack needle 1 = Some [] ∧
  convolutionTopKParallel in_order 4 small needle 1 = None ∧
  convolutionTopK in_order small needle 1 = None.
Proof. vm_compute. done. Qed.

(** C2: with the default [k = 6], an 8 by 8 haystack and a 6 by 6 needle
    there are four offsets; [convolutionTopKParallel] returns six matches,
    the last two with the empty rectangle [(0,0)-(0,0)], which is no offset
    rectangle of the needle. *)
Theorem C2_padding_rectangles_returned :
  let haystack := uniform x00 8 8 in
  let needle := uniform x00 6 6 in
  ∃ genuine : list Match,
    convolutionTopKParallel in_order 4 haystack needle 6
      = Some (genuine ++ [mkMatch (mkRectangle (mkPoint 0 0) (mkPoint 0 0)) 1%float;
                          mkMatch (mkRectangle (mkPoint 0 0) (mkPoint 0 0)) 1%float]) ∧
    length genuine = 4%nat ∧
    Forall (λ m, Dx (m_Bounds m) = 6 ∧ Dy (m_Bounds m) = 6 ∧
                 0 ≤ X (Min (m_Bounds m)) < 8 - 6 ∧ 0 ≤ Y (Min (m_Bounds m)) < 8 - 6) genuine.
Proof.
  exists [mkMatch (Rect 0 0 6 6) 1%float; mkMatch (Rect 1 0 7 6) 1%float;
          mkMatch (Rect 0 1 6 7) 1%float; mkMatch (Rect 1 1 7 7) 1%float].
  split; [vm_compute; reflexivity|]. split; [reflexivity|].
  repeat constructor; vm_compute; congruence.
Qed.

(** ** The text and the JSON output *)

(** C9: for the first match of the README, a 101 by 101 rectangle at
    (271, 108), [main] prints the corner (372, 209) in the last two
    columns, where the README documents the width and the height; the JSON
    value carries [w] and [h]. *)
Theorem C9_text_line_prints_max_corner :
  let m := mkMatch (mkRectangle (mkPoint 271 108) (mkPoint 372 209)) 0.931879%float in
  text_line m = fmt.cat "0.931879  271  108  372  209"%string fmt.newline ∧
  documented_text_line m = fmt.cat "0.931879  271  108  101  101"%string fmt.newline ∧
  Match_MarshalJSON m =
    JObject [("bounds"%string,
              JObject [("x"%string, JInt 271); ("y"%string, JInt 108);
                       ("w"%string, JInt 101); ("h"%string, JInt 101)]);
             ("match"%string, JFloat 0.931879%float)].
Proof. vm_compute. done. Qed.

(** ** The early stop of the pyramid driver *)

Section early_stop.

Context {Image : Type}.
Variable Image_Bounds : Image → Rectangle.
Variable CatmullRom_Scale : Rectangle → Image → list byte.
Variable rt : Runtime.
Variable numCPU : positive.
Variable subsrc imgsrc : Image.
Variable opts : Opts.

Local Abbreviation resize := (resizeImage Image_Bounds CatmullRom_Scale).
Local Abbreviation body := (inner_body Image_Bounds CatmullRom_Scale rt numCPU subsrc opts).
Local Abbreviation inner := (inner_loop Image_Bounds CatmullRom_Scale rt numCPU subsrc opts).
Local Abbreviation outer := (outer_loop Image_Bounds CatmullRom_Scale rt numCPU subsrc opts imgsrc).
Local Abbreviation step_at :=
  (step_matches Image_Bounds CatmullRom_Scale rt numCPU subsrc opts).

Lemma inner_body_step (img : RGBA) (imgWidth imgHeight : Z) (imgScale : float) (div : Z)
    (divMatches : Matches) (divTopMatch : Match)
    (lastTopMatch : float) (matches : Matches) (subruns : nat) :
  step_at img imgWidth imgHeight imgScale div divMatches divTopMatch →
  body img imgWidth imgHeight imgScale div lastTopMatch matches subruns =
    if PrimFloat.ltb (m_Match divTopMatch) lastTopMatch
    then (if (S subruns <? 2)%nat then None else Some (Done matches))
    else Some (Continue (m_Match divTopMatch)
                 (Matches_Scale divMatches (PrimFloat.div 1%float imgScale)) (S subruns)).
Proof.
  unfold step_matches, inner_body.
  destruct (sub_size Image_Bounds subsrc imgScale div) as [sw sh].
  intros (-> & -> & Htop). simpl.
  destruct divMatches as [|m ms]; [done|].
  simpl in Htop. injection Htop as ->. simpl. done.
Qed.

End early_stop.

Section early_stop_run.

Context {Image : Type}.
Variable Image_Bounds : Image → Rectangle.
Variable CatmullRom_Scale : Rectangle → Image → list byte.
Variable rt : Runtime.
Variable numCPU : positive.
Variable subsrc imgsrc : Image.
Variable opts : Opts.

Local Abbreviation resize := (resizeImage Image_Bounds CatmullRom_Scale).
Local Abbreviation body := (inner_body Image_Bounds CatmullRom_Scale rt numCPU subsrc opts).
Local Abbreviation inner := (inner_loop Image_Bounds CatmullRom_Scale rt numCPU subsrc opts).
Local Abbreviation outer := (outer_loop Image_Bounds CatmullRom_Scale rt numCPU subsrc opts imgsrc).
Local Abbreviation step_at :=
  (step_matches Image_Bounds CatmullRom_Scale rt numCPU subsrc opts).
Local Abbreviation reaches_inner :=
  (inner_reaches Image_Bounds CatmullRom_Scale rt numCPU subsrc opts).
Local Abbreviation reaches_outer :=
  (outer_reaches Image_Bounds CatmullRom_Scale rt numCPU subsrc opts imgsrc).

(** A loop that ended within its bound ends in the same way with a larger
    one. *)
Lemma inner_loop_more_fuel (fuel : nat) :
  ∀ (fuel' : nat) (img : RGBA) (imgWidth imgHeight : Z) (imgScale : float) (div : Z)
    (lastTopMatch : float) (matches : Matches) (subruns : nat),
    (fuel ≤ fuel')%nat →
    inner fuel img imgWidth imgHeight imgScale div lastTopMatch matches subruns ≠ OutOfFuel →
    inner fuel' img imgWidth imgHeight imgScale div lastTopMatch matches subruns
      = inner fuel img imgWidth imgHeight imgScale div lastTopMatch matches subruns.
Proof.
  induction fuel as [|fuel IH]; intros fuel' img w h s div last ms sr Hle Hne; [done|].
  destruct fuel' as [|fuel']; [lia|]. cbn [inner_loop] in *.
  destruct (subMaxDiv opts <? div); [done|].
  destruct (body img w h s div last ms sr) as [[last' ms' sr'|ms'|ms']|]; try done.
  apply IH; [lia|done].
Qed.

Lemma outer_loop_more_fuel (fuel : nat) :
  ∀ (fuel' : nat) (imgWidth : Z) (matches : Matches),
    (fuel ≤ fuel')%nat → outer fuel imgWidth matches ≠ OutOfFuel →
    outer fuel' imgWidth matches = outer fuel imgWidth matches.
Proof.
  induction fuel as [|fuel IH]; intros fuel' w ms Hle Hne; [done|].
  destruct fuel' as [|fuel']; [lia|]. cbn [outer_loop] in *.
  destruct (imgMaxWidth opts <? w); [done|]. cbv zeta in *.
  set (img := resize imgsrc w 0) in *.
  set (h := Y (Max (Bounds img))) in *. set (s := PrimFloat.div _ _) in *.
  destruct (inner (S fuel) img w h s 1 0%float ms 0) as [[ms' [|]]| |] eqn:Hinner; try done.
  - rewrite (inner_loop_more_fuel (S fuel) (S fuel')), Hinner by (try lia; congruence). done.
  - rewrite (inner_loop_more_fuel (S fuel) (S fuel')), Hinner by (try lia; congruence).
    apply IH; [lia|done].
  - rewrite (inner_loop_more_fuel (S fuel) (S fuel')), Hinner by (try lia; congruence). done.
Qed.

(** A state the inner loop reaches decides how the loop ends. *)
Lemma inner_reaches_end (img : RGBA) (imgWidth imgHeight : Z) (imgScale : float)
    (matches0 : Matches) (div : Z) (lastTopMatch : float) (matches : Matches) (subruns : nat) :
  reaches_inner img imgWidth imgHeight imgScale matches0 div lastTopMatch matches subruns →
  ∀ (fuel : nat) (r : Matches * bool),
    inner fuel img imgWidth imgHeight imgScale div lastTopMatch matches subruns = Returns r →
    ∃ fuel0, inner fuel0 img imgWidth imgHeight imgScale 1 0%float matches0 0 = Returns r.
Proof.
  induction 1 as [|div last ms sr last' ms' sr' Hreach IH Hdiv Hbody]; intros fuel r Hr.
  - by exists fuel.
  - apply (IH (S fuel)). cbn [inner_loop].
    destruct (Z.ltb_spec (subMaxDiv opts) div); [lia|].
    by rewrite Hbody.
Qed.

(** A level the outer loop reaches decides what the search returns. *)
Lemma outer_reaches_end (imgWidth : Z) (matches : Matches) :
  reaches_outer imgWidth matches →
  ∀ (fuel : nat) (result : Matches),
    outer fuel imgWidth matches = Returns result →
    ∃ fuel0, outer fuel0 (imgMinWidth opts) [] = Returns result.
Proof.
  induction 1 as [|w ms ms' Hreach IH Hw [fi Hinner]]; intros fuel result Hr.
  - by exists fuel.
  - apply (IH (S (fi + fuel))). cbn [outer_loop].
    destruct (Z.ltb_spec (imgMaxWidth opts) w); [lia|]. cbv zeta.
    rewrite (inner_loop_more_fuel fi (S (fi + fuel))), Hinner by (try lia; congruence).
    rewrite (outer_loop_more_fuel fuel (fi + fuel)), Hr by (try lia; congruence). done.
Qed.

(** The early stop at a step a search reaches ends the search. *)
Lemma early_stop_ends_search (imgWidth : Z) (matches0 : Matches) (div : Z)
    (lastTopMatch : float) (matches : Matches) (subruns : nat) :
  let img := resize imgsrc imgWidth 0 in
  let imgHeight := Y (Max (Bounds img)) in
  let imgScale := PrimFloat.div (float64_of_int imgWidth)
                    (float64_of_int (X (Max (Image_Bounds imgsrc)))) in
  reaches_outer imgWidth matches0 → imgWidth ≤ imgMaxWidth opts →
  reaches_inner img imgWidth imgHeight imgScale matches0 div lastTopMatch matches subruns →
  div ≤ subMaxDiv opts →
  body img imgWidth imgHeight imgScale div lastTopMatch matches subruns = Some (Done matches) →
  ∃ fuel0, ∀ fuel, (fuel0 ≤ fuel)%nat → outer fuel (imgMinWidth opts) [] = Returns matches.
Proof.
  intros img h s Houter Hw Hinner Hdiv Hbody.
  destruct (inner_reaches_end _ _ _ _ _ _ _ _ _ Hinner 1 (matches, true)) as [fi Hfi].
  { cbn [inner_loop]. destruct (Z.ltb_spec (subMaxDiv opts) div); [lia|]. by rewrite Hbody. }
  destruct (outer_reaches_end _ _ Houter (S fi) matches) as [fo Hfo].
  { cbn [outer_loop]. destruct (Z.ltb_spec (imgMaxWidth opts) imgWidth); [lia|]. cbv zeta.
    fold img h s.
    rewrite (inner_loop_more_fuel fi (S fi)), Hfi by (try lia; congruence). done. }
  exists fo. intros fuel Hfuel.
  rewrite (outer_loop_more_fuel fo fuel), Hfo by (try lia; congruence). done.
Qed.

End early_stop_run.

(** C3: take an inner step of [findImage] that the search reaches, at the
    division [div] of the level of width [imgWidth], whose best score
    [prevTop] is not below [lastTopMatch]: it makes [prevTop] the new
    [lastTopMatch] and its coordinate-corrected matches the running
    result.  If the best score [curTop] of the following inner step at the
    same width is strictly below [prevTop], the search ends there, both
    loops are left, and [findImage] returns the coordinate-corrected
    matches of the previous step and not those of the current one.
    Otherwise the following step in turn makes [curTop] the new
    [lastTopMatch] and its coordinate-corrected matches the running
    result. *)
Theorem C3_early_stop_returns_previous_matches {Image : Type}
    (Image_Bounds : Image → Rectangle) (CatmullRom_Scale : Rectangle → Image → list byte)
    (rt : Runtime) (numCPU : positive) (imgsrc subsrc : Image) (opts : Opts)
    (imgWidth : Z) (matches0 : Matches)
    (div : Z) (lastTopMatch : float) (matches : Matches) (subruns : nat)
    (prevMatches curMatches : Matches) (prevTop curTop : Match) :
  let opts' := effective_opts Image_Bounds imgsrc opts in
  let img := resizeImage Image_Bounds CatmullRom_Scale imgsrc imgWidth 0 in
  let imgHeight := Y (Max (Bounds img)) in
  let imgScale := PrimFloat.div (float64_of_int imgWidth)
                    (float64_of_int (X (Max (Image_Bounds imgsrc)))) in
  let reaches := inner_reaches Image_Bounds CatmullRom_Scale rt numCPU subsrc opts'
                   img imgWidth imgHeight imgScale matches0 in
  let step_at := step_matches Image_Bounds CatmullRom_Scale rt numCPU subsrc opts'
                   img imgWidth imgHeight imgScale in
  let corrected (ms : Matches) := Matches_Scale ms (PrimFloat.div 1%float imgScale) in
  outer_reaches Image_Bounds CatmullRom_Scale rt numCPU subsrc opts' imgsrc imgWidth matches0 →
  imgWidth ≤ imgMaxWidth opts' →
  reaches div lastTopMatch matches subruns →
  div ≤ subMaxDiv opts' →
  step_at div prevMatches prevTop →
  PrimFloat.ltb (m_Match prevTop) lastTopMatch = false →
  wrap_int (div * 2) ≤ subMaxDiv opts' →
  step_at (wrap_int (div * 2)) curMatches curTop →
  reaches (wrap_int (div * 2)) (m_Match prevTop) (corrected prevMatches) (S subruns) ∧
  (PrimFloat.ltb (m_Match curTop) (m_Match prevTop) = true →
   ∃ fuel0, ∀ fuel, (fuel0 ≤ fuel)%nat →
     findImage Image_Bounds CatmullRom_Scale rt numCPU fuel imgsrc subsrc opts
       = Returns (corrected prevMatches)) ∧
  (PrimFloat.ltb (m_Match curTop) (m_Match prevTop) = false →
   reaches (wrap_int (wrap_int (div * 2) * 2)) (m_Match curTop) (corrected curMatches)
     (S (S subruns))).
Proof.
  intros opts' img imgHeight imgScale reaches step_at corrected
    Houter Hw Hreach Hdiv Hprev Hkeep Hdiv' Hcur.
  assert (Hnext : reaches (wrap_int (div * 2)) (m_Match prevTop) (corrected prevMatches)
                    (S subruns)).
  { eapply inner_reaches_next; [exact Hreach|exact Hdiv|].
    rewrite (inner_body_step _ _ _ _ _ _ _ _ _ _ _ _ _ _ _ _ Hprev), Hkeep. done. }
  split; [exact Hnext|]. split.
  - intros Hdrop.
    apply (early_stop_ends_search Image_Bounds CatmullRom_Scale rt numCPU subsrc imgsrc opts'
             imgWidth matches0 (wrap_int (div * 2)) (m_Match prevTop) (corrected prevMatches)
             (S subruns) Houter Hw Hnext Hdiv').
    rewrite (inner_body_step _ _ _ _ _ _ _ _ _ _ _ _ _ _ _ _ Hcur), Hdrop. done.
  - intros Hkeep'.
    eapply inner_reaches_next; [exact Hnext|exact Hdiv'|].
    rewrite (inner_body_step _ _ _ _ _ _ _ _ _ _ _ _ _ _ _ _ Hcur), Hkeep'. done.
Qed.

Lemma C3_early_stop_returns_previous_matches_witness :
  let opts := mkOpts 8 8 1 4 2 in
  let opts' := effective_opts Bounds coarse_haystack opts in
  let img := resizeImage Bounds nearest_Scale coarse_haystack 8 0 in
  let imgHeight := Y (Max (Bounds img)) in
  let imgScale := PrimFloat.div (float64_of_int 8)
                    (float64_of_int (X (Max (Bounds coarse_haystack)))) in
  let at_size (w h : Z) :=
    default [] (convolutionTopKParallel in_order 1 img
                  (resizeImage Bounds nearest_Scale coarse_needle w h) 2) in
  let prevMatches := at_size 4 4 in
  let curMatches := at_size 2 2 in
  let prevTop := default zeroMatch (prevMatches !! 0%nat) in
  let curTop := default zeroMatch (curMatches !! 0%nat) in
  let corrected := Matches_Scale prevMatches (PrimFloat.div 1%float imgScale) in
  (outer_reaches Bounds nearest_Scale in_order 1 coarse_needle opts' coarse_haystack 8 [] ∧
   8 ≤ imgMaxWidth opts' ∧
   inner_reaches Bounds nearest_Scale in_order 1 coarse_needle opts' img 8 imgHeight imgScale
     [] 1 0%float [] 0) ∧
  (1 ≤ subMaxDiv opts' ∧
   step_matches Bounds nearest_Scale in_order 1 coarse_needle opts' img 8 imgHeight imgScale 1
     prevMatches prevTop ∧
   PrimFloat.ltb (m_Match prevTop) 0%float = false) ∧
  (wrap_int (1 * 2) ≤ subMaxDiv opts' ∧
   step_matches Bounds nearest_Scale in_order 1 coarse_needle opts' img 8 imgHeight imgScale
     (wrap_int (1 * 2)) curMatches curTop ∧
   PrimFloat.ltb (m_Match curTop) (m_Match prevTop) = true) ∧
  m_Bounds <$> prevMatches = [Rect 2 2 6 6; Rect 2 1 6 5] ∧
  m_Bounds <$> curMatches = [Rect 3 2 5 4; Rect 2 3 4 5] ∧
  m_Bounds <$> corrected = [Rect 4 4 12 12; Rect 4 2 12 10] ∧
  ∃ fuel0, ∀ fuel, (fuel0 ≤ fuel)%nat →
    findImage Bounds nearest_Scale in_order 1 fuel coarse_haystack coarse_needle opts
      = Returns corrected.
Proof.
  intros opts opts' img imgHeight imgScale at_size prevMatches curMatches prevTop curTop
    corrected.
  assert (H0 : outer_reaches Bounds nearest_Scale in_order 1 coarse_needle opts'
                 coarse_haystack 8 [])
    by exact (outer_reaches_first Bounds nearest_Scale in_order 1 coarse_needle opts'
                coarse_haystack).
  assert (Hw : 8 ≤ imgMaxWidth opts') by (vm_compute; congruence).
  assert (Hr : inner_reaches Bounds nearest_Scale in_order 1 coarse_needle opts' img 8
                 imgHeight imgScale [] 1 0%float [] 0) by constructor.
  assert (H1 : 1 ≤ subMaxDiv opts') by (vm_compute; congruence).
  assert (H2 : step_matches Bounds nearest_Scale in_order 1 coarse_needle opts' img 8
                 imgHeight imgScale 1 prevMatches prevTop) by (vm_compute; auto).
  assert (H3 : PrimFloat.ltb (m_Match prevTop) 0%float = false) by (vm_compute; reflexivity).
  assert (H4 : wrap_int (1 * 2) ≤ subMaxDiv opts') by (vm_compute; congruence).
  assert (H5 : step_matches Bounds nearest_Scale in_order 1 coarse_needle opts' img 8
                 imgHeight imgScale (wrap_int (1 * 2)) curMatches curTop)
    by (vm_compute; auto).
  assert (H6 : PrimFloat.ltb (m_Match curTop) (m_Match prevTop) = true)
    by (vm_compute; reflexivity).
  refine (conj (conj H0 (conj Hw Hr)) (conj (conj H1 (conj H2 H3))
            (conj (conj H4 (conj H5 H6)) _))).
  split; [vm_compute; reflexivity|]. split; [vm_compute; reflexivity|].
  split; [vm_compute; reflexivity|].
  exact (proj1 (proj2
    (C3_early_stop_returns_previous_matches Bounds nearest_Scale in_order 1
       coarse_haystack coarse_needle opts 8 [] 1 0%float [] 0%nat
       prevMatches curMatches prevTop curTop H0 Hw Hr H1 H2 H3 H4 H5)) H6).
Defined.

(** ** Binary64 rounding *)

Lemma digits2_pos_log2 (p : positive) : Z.pos (digits2_pos p) = Z.log2 (Z.pos p) + 1.
Proof.
  assert (Hsize : ∀ q, digits2_pos q = Pos.size q) by (induction q; simpl; congruence).
  rewrite Hsize. destruct p; simpl; lia.
Qed.

Lemma Zdigits2_bounds (m : Z) : 0 < m → 2 ^ (Zdigits2 m - 1) ≤ m < 2 ^ Zdigits2 m.
Proof.
  intros Hm. destruct m as [|p|p]; try lia.
  unfold Zdigits2. rewrite digits2_pos_log2.
  pose proof (Z.log2_spec (Z.pos p) Hm) as Hlog.
  replace (Z.log2 (Z.pos p) + 1 - 1) with (Z.log2 (Z.pos p)) by lia.
  replace (Z.log2 (Z.pos p) + 1) with (Z.succ (Z.log2 (Z.pos p))) by lia. done.
Qed.

Lemma Zdigits2_nonneg (m : Z) : 0 ≤ Zdigits2 m.
Proof. destruct m; simpl; lia. Qed.

Lemma Zdigits2_pos (m : Z) : 0 < m → 0 < Zdigits2 m.
Proof. destruct m; simpl; lia. Qed.

Lemma Zdigits2_unique (m d : Z) : 2 ^ (d - 1) ≤ m < 2 ^ d → 0 < d → Zdigits2 m = d.
Proof.
  intros Hm Hd.
  assert (0 < m) by (pose proof (Z.pow_pos_nonneg 2 (d - 1)); lia).
  destruct m as [|p|p]; try lia.
  unfold Zdigits2. rewrite digits2_pos_log2.
  rewrite (Z.log2_unique (Z.pos p) (d - 1)); [lia|lia|].
  replace (Z.succ (d - 1)) with d by lia. done.
Qed.

Lemma Zdigits2_le (m d : Z) : 0 ≤ m → 0 ≤ d → m < 2 ^ d → Zdigits2 m ≤ d.
Proof.
  intros Hm Hd Hlt. destruct (Z.eq_dec m 0) as [->|Hne]; [simpl; lia|].
  pose proof (Zdigits2_bounds m ltac:(lia)) as [Hlo _].
  destruct (Z_le_gt_dec (Zdigits2 m) d) as [|Hgt]; [done|].
  assert (2 ^ d ≤ 2 ^ (Zdigits2 m - 1)) by (apply Z.pow_le_mono_r; lia). lia.
Qed.

Lemma pow2_xO (p : positive) : 2 ^ Z.pos p~0 = 2 ^ Z.pos p * 2 ^ Z.pos p.
Proof.
  assert (H : Z.pos p~0 = Z.pos p + Z.pos p) by lia.
  rewrite H, Z.pow_add_r by lia. done.
Qed.

Lemma pow2_xI (p : positive) : 2 ^ Z.pos p~1 = 2 * (2 ^ Z.pos p * 2 ^ Z.pos p).
Proof.
  assert (H : Z.pos p~1 = 1 + (Z.pos p + Z.pos p)) by lia.
  rewrite H, !Z.pow_add_r by lia. done.
Qed.

(** One step of the right shift halves a non-negative mantissa. *)
Lemma shr_1_m (mrs : shr_record) : 0 ≤ shr_m mrs → shr_m (shr_1 mrs) = shr_m mrs / 2.
Proof.
  destruct mrs as [m r s]. cbn [shr_m]. intros Hm.
  destruct m as [|[p|p|]|p]; cbn [shr_1 shr_m]; try lia; try reflexivity.
  - apply (Z.div_unique _ 2 _ 1); lia.
  - apply (Z.div_unique _ 2 _ 0); lia.
Qed.

Lemma iter_shr_1_m (p : positive) (mrs : shr_record) :
  0 ≤ shr_m mrs → shr_m (SpecFloat.iter_pos shr_1 p mrs) = shr_m mrs / 2 ^ Z.pos p.
Proof.
  revert mrs. induction p as [p IH|p IH|]; intros mrs Hm; cbn [SpecFloat.iter_pos].
  - pose proof (Z.pow_pos_nonneg 2 (Z.pos p) ltac:(lia) ltac:(lia)) as Hpow.
    assert (H1 : 0 ≤ shr_m (shr_1 mrs)) by (rewrite shr_1_m by done; apply Z.div_pos; lia).
    assert (H2 : 0 ≤ shr_m (SpecFloat.iter_pos shr_1 p (shr_1 mrs)))
      by (rewrite IH by done; apply Z.div_pos; lia).
    rewrite IH, IH, shr_1_m by done.
    rewrite !Z.div_div by lia. f_equal.
    rewrite pow2_xI. lia.
  - pose proof (Z.pow_pos_nonneg 2 (Z.pos p) ltac:(lia) ltac:(lia)) as Hpow.
    assert (H2 : 0 ≤ shr_m (SpecFloat.iter_pos shr_1 p mrs))
      by (rewrite IH by done; apply Z.div_pos; lia).
    rewrite IH, IH by done.
    rewrite !Z.div_div by lia. f_equal.
    rewrite pow2_xO. lia.
  - rewrite shr_1_m by done. done.
Qed.

(** Shifting out zeros loses nothing. *)
Lemma iter_shr_1_exact (p : positive) (m : Z) :
  0 ≤ m →
  SpecFloat.iter_pos shr_1 p (Build_shr_record (m * 2 ^ Z.pos p) false false)
    = Build_shr_record m false false.
Proof.
  assert (Hone : ∀ k, 0 ≤ k →
            shr_1 (Build_shr_record (k * 2) false false) = Build_shr_record k false false).
  { intros k Hk. destruct k as [|q|q]; try lia; [done|].
    replace (Z.pos q * 2) with (Z.pos q~0) by lia. done. }
  revert m. induction p as [p IH|p IH|]; intros m Hm; cbn [SpecFloat.iter_pos].
  - pose proof (Z.pow_pos_nonneg 2 (Z.pos p) ltac:(lia) ltac:(lia)) as Hpow.
    replace (m * 2 ^ Z.pos p~1) with ((m * 2 ^ Z.pos p * 2 ^ Z.pos p) * 2).
    2:{ rewrite pow2_xI. lia. }
    rewrite Hone by nia.
    rewrite IH by nia. by rewrite IH.
  - pose proof (Z.pow_pos_nonneg 2 (Z.pos p) ltac:(lia) ltac:(lia)) as Hpow.
    replace (m * 2 ^ Z.pos p~0) with (m * 2 ^ Z.pos p * 2 ^ Z.pos p).
    2:{ rewrite pow2_xO. lia. }
    rewrite IH by nia. by rewrite IH.
  - change (2 ^ 1) with 2. by apply Hone.
Qed.

Lemma round_nearest_even_cases (m : Z) (l : location) :
  round_nearest_even m l = m ∨ round_nearest_even m l = m + 1.
Proof. destruct l as [|[]]; simpl; auto. destruct (Z.even m); auto. Qed.

Lemma fexp64 (e : Z) : fexp prec emax e = Z.max (e - 53) (-1074).
Proof. reflexivity. Qed.

Lemma shr_record_of_loc_m (m : Z) (l : location) : shr_m (shr_record_of_loc m l) = m.
Proof. by destruct l as [|[]]. Qed.

Lemma shr_fexp_shape (m e : Z) (l : location) :
  0 ≤ m →
  ∃ mrs, shr_fexp prec emax m e l = (mrs, Z.max e (fexp prec emax (Zdigits2 m + e))) ∧
         shr_m mrs = m / 2 ^ (Z.max e (fexp prec emax (Zdigits2 m + e)) - e) ∧
         (fexp prec emax (Zdigits2 m + e) ≤ e → mrs = shr_record_of_loc m l).
Proof.
  intros Hm. unfold shr_fexp, shr.
  set (f := fexp prec emax (Zdigits2 m + e)).
  destruct (f - e) as [|p|p] eqn:Hdiff.
  - exists (shr_record_of_loc m l). replace (Z.max e f) with e by lia.
    rewrite Z.sub_diag, Z.div_1_r, shr_record_of_loc_m. done.
  - exists (SpecFloat.iter_pos shr_1 p (shr_record_of_loc m l)).
    replace (Z.max e f) with (e + Z.pos p) by lia.
    rewrite iter_shr_1_m by (rewrite shr_record_of_loc_m; done).
    rewrite shr_record_of_loc_m. replace (e + Z.pos p - e) with (Z.pos p) by lia.
    split; [done|]. split; [done|]. lia.
  - exists (shr_record_of_loc m l). replace (Z.max e f) with e by lia.
    rewrite Z.sub_diag, Z.div_1_r, shr_record_of_loc_m. done.
Qed.

(** The shape of every rounding: the mantissa is shifted to the exponent
    [e1], rounded to [m2], and renormalised if it reached [2^53]. *)
Lemma binary_round_aux_shape (sx : bool) (mx ex : Z) (lx : location) :
  0 ≤ mx →
  ∃ m2,
    binary_round_aux prec emax sx mx ex lx
      = finish_round sx m2 (Z.max ex (fexp prec emax (Zdigits2 mx + ex))) ∧
    mx / 2 ^ (Z.max ex (fexp prec emax (Zdigits2 mx + ex)) - ex) ≤ m2 ∧
    m2 ≤ mx / 2 ^ (Z.max ex (fexp prec emax (Zdigits2 mx + ex)) - ex) + 1 ∧
    m2 ≤ 2 ^ 53 ∧
    (lx = loc_Exact → fexp prec emax (Zdigits2 mx + ex) ≤ ex → m2 = mx).
Proof.
  intros Hmx. unfold binary_round_aux.
  destruct (shr_fexp_shape mx ex lx Hmx) as (mrs1 & -> & Hm1 & Hsame).
  set (e1 := Z.max ex (fexp prec emax (Zdigits2 mx + ex))) in *.
  set (m1 := mx / 2 ^ (e1 - ex)) in *.
  assert (He1 : -1074 ≤ e1) by (subst e1; rewrite fexp64; lia).
  assert (Hshift : 0 ≤ e1 - ex) by (subst e1; lia).
  assert (Hm1pos : 0 ≤ m1) by (apply Z.div_pos; [done|apply Z.pow_pos_nonneg; lia]).
  assert (Hm1lt : m1 < 2 ^ 53).
  { destruct (Z.eq_dec mx 0) as [->|Hne].
    { subst m1. rewrite Z.div_0_l by (apply Z.pow_nonzero; lia). lia. }
    pose proof (Zdigits2_bounds mx ltac:(lia)) as [_ Hhi].
    pose proof (Zdigits2_pos mx ltac:(lia)) as HD.
    assert (Hfe : Zdigits2 mx + ex - 53 ≤ e1) by (subst e1; rewrite fexp64; lia).
    apply Z.div_lt_upper_bound; [apply Z.pow_pos_nonneg; lia|].
    rewrite <- Z.pow_add_r by lia.
    eapply Z.lt_le_trans; [exact Hhi|]. apply Z.pow_le_mono_r; lia. }
  set (m2 := round_nearest_even (shr_m mrs1) (loc_of_shr_record mrs1)).
  assert (Hm2 : m2 = m1 ∨ m2 = m1 + 1)
    by (subst m2; rewrite Hm1; apply round_nearest_even_cases).
  assert (Hm2pos : 0 ≤ m2) by lia.
  destruct (shr_fexp_shape m2 e1 loc_Exact Hm2pos) as (mrs2 & -> & Hm3 & Hsame2).
  exists m2. split; [|split; [lia|split; [lia|split; [lia|]]]].
  - unfold finish_round.
    destruct (Z.eqb_spec m2 0) as [Hz|Hnz].
    + rewrite Hm3, Hz, Z.div_0_l by (apply Z.pow_nonzero; lia). done.
    + destruct (Z.eqb_spec m2 (2 ^ 53)) as [Htop|Hntop].
      * assert (Hd : Zdigits2 m2 = 54) by (rewrite Htop; reflexivity).
        rewrite Hd, fexp64 in *.
        replace (Z.max e1 (Z.max (54 + e1 - 53) (-1074))) with (e1 + 1) in * by lia.
        replace (e1 + 1 - e1) with 1 in Hm3 by lia.
        rewrite Htop in Hm3. change (2 ^ 53 / 2 ^ 1) with (Z.pos (2 ^ 52)) in Hm3.
        rewrite Hm3. done.
      * assert (Hd : Zdigits2 m2 ≤ 53) by (apply Zdigits2_le; lia).
        rewrite fexp64 in *.
        replace (Z.max e1 (Z.max (Zdigits2 m2 + e1 - 53) (-1074))) with e1 in * by lia.
        rewrite Z.sub_diag, Z.div_1_r in Hm3. rewrite Hm3.
        destruct m2 as [|p|p]; try lia. done.
  - intros -> Hle. subst m2. rewrite (Hsame Hle). done.
Qed.

(** A canonical mantissa followed by [n] zero bits rounds to itself. *)
Lemma binary_round_aux_exact (sx : bool) (m : positive) (e n : Z) :
  0 ≤ n → fexp prec emax (Z.pos (digits2_pos m) + e) = e → e ≤ emax - prec →
  binary_round_aux prec emax sx (Z.pos m * 2 ^ n) (e - n) loc_Exact = S754_finite sx m e.
Proof.
  intros Hn Hcanon Hbound.
  assert (Hpow : 0 < 2 ^ n) by (apply Z.pow_pos_nonneg; lia).
  assert (Hd : Zdigits2 (Z.pos m * 2 ^ n) = Z.pos (digits2_pos m) + n).
  { pose proof (Zdigits2_bounds (Z.pos m) ltac:(lia)) as [Hlo Hhi]. simpl Zdigits2 in *.
    apply Zdigits2_unique; [|lia].
    replace (Z.pos (digits2_pos m) + n - 1) with (Z.pos (digits2_pos m) - 1 + n) by lia.
    rewrite !Z.pow_add_r by lia. nia. }
  unfold binary_round_aux, shr_fexp. rewrite Hd.
  replace (Z.pos (digits2_pos m) + n + (e - n)) with (Z.pos (digits2_pos m) + e) by lia.
  rewrite Hcanon. replace (e - (e - n)) with n by lia.
  assert (Hstage : shr (shr_record_of_loc (Z.pos m * 2 ^ n) loc_Exact) (e - n) n
                   = (Build_shr_record (Z.pos m) false false, e)).
  { unfold shr. destruct n as [|p|p]; try lia.
    - simpl shr_record_of_loc. rewrite Z.mul_1_r. f_equal. lia.
    - simpl shr_record_of_loc. rewrite iter_shr_1_exact by lia. f_equal. lia. }
  rewrite Hstage. cbn [shr_m loc_of_shr_record round_nearest_even Zdigits2].
  rewrite Hcanon, Z.sub_diag. cbn [shr shr_record_of_loc shr_m].
  destruct (Z.leb_spec e (emax - prec)); [done|lia].
Qed.

Lemma iter_xO_value (m d : positive) : Z.pos (Pos.iter xO m d) = Z.pos m * 2 ^ Z.pos d.
Proof.
  change (Pos.iter xO m d) with (shift_pos d m).
  rewrite shift_pos_correct. change (Z.pow_pos 2 d) with (2 ^ Z.pos d). lia.
Qed.

(** [binary_round] first aligns the mantissa, so that it always rounds at
    the exponent [fexp (digits + ex)]. *)
Lemma binary_round_shape (sx : bool) (mx : positive) (ex : Z) :
  ∃ m2,
    binary_round prec emax sx mx ex
      = finish_round sx m2 (fexp prec emax (Z.pos (digits2_pos mx) + ex)) ∧
    0 ≤ m2 ≤ 2 ^ 53 ∧
    (fexp prec emax (Z.pos (digits2_pos mx) + ex) ≤ ex →
     m2 = Z.pos mx * 2 ^ (ex - fexp prec emax (Z.pos (digits2_pos mx) + ex))) ∧
    (ex ≤ fexp prec emax (Z.pos (digits2_pos mx) + ex) →
     Z.pos mx / 2 ^ (fexp prec emax (Z.pos (digits2_pos mx) + ex) - ex) ≤ m2).
Proof.
  unfold binary_round, shl_align.
  set (f := fexp prec emax (Z.pos (digits2_pos mx) + ex)).
  destruct (f - ex) as [|p|d] eqn:Hdiff.
  - destruct (binary_round_aux_shape sx (Z.pos mx) ex loc_Exact ltac:(lia))
      as (m2 & Hr & Hlo & Hhi & Htop & Hexact).
    cbn [Zdigits2] in *. fold f in Hr, Hlo, Hhi, Hexact.
    replace (Z.max ex f) with f in * by lia.
    exists m2. rewrite Hr. split; [done|].
    assert (Hm2 : m2 = Z.pos mx) by (apply Hexact; [done|lia]).
    replace (ex - f) with 0 by lia. replace (f - ex) with 0 by lia.
    rewrite Z.pow_0_r, Z.mul_1_r, Z.div_1_r. split; [lia|]. split; intros; lia.
  - destruct (binary_round_aux_shape sx (Z.pos mx) ex loc_Exact ltac:(lia))
      as (m2 & Hr & Hlo & Hhi & Htop & Hexact).
    cbn [Zdigits2] in *. fold f in Hr, Hlo, Hhi, Hexact.
    replace (Z.max ex f) with f in * by lia.
    exists m2. rewrite Hr. split; [done|].
    rewrite Hdiff in *.
    assert (0 ≤ Z.pos mx / 2 ^ Z.pos p)
      by (apply Z.div_pos; [lia|apply Z.pow_pos_nonneg; lia]).
    split; [lia|]. split; intros; lia.
  - destruct (binary_round_aux_shape sx (Z.pos (Pos.iter xO mx d)) f loc_Exact ltac:(lia))
      as (m2 & Hr & Hlo & Hhi & Htop & Hexact).
    assert (Hd : Zdigits2 (Z.pos (Pos.iter xO mx d)) = Z.pos (digits2_pos mx) + Z.pos d).
    { rewrite iter_xO_value.
      pose proof (Zdigits2_bounds (Z.pos mx) ltac:(lia)) as [Hlo' Hhi']. simpl Zdigits2 in *.
      assert (0 < 2 ^ Z.pos d) by (apply Z.pow_pos_nonneg; lia).
      apply Zdigits2_unique; [|lia].
      replace (Z.pos (digits2_pos mx) + Z.pos d - 1)
        with (Z.pos (digits2_pos mx) - 1 + Z.pos d) by lia.
      rewrite !Z.pow_add_r by lia. nia. }
    rewrite Hd in *.
    replace (Z.pos (digits2_pos mx) + Z.pos d + f) with (Z.pos (digits2_pos mx) + ex) in * by lia.
    fold f in Hr, Hlo, Hhi, Hexact.
    replace (Z.max f f) with f in * by lia.
    exists m2. rewrite Hr. split; [done|].
    assert (Hm2 : m2 = Z.pos (Pos.iter xO mx d)) by (apply Hexact; [done|lia]).
    rewrite iter_xO_value in Hm2.
    replace (ex - f) with (Z.pos d) by lia.
    split; [lia|]. split; intros; lia.
Qed.

Lemma Prim2SF_one : Prim2SF 1%float = S754_finite false (2 ^ 52)%positive (-52).
Proof. reflexivity. Qed.

Lemma finish_round_signed (sx : bool) (m2 e : Z) : SF_signed sx (finish_round sx m2 e).
Proof.
  unfold finish_round.
  repeat match goal with |- context [if ?c then _ else _] => destruct c end; done.
Qed.

Lemma finish_round_finite (sx : bool) (m2 e : Z) :
  e + 1 ≤ emax - prec → SF_finite (finish_round sx m2 e).
Proof.
  intros He. unfold finish_round.
  destruct (m2 =? 0); [done|]. destruct (m2 =? 2 ^ 53).
  - destruct (Z.leb_spec (e + 1) (emax - prec)); [done|lia].
  - destruct (Z.leb_spec e (emax - prec)); [done|lia].
Qed.

Lemma finish_round_valid (sx : bool) (m2 e : Z) :
  2 ^ 52 ≤ m2 ≤ 2 ^ 53 → -1074 ≤ e →
  valid_binary (finish_round sx m2 e) = true.
Proof.
  intros Hm He. unfold finish_round.
  destruct (Z.eqb_spec m2 0); [lia|].
  destruct (Z.eqb_spec m2 (2 ^ 53)) as [->|Hne].
  - destruct (Z.leb_spec (e + 1) (emax - prec)); [|done].
    unfold SpecFloat.valid_binary, bounded, canonical_mantissa.
    change (Z.pos (digits2_pos (2 ^ 52))) with 53. rewrite fexp64.
    apply andb_true_intro. split; [apply Z.eqb_eq; lia|apply Z.leb_le; done].
  - destruct (Z.leb_spec e (emax - prec)); [|done].
    unfold SpecFloat.valid_binary, bounded, canonical_mantissa.
    assert (Hd : Zdigits2 m2 = 53) by (apply Zdigits2_unique; [|lia]; simpl; lia).
    destruct m2 as [|p|p]; try lia. simpl Z.to_pos. simpl Zdigits2 in Hd.
    rewrite Hd, fexp64.
    apply andb_true_intro. split; [apply Z.eqb_eq; lia|apply Z.leb_le; done].
Qed.

(** The conversion of a non-zero integer rounds a 53-bit mantissa. *)
Lemma binary_round_int (sx : bool) (p : positive) :
  ∃ m2,
    binary_round prec emax sx p 0 = finish_round sx m2 (Z.pos (digits2_pos p) - 53) ∧
    2 ^ 52 ≤ m2 ≤ 2 ^ 53 ∧
    (Z.pos (digits2_pos p) ≤ 53 → m2 = Z.pos p * 2 ^ (53 - Z.pos (digits2_pos p))).
Proof.
  destruct (binary_round_shape sx p 0) as (m2 & Hr & Hrange & Hexact & Hfloor).
  pose proof (Zdigits2_bounds (Z.pos p) ltac:(lia)) as [Hlo Hhi]. simpl Zdigits2 in *.
  set (D := Z.pos (digits2_pos p)) in *.
  assert (HD : 0 < D) by (subst D; lia).
  rewrite Z.add_0_r, fexp64 in *.
  replace (Z.max (D - 53) (-1074)) with (D - 53) in * by lia.
  exists m2. split; [done|]. split; [split; [|lia]|].
  - destruct (Z_le_gt_dec D 53) as [Hsmall|Hbig].
    + rewrite Hexact by lia. replace (0 - (D - 53)) with (53 - D) by lia.
      replace 52 with (D - 1 + (53 - D)) by lia. rewrite Z.pow_add_r by lia.
      assert (0 < 2 ^ (53 - D)) by (apply Z.pow_pos_nonneg; lia). nia.
    + etransitivity; [|apply Hfloor; lia].
      rewrite Z.sub_0_r. apply Z.div_le_lower_bound; [apply Z.pow_pos_nonneg; lia|].
      rewrite <- Z.pow_add_r by lia. replace (D - 53 + 52) with (D - 1) by lia. done.
  - intros Hsmall. rewrite Hexact by lia. f_equal. f_equal. lia.
Qed.

Lemma binary_normalize_int_valid (z : Z) :
  valid_binary (binary_normalize prec emax z 0 false) = true.
Proof.
  destruct z as [|p|p]; [done| |]; unfold binary_normalize.
  - destruct (binary_round_int false p) as (m2 & Hr & Hrange & _).
    rewrite Hr. apply finish_round_valid; lia.
  - destruct (binary_round_int true p) as (m2 & Hr & Hrange & _).
    rewrite Hr. apply finish_round_valid; lia.
Qed.

Lemma float64_of_int_SF (z : Z) :
  Prim2SF (float64_of_int z) = binary_normalize prec emax z 0 false.
Proof. unfold float64_of_int. apply Prim2SF_SF2Prim, binary_normalize_int_valid. Qed.

(** Integers below [2^53] convert exactly. *)
Lemma float64_of_int_exact (z : Z) :
  0 < z < 2 ^ 53 →
  Prim2SF (float64_of_int z)
    = S754_finite false (Z.to_pos (z * 2 ^ (53 - Zdigits2 z))) (Zdigits2 z - 53).
Proof.
  intros Hz. rewrite float64_of_int_SF.
  destruct z as [|p|p]; try lia. unfold binary_normalize.
  destruct (binary_round_int false p) as (m2 & Hr & Hrange & Hexact).
  assert (HD : Zdigits2 (Z.pos p) ≤ 53) by (apply Zdigits2_le; lia).
  simpl Zdigits2 in *. rewrite Hr, <- Hexact by done.
  unfold finish_round.
  destruct (Z.eqb_spec m2 0); [lia|].
  destruct (Z.eqb_spec m2 (2 ^ 53)) as [Htop|_].
  - exfalso. rewrite Hexact in Htop by done.
    pose proof (Zdigits2_bounds (Z.pos p) ltac:(lia)) as [_ Hhi]. simpl Zdigits2 in Hhi.
    assert (Z.pos p * 2 ^ (53 - Z.pos (digits2_pos p))
            < 2 ^ Z.pos (digits2_pos p) * 2 ^ (53 - Z.pos (digits2_pos p))).
    { apply Z.mul_lt_mono_pos_r; [apply Z.pow_pos_nonneg; lia|done]. }
    rewrite <- Z.pow_add_r in H by lia.
    replace (Z.pos (digits2_pos p) + (53 - Z.pos (digits2_pos p))) with 53 in H by lia. lia.
  - destruct (Z.leb_spec (Z.pos (digits2_pos p) - 53) (emax - prec)); [done|].
    change (emax - prec) with 971 in *. lia.
Qed.

Lemma float64_of_int_zero : Prim2SF (float64_of_int 0) = S754_zero false.
Proof. reflexivity. Qed.

Lemma float64_of_int_nonneg (z : Z) : 0 ≤ z → SF_signed false (Prim2SF (float64_of_int z)).
Proof.
  intros Hz. rewrite float64_of_int_SF. destruct z as [|p|p]; try lia; [done|].
  unfold binary_normalize. destruct (binary_round_int false p) as (m2 & -> & _).
  apply finish_round_signed.
Qed.

(** ** Reciprocal, product and [1 - p] *)

Lemma SFdiv_one_finite (m : positive) (e : Z) :
  -52 ≤ e →
  SF_finite (SFdiv prec emax (S754_finite false (2 ^ 52)%positive (-52)) (S754_finite false m e)) ∧
  SF_signed false
    (SFdiv prec emax (S754_finite false (2 ^ 52)%positive (-52)) (S754_finite false m e)).
Proof.
  intros He. unfold SFdiv, SFdiv_core_binary. cbv zeta.
  change (Zdigits2 (Z.pos (2 ^ 52))) with 53.
  set (e' := Z.min (fexp prec emax (53 + -52 - (Zdigits2 (Z.pos m) + e))) (-52 - e)).
  set (s := -52 - e - e').
  set (m' := match s with
             | 0 => Z.pos (2 ^ 52)
             | Z.pos _ => Z.shiftl (Z.pos (2 ^ 52)) s
             | Z.neg _ => 0
             end).
  assert (Hs : 0 ≤ s) by (subst s e'; lia).
  assert (Hm' : 0 ≤ m' < 2 ^ (53 + s)).
  { subst m'. destruct s as [|q|q] eqn:Hsq; try lia.
    rewrite Z.shiftl_mul_pow2 by lia.
    rewrite Z.pow_add_r by lia.
    assert (0 < 2 ^ Z.pos q) by (apply Z.pow_pos_nonneg; lia).
    change (Z.pos (2 ^ 52)) with (2 ^ 52). change (2 ^ 53) with (2 * 2 ^ 52). nia. }
  pose proof (Z_div_mod m' (Z.pos m) ltac:(lia)) as Hdm.
  destruct (Z.div_eucl m' (Z.pos m)) as [q r].
  destruct Hdm as [Heq Hr].
  assert (Hq : 0 ≤ q ≤ m') by nia.
  destruct (binary_round_aux_shape (xorb false false) q e' (new_location (Z.pos m) r)
              ltac:(lia)) as (m2 & -> & _).
  split; [|apply finish_round_signed].
  apply finish_round_finite.
  assert (Hd : Zdigits2 q ≤ 53 + s) by (apply Zdigits2_le; lia).
  rewrite fexp64. change (emax - prec) with 971. subst s. lia.
Qed.

Lemma recip_float64_of_int (d : Z) :
  0 < d →
  SF_finite (Prim2SF (PrimFloat.div 1%float (float64_of_int d))) ∧
  SF_signed false (Prim2SF (PrimFloat.div 1%float (float64_of_int d))).
Proof.
  intros Hd. rewrite div_spec, Prim2SF_one, float64_of_int_SF.
  destruct d as [|p|p]; try lia. unfold binary_normalize.
  destruct (binary_round_int false p) as (m2 & -> & Hrange & _).
  pose proof (Zdigits2_pos (Z.pos p) ltac:(lia)) as HD. simpl Zdigits2 in HD.
  unfold finish_round.
  destruct (Z.eqb_spec m2 0); [lia|].
  destruct (m2 =? 2 ^ 53).
  - destruct (Z.leb (Z.pos (digits2_pos p) - 53 + 1) (emax - prec)); [|done].
    apply SFdiv_one_finite. lia.
  - destruct (Z.leb (Z.pos (digits2_pos p) - 53) (emax - prec)); [|done].
    apply SFdiv_one_finite. lia.
Qed.

Lemma SFmul_signed (x y : spec_float) :
  SF_signed false x → SF_signed false y → SF_finite x → SF_finite y →
  SF_signed false (SFmul prec emax x y).
Proof.
  destruct x as [sx|sx| |sx mx ex], y as [sy|sy| |sy my ey];
    unfold SF_signed, SF_finite; try done; intros -> -> _ _; try done.
  cbn [SFmul xorb].
  destruct (binary_round_aux_shape false (Z.pos (mx * my)) (ex + ey) loc_Exact ltac:(lia))
    as (m2 & -> & _).
  apply finish_round_signed.
Qed.

Lemma shl_align_value (m : positive) (e ez : Z) :
  ez ≤ e → Z.pos (fst (shl_align m e ez)) = Z.pos m * 2 ^ (e - ez).
Proof.
  intros Hle. unfold shl_align.
  destruct (ez - e) as [|p|p] eqn:Hdiff; try lia.
  - simpl. replace (e - ez) with 0 by lia. lia.
  - simpl. rewrite iter_xO_value. f_equal. f_equal. lia.
Qed.

(** Subtracting a non-negative value from 1 cannot give more than 1. *)
Lemma SFsub_one_le (p : spec_float) :
  SF_signed false p →
  SFleb (SFsub prec emax (S754_finite false (2 ^ 52)%positive (-52)) p)
        (S754_finite false (2 ^ 52)%positive (-52)) = true.
Proof.
  destruct p as [s|s| |s mp ep]; simpl SF_signed; try done; intros ->; try reflexivity.
  unfold SFsub. cbv zeta. unfold cond_Zopp.
  set (ez := Z.min (-52) ep).
  rewrite !shl_align_value by (subst ez; lia).
  set (A := Z.pos (2 ^ 52) * 2 ^ (-52 - ez)).
  set (B := Z.pos mp * 2 ^ (ep - ez)).
  assert (HA : A = 2 ^ (- ez)).
  { subst A. change (Z.pos (2 ^ 52)) with (2 ^ 52).
    rewrite <- Z.pow_add_r by (subst ez; lia). f_equal. lia. }
  assert (HB : 0 < B).
  { subst B. assert (0 < 2 ^ (ep - ez)) by (apply Z.pow_pos_nonneg; subst ez; lia). nia. }
  destruct (A - B) as [|n|n] eqn:Hn; [reflexivity| |].
  - unfold binary_normalize.
    destruct (binary_round_shape false n ez) as (m2 & -> & Hrange & _).
    assert (Hdn : Z.pos (digits2_pos n) ≤ - ez).
    { apply (Zdigits2_le (Z.pos n)); [lia|subst ez; lia|]. rewrite <- HA. lia. }
    rewrite fexp64.
    set (f := Z.max (Z.pos (digits2_pos n) + ez - 53) (-1074)).
    assert (Hf : f ≤ -53) by (subst f; lia).
    unfold finish_round.
    destruct (m2 =? 0); [reflexivity|].
    destruct (m2 =? 2 ^ 53).
    + destruct (Z.leb_spec (f + 1) (emax - prec)); [|change (emax - prec) with 971 in *; lia].
      unfold SFleb, SFcompare.
      destruct (f + 1 ?= -52) eqn:Hc; [reflexivity|reflexivity|].
      apply Z.compare_gt_iff in Hc. lia.
    + destruct (Z.leb_spec f (emax - prec)); [|change (emax - prec) with 971 in *; lia].
      unfold SFleb, SFcompare.
      destruct (f ?= -52) eqn:Hc; [|reflexivity|].
      * apply Z.compare_eq_iff in Hc. lia.
      * apply Z.compare_gt_iff in Hc. lia.
  - unfold binary_normalize.
    destruct (binary_round_shape true n ez) as (m2 & -> & _).
    pose proof (finish_round_signed true m2 (fexp prec emax (Z.pos (digits2_pos n) + ez))) as Hs.
    destruct (finish_round _ _ _) as [s|s| |s m e]; simpl in Hs; subst; done.
Qed.

(** ** What the matcher returns *)

Lemma foldM_invariant {S A : Type} (P : S → Prop) (f : S → A → option S) (l : list A)
    (s0 s : S) :
  P s0 → (∀ s a s', a ∈ l → P s → f s a = Some s' → P s') →
  foldM f s0 l = Some s → P s.
Proof.
  revert s0. induction l as [|a l IH]; intros s0 H0 Hstep; simpl.
  - by intros [= <-].
  - destruct (f s0 a) as [s1|] eqn:Hf; simpl; [|done].
    apply IH.
    + apply (Hstep s0 a); [by left|done|done].
    + intros s' a' s'' Ha'. apply Hstep. by right.
Qed.

Lemma sumOfAbsDiffRGBA_range (img : RGBA) (x y : Z) (subimg : RGBA) (sum : Z) :
  sumOfAbsDiffRGBA img x y subimg = Some sum → 0 ≤ sum < 2 ^ 32.
Proof.
  unfold sumOfAbsDiffRGBA. cbv zeta.
  apply (foldM_invariant (λ s, 0 ≤ s < 2 ^ 32)); [lia|].
  intros s ny s' _ Hs. apply (foldM_invariant (λ s, 0 ≤ s < 2 ^ 32)); [done|].
  intros s1 nx s2 _ _ Hq. simplify_option_eq. apply wrap_uint32_range.
Qed.

Lemma topk_step_Forall (Q : Match → Prop) (k : Z) (st st' : list Match * list Z)
    (bounds : Rectangle) (sum : Z) :
  topk_step k st bounds sum = Some st' →
  Forall Q st.1 → Q (mkMatch bounds (float64_of_int sum)) → Forall Q st'.1.
Proof.
  destruct st as [matches minSums]. unfold topk_step. intros Hstep Hall Hnew.
  destruct (Z.of_nat (length matches) <? k).
  - injection Hstep as <-. simpl. apply Forall_app. split; [done|]. by constructor.
  - destruct (maxDiffIndex k minSums) as [i|]; simpl in Hstep; [|done].
    destruct (index minSums i) as [worst|]; simpl in Hstep; [|done].
    destruct (sum <? worst).
    + destruct (index matches i); simpl in Hstep; [|done].
      injection Hstep as <-. simpl. by apply Forall_insert.
    + by injection Hstep as <-.
Qed.

Lemma scan_region_scanned (img subimg : RGBA) (k subw subh xa xb ya yb : Z)
    (st : list Match * list Z) :
  scan_region img subimg k subw subh xa xb ya yb = Some st →
  Forall (scanned img subimg subw subh xa xb ya yb) st.1.
Proof.
  unfold scan_region.
  apply (foldM_invariant (λ st, Forall (scanned img subimg subw subh xa xb ya yb) st.1));
    [by constructor|].
  intros s y s' Hy%elem_of_seqZ Hs.
  apply (foldM_invariant (λ st, Forall (scanned img subimg subw subh xa xb ya yb) st.1));
    [done|].
  intros s1 x s2 Hx%elem_of_seqZ Hs1.
  destruct (sumOfAbsDiffRGBA img x y subimg) as [sum|] eqn:Hsum; simpl; [|done].
  intros Hstep. eapply topk_step_Forall; [exact Hstep|done|].
  exists x, y, sum. repeat split; try done; lia.
Qed.

Lemma interleaving_elem (ws : list (list Match)) (l : list Match) :
  interleaving ws l → ∀ m, m ∈ l → ∃ w, w ∈ ws ∧ m ∈ w.
Proof.
  induction 1 as [ws Hnil|ws i m q l Hi Hrest IH]; intros m' Hm'.
  - by apply elem_of_nil in Hm'.
  - apply elem_of_cons in Hm' as [->|Hm'].
    + exists (m :: q). split; [by eapply list_elem_of_lookup_2|by left].
    + destruct (IH m' Hm') as (w & [j Hj]%list_elem_of_lookup & Hw).
      destruct (decide (i = j)) as [->|Hne].
      * rewrite list_lookup_insert_eq in Hj by (by eapply lookup_lt_Some).
        injection Hj as <-. exists (m :: q).
        split; [by eapply list_elem_of_lookup_2|by right].
      * rewrite list_lookup_insert_ne in Hj by done.
        exists w. split; [by eapply list_elem_of_lookup_2|done].
Qed.

(** Every match [convolutionTopKParallel] returns is the normalisation of
    the zero value or of the candidate of an offset some worker scanned. *)
Lemma convolutionTopKParallel_elements (rt : Runtime) (numCPU : positive)
    (img subimg : RGBA) (k : Z) (result : Matches) :
  admissible rt →
  convolutionTopKParallel rt numCPU img subimg k = Some result →
  Forall (λ m, ∃ m0, m = normalize (norm_of (Bounds subimg)) m0 ∧
                (m0 = zeroMatch ∨
                 ∃ x y sum, sumOfAbsDiffRGBA img x y subimg = Some sum ∧
                            m0 = candidate (Rect x y (x + Dx (Bounds subimg))
                                                     (y + Dy (Bounds subimg)), sum)))
         result.
Proof.
  intros Hrt. unfold convolutionTopKParallel. cbv zeta.
  set (inner := Rect _ _ _ _). set (k' := if k <? 1 then 1 else k).
  set (nw := Z.pos numCPU * 2).
  destruct (mapM _ (seqZ 0 nw)) as [sent|] eqn:Hsent; simpl; [|done].
  destruct (makeslice_Match _) as [made|]; simpl; [|done].
  unfold reslice. destruct (decide _) as [Hk|]; simpl; [|done].
  intros [= <-]. apply Forall_fmap, Forall_forall. intros m0 Hm0.
  exists m0. split; [done|].
  apply subseteq_take in Hm0. apply elem_of_app in Hm0 as [Hm0|Hm0].
  - right. rewrite (sortSlice_perm rt Hrt) in Hm0.
    destruct (interleaving_elem _ _ (fanIn_interleaving rt Hrt sent) m0 Hm0)
      as (w & [j Hj]%list_elem_of_lookup & Hw).
    apply mapM_Some in Hsent.
    destruct (Forall2_lookup_r _ _ _ _ _ Hsent Hj) as (id & _ & Hworker).
    unfold worker in Hworker. cbv zeta in Hworker.
    destruct (scan_region _ _ _ _ _ _ _ _ _) as [st|] eqn:Hscan; simpl in Hworker; [|done].
    injection Hworker as <-.
    pose proof (scan_region_scanned _ _ _ _ _ _ _ _ _ _ Hscan) as Hall.
    rewrite Forall_forall in Hall.
    destruct (Hall m0 Hw) as (x & y & sum & _ & _ & Hsum & ->).
    by exists x, y, sum.
  - left. by apply elem_of_replicate in Hm0 as [-> _].
Qed.

(** ** The in-order run-time is admissible *)

Lemma interleaving_skip (ws : list (list Match)) (l : list Match) :
  interleaving ws l → interleaving ([] :: ws) l.
Proof.
  induction 1 as [ws Hnil|ws i m q l Hi Hrest IH].
  - apply interleaving_nil. by constructor.
  - by apply (interleaving_cons _ (S i) m q).
Qed.

Lemma interleaving_drain (w : list Match) (ws : list (list Match)) (l : list Match) :
  interleaving ws l → interleaving (w :: ws) (w ++ l).
Proof.
  intros Hl. induction w as [|m q IH]; simpl.
  - by apply interleaving_skip.
  - by apply (interleaving_cons _ 0%nat m q).
Qed.

Lemma interleaving_mjoin (ws : list (list Match)) : interleaving ws (mjoin ws).
Proof.
  induction ws as [|w ws IH]; simpl.
  - apply interleaving_nil. constructor.
  - by apply interleaving_drain.
Qed.

Lemma insert_sorted_perm (less : Match → Match → bool) (x : Match) (l : list Match) :
  insert_sorted less x l ≡ₚ x :: l.
Proof.
  induction l as [|y l IH]; simpl; [done|].
  destruct (less y x); [|done]. rewrite IH. apply Permutation_swap.
Qed.

Lemma insertion_sort_perm (less : Match → Match → bool) (l : list Match) :
  insertion_sort less l ≡ₚ l.
Proof.
  induction l as [|x l IH]; simpl; [done|].
  rewrite insert_sorted_perm. by rewrite IH.
Qed.

Lemma in_order_admissible : admissible in_order.
Proof.
  split.
  - intros ws. apply interleaving_mjoin.
  - intros less l. apply insertion_sort_perm.
Qed.

(** ** The normalised score *)

Lemma wrap_int_small (z : Z) : - 2 ^ 63 ≤ z < 2 ^ 63 → wrap_int z = z.
Proof. intros Hz. unfold wrap_int. rewrite Z.mod_small; lia. Qed.

Lemma score_of_zero (d : Z) :
  0 < d →
  PrimFloat.sub 1%float (PrimFloat.mul 0%float (PrimFloat.div 1%float (float64_of_int d)))
    = 1%float.
Proof.
  intros Hd. apply Prim2SF_inj. rewrite sub_spec, mul_spec.
  destruct (recip_float64_of_int d Hd) as [Hfin Hsgn].
  destruct (Prim2SF (PrimFloat.div 1%float (float64_of_int d))) as [s|s| |s m e];
    simpl in Hfin, Hsgn; try done; subst s; reflexivity.
Qed.

Lemma score_le_one (sum d : Z) :
  0 ≤ sum < 2 ^ 53 → 0 < d →
  PrimFloat.leb
    (PrimFloat.sub 1%float
       (PrimFloat.mul (float64_of_int sum) (PrimFloat.div 1%float (float64_of_int d))))
    1%float = true.
Proof.
  intros Hsum Hd. rewrite leb_spec, sub_spec, mul_spec, Prim2SF_one.
  destruct (recip_float64_of_int d Hd) as [Hfin Hsgn].
  apply SFsub_one_le, SFmul_signed; try done.
  - apply float64_of_int_nonneg. lia.
  - destruct (Z.eq_dec sum 0) as [->|Hne]; [by rewrite float64_of_int_zero|].
    by rewrite float64_of_int_exact by lia.
Qed.

(** C6 (amended): of the matches [convolutionTopKParallel] returns for a
    needle at the origin, every one has a score at most 1, and every one
    whose rectangle is not the empty rectangle at the origin is the
    rectangle of an offset [(x, y)] with the score
    [1 - float64(rawSum) * norm], [norm = 1 / float64(w * h * 255 * 3)],
    each operation rounded to [float64], where [rawSum] is the raw
    dissimilarity of that offset; a raw sum of 0 gives exactly 1. *)
Theorem C6_score_is_one_minus_sum_times_norm (rt : Runtime) (numCPU : positive)
    (img subimg : RGBA) (k : Z) (result : Matches) :
  admissible rt →
  X (Min (Bounds subimg)) = 0 → Y (Min (Bounds subimg)) = 0 →
  0 < Dx (Bounds subimg) * Dy (Bounds subimg) * 255 * 3 < 2 ^ 63 →
  convolutionTopKParallel rt numCPU img subimg k = Some result →
  let norm := PrimFloat.div 1%float
                (float64_of_int (Dx (Bounds subimg) * Dy (Bounds subimg) * 255 * 3)) in
  Forall (λ m,
    PrimFloat.leb (m_Match m) 1%float = true ∧
    (m_Bounds m ≠ mkRectangle (mkPoint 0 0) (mkPoint 0 0) →
     ∃ x y rawSum,
       sumOfAbsDiffRGBA img x y subimg = Some rawSum ∧
       m_Bounds m = Rect x y (x + Dx (Bounds subimg)) (y + Dy (Bounds subimg)) ∧
       m_Match m = PrimFloat.sub 1%float (PrimFloat.mul (float64_of_int rawSum) norm) ∧
       (rawSum = 0 → m_Match m = 1%float)))
    result.
Proof.
  intros Hrt Hx Hy Harea Hres norm.
  assert (Hnorm : norm_of (Bounds subimg) = norm).
  { unfold norm_of, norm. unfold Dx, Dy in *. rewrite Hx, Hy, !Z.sub_0_r in *.
    set (a := X (Max (Bounds subimg)) * Y (Max (Bounds subimg))) in *.
    assert (0 < a) by nia.
    rewrite (wrap_int_small a) by lia.
    rewrite (wrap_int_small (a * 255)) by lia.
    rewrite (wrap_int_small (a * 255 * 3)) by lia. done. }
  pose proof (convolutionTopKParallel_elements _ _ _ _ _ _ Hrt Hres) as Hall.
  rewrite Hnorm in Hall.
  eapply Forall_impl; [exact Hall|]. clear Hall.
  intros m (m0 & -> & [->|(x & y & sum & Hsum & ->)]); cbn [normalize m_Match m_Bounds].
  - split; [|done].
    change (m_Match zeroMatch) with 0%float. unfold norm.
    rewrite score_of_zero by lia. reflexivity.
  - pose proof (sumOfAbsDiffRGBA_range _ _ _ _ _ Hsum) as Hrange.
    cbn [candidate fst snd m_Match m_Bounds]. split.
    + apply score_le_one; lia.
    + intros _. exists x, y, sum. repeat split; try done.
      intros ->. change (float64_of_int 0) with 0%float. apply score_of_zero. lia.
Qed.

Lemma C6_score_is_one_minus_sum_times_norm_witness :
  let haystack := uniform x00 3 3 in
  let needle := uniform x10 2 2 in
  let result := default [] (convolutionTopKParallel in_order 4 haystack needle 2) in
  admissible in_order ∧
  X (Min (Bounds needle)) = 0 ∧ Y (Min (Bounds needle)) = 0 ∧
  0 < Dx (Bounds needle) * Dy (Bounds needle) * 255 * 3 < 2 ^ 63 ∧
  convolutionTopKParallel in_order 4 haystack needle 2 = Some result ∧
  Forall (λ m, PrimFloat.leb (m_Match m) 1%float = true) result.
Proof.
  intros haystack needle result.
  assert (H1 : X (Min (Bounds needle)) = 0) by reflexivity.
  assert (H2 : Y (Min (Bounds needle)) = 0) by reflexivity.
  assert (H3 : 0 < Dx (Bounds needle) * Dy (Bounds needle) * 255 * 3 < 2 ^ 63)
    by (vm_compute; split; reflexivity).
  assert (H4 : convolutionTopKParallel in_order 4 haystack needle 2 = Some result)
    by (vm_compute; reflexivity).
  refine (conj in_order_admissible (conj H1 (conj H2 (conj H3 (conj H4 _))))).
  eapply Forall_impl;
    [exact (C6_score_is_one_minus_sum_times_norm in_order 4 haystack needle 2 result
              in_order_admissible H1 H2 H3 H4)|].
  intros m Hm. exact (proj1 Hm).
Defined.

(** C6, as stated, fails on a black 2 by 2 haystack and a white 1 by 1
    needle with [k = 2]: the only offset has the raw sum 765, for which the
    stated formula gives [1 - 765 / 765 = 0], and the matcher returns the
    score [2^-53] for it, followed by a match of score 1 whose rectangle
    [(0,0)-(0,0)] belongs to no offset. *)
Lemma C6_counterexample_score_not_stated_value :
  let haystack := uniform x00 2 2 in
  let needle := uniform xff 1 1 in
  let stated := PrimFloat.sub 1%float
                  (PrimFloat.div (float64_of_int 765) (float64_of_int (1 * 1 * 255 * 3))) in
  sumOfAbsDiffRGBA haystack 0 0 needle = Some 765 ∧
  stated = 0%float ∧
  convolutionTopKParallel in_order 4 haystack needle 2
    = Some [mkMatch (Rect 0 0 1 1) 0x1p-53%float;
            mkMatch (mkRectangle (mkPoint 0 0) (mkPoint 0 0)) 1%float] ∧
  0x1p-53%float ≠ stated ∧ 1%float ≠ stated.
Proof.
  intros haystack needle stated.
  repeat (split; [vm_compute; reflexivity|]).
  split; intros H; apply (f_equal Prim2SF) in H; vm_compute in H; discriminate H.
Qed.

(** ** Scaling by a power of two *)

Lemma Prim2SF_pow2_float (e : Z) :
  -1022 ≤ e ≤ 1023 → Prim2SF (pow2_float e) = S754_finite false (2 ^ 52)%positive (e - 52).
Proof.
  intros He. unfold pow2_float. apply Prim2SF_SF2Prim.
  unfold SpecFloat.valid_binary, bounded, canonical_mantissa.
  change (Z.pos (digits2_pos (2 ^ 52))) with 53. rewrite fexp64.
  change (emax - prec) with 971.
  apply andb_true_intro. split; [apply Z.eqb_eq; lia|apply Z.leb_le; lia].
Qed.

(** The product of a converted integer below [2^53] and a power of two is
    exact. *)
Lemma mul_pow2_exact (c e : Z) :
  0 < c < 2 ^ 53 → -1000 ≤ e ≤ 900 →
  Prim2SF (PrimFloat.mul (float64_of_int c) (pow2_float e))
    = S754_finite false (Z.to_pos (c * 2 ^ (53 - Zdigits2 c))) (Zdigits2 c - 53 + e).
Proof.
  intros Hc He.
  rewrite mul_spec, float64_of_int_exact, Prim2SF_pow2_float by lia.
  pose proof (Zdigits2_bounds c ltac:(lia)) as [Hlo Hhi].
  assert (HD : 0 < Zdigits2 c ≤ 53)
    by (split; [apply Zdigits2_pos; lia|apply Zdigits2_le; lia]).
  set (D := Zdigits2 c) in *.
  assert (Hpow : 0 < 2 ^ (53 - D)) by (apply Z.pow_pos_nonneg; lia).
  assert (Hm : 2 ^ 52 ≤ c * 2 ^ (53 - D) < 2 ^ 53).
  { assert (E52 : 2 ^ 52 = 2 ^ (D - 1) * 2 ^ (53 - D))
      by (rewrite <- Z.pow_add_r by lia; f_equal; lia).
    assert (E53 : 2 ^ 53 = 2 ^ D * 2 ^ (53 - D))
      by (rewrite <- Z.pow_add_r by lia; f_equal; lia).
    rewrite E52, E53. split; nia. }
  set (mc := Z.to_pos (c * 2 ^ (53 - D))).
  assert (Hmc : Z.pos mc = c * 2 ^ (53 - D)) by (subst mc; rewrite Z2Pos.id; lia).
  unfold SF64mul. cbn [SFmul xorb].
  rewrite Pos2Z.inj_mul.
  change (Z.pos (2 ^ 52)) with (2 ^ 52).
  replace (D - 53 + (e - 52)) with (D - 53 + e - 52) by lia.
  apply binary_round_aux_exact; [lia| |change (emax - prec) with 971; lia].
  assert (Hd : Z.pos (digits2_pos mc) = 53).
  { apply (Zdigits2_unique (Z.pos mc) 53); [|lia]. rewrite Hmc. simpl; lia. }
  rewrite Hd, fexp64. lia.
Qed.

Lemma int_of_float64_finite (f : float) (m : positive) (e : Z) :
  Prim2SF f = S754_finite false m e →
  (if 0 <=? e then Z.pos m * 2 ^ e else Z.pos m / 2 ^ (- e)) < 2 ^ 63 →
  int_of_float64 f = if 0 <=? e then Z.pos m * 2 ^ e else Z.pos m / 2 ^ (- e).
Proof.
  intros Hf Hlt. unfold int_of_float64. rewrite Hf.
  set (a := if 0 <=? e then Z.pos m * 2 ^ e else Z.pos m / 2 ^ (- e)) in *.
  assert (0 ≤ a).
  { subst a. destruct (0 <=? e) eqn:He.
    - apply Z.leb_le in He. assert (0 < 2 ^ e) by (apply Z.pow_pos_nonneg; lia). nia.
    - apply Z.leb_gt in He. apply Z.div_pos; [lia|apply Z.pow_pos_nonneg; lia]. }
  destruct (Z.leb_spec (- 2 ^ 63) a); [|lia].
  destruct (Z.ltb_spec a (2 ^ 63)); [done|lia].
Qed.

Lemma scale_down (c j : Z) :
  0 ≤ c < 2 ^ 53 → 0 ≤ j ≤ 900 →
  int_of_float64 (PrimFloat.mul (float64_of_int c) (pow2_float (- j))) = c / 2 ^ j.
Proof.
  intros Hc Hj. destruct (Z.eq_dec c 0) as [->|Hne].
  { unfold int_of_float64.
    rewrite mul_spec, float64_of_int_zero, Prim2SF_pow2_float by lia.
    rewrite Z.div_0_l by (apply Z.pow_nonzero; lia). reflexivity. }
  pose proof (Zdigits2_bounds c ltac:(lia)) as [Hlo Hhi].
  assert (HD : 0 < Zdigits2 c ≤ 53)
    by (split; [apply Zdigits2_pos; lia|apply Zdigits2_le; lia]).
  set (D := Zdigits2 c) in *.
  assert (Hpow : 0 < 2 ^ (53 - D)) by (apply Z.pow_pos_nonneg; lia).
  assert (Hpowj : 0 < 2 ^ j) by (apply Z.pow_pos_nonneg; lia).
  assert (Hval : (if 0 <=? D - 53 + - j
                  then Z.pos (Z.to_pos (c * 2 ^ (53 - D))) * 2 ^ (D - 53 + - j)
                  else Z.pos (Z.to_pos (c * 2 ^ (53 - D))) / 2 ^ (- (D - 53 + - j)))
                 = c / 2 ^ j).
  { rewrite Z2Pos.id by nia.
    destruct (Z.leb_spec 0 (D - 53 + - j)).
    - assert (D = 53) by lia. assert (j = 0) by lia. subst j.
      replace (D - 53 + - 0) with 0 by lia. replace (53 - D) with 0 by lia.
      rewrite !Z.pow_0_r, Z.div_1_r. lia.
    - replace (- (D - 53 + - j)) with (j + (53 - D)) by lia.
      rewrite Z.pow_add_r by lia.
      apply Z.div_mul_cancel_r; lia. }
  rewrite (int_of_float64_finite _ _ _ (mul_pow2_exact c (- j) ltac:(lia) ltac:(lia))).
  - exact Hval.
  - fold D. rewrite Hval.
    assert (c / 2 ^ j ≤ c) by (apply Z.div_le_upper_bound; nia). lia.
Qed.

Lemma scale_up (y j : Z) :
  0 ≤ y → 0 ≤ j ≤ 900 → y * 2 ^ j < 2 ^ 53 →
  int_of_float64 (PrimFloat.mul (float64_of_int y) (pow2_float j)) = y * 2 ^ j.
Proof.
  intros Hy Hj Hfit. destruct (Z.eq_dec y 0) as [->|Hne].
  { unfold int_of_float64.
    rewrite mul_spec, float64_of_int_zero, Prim2SF_pow2_float by lia. reflexivity. }
  assert (Hpowj : 0 < 2 ^ j) by (apply Z.pow_pos_nonneg; lia).
  assert (Hy53 : y < 2 ^ 53) by nia.
  pose proof (Zdigits2_bounds y ltac:(lia)) as [Hlo Hhi].
  assert (HD : 0 < Zdigits2 y) by (apply Zdigits2_pos; lia).
  set (D := Zdigits2 y) in *.
  assert (HDj : D + j ≤ 53).
  { destruct (Z_le_gt_dec (D + j) 53) as [|Hgt]; [done|].
    assert (2 ^ 53 ≤ 2 ^ (D - 1 + j)) by (apply Z.pow_le_mono_r; lia).
    rewrite Z.pow_add_r in H by lia. nia. }
  assert (Hpow : 0 < 2 ^ (53 - D - j)) by (apply Z.pow_pos_nonneg; lia).
  assert (Hsplit : 2 ^ (53 - D) = 2 ^ j * 2 ^ (53 - D - j)).
  { rewrite <- Z.pow_add_r by lia. f_equal. lia. }
  assert (Hval : (if 0 <=? D - 53 + j
                  then Z.pos (Z.to_pos (y * 2 ^ (53 - D))) * 2 ^ (D - 53 + j)
                  else Z.pos (Z.to_pos (y * 2 ^ (53 - D))) / 2 ^ (- (D - 53 + j)))
                 = y * 2 ^ j).
  { rewrite Z2Pos.id by (rewrite Hsplit; nia).
    destruct (Z.leb_spec 0 (D - 53 + j)).
    - replace (D - 53 + j) with 0 by lia. replace (53 - D) with j by lia.
      rewrite Z.pow_0_r. lia.
    - replace (- (D - 53 + j)) with (53 - D - j) by lia.
      rewrite Hsplit, Z.mul_assoc. apply Z.div_mul. lia. }
  rewrite (int_of_float64_finite _ _ _ (mul_pow2_exact y j ltac:(lia) ltac:(lia))).
  - exact Hval.
  - fold D. rewrite Hval. lia.
Qed.

Lemma recip_pow2_float (j : Z) :
  0 ≤ j ≤ 900 → PrimFloat.div 1%float (pow2_float (- j)) = pow2_float j.
Proof.
  intros Hj. apply Prim2SF_inj.
  rewrite div_spec, Prim2SF_one, !Prim2SF_pow2_float by lia.
  unfold SF64div, SFdiv, SFdiv_core_binary. cbv zeta.
  change (Zdigits2 (Z.pos (2 ^ 52))) with 53.
  replace (53 + -52 - (53 + (- j - 52))) with j by lia.
  replace (-52 - (- j - 52)) with j by lia.
  rewrite fexp64.
  replace (Z.min (Z.max (j - 53) (-1074)) j) with (j - 53) by lia.
  replace (j - (j - 53)) with 53 by lia.
  change (Z.div_eucl (Z.shiftl (Z.pos (2 ^ 52)) 53) (Z.pos (2 ^ 52))) with (2 ^ 53, 0).
  change (new_location (Z.pos (2 ^ 52)) 0) with loc_Exact.
  cbn [xorb].
  change (2 ^ 53) with (Z.pos (2 ^ 52) * 2 ^ 1).
  replace (j - 53) with (j - 52 - 1) by lia.
  apply binary_round_aux_exact; [lia| |change (emax - prec) with 971; lia].
  change (Z.pos (digits2_pos (2 ^ 52))) with 53. rewrite fexp64. lia.
Qed.

(** At a scale that is a power of two the round trip of a coordinate
    clears its low bits and nothing else. *)
Lemma round_trip_coordinate (c j : Z) :
  0 ≤ c < 2 ^ 53 → 0 ≤ j ≤ 900 →
  truncated_to j c
    (int_of_float64
       (PrimFloat.mul
          (float64_of_int
             (int_of_float64 (PrimFloat.mul (float64_of_int c) (pow2_float (- j)))))
          (PrimFloat.div 1%float (pow2_float (- j))))).
Proof.
  intros Hc Hj.
  assert (Hpowj : 0 < 2 ^ j) by (apply Z.pow_pos_nonneg; lia).
  pose proof (Z.div_mod c (2 ^ j) ltac:(lia)) as Hdm.
  pose proof (Z.mod_pos_bound c (2 ^ j) Hpowj) as Hmod.
  assert (0 ≤ c / 2 ^ j) by (apply Z.div_pos; lia).
  rewrite scale_down, recip_pow2_float, scale_up by (try done; nia).
  unfold truncated_to. split; [done|nia].
Qed.

(** ** Zero-sized rasters in the driver *)

Lemma SFmul_zero_or_nan_l (x y : spec_float) :
  SF_zero_or_nan x → SF_zero_or_nan (SFmul prec emax x y).
Proof. destruct x as [sx|sx| |sx mx ex], y as [sy|sy| |sy my ey]; done. Qed.

Lemma SFmul_zero_or_nan_r (x y : spec_float) :
  SF_zero_or_nan y → SF_zero_or_nan (SFmul prec emax x y).
Proof. destruct x as [sx|sx| |sx mx ex], y as [sy|sy| |sy my ey]; done. Qed.

Lemma SFdiv_zero_or_nan_l (x y : spec_float) :
  SF_zero_or_nan x → SF_zero_or_nan (SFdiv prec emax x y).
Proof. destruct x as [sx|sx| |sx mx ex], y as [sy|sy| |sy my ey]; done. Qed.

Lemma SF_signed_nonneg (x : spec_float) : SF_signed false x → SF_nonneg_or_nan x.
Proof. by destruct x. Qed.

Lemma SFmul_nonneg_or_nan (x y : spec_float) :
  SF_nonneg_or_nan x → SF_nonneg_or_nan y → SF_nonneg_or_nan (SFmul prec emax x y).
Proof.
  destruct x as [sx|sx| |sx mx ex], y as [sy|sy| |sy my ey];
    unfold SF_nonneg_or_nan; try done; intros -> ->; try done.
  cbn [SFmul xorb].
  destruct (binary_round_aux_shape false (Z.pos (mx * my)) (ex + ey) loc_Exact ltac:(lia))
    as (m2 & -> & _).
  apply SF_signed_nonneg, finish_round_signed.
Qed.

Lemma SFdiv_nonneg_or_nan (x y : spec_float) :
  SF_nonneg_or_nan x → SF_nonneg_or_nan y → SF_nonneg_or_nan (SFdiv prec emax x y).
Proof.
  destruct x as [sx|sx| |sx mx ex], y as [sy|sy| |sy my ey];
    unfold SF_nonneg_or_nan; try done; intros -> ->; try done.
  unfold SFdiv, SFdiv_core_binary. cbv zeta. cbn [xorb].
  set (s := ex - ey - _).
  set (m' := match s with
             | 0 => Z.pos mx
             | Z.pos _ => Z.shiftl (Z.pos mx) s
             | Z.neg _ => 0
             end).
  assert (Hm' : 0 ≤ m').
  { subst m'. destruct s as [|q|q]; try lia. apply Z.shiftl_nonneg. lia. }
  pose proof (Z_div_mod m' (Z.pos my) ltac:(lia)) as Hdm.
  destruct (Z.div_eucl m' (Z.pos my)) as [q r]. destruct Hdm as [Heq Hr].
  assert (Hq : 0 ≤ q) by nia.
  destruct (binary_round_aux_shape false q
              (Z.min (fexp prec emax (Zdigits2 (Z.pos mx) + ex - (Zdigits2 (Z.pos my) + ey)))
                     (ex - ey))
              (new_location (Z.pos my) r) Hq) as (m2 & -> & _).
  apply SF_signed_nonneg, finish_round_signed.
Qed.

Lemma int_of_float64_zero_or_nan (f : float) :
  SF_zero_or_nan (Prim2SF f) → int_of_float64 f = 0 ∨ int_of_float64 f = - 2 ^ 63.
Proof.
  unfold int_of_float64. destruct (Prim2SF f); simpl; try done; auto.
Qed.

Lemma int_of_float64_nonneg_or_nan (f : float) :
  SF_nonneg_or_nan (Prim2SF f) → 0 ≤ int_of_float64 f ∨ int_of_float64 f = - 2 ^ 63.
Proof.
  unfold int_of_float64. destruct (Prim2SF f) as [s|s| |s m e]; simpl; auto.
  - left. lia.
  - intros ->.
    set (a := if 0 <=? e then Z.pos m * 2 ^ e else Z.pos m / 2 ^ (- e)).
    assert (0 ≤ a).
    { subst a. destruct (0 <=? e) eqn:He.
      - apply Z.leb_le in He. assert (0 < 2 ^ e) by (apply Z.pow_pos_nonneg; lia). nia.
      - apply Z.leb_gt in He. apply Z.div_pos; [lia|apply Z.pow_pos_nonneg; lia]. }
    destruct ((- 2 ^ 63 <=? a) && (a <? 2 ^ 63)); [left; lia|right; done].
Qed.

Lemma int_of_float64_range (f : float) : - 2 ^ 63 ≤ int_of_float64 f < 2 ^ 63.
Proof.
  unfold int_of_float64, int_indefinite. destruct (Prim2SF f) as [s|s| |s m e]; try lia.
  destruct (_ && _) eqn:Hin; [|lia].
  apply andb_prop in Hin as [H1%Z.leb_le H2%Z.ltb_lt]. lia.
Qed.

Lemma wrap_int_indefinite_mul (n : Z) :
  wrap_int (- 2 ^ 63 * n) = 0 ∨ wrap_int (- 2 ^ 63 * n) = - 2 ^ 63.
Proof.
  unfold wrap_int.
  destruct (Z.even n) eqn:Hpar.
  - apply Z.even_spec in Hpar as [t ->]. left.
    replace (- 2 ^ 63 * (2 * t) + 2 ^ 63) with (2 ^ 63 + (- t) * 2 ^ 64) by lia.
    rewrite Z.mod_add by lia. reflexivity.
  - assert (Hodd : Z.odd n = true) by (rewrite <- Z.negb_even, Hpar; done).
    apply Z.odd_spec in Hodd as [t ->]. right.
    replace (- 2 ^ 63 * (2 * t + 1) + 2 ^ 63) with (0 + (- t) * 2 ^ 64) by lia.
    rewrite Z.mod_add by lia. reflexivity.
Qed.

(** An area one of whose factors is zero or the indefinite integer is not
    positive. *)
Lemma sarea_not_positive (sw sh : Z) :
  (sw = 0 ∨ sw = - 2 ^ 63) ∨ (sh = 0 ∨ sh = - 2 ^ 63) → wrap_int (sw * sh) ≤ 0.
Proof.
  intros [[->| ->]|[->| ->]].
  - rewrite Z.mul_0_l. reflexivity.
  - destruct (wrap_int_indefinite_mul sh) as [-> | ->]; lia.
  - rewrite Z.mul_0_r. reflexivity.
  - rewrite Z.mul_comm. destruct (wrap_int_indefinite_mul sw) as [-> | ->]; lia.
Qed.

Section zero_sized.

Context {Image : Type}.
Variable Image_Bounds : Image → Rectangle.
Variable CatmullRom_Scale : Rectangle → Image → list byte.
Variable rt : Runtime.
Variable numCPU : positive.
Variable subsrc imgsrc : Image.

Local Abbreviation resize := (resizeImage Image_Bounds CatmullRom_Scale).

Lemma sub_size_nonneg_or_nan (imgScale : float) (n : Z) :
  0 ≤ n → SF_nonneg_or_nan (Prim2SF imgScale) →
  SF_nonneg_or_nan
    (Prim2SF (PrimFloat.mul
                (PrimFloat.mul (float64_of_int n) (PrimFloat.div 1%float (float64_of_int 1)))
                imgScale)) ∧
  (n = 0 →
   SF_zero_or_nan
     (Prim2SF (PrimFloat.mul
                 (PrimFloat.mul (float64_of_int n) (PrimFloat.div 1%float (float64_of_int 1)))
                 imgScale))).
Proof.
  intros Hn Hscale.
  change (PrimFloat.div 1%float (float64_of_int 1)) with 1%float.
  rewrite !mul_spec. split.
  - apply SFmul_nonneg_or_nan; [|done].
    apply SFmul_nonneg_or_nan; [|by rewrite Prim2SF_one].
    by apply SF_signed_nonneg, float64_of_int_nonneg.
  - intros ->. apply SFmul_zero_or_nan_l, SFmul_zero_or_nan_l.
    by rewrite float64_of_int_zero.
Qed.

(** With a needle of zero width or height, or a haystack resized to height
    1, the first inner step takes the [break] of the size guard. *)
Lemma first_step_breaks (opts : Opts) (img : RGBA) (imgWidth imgHeight : Z)
    (imgScale lastTopMatch : float) (matches : Matches) (subruns : nat) :
  0 ≤ Dx (Image_Bounds subsrc) → 0 ≤ Dy (Image_Bounds subsrc) →
  1 ≤ subMinArea opts →
  SF_nonneg_or_nan (Prim2SF imgScale) →
  Dx (Image_Bounds subsrc) = 0 ∨ Dy (Image_Bounds subsrc) = 0 ∨ imgHeight = 1 →
  inner_body Image_Bounds CatmullRom_Scale rt numCPU subsrc opts
    img imgWidth imgHeight imgScale 1 lastTopMatch matches subruns = Some (Break matches).
Proof.
  intros Hdx Hdy Harea Hscale Hzero. unfold inner_body, sub_size. cbv zeta.
  destruct (sub_size_nonneg_or_nan imgScale _ Hdx Hscale) as [Hsw Hsw0].
  destruct (sub_size_nonneg_or_nan imgScale _ Hdy Hscale) as [Hsh Hsh0].
  apply int_of_float64_nonneg_or_nan in Hsw, Hsh.
  set (sw := int_of_float64
               (PrimFloat.mul
                  (PrimFloat.mul (float64_of_int (Dx (Image_Bounds subsrc))) _) imgScale)) in *.
  set (sh := int_of_float64
               (PrimFloat.mul
                  (PrimFloat.mul (float64_of_int (Dy (Image_Bounds subsrc))) _) imgScale)) in *.
  assert (Hguard : (wrap_int (sw * sh) <? subMinArea opts) || (imgWidth <=? sw)
                   || (imgHeight <=? sh) = true).
  { destruct Hzero as [H0|[H0|H1]].
    - specialize (Hsw0 H0). apply int_of_float64_zero_or_nan in Hsw0. fold sw in Hsw0.
      pose proof (sarea_not_positive sw sh (or_introl Hsw0)).
      destruct (Z.ltb_spec (wrap_int (sw * sh)) (subMinArea opts)); [done|lia].
    - specialize (Hsh0 H0). apply int_of_float64_zero_or_nan in Hsh0. fold sh in Hsh0.
      pose proof (sarea_not_positive sw sh (or_intror Hsh0)).
      destruct (Z.ltb_spec (wrap_int (sw * sh)) (subMinArea opts)); [done|lia].
    - subst imgHeight. destruct (Z_le_gt_dec 1 sh) as [Hbig|Hsmall].
      + destruct (Z.leb_spec 1 sh); [|lia]. by rewrite !orb_true_r.
      + assert (Hsh' : sh = 0 ∨ sh = - 2 ^ 63) by lia.
        pose proof (sarea_not_positive sw sh (or_intror Hsh')).
        destruct (Z.ltb_spec (wrap_int (sw * sh)) (subMinArea opts)); [done|lia]. }
  rewrite Hguard. done.
Qed.

Lemma level_breaks (opts : Opts) (fuel : nat) (img : RGBA) (imgWidth imgHeight : Z)
    (imgScale : float) (matches : Matches) :
  0 ≤ Dx (Image_Bounds subsrc) → 0 ≤ Dy (Image_Bounds subsrc) →
  1 ≤ subMinArea opts →
  SF_nonneg_or_nan (Prim2SF imgScale) →
  Dx (Image_Bounds subsrc) = 0 ∨ Dy (Image_Bounds subsrc) = 0 ∨ imgHeight = 1 →
  inner_loop Image_Bounds CatmullRom_Scale rt numCPU subsrc opts (S fuel)
    img imgWidth imgHeight imgScale 1 0%float matches 0 = Returns (matches, false).
Proof.
  intros Hdx Hdy Harea Hscale Hzero. cbn [inner_loop].
  destruct (subMaxDiv opts <? 1); [done|].
  by rewrite first_step_breaks.
Qed.


Lemma imgScale_nonneg_or_nan (w W : Z) :
  0 ≤ w → 0 ≤ W →
  SF_nonneg_or_nan (Prim2SF (PrimFloat.div (float64_of_int w) (float64_of_int W))).
Proof.
  intros Hw HW. rewrite div_spec.
  apply SFdiv_nonneg_or_nan; by apply SF_signed_nonneg, float64_of_int_nonneg.
Qed.




End zero_sized.

(** Widths at which the outer loop makes no progress: the least [int],
    whose double wraps to 0, and 0 itself. *)
Section endless.

Context {Image : Type}.
Variable Image_Bounds : Image → Rectangle.
Variable CatmullRom_Scale : Rectangle → Image → list byte.
Variable rt : Runtime.
Variable numCPU : positive.
Variable subsrc imgsrc : Image.
Variable opts : Opts.

Local Abbreviation resize := (resizeImage Image_Bounds CatmullRom_Scale).
Local Abbreviation body := (inner_body Image_Bounds CatmullRom_Scale rt numCPU subsrc opts).
Local Abbreviation inner := (inner_loop Image_Bounds CatmullRom_Scale rt numCPU subsrc opts).
Local Abbreviation outer :=
  (outer_loop Image_Bounds CatmullRom_Scale rt numCPU subsrc opts imgsrc).

Hypothesis needle_dx : 0 ≤ Dx (Image_Bounds subsrc).
Hypothesis needle_dy : 0 ≤ Dy (Image_Bounds subsrc).
Hypothesis area : 1 ≤ subMinArea opts.
Hypothesis haystack_width : 0 ≤ X (Max (Image_Bounds imgsrc)).
Hypothesis max_width : 0 ≤ imgMaxWidth opts.

Lemma resize_zero_width : Y (Max (Bounds (resize imgsrc 0 0))) = 1.
Proof.
  unfold resizeImage. cbv zeta. cbn [Z.eqb].
  set (width := int_of_float64 _).
  assert (Hwidth : width = 0 ∨ width = - 2 ^ 63).
  { apply int_of_float64_zero_or_nan. rewrite div_spec, mul_spec.
    apply SFdiv_zero_or_nan_l, SFmul_zero_or_nan_l. by rewrite float64_of_int_zero. }
  destruct (Z.ltb_spec width 1); [|lia]. cbn [Z.ltb Z.compare Bounds]. done.
Qed.

(** At width 0 a level leaves the result as it is, and [imgWidth *= 2]
    leaves the width at 0. *)
Lemma outer_loop_stuck (fuel : nat) (matches : Matches) : outer fuel 0 matches = OutOfFuel.
Proof.
  induction fuel as [|fuel IH]; [done|]. cbn [outer_loop].
  destruct (Z.ltb_spec (imgMaxWidth opts) 0); [lia|]. cbv zeta.
  rewrite level_breaks; [exact IH|done|done|done| |].
  - apply imgScale_nonneg_or_nan; [done|done].
  - right; right. apply resize_zero_width.
Qed.

(** At the least [int] every needle size is at least the width, so the
    first inner step leaves the level. *)
Lemma least_width_breaks (fuel : nat) (img : RGBA) (imgHeight : Z) (imgScale : float)
    (matches : Matches) :
  inner (S fuel) img (- 2 ^ 63) imgHeight imgScale 1 0%float matches 0
    = Returns (matches, false).
Proof.
  cbn [inner_loop]. destruct (subMaxDiv opts <? 1); [done|].
  unfold inner_body. destruct (sub_size _ _ _ _) as [sw sh] eqn:Hsize. cbv zeta.
  assert (Hsw : - 2 ^ 63 ≤ sw).
  { unfold sub_size in Hsize. cbv zeta in Hsize. injection Hsize as <- _.
    apply int_of_float64_range. }
  destruct (Z.leb_spec (- 2 ^ 63) sw) as [_|]; [|lia].
  by rewrite orb_true_r.
Qed.

End endless.



(** * Further properties of the code *)

(** ** The two byte-slice metrics *)

Lemma wrap_uint8_small z : 0 ≤ z < 2 ^ 8 → wrap_uint8 z = z.
Proof. intros Hz. unfold wrap_uint8. by rewrite Z.mod_small. Qed.

Lemma uint8_abs_diff (a b : byte) :
  (if u8 b <? u8 a then wrap_uint8 (u8 a - u8 b) else wrap_uint8 (u8 b - u8 a))
    = bitwiseAbsDiff a b.
Proof.
  rewrite bitwiseAbsDiff_abs.
  pose proof (u8_range a). pose proof (u8_range b).
  destruct (Z.ltb_spec (u8 b) (u8 a)); rewrite wrap_uint8_small; lia.
Qed.

(** X1: The branching [rgbAbsSumSlice] and the branch-free
    [rgbAbsSumSliceBitwise] that replaced it in [sumOfAbsDiffRGBA] agree on
    all slices: they panic on the same arguments, those with a slice of
    fewer than three bytes, and return the same sum on all others. *)
Theorem rgbAbsSumSlice_bitwise_agree (a b : list byte) :
  rgbAbsSumSlice a b = rgbAbsSumSliceBitwise a b ∧
  (rgbAbsSumSlice a b = None ↔ (length a < 3)%nat ∨ (length b < 3)%nat).
Proof.
  unfold rgbAbsSumSlice, rgbAbsSumSliceBitwise. split.
  - destruct (a !! 0%nat) as [a0|]; [|done]. destruct (a !! 1%nat) as [a1|]; [|done].
    destruct (a !! 2%nat) as [a2|]; [|done]. destruct (b !! 0%nat) as [b0|]; [|done].
    destruct (b !! 1%nat) as [b1|]; [|done]. destruct (b !! 2%nat) as [b2|]; [|done].
    cbn. by rewrite !uint8_abs_diff.
  - destruct a as [|a0 [|a1 [|a2 a]]], b as [|b0 [|b1 [|b2 b]]]; cbn;
      split; try done; try (intros _; lia); intros [?|?]; lia.
Qed.

(** ** The number of matches of the parallel matcher *)

Lemma reslice_length (matches kept : list Match) (k capacity : Z) :
  reslice matches k capacity = Some kept → Z.of_nat (length kept) = k.
Proof.
  unfold reslice. destruct (decide _) as [[Hk Hcap]|]; [|done].
  intros [= <-]. rewrite length_take, length_app, length_replicate. lia.
Qed.

(** X2: Whenever [convolutionTopKParallel] returns, it returns exactly
    [max(k, 1)] matches, whatever the number of offsets: the result is never
    empty, so the test [len(divMatches) == 0] of [findImage] never
    succeeds and [divMatches[0]] never panics. *)
Theorem convolutionTopKParallel_length (rt : Runtime) (numCPU : positive)
    (img subimg : RGBA) (k : Z) (result : Matches) :
  convolutionTopKParallel rt numCPU img subimg k = Some result →
  Z.of_nat (length result) = Z.max k 1 ∧
  (length result =? 0)%nat = false ∧
  is_Some (result !! 0%nat).
Proof.
  unfold convolutionTopKParallel. cbv zeta. intros Hres.
  destruct (mapM _ _) as [sent|]; [|done]. cbn in Hres.
  destruct (makeslice_Match _) as [made|]; [|done]. cbn in Hres.
  destruct (reslice _ _ _) as [kept|] eqn:Hlen; [|done].
  injection Hres as <-. apply reslice_length in Hlen.
  rewrite length_fmap.
  assert (Hk : Z.of_nat (length kept) = Z.max k 1)
    by (rewrite Hlen; destruct (Z.ltb_spec k 1); lia).
  split; [done|]. split.
  - apply Nat.eqb_neq. lia.
  - rewrite list_lookup_fmap. apply fmap_is_Some, lookup_lt_is_Some. lia.
Qed.

Lemma convolutionTopKParallel_length_witness :
  convolutionTopKParallel in_order 4 (uniform x00 8 8) (uniform x00 6 6) 6
    = Some (default [] (convolutionTopKParallel in_order 4 (uniform x00 8 8) (uniform x00 6 6) 6)) ∧
  Z.of_nat (length (default [] (convolutionTopKParallel in_order 4 (uniform x00 8 8)
                                  (uniform x00 6 6) 6))) = Z.max 6 1.
Proof.
  assert (H : convolutionTopKParallel in_order 4 (uniform x00 8 8) (uniform x00 6 6) 6
              = Some (default [] (convolutionTopKParallel in_order 4 (uniform x00 8 8)
                                    (uniform x00 6 6) 6))) by (vm_compute; reflexivity).
  split; [exact H|].
  exact (proj1 (convolutionTopKParallel_length in_order 4 _ _ 6 _ H)).
Defined.

(** ** The options and the loops of the driver *)

Section driver.

Context {Image : Type}.
Variable Image_Bounds : Image → Rectangle.
Variable CatmullRom_Scale : Rectangle → Image → list byte.
Variable rt : Runtime.
Variable numCPU : positive.
Variable subsrc imgsrc : Image.

Local Abbreviation find := (findImage Image_Bounds CatmullRom_Scale rt numCPU).
Local Abbreviation inner := (inner_loop Image_Bounds CatmullRom_Scale rt numCPU subsrc).
Local Abbreviation outer := (outer_loop Image_Bounds CatmullRom_Scale rt numCPU subsrc).

(** X3: An option left at 0 takes the value of [DEFAULT_OPTS], so a search with
    the zero [Opts] is the search with the defaults; and a maximum width
    above the width of the haystack is the width of the haystack. *)
Theorem findImage_option_defaults (fuel : nat) (opts : Opts) :
  find fuel imgsrc subsrc (mkOpts 0 0 0 0 0) = find fuel imgsrc subsrc DEFAULT_OPTS ∧
  (imgMaxWidth opts ≠ 0 → X (Max (Image_Bounds imgsrc)) ≠ 0 →
   X (Max (Image_Bounds imgsrc)) < imgMaxWidth opts →
   find fuel imgsrc subsrc opts
     = find fuel imgsrc subsrc
         (mkOpts (imgMinWidth opts) (X (Max (Image_Bounds imgsrc))) (subMinArea opts)
                 (subMaxDiv opts) (opt_k opts))).
Proof.
  split; [reflexivity|].
  intros Hmax Hw Hlt. unfold findImage. cbv zeta. cbn [imgMinWidth imgMaxWidth subMinArea subMaxDiv opt_k].
  destruct (Z.eqb_spec (imgMaxWidth opts) 0); [done|].
  destruct (Z.eqb_spec (X (Max (Image_Bounds imgsrc))) 0); [done|].
  destruct (Z.ltb_spec (X (Max (Image_Bounds imgsrc))) (imgMaxWidth opts)); [|lia].
  rewrite Z.ltb_irrefl. done.
Qed.


(** X4: A haystack narrower than the minimum width is not searched at all:
    with the default options every haystack less than 8 pixels wide gives
    the empty result. *)
Theorem findImage_narrow_haystack (fuel : nat) (opts : Opts) :
  let minWidth := if imgMinWidth opts =? 0 then 8 else imgMinWidth opts in
  let maxWidth := if imgMaxWidth opts =? 0 then 256 else imgMaxWidth opts in
  X (Max (Image_Bounds imgsrc)) < minWidth ∨ maxWidth < minWidth →
  find (S fuel) imgsrc subsrc opts = Returns [].
Proof.
  intros minWidth maxWidth Hnarrow. unfold findImage. cbv zeta.
  change (imgMinWidth DEFAULT_OPTS) with 8. change (imgMaxWidth DEFAULT_OPTS) with 256.
  cbn [imgMinWidth imgMaxWidth subMinArea subMaxDiv opt_k].
  fold minWidth maxWidth.
  destruct (Z.ltb_spec (X (Max (Image_Bounds imgsrc))) maxWidth);
    cbn [outer_loop imgMinWidth imgMaxWidth];
    match goal with |- (if ?a <? ?b then _ else _) = _ => destruct (Z.ltb_spec a b) end;
    [done|lia|done|lia].
Qed.


End driver.

Lemma findImage_option_defaults_witness :
  let opts := mkOpts 8 64 25 4 2 in
  imgMaxWidth opts ≠ 0 ∧ X (Max (Bounds gradient_haystack)) ≠ 0 ∧
  X (Max (Bounds gradient_haystack)) < imgMaxWidth opts ∧
  findImage Bounds nearest_Scale in_order 1 9 gradient_haystack gradient_needle opts
    = findImage Bounds nearest_Scale in_order 1 9 gradient_haystack gradient_needle
        (mkOpts 8 8 25 4 2).
Proof.
  intros opts.
  assert (H1 : imgMaxWidth opts ≠ 0) by (simpl; lia).
  assert (H2 : X (Max (Bounds gradient_haystack)) ≠ 0) by (vm_compute; congruence).
  assert (H3 : X (Max (Bounds gradient_haystack)) < imgMaxWidth opts) by (vm_compute; reflexivity).
  refine (conj H1 (conj H2 (conj H3 _))).
  exact (proj2 (findImage_option_defaults Bounds nearest_Scale in_order 1 gradient_needle
                  gradient_haystack 9 opts) H1 H2 H3).
Defined.

Lemma findImage_narrow_haystack_witness :
  let haystack := uniform x00 7 7 in
  (X (Max (Bounds haystack)) < 8 ∨ 256 < 8) ∧
  findImage Bounds nearest_Scale in_order 4 1 haystack gradient_needle (mkOpts 0 0 0 0 0)
    = Returns [].
Proof.
  intros haystack.
  assert (H : X (Max (Bounds haystack)) < 8 ∨ 256 < 8) by (left; simpl; lia).
  split; [exact H|].
  exact (findImage_narrow_haystack Bounds nearest_Scale in_order 4 gradient_needle haystack
           0 (mkOpts 0 0 0 0 0) H).
Defined.

(** ** Termination of the two loops *)

Section termination.

Context {Image : Type}.
Variable Image_Bounds : Image → Rectangle.
Variable CatmullRom_Scale : Rectangle → Image → list byte.
Variable rt : Runtime.
Variable numCPU : positive.
Variable subsrc imgsrc : Image.
Variable opts : Opts.

Local Abbreviation inner := (inner_loop Image_Bounds CatmullRom_Scale rt numCPU subsrc opts).
Local Abbreviation outer :=
  (outer_loop Image_Bounds CatmullRom_Scale rt numCPU subsrc opts imgsrc).

Hypothesis subMaxDiv_small : subMaxDiv opts < 2 ^ 62.

(** [div] doubles from 1 and stays below [2^62], where [div *= 2] cannot
    wrap: the inner loop ends within [n] further iterations once
    [subMaxDiv < div * 2^n]. *)
Lemma inner_loop_fuel (n : nat) :
  ∀ (div : Z) (fuel : nat) (img : RGBA) (imgWidth imgHeight : Z) (imgScale : float)
    (lastTopMatch : float) (matches : Matches) (subruns : nat),
    1 ≤ div → subMaxDiv opts < div * 2 ^ Z.of_nat n → (n < fuel)%nat →
    inner fuel img imgWidth imgHeight imgScale div lastTopMatch matches subruns
      = inner (S n) img imgWidth imgHeight imgScale div lastTopMatch matches subruns ∧
    inner (S n) img imgWidth imgHeight imgScale div lastTopMatch matches subruns ≠ OutOfFuel.
Proof.
  induction n as [|n IH]; intros div fuel img w h s last ms sr Hdiv Hn Hfuel;
    (destruct fuel as [|fuel]; [lia|]); cbn [inner_loop];
    destruct (Z.ltb_spec (subMaxDiv opts) div) as [|Hle]; try done.
  - change (2 ^ Z.of_nat 0) with 1 in Hn. lia.
  - destruct (inner_body _ _ _ _ _ _ _ _ _ _ _ _ _ _) as [[last' ms' sr'|ms'|ms']|]; try done.
    rewrite wrap_int_small by lia.
    apply IH; [lia| |lia].
    rewrite Nat2Z.inj_succ, Z.pow_succ_r in Hn by lia. lia.
Qed.

Hypothesis imgMaxWidth_small : imgMaxWidth opts < 2 ^ 62.

(** Likewise [imgWidth] doubles from a positive start; every level has its
    own inner loop, which needs at most 63 iterations. *)
Lemma outer_loop_fuel (n : nat) :
  ∀ (imgWidth : Z) (fuel : nat) (matches : Matches),
    1 ≤ imgWidth → imgMaxWidth opts < imgWidth * 2 ^ Z.of_nat n → (n + 63 ≤ fuel)%nat →
    outer fuel imgWidth matches = outer (n + 63) imgWidth matches ∧
    outer (n + 63) imgWidth matches ≠ OutOfFuel.
Proof.
  induction n as [|n IH]; intros w fuel ms Hw Hn Hfuel;
    (destruct fuel as [|fuel]; [lia|]).
  - change (0 + 63)%nat with (S 62). cbn [outer_loop].
    destruct (Z.ltb_spec (imgMaxWidth opts) w) as [|Hle]; [done|].
    change (2 ^ Z.of_nat 0) with 1 in Hn. lia.
  - change (S n + 63)%nat with (S (n + 63)). cbn [outer_loop].
    destruct (Z.ltb_spec (imgMaxWidth opts) w) as [|Hle]; [done|]. cbv zeta.
    set (img := resizeImage _ _ _ _ _).
    set (h := Y (Max (Bounds img))). set (s := PrimFloat.div _ _).
    assert (H1 : subMaxDiv opts < 1 * 2 ^ Z.of_nat 62) by (change (2 ^ Z.of_nat 62) with (2 ^ 62); lia).
    destruct (inner_loop_fuel 62 1 (S fuel) img w h s 0%float ms 0%nat) as [-> Hne]; [lia|done|lia|].
    destruct (inner_loop_fuel 62 1 (S (n + 63)) img w h s 0%float ms 0%nat) as [-> _];
      [lia|done|lia|].
    destruct (inner (S 62) img w h s 1 0%float ms 0%nat) as [[ms' [|]]| |]; try done.
    rewrite wrap_int_small by lia.
    apply IH; [lia| |lia].
    rewrite Nat2Z.inj_succ, Z.pow_succ_r in Hn by lia. lia.
Qed.

End termination.

(** X5: [findImage] terminates when [imgMinWidth] is not negative, the
    haystack is less than [2^62] pixels wide and [subMaxDiv] is below
    [2^62]: both loop counters double without wrapping, the outer loop runs
    at most 62 levels and each inner loop at most 62 steps.  The run then
    returns or panics, and it is the same for every bound of at least 125
    iterations. *)
Theorem findImage_terminates {Image : Type} (Image_Bounds : Image → Rectangle)
    (CatmullRom_Scale : Rectangle → Image → list byte) (rt : Runtime) (numCPU : positive)
    (imgsrc subsrc : Image) (opts : Opts) :
  0 ≤ imgMinWidth opts → subMaxDiv opts < 2 ^ 62 →
  X (Max (Image_Bounds imgsrc)) < 2 ^ 62 →
  ∃ outcome : run Matches,
    outcome ≠ OutOfFuel ∧
    ∀ fuel : nat, (125 ≤ fuel)%nat →
      findImage Image_Bounds CatmullRom_Scale rt numCPU fuel imgsrc subsrc opts = outcome.
Proof.
  intros Hmin Hdiv Hwidth.
  exists (findImage Image_Bounds CatmullRom_Scale rt numCPU 125 imgsrc subsrc opts).
  unfold findImage. cbv zeta.
  set (opts1 := mkOpts _ _ _ _ _).
  set (opts2 := if _ <? _ then _ else _).
  assert (Hmin2 : 1 ≤ imgMinWidth opts2).
  { assert (1 ≤ imgMinWidth opts1)
      by (subst opts1; cbn [imgMinWidth]; destruct (Z.eqb_spec (imgMinWidth opts) 0);
          [done|lia]).
    subst opts2. by destruct (_ <? _). }
  assert (Hdiv2 : subMaxDiv opts2 < 2 ^ 62).
  { assert (subMaxDiv opts1 < 2 ^ 62)
      by (subst opts1; cbn [subMaxDiv]; destruct (Z.eqb_spec (subMaxDiv opts) 0);
          [done|lia]).
    subst opts2. by destruct (_ <? _). }
  assert (Hmax2 : imgMaxWidth opts2 < 2 ^ 62).
  { subst opts2. destruct (Z.ltb_spec (X (Max (Image_Bounds imgsrc))) (imgMaxWidth opts1));
      cbn [imgMaxWidth]; lia. }
  assert (Hn : imgMaxWidth opts2 < imgMinWidth opts2 * 2 ^ Z.of_nat 62)
    by (change (2 ^ Z.of_nat 62) with (2 ^ 62); nia).
  split.
  - exact (proj2 (outer_loop_fuel Image_Bounds CatmullRom_Scale rt numCPU subsrc imgsrc opts2
                    Hdiv2 Hmax2 62 _ 125%nat [] Hmin2 Hn (le_n _))).
  - intros fuel Hfuel.
    exact (proj1 (outer_loop_fuel Image_Bounds CatmullRom_Scale rt numCPU subsrc imgsrc opts2
                    Hdiv2 Hmax2 62 _ fuel [] Hmin2 Hn Hfuel)).
Qed.

Lemma findImage_terminates_witness :
  let opts := mkOpts 8 8 1 4 2 in
  0 ≤ imgMinWidth opts ∧ subMaxDiv opts < 2 ^ 62 ∧
  X (Max (Bounds gradient_haystack)) < 2 ^ 62 ∧
  ∃ outcome : run Matches,
    outcome ≠ OutOfFuel ∧
    ∀ fuel : nat, (125 ≤ fuel)%nat →
      findImage Bounds nearest_Scale in_order 1 fuel gradient_haystack gradient_needle opts
        = outcome.
Proof.
  intros opts.
  assert (Hmin : 0 ≤ imgMinWidth opts) by (simpl; lia).
  assert (Hdiv : subMaxDiv opts < 2 ^ 62) by (simpl; lia).
  assert (Hw : X (Max (Bounds gradient_haystack)) < 2 ^ 62) by (vm_compute; reflexivity).
  refine (conj Hmin (conj Hdiv (conj Hw _))).
  exact (findImage_terminates Bounds nearest_Scale in_order 1 gradient_haystack gradient_needle
           opts Hmin Hdiv Hw).
Defined.

(** ** Scans as passes over the list of offsets *)

Lemma foldM_bind {S A B : Type} (f : S → B → option S) (g : A → list B) (l : list A) (s : S) :
  foldM f s (l ≫= g) = foldM (λ s a, foldM f s (g a)) s l.
Proof.
  revert s. induction l as [|a l IH]; intros s; [done|].
  cbn [mbind list_bind foldM]. rewrite foldM_app.
  destruct (foldM f s (g a)); [apply IH|done].
Qed.

Lemma foldM_fmap {S A B : Type} (f : S → B → option S) (g : A → B) (l : list A) (s : S) :
  foldM f s (g <$> l) = foldM (λ s a, f s (g a)) s l.
Proof.
  revert s. induction l as [|a l IH]; intros s; [done|].
  cbn. destruct (f s (g a)); [apply IH|done].
Qed.

Lemma foldM_ext {S A : Type} (f g : S → A → option S) (l : list A) (s : S) :
  (∀ s a, a ∈ l → f s a = g s a) → foldM f s l = foldM g s l.
Proof.
  revert s. induction l as [|a l IH]; intros s Hfg; [done|].
  cbn. rewrite Hfg by left. destruct (g s a); [|done].
  apply IH. intros s' a' Ha'. apply Hfg. by right.
Qed.

Lemma elem_of_offsets (xa xb ya yb x y : Z) :
  (x, y) ∈ offsets xa xb ya yb ↔ xa ≤ x < xb ∧ ya ≤ y < yb.
Proof.
  unfold offsets. rewrite list_elem_of_bind. split.
  - intros (y' & Hxy & Hy'%elem_of_seqZ).
    apply list_elem_of_bind in Hxy as (x' & Hxy & Hx'%elem_of_seqZ).
    apply list_elem_of_singleton in Hxy as [= -> ->]. lia.
  - intros [Hx Hy]. exists y. split; [|apply elem_of_seqZ; lia].
    apply list_elem_of_bind. exists x. split; [by apply list_elem_of_singleton|].
    apply elem_of_seqZ. lia.
Qed.

(** A scan whose offsets all have a sum is the worst-replacement pass over
    the offsets in loop order. *)
Lemma scan_region_topk_scan (img subimg : RGBA) (k subw subh xa xb ya yb : Z) :
  (∀ x y, xa ≤ x < xb → ya ≤ y < yb → is_Some (sumOfAbsDiffRGBA img x y subimg)) →
  scan_region img subimg k subw subh xa xb ya yb
    = topk_scan k (offset_sum img subimg subw subh <$> offsets xa xb ya yb).
Proof.
  intros Hsum. unfold scan_region, topk_scan, offsets.
  rewrite foldM_fmap, foldM_bind.
  generalize (@nil Match, @nil Z).
  intros st. apply foldM_ext. clear st. intros st y Hy%elem_of_seqZ.
  rewrite foldM_bind. apply foldM_ext. clear st. intros st x Hx%elem_of_seqZ.
  cbn [foldM offset_sum fst snd].
  destruct (Hsum x y) as [s Hs]; [lia|lia|]. rewrite Hs. cbn.
  by destruct (topk_step _ _ _ _).
Qed.

(** The rows of a worker: [ya], [yb] as the goroutine computes them. *)
Lemma worker_rows (minY dy numWorkers id : Z) :
  0 ≤ minY → 0 ≤ dy → 0 < numWorkers → 0 ≤ id < numWorkers →
  let sliceHeight := Z.quot dy numWorkers in
  let ya := minY + id * sliceHeight in
  let yb := if id =? numWorkers - 1 then dy else ya + sliceHeight in
  minY ≤ ya ∧ yb ≤ minY + dy.
Proof.
  intros HminY Hdy Hn Hid sh ya yb.
  assert (Hsh : 0 ≤ sh ∧ numWorkers * sh ≤ dy).
  { unfold sh. rewrite Z.quot_div_nonneg by lia.
    split; [apply Z.div_pos; lia|apply Z.mul_div_le; lia]. }
  subst ya yb. destruct (Z.eqb_spec id (numWorkers - 1)); nia.
Qed.

Lemma fitting_inner (img subimg : RGBA) :
  Dx (Bounds subimg) ≤ Dx (Bounds img) → Dy (Bounds subimg) ≤ Dy (Bounds img) →
  Rect (X (Min (Bounds img))) (Y (Min (Bounds img)))
       (X (Max (Bounds img)) - Dx (Bounds subimg)) (Y (Max (Bounds img)) - Dy (Bounds subimg))
  = mkRectangle (mkPoint (X (Min (Bounds img))) (Y (Min (Bounds img))))
      (mkPoint (X (Max (Bounds img)) - Dx (Bounds subimg))
               (Y (Max (Bounds img)) - Dy (Bounds subimg))).
Proof.
  unfold Dx, Dy, Rect. intros Hx Hy.
  destruct (Z.ltb_spec (X (Max (Bounds img)) - (X (Max (Bounds subimg)) - X (Min (Bounds subimg))))
              (X (Min (Bounds img)))); [lia|].
  destruct (Z.ltb_spec (Y (Max (Bounds img)) - (Y (Max (Bounds subimg)) - Y (Min (Bounds subimg))))
              (Y (Min (Bounds img)))); [lia|]. done.
Qed.

Lemma sumOfAbsDiffRGBA_in_region (img subimg : RGBA) (x y : Z) :
  well_formed img → well_formed subimg →
  X (Min (Bounds img)) ≤ x < X (Max (Bounds img)) - Dx (Bounds subimg) →
  Y (Min (Bounds img)) ≤ y < Y (Max (Bounds img)) - Dy (Bounds subimg) →
  is_Some (sumOfAbsDiffRGBA img x y subimg).
Proof.
  intros Hi Hs Hx Hy. rewrite sumOfAbsDiffRGBA_wraps; [done|done|done|].
  unfold placed_within. lia.
Qed.

(** What a worker sends: the candidates its scan retains among the offsets
    of its rows. *)
Lemma worker_sends (img subimg : RGBA) (k numWorkers id : Z) :
  well_formed img → well_formed subimg → 0 ≤ Y (Min (Bounds img)) →
  Dx (Bounds subimg) ≤ Dx (Bounds img) → Dy (Bounds subimg) ≤ Dy (Bounds img) →
  1 ≤ k → 0 < numWorkers → 0 ≤ id < numWorkers →
  let subw := Dx (Bounds subimg) in
  let subh := Dy (Bounds subimg) in
  let inner := Rect (X (Min (Bounds img))) (Y (Min (Bounds img)))
                 (X (Max (Bounds img)) - subw) (Y (Max (Bounds img)) - subh) in
  let sliceHeight := Z.quot (Dy inner) numWorkers in
  let ya := Y (Min inner) + id * sliceHeight in
  let yb := if id =? numWorkers - 1 then Dy inner else ya + sliceHeight in
  let seen := offset_sum img subimg subw subh <$> offsets (X (Min inner)) (X (Max inner)) ya yb in
  ∃ retained dropped : list (Rectangle * Z),
    worker img subimg k inner subw subh numWorkers sliceHeight id
      = Some (candidate <$> retained) ∧
    Z.of_nat (length retained) = Z.min k (Z.of_nat (length seen)) ∧
    retained ++ dropped ≡ₚ seen ∧
    (∀ r d, r ∈ retained → d ∈ dropped → r.2 ≤ d.2).
Proof.
  intros Hi Hs HminY Hfx Hfy Hk Hn Hid subw subh inner sliceHeight ya yb seen.
  pose proof (fitting_inner img subimg Hfx Hfy) as Hinner. fold subw subh inner in Hinner.
  assert (Hdy : 0 ≤ Dy inner) by (rewrite Hinner; unfold Dy in *; cbn; lia).
  pose proof (worker_rows (Y (Min inner)) (Dy inner) numWorkers id) as Hrows.
  cbv zeta in Hrows. fold sliceHeight ya yb in Hrows.
  destruct Hrows as [Hya Hyb]; [rewrite Hinner; cbn; lia|done|done|done|].
  destruct (topk_scan_invariant k seen Hk) as (retained & dropped & Hscan & Hlen & Hperm & Hord).
  exists retained, dropped. split; [|done].
  unfold worker. fold ya yb. rewrite scan_region_topk_scan.
  - fold seen. rewrite Hscan. done.
  - intros x y Hx Hy. apply sumOfAbsDiffRGBA_in_region; try done.
    + rewrite Hinner in Hx. cbn in Hx. done.
    + rewrite Hinner in Hya, Hyb. unfold Dy in Hyb. cbn in Hya, Hyb. unfold subh, Dy in *. lia.
Qed.

Lemma mapM_choice {A B P : Type} (f : A → option B) (g : P → B) (Q : A → P → Prop)
    (l : list A) :
  (∀ a, a ∈ l → ∃ p, f a = Some (g p) ∧ Q a p) →
  ∃ ps, mapM f l = Some (g <$> ps) ∧ Forall2 Q l ps.
Proof.
  induction l as [|a l IH]; intros Hl.
  - by exists [].
  - destruct (Hl a) as (p & Hp & HQ); [by left|].
    destruct IH as (ps & Hps & HQs); [intros a' Ha'; apply Hl; by right|].
    exists (p :: ps). cbn. rewrite Hp. cbn. rewrite Hps. cbn. split; [done|by constructor].
Qed.

Lemma makeslice_Match_accepts (k numWorkers : Z) :
  1 ≤ k → 0 < numWorkers → k * numWorkers * 40 ≤ 2 ^ 48 →
  makeslice_Match (wrap_int (k * numWorkers)) = Some (k * numWorkers).
Proof.
  intros Hk Hn Hcap. assert (0 < k * numWorkers) by nia.
  rewrite wrap_int_small by lia. unfold makeslice_Match.
  destruct (decide _) as [|Hno]; [done|]. exfalso. apply Hno. lia.
Qed.

(** A capacity that [make] does not accept is a panic of the matcher,
    whatever the rasters. *)
Lemma convolutionTopKParallel_make_panics (rt : Runtime) (numCPU : positive)
    (img subimg : RGBA) (k : Z) :
  makeslice_Match (wrap_int (Z.max k 1 * (Z.pos numCPU * 2))) = None →
  convolutionTopKParallel rt numCPU img subimg k = None.
Proof.
  intros Hmake. unfold convolutionTopKParallel. cbv zeta.
  replace (if k <? 1 then 1 else k) with (Z.max k 1)
    by (destruct (Z.ltb_spec k 1); lia).
  destruct (mapM _ _) as [sent|]; [|done]. cbn. by rewrite Hmake.
Qed.

(** X6: On well-formed rasters with [Min.Y >= 0] and a needle no larger than
    the haystack, and with a [k] and a number of CPUs for which [make]
    accepts the capacity [k * numWorkers] (at most [2^48] bytes of 40 per
    match), no goroutine reads outside the haystack's buffer and the final
    re-slicing is within the capacity: [convolutionTopKParallel] returns. *)
Theorem convolutionTopKParallel_returns (rt : Runtime) (numCPU : positive)
    (img subimg : RGBA) (k : Z) :
  well_formed img → well_formed subimg → 0 ≤ Y (Min (Bounds img)) →
  Dx (Bounds subimg) ≤ Dx (Bounds img) → Dy (Bounds subimg) ≤ Dy (Bounds img) →
  Z.max k 1 * (Z.pos numCPU * 2) * 40 ≤ 2 ^ 48 →
  is_Some (convolutionTopKParallel rt numCPU img subimg k).
Proof.
  intros Hi Hs HminY Hfx Hfy Hcap. unfold convolutionTopKParallel. cbv zeta.
  set (k' := if k <? 1 then 1 else k).
  assert (Hk' : 1 ≤ k') by (subst k'; destruct (Z.ltb_spec k 1); lia).
  set (numWorkers := Z.pos numCPU * 2).
  set (inner := Rect _ _ _ _). set (sliceHeight := Z.quot _ _).
  destruct (mapM_choice
              (worker img subimg k' inner (Dx (Bounds subimg)) (Dy (Bounds subimg))
                 numWorkers sliceHeight)
              (λ p : list (Rectangle * Z), candidate <$> p) (λ _ _, True)
              (seqZ 0 numWorkers)) as (ps & -> & _).
  { intros id Hid%elem_of_seqZ.
    destruct (worker_sends img subimg k' numWorkers id) as (retained & _ & Hw & _);
      try done; try lia.
    exists retained. done. }
  assert (Hk'max : k' = Z.max k 1) by (subst k'; destruct (Z.ltb_spec k 1); lia).
  cbn. rewrite makeslice_Match_accepts by (subst numWorkers; lia).
  cbn. unfold reslice.
  destruct (decide _) as [|Hno]; [done|].
  exfalso. apply Hno. subst numWorkers. nia.
Qed.

Lemma convolutionTopKParallel_returns_witness :
  well_formed gradient_haystack ∧ well_formed gradient_needle ∧
  0 ≤ Y (Min (Bounds gradient_haystack)) ∧
  Dx (Bounds gradient_needle) ≤ Dx (Bounds gradient_haystack) ∧
  Dy (Bounds gradient_needle) ≤ Dy (Bounds gradient_haystack) ∧
  Z.max 3 1 * (Z.pos 2 * 2) * 40 ≤ 2 ^ 48 ∧
  is_Some (convolutionTopKParallel in_order 2 gradient_haystack gradient_needle 3).
Proof.
  assert (Hh : well_formed gradient_haystack) by (split; vm_compute; congruence).
  assert (Hn : well_formed gradient_needle) by (split; vm_compute; congruence).
  assert (Hy : 0 ≤ Y (Min (Bounds gradient_haystack))) by (vm_compute; congruence).
  assert (Hfx : Dx (Bounds gradient_needle) ≤ Dx (Bounds gradient_haystack))
    by (vm_compute; congruence).
  assert (Hfy : Dy (Bounds gradient_needle) ≤ Dy (Bounds gradient_haystack))
    by (vm_compute; congruence).
  assert (Hcap : Z.max 3 1 * (Z.pos 2 * 2) * 40 ≤ 2 ^ 48) by (vm_compute; congruence).
  refine (conj Hh (conj Hn (conj Hy (conj Hfx (conj Hfy (conj Hcap _)))))).
  exact (convolutionTopKParallel_returns in_order 2 gradient_haystack gradient_needle 3
           Hh Hn Hy Hfx Hfy Hcap).
Defined.

(** ** What sorting gives *)
(** *** Order of converted sums *)

Lemma float64_of_int_ltb (a b : Z) :
  0 ≤ a < 2 ^ 53 → 0 ≤ b < 2 ^ 53 →
  PrimFloat.ltb (float64_of_int a) (float64_of_int b) = (a <? b).
Proof.
  intros Ha Hb. rewrite ltb_spec.
  destruct (Z.eq_dec a 0) as [->|Ha0], (Z.eq_dec b 0) as [->|Hb0].
  - reflexivity.
  - rewrite float64_of_int_zero, float64_of_int_exact by lia. cbn.
    symmetry. apply Z.ltb_lt. lia.
  - rewrite float64_of_int_zero, float64_of_int_exact by lia. cbn.
    symmetry. apply Z.ltb_ge. lia.
  - rewrite !float64_of_int_exact by lia.
    pose proof (Zdigits2_bounds a ltac:(lia)) as Hda.
    pose proof (Zdigits2_bounds b ltac:(lia)) as Hdb.
    pose proof (Zdigits2_pos a ltac:(lia)) as Hpa.
    pose proof (Zdigits2_pos b ltac:(lia)) as Hpb.
    assert (Hla : Zdigits2 a ≤ 53) by (apply Zdigits2_le; lia).
    assert (Hlb : Zdigits2 b ≤ 53) by (apply Zdigits2_le; lia).
    unfold SFltb, SFcompare.
    destruct (Z.compare_spec (Zdigits2 a - 53) (Zdigits2 b - 53)) as [He|He|He].
    + assert (Hd : Zdigits2 a = Zdigits2 b) by lia. rewrite Hd.
      set (p := 2 ^ (53 - Zdigits2 b)).
      assert (Hp : 0 < p) by (apply Z.pow_pos_nonneg; lia).
      change (Pcompare ?x ?y Eq) with (Pos.compare x y).
      rewrite <- Z2Pos.inj_compare by nia.
      destruct (Z.compare_spec (a * p) (b * p)) as [Hc|Hc|Hc]; symmetry.
      * apply Z.ltb_ge. nia.
      * apply Z.ltb_lt. nia.
      * apply Z.ltb_ge. nia.
    + symmetry. apply Z.ltb_lt.
      assert (2 ^ Zdigits2 a ≤ 2 ^ (Zdigits2 b - 1)) by (apply Z.pow_le_mono_r; lia). lia.
    + symmetry. apply Z.ltb_ge.
      assert (2 ^ Zdigits2 b ≤ 2 ^ (Zdigits2 a - 1)) by (apply Z.pow_le_mono_r; lia). lia.
Qed.

(** *** The insertion sort sorts *)

Lemma strict_weak_mono (less : Match → Match → bool) (l l' : list Match) :
  l' ⊆ l → strict_weak less l → strict_weak less l'.
Proof.
  intros Hsub [Hasym Htrans]. split.
  - intros x y Hx Hy. apply Hasym; by apply Hsub.
  - intros x y z Hx Hy Hz. apply Htrans; by apply Hsub.
Qed.

Lemma insert_sorted_sorted (less : Match → Match → bool) (x : Match) (l : list Match) :
  strict_weak less (x :: l) →
  StronglySorted (λ a b, less b a = false) l →
  StronglySorted (λ a b, less b a = false) (insert_sorted less x l).
Proof.
  induction l as [|y l IH]; intros Hsw Hl; cbn [insert_sorted].
  - repeat constructor.
  - apply StronglySorted_cons in Hl as [Hy Hl].
    destruct Hsw as [Hasym Htrans].
    destruct (less y x) eqn:Hyx.
    + apply StronglySorted_cons. split.
      * rewrite insert_sorted_perm. constructor; [|done].
        apply Hasym; [by right; left|by left|done].
      * apply IH; [|done].
        apply (strict_weak_mono less (x :: y :: l)); [|done].
        intros z. rewrite !elem_of_cons. tauto.
    + apply StronglySorted_cons. split.
      * constructor; [done|].
        apply Forall_forall. intros z Hz.
        apply (Htrans z y x); [by right; right|by right; left|by left| |done].
        by apply (proj1 (Forall_forall _ _) Hy).
      * by apply StronglySorted_cons.
Qed.

Lemma insertion_sort_sorted (less : Match → Match → bool) (l : list Match) :
  strict_weak less l →
  StronglySorted (λ a b, less b a = false) (insertion_sort less l).
Proof.
  induction l as [|x l IH]; intros Hsw; [constructor|].
  change (insertion_sort less (x :: l)) with (insert_sorted less x (insertion_sort less l)).
  apply insert_sorted_sorted.
  - apply (strict_weak_mono less (x :: l)); [|done].
    intros y. rewrite !elem_of_cons, insertion_sort_perm. done.
  - apply IH. apply (strict_weak_mono less (x :: l)); [|done].
    intros z Hz. by right.
Qed.

Lemma StronglySorted_sorted_by (less : Match → Match → bool) (l : list Match) :
  StronglySorted (λ a b, less b a = false) l ↔ sorted_by less l.
Proof.
  split.
  - intros Hl i j x y Hij Hi Hj.
    rewrite <- (take_drop j l) in Hl.
    apply (StronglySorted_app_1_elem_of _ _ _ x y) in Hl; [done| |].
    + apply list_elem_of_lookup. exists i. rewrite lookup_take_lt by lia. done.
    + apply list_elem_of_lookup. exists 0%nat. rewrite lookup_drop, Nat.add_0_r. done.
  - induction l as [|x l IH]; intros Hl; [constructor|].
    constructor.
    + apply IH. intros i j a b Hij Hi Hj. apply (Hl (S i) (S j)); [lia|done|done].
    + apply Forall_forall. intros y [j Hj]%list_elem_of_lookup.
      apply (Hl 0%nat (S j)); [lia|done|done].
Qed.

Lemma in_order_sorting : sorting in_order.
Proof.
  intros less l Hsw. apply StronglySorted_sorted_by. by apply insertion_sort_sorted.
Qed.

(** ** The best [k] offsets *)

Lemma fmap_Permutation_inv {A B : Type} (f : A → B) (l : list B) (k : list A) :
  l ≡ₚ f <$> k → ∃ k', l = f <$> k' ∧ k' ≡ₚ k.
Proof.
  intros Hl. destruct (Permutation_map_inv f k Hl) as (k' & -> & Hk).
  exists k'. split; [done|]. by symmetry.
Qed.

Lemma join_insert_cons (ws : list (list Match)) (i : nat) (m : Match) (q : list Match) :
  ws !! i = Some (m :: q) → mjoin ws ≡ₚ m :: mjoin (<[i := q]> ws).
Proof.
  revert i. induction ws as [|w ws IH]; intros [|i] Hi; try done.
  - injection Hi as ->. done.
  - cbn in Hi. cbn. rewrite (IH i Hi). by rewrite Permutation_middle.
Qed.

(** The receiver gets what the workers sent, in some order. *)
Lemma interleaving_perm (ws : list (list Match)) (l : list Match) :
  interleaving ws l → l ≡ₚ mjoin ws.
Proof.
  induction 1 as [ws Hnil|ws i m q l Hi _ IH].
  - by rewrite join_nil_2.
  - rewrite (join_insert_cons ws i m q Hi). by constructor.
Qed.

Lemma list_bind_assoc {A B C : Type} (f : A → list B) (g : B → list C) (l : list A) :
  (l ≫= f) ≫= g = l ≫= (λ a, f a ≫= g).
Proof.
  induction l as [|a l IH]; [done|].
  by rewrite !bind_cons, bind_app, IH.
Qed.

Lemma list_fmap_bind_r {A B C : Type} (f : B → C) (g : A → list B) (l : list A) :
  f <$> (l ≫= g) = l ≫= (λ a, f <$> g a).
Proof.
  induction l as [|a l IH]; [done|].
  by rewrite !bind_cons, fmap_app, IH.
Qed.

Lemma list_bind_ext_in {A B : Type} (f g : A → list B) (l : list A) :
  (∀ a, a ∈ l → f a = g a) → l ≫= f = l ≫= g.
Proof.
  induction l as [|a l IH]; intros Hfg; [done|].
  rewrite !bind_cons, Hfg by left. f_equal. apply IH. intros a' Ha'. apply Hfg. by right.
Qed.

Lemma slices_cover (sh : Z) (m : nat) :
  0 ≤ sh →
  seqZ 0 (Z.of_nat m) ≫= (λ id, seqZ (id * sh) sh) = seqZ 0 (Z.of_nat m * sh).
Proof.
  intros Hsh. induction m as [|m IH]; [done|].
  rewrite seqZ_S, bind_app, IH, bind_singleton.
  replace (Z.of_nat (S m) * sh) with (Z.of_nat m * sh + sh) by lia.
  rewrite seqZ_app by lia. done.
Qed.

(** The workers' rows cover the rows of the region once each when the
    region starts at row 0. *)
Lemma rows_partition (dy numWorkers : Z) :
  0 ≤ dy → 0 < numWorkers →
  let sliceHeight := Z.quot dy numWorkers in
  seqZ 0 numWorkers ≫=
    (λ id, let ya := 0 + id * sliceHeight in
           let yb := if id =? numWorkers - 1 then dy else ya + sliceHeight in
           seqZ ya (yb - ya))
  = seqZ 0 dy.
Proof.
  intros Hdy Hn sh.
  assert (Hsh : 0 ≤ sh ∧ numWorkers * sh ≤ dy).
  { unfold sh. rewrite Z.quot_div_nonneg by lia.
    split; [apply Z.div_pos; lia|apply Z.mul_div_le; lia]. }
  replace numWorkers with (Z.of_nat (Z.to_nat (numWorkers - 1)) + 1) at 1 by lia.
  rewrite seqZ_app, bind_app by lia. cbn [seqZ].
  rewrite (list_bind_ext_in _ (λ id, seqZ (id * sh) sh)).
  - rewrite slices_cover by lia.
    change (seqZ (0 + Z.of_nat (Z.to_nat (numWorkers - 1))) 1)
      with ([0 + Z.of_nat (Z.to_nat (numWorkers - 1))]).
    rewrite bind_singleton. cbv zeta.
    rewrite Z2Nat.id by lia. rewrite !Z.add_0_l.
    rewrite Z.eqb_refl.
    pose proof (seqZ_app 0 ((numWorkers - 1) * sh) (dy - (numWorkers - 1) * sh)) as Happ.
    rewrite Z.add_0_l in Happ. rewrite <- Happ by nia. f_equal. lia.
  - intros id Hid%elem_of_seqZ. cbv zeta.
    destruct (Z.eqb_spec id (numWorkers - 1)); [lia|].
    f_equal; lia.
Qed.

Lemma filter_none {A : Type} (P : A → Prop) `{∀ x, Decision (P x)} (l : list A) :
  Forall (λ x, ¬ P x) l → filter P l = [].
Proof.
  induction 1 as [|x l Hx _ IH]; [done|]. by rewrite filter_cons_False.
Qed.

(** In a list sorted by sum that has [k] elements of sum at most [v], the
    first [k] elements have sum at most [v]. *)
Lemma sorted_prefix_bound (sorted : list (Rectangle * Z)) (k i : nat) (v : Z)
    (b : Rectangle * Z) :
  (∀ (i j : nat) a b, (i < j)%nat → sorted !! i = Some a → sorted !! j = Some b → a.2 ≤ b.2) →
  (k ≤ length (filter (λ o : Rectangle * Z, (o.2 ≤ v)%Z) sorted))%nat →
  (i < k)%nat → sorted !! i = Some b → b.2 ≤ v.
Proof.
  intros Hsorted Hcount Hi Hb.
  destruct (Z_le_gt_dec b.2 v) as [|Hgt]; [done|]. exfalso.
  rewrite <- (take_drop i sorted), filter_app, length_app in Hcount.
  rewrite (filter_none _ (drop i sorted)) in Hcount.
  - pose proof (length_filter (λ o : Rectangle * Z, o.2 ≤ v) (take i sorted)) as Hle.
    rewrite length_take in Hle. cbn in Hcount. lia.
  - apply Forall_forall. intros c [j Hj]%list_elem_of_lookup.
    rewrite lookup_drop in Hj.
    destruct j as [|j].
    + rewrite Nat.add_0_r, Hb in Hj. injection Hj as <-. lia.
    + specialize (Hsorted i (i + S j)%nat b c ltac:(lia) Hb Hj). lia.
Qed.

(** What the workers retain and drop, taken together. *)
Lemma parts_join {A : Type} (seen : A → list (Rectangle * Z)) (k : Z) (ids : list A)
    (parts : list (list (Rectangle * Z) * list (Rectangle * Z))) :
  Forall2 (λ id p, Z.of_nat (length p.1) = Z.min k (Z.of_nat (length (seen id))) ∧
                   p.1 ++ p.2 ≡ₚ seen id) ids parts →
  mjoin (fst <$> parts) ++ mjoin (snd <$> parts) ≡ₚ ids ≫= seen ∧
  Z.min k (Z.of_nat (length (ids ≫= seen))) ≤ Z.of_nat (length (mjoin (fst <$> parts))).
Proof.
  induction 1 as [|id p ids parts [Hlen Hperm] _ [IHperm IHlen]]; [split; [done|cbn; lia]|].
  cbn [fmap list_fmap mjoin list_join]. rewrite bind_cons. split.
  - rewrite <- IHperm, <- Hperm. solve_Permutation.
  - rewrite !length_app, !Nat2Z.inj_add.
    set (a := Z.of_nat (length (seen id))) in *. set (b := Z.of_nat (length (ids ≫= seen))) in *.
    set (c := Z.of_nat (length p.1)) in *. set (d := Z.of_nat (length (mjoin parts.*1))) in *.
    assert (0 ≤ a ∧ 0 ≤ b ∧ 0 ≤ c ∧ 0 ≤ d) by (subst a b c d; lia).
    clearbody a b c d. lia.
Qed.

Lemma filter_all {A : Type} (P : A → Prop) `{∀ x, Decision (P x)} (l : list A) :
  Forall P l → filter P l = l.
Proof.
  induction 1 as [|x l Hx _ IH]; [done|]. by rewrite filter_cons_True, IH.
Qed.

(** Merging the workers' lists: the first [k] of the sorted union are at
    most everything else, whether it was sent and sorted behind them or
    dropped by a worker whose list was full. *)
Lemma merge_best (k : nat) (parts : list (list (Rectangle * Z) * list (Rectangle * Z)))
    (sorted : list (Rectangle * Z)) :
  Forall (λ p, (p.2 = [] ∨ length p.1 = k) ∧ ∀ r d, r ∈ p.1 → d ∈ p.2 → r.2 ≤ d.2) parts →
  sorted ≡ₚ mjoin (fst <$> parts) →
  (∀ (i j : nat) a b, (i < j)%nat → sorted !! i = Some a → sorted !! j = Some b → a.2 ≤ b.2) →
  ∀ b r, b ∈ take k sorted → r ∈ drop k sorted ++ mjoin (snd <$> parts) → b.2 ≤ r.2.
Proof.
  intros Hparts Hperm Hsorted b r [i Hi]%list_elem_of_lookup Hr.
  apply lookup_take_Some in Hi as [Hb Hik].
  apply elem_of_app in Hr as [Hr|Hr].
  - apply list_elem_of_lookup in Hr as [j Hj]. rewrite lookup_drop in Hj.
    apply (Hsorted i (k + j)%nat); [lia|done|done].
  - apply list_elem_of_join in Hr as (d & Hrd & Hd).
    apply list_elem_of_fmap in Hd as (p & -> & Hp).
    pose proof (proj1 (Forall_forall _ _) Hparts p Hp) as [[Hnil|Hfull] Hord].
    { rewrite Hnil in Hrd. by apply elem_of_nil in Hrd. }
    apply (sorted_prefix_bound sorted k i r.2 b); [done| |done|done].
    rewrite Hperm.
    apply list_elem_of_split in Hp as (l1 & l2 & ->).
    rewrite fmap_app, join_app, filter_app, length_app. cbn [fmap list_fmap mjoin list_join].
    rewrite filter_app, length_app.
    rewrite (filter_all _ p.1); [lia|].
    apply Forall_forall. intros a Ha. by apply Hord.
Qed.

Lemma join_fmap_fst {A B C : Type} (f : A → C) (parts : list (list A * B)) :
  mjoin ((λ p, f <$> p.1) <$> parts) = f <$> mjoin (fst <$> parts).
Proof.
  induction parts as [|p parts IH]; [done|].
  cbn [fmap list_fmap mjoin list_join]. rewrite fmap_app. f_equal. apply IH.
Qed.

Lemma all_offsets_range (img subimg : RGBA) :
  Forall (λ o, 0 ≤ o.2 < 2 ^ 32) (all_offsets img subimg).
Proof.
  unfold all_offsets. cbv zeta. apply Forall_fmap, Forall_forall. intros [x y] _.
  unfold offset_sum, compose. cbn [fst snd].
  destruct (sumOfAbsDiffRGBA img x y subimg) as [s|] eqn:Hs; cbn [default from_option id].
  - by apply sumOfAbsDiffRGBA_range in Hs.
  - lia.
Qed.

(** On candidates the comparison of [sort.Slice] is the comparison of the
    raw sums, a strict weak ordering. *)
Lemma less_candidates (l : list (Rectangle * Z)) :
  Forall (λ o, 0 ≤ o.2 < 2 ^ 32) l →
  strict_weak (λ a b, PrimFloat.ltb (m_Match a) (m_Match b)) (candidate <$> l) ∧
  ∀ a b, a ∈ l → b ∈ l →
    PrimFloat.ltb (m_Match (candidate a)) (m_Match (candidate b)) = (a.2 <? b.2).
Proof.
  intros Hl.
  assert (Hlt : ∀ a b, a ∈ l → b ∈ l →
            PrimFloat.ltb (m_Match (candidate a)) (m_Match (candidate b)) = (a.2 <? b.2)).
  { intros a b Ha Hb. cbn.
    pose proof (proj1 (Forall_forall _ _) Hl a Ha) as Hra.
    pose proof (proj1 (Forall_forall _ _) Hl b Hb) as Hrb. cbn beta in Hra, Hrb.
    apply float64_of_int_ltb; lia. }
  split; [|done]. split.
  - intros x y (a & -> & Ha)%list_elem_of_fmap (b & -> & Hb)%list_elem_of_fmap.
    rewrite !Hlt by done. intros ?%Z.ltb_lt. apply Z.ltb_ge. lia.
  - intros x y z (a & -> & Ha)%list_elem_of_fmap (b & -> & Hb)%list_elem_of_fmap
      (c & -> & Hc)%list_elem_of_fmap.
    rewrite !Hlt by done. intros ?%Z.ltb_ge ?%Z.ltb_ge. apply Z.ltb_ge. lia.
Qed.

(** With the haystack's rows starting at 0, the offsets of the workers, in
    the order of their identifiers, are the offsets of the region. *)
Lemma workers_cover (img subimg : RGBA) (numWorkers : Z) :
  Y (Min (Bounds img)) = 0 → 0 < numWorkers →
  Dx (Bounds subimg) ≤ Dx (Bounds img) → Dy (Bounds subimg) ≤ Dy (Bounds img) →
  let subw := Dx (Bounds subimg) in
  let subh := Dy (Bounds subimg) in
  let inner := Rect (X (Min (Bounds img))) (Y (Min (Bounds img)))
                 (X (Max (Bounds img)) - subw) (Y (Max (Bounds img)) - subh) in
  let sliceHeight := Z.quot (Dy inner) numWorkers in
  seqZ 0 numWorkers ≫=
    (λ id, let ya := Y (Min inner) + id * sliceHeight in
           let yb := if id =? numWorkers - 1 then Dy inner else ya + sliceHeight in
           offset_sum img subimg subw subh <$> offsets (X (Min inner)) (X (Max inner)) ya yb)
  = all_offsets img subimg.
Proof.
  intros HminY Hn Hfx Hfy subw subh inner sliceHeight.
  pose proof (fitting_inner img subimg Hfx Hfy) as Hinner. fold subw subh inner in Hinner.
  subst sliceHeight. rewrite Hinner. unfold Dy at 1 2. cbn [Min Max X Y]. rewrite HminY.
  unfold all_offsets. cbv zeta. fold subw subh. rewrite HminY.
  set (dy := Y (Max (Bounds img)) - subh - 0).
  assert (Hdy : 0 ≤ dy) by (unfold dy, subh, Dy in *; lia).
  unfold offsets at 2.
  replace (Y (Max (Bounds img)) - subh - 0) with dy by done.
  rewrite <- (rows_partition dy numWorkers Hdy Hn). cbv zeta.
  rewrite list_bind_assoc, list_fmap_bind_r. done.
Qed.

(** X7: When there are at least [k] offsets and [make] accepts the capacity
    [k * numWorkers], a run-time that sorts makes
    [convolutionTopKParallel] return the [k] offsets of least raw sum among
    all offsets of the haystack, in ascending order of sum, each with its
    rectangle and its normalised score: merging the workers' lists loses
    none of the [k] best.  (The haystack's rows start at 0, as those of
    every resized image do.) *)
Theorem convolutionTopKParallel_best_k (rt : Runtime) (numCPU : positive)
    (img subimg : RGBA) (k : Z) :
  admissible rt → sorting rt →
  well_formed img → well_formed subimg → Y (Min (Bounds img)) = 0 →
  Dx (Bounds subimg) ≤ Dx (Bounds img) → Dy (Bounds subimg) ≤ Dy (Bounds img) →
  Z.max k 1 ≤ Z.of_nat (length (all_offsets img subimg)) →
  is_Some (makeslice_Match (wrap_int (Z.max k 1 * (Z.pos numCPU * 2)))) →
  ∃ best rest : list (Rectangle * Z),
    convolutionTopKParallel rt numCPU img subimg k
      = Some (normalize (norm_of (Bounds subimg)) <$> (candidate <$> best)) ∧
    Z.of_nat (length best) = Z.max k 1 ∧
    best ++ rest ≡ₚ all_offsets img subimg ∧
    (∀ b r, b ∈ best → r ∈ rest → b.2 ≤ r.2) ∧
    (∀ (i j : nat) a b, (i < j)%nat → best !! i = Some a → best !! j = Some b → a.2 ≤ b.2).
Proof.
  intros Hrt Hsort Hi Hs HminY Hfx Hfy Hmany [made Hmade].
  unfold convolutionTopKParallel. cbv zeta.
  set (k' := if k <? 1 then 1 else k).
  assert (Hk' : k' = Z.max k 1) by (subst k'; destruct (Z.ltb_spec k 1); lia).
  rewrite <- Hk' in *. assert (Hk1 : 1 ≤ k') by lia.
  set (numWorkers := Z.pos numCPU * 2). assert (Hn : 0 < numWorkers) by (subst numWorkers; lia).
  pose proof (workers_cover img subimg numWorkers HminY Hn Hfx Hfy) as Hcover.
  cbv zeta in Hcover.
  set (inner := Rect _ _ _ _) in *. set (sliceHeight := Z.quot _ _) in *.
  set (seen := λ id : Z, offset_sum img subimg (Dx (Bounds subimg)) (Dy (Bounds subimg)) <$> _)
    in Hcover.
  destruct (mapM_choice
              (worker img subimg k' inner (Dx (Bounds subimg)) (Dy (Bounds subimg))
                 numWorkers sliceHeight)
              (λ p : list (Rectangle * Z) * list (Rectangle * Z), candidate <$> p.1)
              (λ id p, Z.of_nat (length p.1) = Z.min k' (Z.of_nat (length (seen id))) ∧
                       p.1 ++ p.2 ≡ₚ seen id ∧
                       ∀ r d, r ∈ p.1 → d ∈ p.2 → r.2 ≤ d.2)
              (seqZ 0 numWorkers)) as (parts & -> & Hparts).
  { intros id Hid%elem_of_seqZ.
    destruct (worker_sends img subimg k' numWorkers id) as (retained & dropped & Hw & HQ);
      try done; try lia.
    exists (retained, dropped). done. }
  cbn [mbind option_bind].
  (* what was retained and what was dropped *)
  destruct (parts_join seen k' (seqZ 0 numWorkers) parts) as [Hjoin Hlen].
  { eapply Forall2_impl; [exact Hparts|]. intros id p (? & ? & ?). done. }
  rewrite Hcover in Hjoin, Hlen.
  assert (Hfull : Forall (λ p, (p.2 = [] ∨ length p.1 = Z.to_nat k') ∧
                               ∀ r d, r ∈ p.1 → d ∈ p.2 → r.2 ≤ d.2) parts).
  { apply Forall_forall. intros p [j Hj]%list_elem_of_lookup.
    destruct (Forall2_lookup_r _ _ _ _ _ Hparts Hj) as (id & _ & Hl & Hp & Hord).
    split; [|done]. destruct (p.2) as [|d ds] eqn:Hp2; [by left|right].
    apply Permutation_length in Hp. rewrite length_app in Hp. cbn in Hp. lia. }
  set (retained := mjoin (fst <$> parts)) in *.
  (* the received and sorted slice *)
  set (less := λ a b : Match, PrimFloat.ltb (m_Match a) (m_Match b)).
  set (sent := (λ p : list (Rectangle * Z) * list (Rectangle * Z), candidate <$> p.1) <$> parts).
  assert (Hrecv : fanIn rt sent ≡ₚ candidate <$> retained).
  { rewrite (interleaving_perm _ _ (fanIn_interleaving rt Hrt sent)).
    unfold sent, retained. by rewrite join_fmap_fst. }
  assert (Hsorted_perm : sortSlice rt less (fanIn rt sent) ≡ₚ candidate <$> retained)
    by (etrans; [by apply sortSlice_perm|exact Hrecv]).
  apply fmap_Permutation_inv in Hsorted_perm as (sorted & Hsorted_eq & Hsorted_perm).
  assert (Hrange : Forall (λ o, 0 ≤ o.2 < 2 ^ 32) retained).
  { pose proof (all_offsets_range img subimg) as Hall. rewrite <- Hjoin in Hall.
    by apply Forall_app in Hall as [? _]. }
  assert (Hrange' : Forall (λ o, 0 ≤ o.2 < 2 ^ 32) sorted) by (by rewrite Hsorted_perm).
  assert (Hsw : strict_weak less (fanIn rt sent)).
  { apply (strict_weak_mono less (candidate <$> retained)).
    - intros m. by rewrite Hrecv.
    - by apply less_candidates. }
  pose proof (Hsort less (fanIn rt sent) Hsw) as Hsorted.
  rewrite Hsorted_eq in Hsorted.
  assert (Hasc : ∀ (i j : nat) a b, (i < j)%nat →
            sorted !! i = Some a → sorted !! j = Some b → a.2 ≤ b.2).
  { intros i j a b Hij Ha Hb.
    specialize (Hsorted i j (candidate a) (candidate b) Hij).
    rewrite !list_lookup_fmap, Ha, Hb in Hsorted. specialize (Hsorted eq_refl eq_refl).
    unfold less in Hsorted.
    rewrite (proj2 (less_candidates sorted Hrange')) in Hsorted
      by (eapply list_elem_of_lookup_2; eassumption).
    by apply Z.ltb_ge in Hsorted. }
  assert (Hlong : (Z.to_nat k' ≤ length sorted)%nat).
  { rewrite Hsorted_perm. lia. }
  (* the re-slicing keeps the first k' *)
  fold numWorkers in Hmade. rewrite Hmade. cbn [mbind option_bind].
  assert (Hreceived : length (fanIn rt sent) = length sorted).
  { rewrite <- (length_fmap candidate sorted), <- Hsorted_eq.
    symmetry. apply Permutation_length, (sortSlice_perm rt Hrt). }
  rewrite Hsorted_eq. unfold reslice.
  destruct (decide _) as [_|Hno]; [|exfalso; apply Hno; lia].
  cbn [mbind option_bind].
  rewrite take_app_le by (by rewrite length_fmap).
  rewrite <- fmap_take.
  exists (take (Z.to_nat k') sorted), (drop (Z.to_nat k') sorted ++ mjoin (snd <$> parts)).
  split; [done|]. split; [rewrite length_take; lia|]. split.
  { rewrite <- Hjoin, <- Hsorted_perm. by rewrite app_assoc, take_drop. }
  split.
  - by apply (merge_best (Z.to_nat k') parts sorted).
  - intros i j a b Hij [Ha _]%lookup_take_Some [Hb _]%lookup_take_Some.
    by apply (Hasc i j).
Qed.

Lemma convolutionTopKParallel_best_k_witness :
  (admissible in_order ∧ sorting in_order) ∧
  (well_formed gradient_haystack ∧ well_formed gradient_needle ∧
   Y (Min (Bounds gradient_haystack)) = 0) ∧
  (Dx (Bounds gradient_needle) ≤ Dx (Bounds gradient_haystack) ∧
   Dy (Bounds gradient_needle) ≤ Dy (Bounds gradient_haystack) ∧
   Z.max 3 1 ≤ Z.of_nat (length (all_offsets gradient_haystack gradient_needle)) ∧
   is_Some (makeslice_Match (wrap_int (Z.max 3 1 * (Z.pos 2 * 2))))) ∧
  ∃ best rest : list (Rectangle * Z),
    convolutionTopKParallel in_order 2 gradient_haystack gradient_needle 3
      = Some (normalize (norm_of (Bounds gradient_needle)) <$> (candidate <$> best)) ∧
    Z.of_nat (length best) = Z.max 3 1 ∧
    best ++ rest ≡ₚ all_offsets gradient_haystack gradient_needle ∧
    (∀ b r, b ∈ best → r ∈ rest → b.2 ≤ r.2).
Proof.
  assert (Hh : well_formed gradient_haystack) by (split; vm_compute; congruence).
  assert (Hn : well_formed gradient_needle) by (split; vm_compute; congruence).
  assert (Hy : Y (Min (Bounds gradient_haystack)) = 0) by reflexivity.
  assert (Hfx : Dx (Bounds gradient_needle) ≤ Dx (Bounds gradient_haystack))
    by (vm_compute; congruence).
  assert (Hfy : Dy (Bounds gradient_needle) ≤ Dy (Bounds gradient_haystack))
    by (vm_compute; congruence).
  assert (Hmany : Z.max 3 1 ≤ Z.of_nat (length (all_offsets gradient_haystack gradient_needle)))
    by (vm_compute; congruence).
  assert (Hmake : is_Some (makeslice_Match (wrap_int (Z.max 3 1 * (Z.pos 2 * 2)))))
    by (vm_compute; eexists; reflexivity).
  refine (conj (conj in_order_admissible in_order_sorting)
            (conj (conj Hh (conj Hn Hy)) (conj (conj Hfx (conj Hfy (conj Hmany Hmake))) _))).
  destruct (convolutionTopKParallel_best_k in_order 2 gradient_haystack gradient_needle 3
              in_order_admissible in_order_sorting Hh Hn Hy Hfx Hfy Hmany Hmake)
    as (best & rest & Hres & Hlen & Hperm & Hord & _).
  exists best, rest. exact (conj Hres (conj Hlen (conj Hperm Hord))).
Defined.

(** ** The sequential matcher *)

Lemma topk_scan_no_room (k : Z) (o : Rectangle * Z) (seen : list (Rectangle * Z)) :
  k < 1 → topk_scan k (o :: seen) = None.
Proof.
  intros Hk. unfold topk_scan. cbn [foldM]. unfold topk_step at 2.
  destruct (Z.ltb_spec (Z.of_nat (length (@nil Match))) k) as [Hlt|_]; [cbn in Hlt; lia|].
  unfold maxDiffIndex. rewrite seqZ_nil by lia. done.
Qed.

(** X8: The sequential [convolutionTopK], on well-formed rasters with a needle
    no larger than the haystack and [k >= 1], returns [min(k, n)] matches
    for [n] offsets: in some order, the normalised candidates of [k]
    offsets of least raw sum.  Unlike its parallel sibling it returns no
    match that is not an offset.  For [k < 1] it does not coerce [k]: it
    panics on the first offset ([minSums[0]] of an empty slice) and returns
    the empty list only when there is no offset. *)
Theorem convolutionTopK_keeps_k_smallest (rt : Runtime) (img subimg : RGBA) (k : Z) :
  admissible rt → well_formed img → well_formed subimg →
  Dx (Bounds subimg) ≤ Dx (Bounds img) → Dy (Bounds subimg) ≤ Dy (Bounds img) →
  (1 ≤ k →
   ∃ (result : Matches) (retained dropped : list (Rectangle * Z)),
     convolutionTopK rt img subimg k = Some result ∧
     result ≡ₚ normalize (norm_of (Bounds subimg)) <$> (candidate <$> retained) ∧
     Z.of_nat (length result) = Z.min k (Z.of_nat (length (all_offsets img subimg))) ∧
     retained ++ dropped ≡ₚ all_offsets img subimg ∧
     (∀ r d, r ∈ retained → d ∈ dropped → r.2 ≤ d.2)) ∧
  (k < 1 →
   convolutionTopK rt img subimg k
     = if decide (all_offsets img subimg = []) then Some [] else None).
Proof.
  intros Hrt Hi Hs Hfx Hfy.
  assert (Hscan : ∀ k, scan_region img subimg k (Dx (Bounds subimg)) (Dy (Bounds subimg))
            (X (Min (Bounds img))) (X (Max (Bounds img)) - Dx (Bounds subimg))
            (Y (Min (Bounds img))) (Y (Max (Bounds img)) - Dy (Bounds subimg))
          = topk_scan k (all_offsets img subimg)).
  { intros k0. apply scan_region_topk_scan.
    intros x y Hx Hy. by apply sumOfAbsDiffRGBA_in_region. }
  unfold convolutionTopK. cbv zeta. rewrite (fitting_inner img subimg Hfx Hfy).
  cbn [Min Max X Y]. rewrite Hscan. split.
  - intros Hk.
    destruct (topk_scan_invariant k (all_offsets img subimg) Hk)
      as (retained & dropped & -> & Hlen & Hperm & Hord).
    cbn [mbind option_bind fst].
    eexists _, retained, dropped. split; [done|].
    split; [by apply sortSlice_perm|]. split; [|done].
    rewrite (sortSlice_perm rt Hrt), !length_fmap. done.
  - intros Hk. destruct (all_offsets img subimg) as [|o seen].
    + cbn. f_equal. apply Permutation_nil_r. by apply sortSlice_perm.
    + rewrite topk_scan_no_room by done. done.
Qed.

Lemma convolutionTopK_keeps_k_smallest_witness :
  admissible in_order ∧ well_formed gradient_haystack ∧ well_formed gradient_needle ∧
  Dx (Bounds gradient_needle) ≤ Dx (Bounds gradient_haystack) ∧
  Dy (Bounds gradient_needle) ≤ Dy (Bounds gradient_haystack) ∧
  (1 ≤ 3 →
   ∃ (result : Matches) (retained dropped : list (Rectangle * Z)),
     convolutionTopK in_order gradient_haystack gradient_needle 3 = Some result ∧
     result ≡ₚ normalize (norm_of (Bounds gradient_needle)) <$> (candidate <$> retained) ∧
     Z.of_nat (length result)
       = Z.min 3 (Z.of_nat (length (all_offsets gradient_haystack gradient_needle))) ∧
     retained ++ dropped ≡ₚ all_offsets gradient_haystack gradient_needle ∧
     (∀ r d, r ∈ retained → d ∈ dropped → r.2 ≤ d.2)).
Proof.
  assert (Hh : well_formed gradient_haystack) by (split; vm_compute; congruence).
  assert (Hn : well_formed gradient_needle) by (split; vm_compute; congruence).
  assert (Hfx : Dx (Bounds gradient_needle) ≤ Dx (Bounds gradient_haystack))
    by (vm_compute; congruence).
  assert (Hfy : Dy (Bounds gradient_needle) ≤ Dy (Bounds gradient_haystack))
    by (vm_compute; congruence).
  refine (conj in_order_admissible (conj Hh (conj Hn (conj Hfx (conj Hfy _))))).
  exact (proj1 (convolutionTopK_keeps_k_smallest in_order gradient_haystack gradient_needle 3
                  in_order_admissible Hh Hn Hfx Hfy)).
Defined.

(** ** Perfect matches *)

Lemma Zsum_zero_iff {A : Type} (g : A → Z) (l : list A) :
  Forall (λ a, 0 ≤ g a) l →
  Zsum (g <$> l) = 0 ↔ Forall (λ a, g a = 0) l.
Proof.
  induction 1 as [|a l Ha Hl IH]; [done|].
  rewrite fmap_cons, Zsum_cons, Forall_cons.
  assert (0 ≤ Zsum (g <$> l)).
  { clear IH. induction Hl as [|b l Hb _ IH]; [done|]. rewrite fmap_cons, Zsum_cons. lia. }
  split.
  - intros Hsum. split; [lia|]. apply IH. lia.
  - intros [Hz Hrest]. apply IH in Hrest. lia.
Qed.

(** X9: The raw sum of an offset is 0 exactly when the haystack under the
    needle has the needle's red, green and blue bytes, pixel by pixel
    (alpha is not compared).  The needle is small enough for the [uint32]
    sum not to wrap. *)
Theorem sumOfAbsDiffRGBA_zero_iff (img : RGBA) (x y : Z) (subimg : RGBA) :
  well_formed img → well_formed subimg → placed_within img x y subimg →
  Dx (Bounds subimg) * Dy (Bounds subimg) * 765 < 2 ^ 32 →
  sumOfAbsDiffRGBA img x y subimg = Some 0 ↔
  ∀ nx ny c, 0 ≤ nx < Dx (Bounds subimg) → 0 ≤ ny < Dy (Bounds subimg) → 0 ≤ c < 3 →
    channel img (x + nx) (y + ny) c
      = channel subimg (X (Min (Bounds subimg)) + nx) (Y (Min (Bounds subimg)) + ny) c.
Proof.
  intros Hi Hs Hin Hsmall.
  rewrite (sumOfAbsDiffRGBA_wraps _ _ _ _ Hi Hs Hin).
  pose proof (patch_abs_diff_range img x y subimg (wf_dx _ Hs) (wf_dy _ Hs)) as Hrange.
  rewrite wrap_uint32_small by lia.
  assert (Hpix : ∀ nx ny, pixel_abs_diff img x y subimg nx ny = 0 ↔
            ∀ c, 0 ≤ c < 3 →
              channel img (x + nx) (y + ny) c
                = channel subimg (X (Min (Bounds subimg)) + nx) (Y (Min (Bounds subimg)) + ny) c).
  { intros nx ny. unfold pixel_abs_diff. cbv zeta. cbn [fmap list_fmap Zsum foldr]. split.
    - intros Hsum c Hc.
      assert (c = 0 ∨ c = 1 ∨ c = 2) as [->|[->| ->]] by lia; lia.
    - intros Hc. pose proof (Hc 0). pose proof (Hc 1). pose proof (Hc 2). lia. }
  unfold patch_abs_diff. cbv zeta. split.
  - intros [= Hsum] nx ny c Hnx Hny Hc.
    apply Zsum_zero_iff in Hsum.
    + pose proof (proj1 (Forall_forall _ _) Hsum ny) as Hrow. cbn beta in Hrow.
      apply Zsum_zero_iff in Hrow; [|apply Forall_forall; intros; apply pixel_abs_diff_range
                                     |apply elem_of_seqZ; lia].
      pose proof (proj1 (Forall_forall _ _) Hrow nx) as Hp. cbn beta in Hp.
      apply Hpix; [apply Hp, elem_of_seqZ; lia|done].
    + apply Forall_forall. intros ny' _.
      pose proof (Zsum_bounds (λ nx, pixel_abs_diff img x y subimg nx ny') 765
                    (seqZ 0 (Dx (Bounds subimg)))) as Hb.
      apply Hb. apply Forall_forall. intros; apply pixel_abs_diff_range.
  - intros Hall. f_equal. apply Zsum_zero_iff.
    + apply Forall_forall. intros ny' _.
      pose proof (Zsum_bounds (λ nx, pixel_abs_diff img x y subimg nx ny') 765
                    (seqZ 0 (Dx (Bounds subimg)))) as Hb.
      apply Hb. apply Forall_forall. intros; apply pixel_abs_diff_range.
    + apply Forall_forall. intros ny Hny%elem_of_seqZ.
      apply Zsum_zero_iff; [apply Forall_forall; intros; apply pixel_abs_diff_range|].
      apply Forall_forall. intros nx Hnx%elem_of_seqZ.
      apply Hpix. intros c Hc. apply Hall; lia.
Qed.

Lemma sumOfAbsDiffRGBA_zero_iff_witness :
  well_formed gradient_haystack ∧ well_formed gradient_needle ∧
  placed_within gradient_haystack 2 2 gradient_needle ∧
  Dx (Bounds gradient_needle) * Dy (Bounds gradient_needle) * 765 < 2 ^ 32 ∧
  (sumOfAbsDiffRGBA gradient_haystack 2 2 gradient_needle = Some 0 ↔
   ∀ nx ny c, 0 ≤ nx < Dx (Bounds gradient_needle) → 0 ≤ ny < Dy (Bounds gradient_needle) →
     0 ≤ c < 3 →
     channel gradient_haystack (2 + nx) (2 + ny) c
       = channel gradient_needle (X (Min (Bounds gradient_needle)) + nx)
           (Y (Min (Bounds gradient_needle)) + ny) c).
Proof.
  assert (Hh : well_formed gradient_haystack) by (split; vm_compute; congruence).
  assert (Hn : well_formed gradient_needle) by (split; vm_compute; congruence).
  assert (Hin : placed_within gradient_haystack 2 2 gradient_needle)
    by (vm_compute; intuition congruence).
  assert (Hsmall : Dx (Bounds gradient_needle) * Dy (Bounds gradient_needle) * 765 < 2 ^ 32)
    by (vm_compute; reflexivity).
  refine (conj Hh (conj Hn (conj Hin (conj Hsmall _)))).
  exact (sumOfAbsDiffRGBA_zero_iff gradient_haystack 2 2 gradient_needle Hh Hn Hin Hsmall).
Defined.

(** ** The number of matches of a search *)

Section result_length.

Context {Image : Type}.
Variable Image_Bounds : Image → Rectangle.
Variable CatmullRom_Scale : Rectangle → Image → list byte.
Variable rt : Runtime.
Variable numCPU : positive.
Variable subsrc imgsrc : Image.
Variable opts : Opts.

Local Abbreviation body := (inner_body Image_Bounds CatmullRom_Scale rt numCPU subsrc opts).
Local Abbreviation inner := (inner_loop Image_Bounds CatmullRom_Scale rt numCPU subsrc opts).
Local Abbreviation outer :=
  (outer_loop Image_Bounds CatmullRom_Scale rt numCPU subsrc opts imgsrc).

(** The running result is empty or has [max(k, 1)] elements. *)
Local Abbreviation none_or_k :=
  (λ matches : Matches, matches = [] ∨ Z.of_nat (length matches) = Z.max (opt_k opts) 1).

Lemma inner_body_length (img : RGBA) (imgWidth imgHeight : Z) (imgScale : float) (div : Z)
    (lastTopMatch : float) (matches : Matches) (subruns : nat) (s : step) :
  none_or_k matches →
  body img imgWidth imgHeight imgScale div lastTopMatch matches subruns = Some s →
  match s with
  | Continue _ matches' _ | Break matches' | Done matches' => none_or_k matches'
  end.
Proof.
  intros Hm. unfold inner_body. destruct (sub_size _ _ _ _) as [sw sh]. cbv zeta.
  destruct (_ || _); [by intros [= <-]|].
  destruct (convolutionTopKParallel _ _ _ _ _) as [divMatches|] eqn:Hconv; [|done].
  cbn [mbind option_bind].
  apply convolutionTopKParallel_length in Hconv as (Hlen & -> & [top ->]).
  cbn [mbind option_bind].
  destruct (PrimFloat.ltb _ _).
  - destruct (_ <? _)%nat; [done|]. by intros [= <-].
  - intros [= <-]. right. unfold Matches_Scale. by rewrite length_fmap.
Qed.

Lemma inner_loop_length (fuel : nat) :
  ∀ (img : RGBA) (imgWidth imgHeight : Z) (imgScale : float) (div : Z)
    (lastTopMatch : float) (matches : Matches) (subruns : nat) (result : Matches) (done : bool),
    none_or_k matches →
    inner fuel img imgWidth imgHeight imgScale div lastTopMatch matches subruns
      = Returns (result, done) →
    none_or_k result.
Proof.
  induction fuel as [|fuel IH]; intros img w h s div last ms sr result dn Hm; [done|].
  cbn [inner_loop]. destruct (_ <? _); [by intros [= <- <-]|].
  destruct (body img w h s div last ms sr) as [st|] eqn:Hbody; [|done].
  pose proof (inner_body_length _ _ _ _ _ _ _ _ _ Hm Hbody) as Hst.
  destruct st as [last' ms' sr'|ms'|ms'].
  - by apply IH.
  - by intros [= <- <-].
  - by intros [= <- <-].
Qed.

Lemma outer_loop_length (fuel : nat) :
  ∀ (imgWidth : Z) (matches result : Matches),
    none_or_k matches → outer fuel imgWidth matches = Returns result → none_or_k result.
Proof.
  induction fuel as [|fuel IH]; intros w ms result Hm; [done|].
  cbn [outer_loop]. destruct (_ <? _); [by intros [= <-]|]. cbv zeta.
  destruct (inner _ _ _ _ _ _ _ _ _) as [[ms' dn]| |] eqn:Hinner; [|done|done].
  apply inner_loop_length in Hinner; [|done].
  destruct dn; [by intros [= <-]|]. by apply IH.
Qed.

End result_length.

(** X10: A search that returns has found nothing or returns exactly [k]
    matches ([max(k, 1)], with 0 standing for the default 6): every level
    that reaches the matcher replaces the running result by a list of that
    length. *)
Theorem findImage_result_length {Image : Type} (Image_Bounds : Image → Rectangle)
    (CatmullRom_Scale : Rectangle → Image → list byte) (rt : Runtime) (numCPU : positive)
    (fuel : nat) (imgsrc subsrc : Image) (opts : Opts) (result : Matches) :
  findImage Image_Bounds CatmullRom_Scale rt numCPU fuel imgsrc subsrc opts = Returns result →
  result = [] ∨
  Z.of_nat (length result) = Z.max (if opt_k opts =? 0 then 6 else opt_k opts) 1.
Proof.
  unfold findImage. cbv zeta. intros Hres.
  apply outer_loop_length in Hres; [|by left].
  destruct Hres as [->|Hlen]; [by left|right].
  rewrite Hlen. by destruct (_ <? _).
Qed.

Lemma findImage_result_length_witness :
  let opts := mkOpts 8 8 1 4 2 in
  let result := match findImage Bounds nearest_Scale in_order 1 9 gradient_haystack
                        gradient_needle opts with
                | Returns ms => ms
                | _ => []
                end in
  findImage Bounds nearest_Scale in_order 1 9 gradient_haystack gradient_needle opts
    = Returns result ∧
  (result = [] ∨ Z.of_nat (length result) = Z.max 2 1).
Proof.
  intros opts result.
  assert (H : findImage Bounds nearest_Scale in_order 1 9 gradient_haystack gradient_needle opts
              = Returns result) by (vm_compute; reflexivity).
  split; [exact H|].
  exact (findImage_result_length Bounds nearest_Scale in_order 1 9 gradient_haystack
           gradient_needle opts result H).
Defined.

(** ** Reading and writing pixels *)

Lemma Point_In_spec (x y : Z) (r : Rectangle) :
  Point_In (mkPoint x y) r = true ↔
  X (Min r) ≤ x < X (Max r) ∧ Y (Min r) ≤ y < Y (Max r).
Proof.
  unfold Point_In. cbn [X Y]. rewrite !andb_true_iff, !Z.leb_le, !Z.ltb_lt. lia.
Qed.

Lemma Point_In_false (x y : Z) (r : Rectangle) :
  ¬ (X (Min r) ≤ x < X (Max r) ∧ Y (Min r) ≤ y < Y (Max r)) → Point_In (mkPoint x y) r = false.
Proof. rewrite <- Point_In_spec. by destruct (Point_In _ _). Qed.

(** The four bytes of the pixel at [(x, y)]. *)
Lemma RGBAAt_bytes (p : RGBA) (x y : Z) (c : color.RGBA) :
  well_formed p →
  X (Min (Bounds p)) ≤ x < X (Max (Bounds p)) → Y (Min (Bounds p)) ≤ y < Y (Max (Bounds p)) →
  RGBA_RGBAAt p x y = Some c ↔
  ∀ j : nat, (j < 4)%nat →
    Pix p !! (Z.to_nat (PixOffset p x y) + j)%nat
      = [color.R c; color.G c; color.B c; color.A c] !! j.
Proof.
  intros Hp Hx Hy. unfold RGBA_RGBAAt.
  rewrite (proj2 (Point_In_spec x y (Bounds p))) by done. cbv zeta.
  destruct (PixOffset_in_range p x y Hp Hx Hy) as [H0 Hlen].
  unfold slice. destruct (decide _) as [_|Hno]; [|lia]. cbn [mbind option_bind].
  replace (Z.to_nat (PixOffset p x y + 4 - PixOffset p x y)) with 4%nat by lia.
  set (n := Z.to_nat (PixOffset p x y)).
  assert (Hl : ∀ j : nat, (j < 4)%nat → take 4 (drop n (Pix p)) !! j = Pix p !! (n + j)%nat)
    by (intros j Hj; by rewrite lookup_take_lt, lookup_drop).
  rewrite !Hl by lia.
  destruct (lookup_lt_is_Some_2 (Pix p) (n + 0)) as [b0 E0]; [lia|].
  destruct (lookup_lt_is_Some_2 (Pix p) (n + 1)) as [b1 E1]; [lia|].
  destruct (lookup_lt_is_Some_2 (Pix p) (n + 2)) as [b2 E2]; [lia|].
  destruct (lookup_lt_is_Some_2 (Pix p) (n + 3)) as [b3 E3]; [lia|].
  rewrite E0, E1, E2, E3. cbn [mbind option_bind]. split.
  - intros [= <-] j Hj. cbn [color.R color.G color.B color.A].
    destruct j as [|[|[|[|j]]]]; [done|done|done|done|lia].
  - intros Hc. pose proof (Hc 0%nat) as C0. pose proof (Hc 1%nat) as C1.
    pose proof (Hc 2%nat) as C2. pose proof (Hc 3%nat) as C3.
    rewrite E0 in C0. rewrite E1 in C1. rewrite E2 in C2. rewrite E3 in C3.
    cbn in C0, C1, C2, C3. destruct c as [r g b a]. cbn in *.
    injection (C0 ltac:(lia)) as ->. injection (C1 ltac:(lia)) as ->.
    injection (C2 ltac:(lia)) as ->. injection (C3 ltac:(lia)) as ->. done.
Qed.

(** Distinct pixels of a well-formed raster have disjoint bytes. *)
Lemma PixOffset_apart (p : RGBA) (x y x' y' : Z) :
  well_formed p →
  X (Min (Bounds p)) ≤ x < X (Max (Bounds p)) → Y (Min (Bounds p)) ≤ y < Y (Max (Bounds p)) →
  X (Min (Bounds p)) ≤ x' < X (Max (Bounds p)) → Y (Min (Bounds p)) ≤ y' < Y (Max (Bounds p)) →
  (x, y) ≠ (x', y') →
  PixOffset p x y + 4 ≤ PixOffset p x' y' ∨ PixOffset p x' y' + 4 ≤ PixOffset p x y.
Proof.
  intros Hp Hx Hy Hx' Hy' Hne. unfold PixOffset. rewrite (wf_stride p Hp). unfold Dx.
  destruct (Z.eq_dec y y') as [->|Hyy].
  - assert (x ≠ x') by congruence. lia.
  - destruct (Z_lt_le_dec y y'); [left|right]; nia.
Qed.

Lemma RGBA_Set_spec (p : RGBA) (x y : Z) (c : color.RGBA) :
  well_formed p →
  X (Min (Bounds p)) ≤ x < X (Max (Bounds p)) → Y (Min (Bounds p)) ≤ y < Y (Max (Bounds p)) →
  ∃ p', RGBA_Set p x y c = Some p' ∧ well_formed p' ∧ Bounds p' = Bounds p ∧
        RGBA_RGBAAt p' x y = Some c ∧
        ∀ x' y', X (Min (Bounds p)) ≤ x' < X (Max (Bounds p)) →
                 Y (Min (Bounds p)) ≤ y' < Y (Max (Bounds p)) →
                 (x, y) ≠ (x', y') → RGBA_RGBAAt p' x' y' = RGBA_RGBAAt p x' y'.
Proof.
  intros Hp Hx Hy. unfold RGBA_Set.
  rewrite (proj2 (Point_In_spec x y (Bounds p))) by done. cbv zeta.
  destruct (PixOffset_in_range p x y Hp Hx Hy) as [H0 Hlen].
  unfold slice. destruct (decide _) as [_|Hno]; [|lia]. cbn [mbind option_bind].
  set (n := Z.to_nat (PixOffset p x y)).
  set (pix' := <[S (S (S n)) := _]> _).
  assert (Hlen' : length pix' = length (Pix p)) by (unfold pix'; by rewrite !length_insert).
  assert (Hp' : well_formed (mkRGBA pix' (Stride p) (Bounds p))).
  { destruct Hp as [? ? ? Hl]. split; cbn [Bounds Stride Pix]; try done. by rewrite Hlen'. }
  eexists. split; [done|]. split; [done|]. split; [done|]. split.
  - apply RGBAAt_bytes; [done|done|done|].
    intros j Hj. cbn [Pix]. change (PixOffset (mkRGBA pix' (Stride p) (Bounds p)) x y)
      with (PixOffset p x y). fold n. unfold pix'.
    destruct j as [|[|[|[|j]]]]; [| | | |lia]; cbn [lookup list_lookup].
    + rewrite Nat.add_0_r, !list_lookup_insert_ne, list_lookup_insert_eq by lia. done.
    + replace (n + 1)%nat with (S n) by lia.
      rewrite !list_lookup_insert_ne, list_lookup_insert_eq by (rewrite ?length_insert; lia).
      done.
    + replace (n + 2)%nat with (S (S n)) by lia.
      rewrite !list_lookup_insert_ne, list_lookup_insert_eq by (rewrite ?length_insert; lia).
      done.
    + replace (n + 3)%nat with (S (S (S n))) by lia.
      rewrite list_lookup_insert_eq by (rewrite ?length_insert; lia). done.
  - intros x' y' Hx' Hy' Hne.
    destruct (RGBA_RGBAAt p x' y') as [c'|] eqn:Hc'.
    + apply RGBAAt_bytes; [done|done|done|].
      pose proof (proj1 (RGBAAt_bytes p x' y' c' Hp Hx' Hy') Hc') as Hb.
      intros j Hj. rewrite <- (Hb j Hj). cbn [Pix].
      change (PixOffset (mkRGBA pix' (Stride p) (Bounds p)) x' y') with (PixOffset p x' y').
      destruct (PixOffset_in_range p x' y' Hp Hx' Hy') as [H0' _].
      pose proof (PixOffset_apart p x y x' y' Hp Hx Hy Hx' Hy' Hne).
      unfold pix'. rewrite !list_lookup_insert_ne by lia. done.
    + exfalso. unfold RGBA_RGBAAt in Hc'.
      rewrite (proj2 (Point_In_spec x' y' (Bounds p))) in Hc' by done. cbv zeta in Hc'.
      destruct (PixOffset_in_range p x' y' Hp Hx' Hy') as [H0' Hlen2].
      unfold slice in Hc'. destruct (decide _) as [_|Hno]; [|lia]. cbn [mbind option_bind] in Hc'.
      replace (Z.to_nat (PixOffset p x' y' + 4 - PixOffset p x' y')) with 4%nat in Hc' by lia.
      set (n' := Z.to_nat (PixOffset p x' y')) in Hc'.
      destruct (lookup_lt_is_Some_2 (take 4 (drop n' (Pix p))) 0) as [b0 E0];
        [rewrite length_take, length_drop; lia|].
      destruct (lookup_lt_is_Some_2 (take 4 (drop n' (Pix p))) 1) as [b1 E1];
        [rewrite length_take, length_drop; lia|].
      destruct (lookup_lt_is_Some_2 (take 4 (drop n' (Pix p))) 2) as [b2 E2];
        [rewrite length_take, length_drop; lia|].
      destruct (lookup_lt_is_Some_2 (take 4 (drop n' (Pix p))) 3) as [b3 E3];
        [rewrite length_take, length_drop; lia|].
      rewrite E0, E1, E2, E3 in Hc'. done.
Qed.

(** A sequence of [Set]s on distinct pixels: each pixel written has the
    colour written, the others keep theirs. *)
Lemma foldM_Set_distinct (writes : list write) :
  ∀ p : RGBA,
    well_formed p →
    Forall (λ w, X (Min (Bounds p)) ≤ w_x w < X (Max (Bounds p)) ∧
                 Y (Min (Bounds p)) ≤ w_y w < Y (Max (Bounds p))) writes →
    NoDup ((λ w, (w_x w, w_y w)) <$> writes) →
    ∃ p', foldM (λ out w, RGBA_Set out (w_x w) (w_y w) (w_c w)) p writes = Some p' ∧
          well_formed p' ∧ Bounds p' = Bounds p ∧
          (∀ w, w ∈ writes → RGBA_RGBAAt p' (w_x w) (w_y w) = Some (w_c w)) ∧
          (∀ x y, X (Min (Bounds p)) ≤ x < X (Max (Bounds p)) →
                  Y (Min (Bounds p)) ≤ y < Y (Max (Bounds p)) →
                  (x, y) ∉ (λ w, (w_x w, w_y w)) <$> writes →
                  RGBA_RGBAAt p' x y = RGBA_RGBAAt p x y).
Proof.
  induction writes as [|w writes IH]; intros p Hp Hin Hnd.
  - exists p. split; [done|]. split; [done|]. split; [done|].
    split; [intros w Hw; by apply elem_of_nil in Hw|done].
  - apply Forall_cons in Hin as [[Hx Hy] Hin].
    rewrite fmap_cons in Hnd. apply NoDup_cons in Hnd as [Hfresh Hnd].
    destruct (RGBA_Set_spec p (w_x w) (w_y w) (w_c w) Hp Hx Hy)
      as (p1 & Hset & Hp1 & Hb1 & Hat1 & Hother1).
    destruct (IH p1 Hp1) as (p' & Hfold & Hp' & Hb' & Hat' & Hother'); [by rewrite Hb1|done|].
    exists p'. cbn [foldM]. rewrite Hset. cbn [mbind option_bind].
    split; [done|]. split; [done|]. split; [congruence|]. split.
    + intros w' [->|Hw']%elem_of_cons; [|by apply Hat'].
      rewrite Hother'; [done|by rewrite Hb1|by rewrite Hb1|done].
    + intros x y Hx' Hy' Hnot. rewrite fmap_cons, not_elem_of_cons in Hnot.
      destruct Hnot as [Hne Hnot].
      rewrite Hother' by (by rewrite ?Hb1). apply Hother1; [done|done|congruence].
Qed.

Lemma NewRGBA_well_formed (r : Rectangle) : 0 ≤ Dx r → 0 ≤ Dy r → well_formed (NewRGBA r).
Proof.
  intros Hx Hy. split; cbn [NewRGBA Bounds Stride Pix]; try done.
  rewrite length_replicate. nia.
Qed.

Lemma NewRGBA_At (r : Rectangle) (x y : Z) :
  X (Min r) ≤ x < X (Max r) → Y (Min r) ≤ y < Y (Max r) →
  RGBA_RGBAAt (NewRGBA r) x y = Some (color.mkRGBA x00 x00 x00 x00).
Proof.
  intros Hx Hy.
  assert (Hwf : well_formed (NewRGBA r)) by (apply NewRGBA_well_formed; unfold Dx, Dy; lia).
  apply RGBAAt_bytes; [done|done|done|].
  intros j Hj. destruct (PixOffset_in_range (NewRGBA r) x y Hwf Hx Hy) as [H0 Hlen].
  cbn [Pix NewRGBA] in *. rewrite length_replicate in Hlen.
  rewrite lookup_replicate_2 by lia.
  destruct j as [|[|[|[|j]]]]; [done|done|done|done|lia].
Qed.

Lemma mapM_fmap_all {A B : Type} (f : A → option B) (g : A → B) (l : list A) :
  (∀ a, a ∈ l → f a = Some (g a)) → mapM f l = Some (g <$> l).
Proof.
  induction l as [|a l IH]; intros Hl; [done|].
  cbn. rewrite Hl by left. cbn. rewrite IH; [done|]. intros a' Ha'. apply Hl. by right.
Qed.

Lemma NoDup_offsets (xa xb ya yb : Z) : NoDup (offsets xa xb ya yb).
Proof.
  unfold offsets. apply NoDup_bind; [| |apply NoDup_seqZ].
  - intros y1 y2 [x y] _ _ (x1 & Hx1 & _)%list_elem_of_bind (x2 & Hx2 & _)%list_elem_of_bind.
    apply list_elem_of_singleton in Hx1, Hx2. congruence.
  - intros y _. apply NoDup_bind; [| |apply NoDup_seqZ].
    + intros x1 x2 o _ _ H1%list_elem_of_singleton H2%list_elem_of_singleton. congruence.
    + intros x _. apply NoDup_singleton.
Qed.

(** A raw sum of 0 is stored as white, whatever [norm] is. *)
Lemma gray_level_zero (norm : float) : gray_level norm 0 = 255.
Proof.
  unfold gray_level, uint8_of_float64.
  destruct (int_of_float64_zero_or_nan (PrimFloat.mul (float64_of_int 0) norm)) as [->| ->].
  - rewrite mul_spec. apply SFmul_zero_or_nan_l. by rewrite float64_of_int_zero.
  - reflexivity.
  - reflexivity.
Qed.

(** X11: [convolutionParallel] on well-formed rasters at the origin, the needle
    no larger than the haystack: whatever the order in which the
    goroutines' writes take effect, it returns an image with the bounds of
    the haystack in which the pixel of every offset [(x, y)] of the region
    is the opaque gray [255 - uint8(float64(sum)*norm)] of that offset's
    raw sum, white for a sum of 0, and every other pixel is transparent
    black.  No two goroutines write the same pixel: the calls of [Set]
    of all goroutines together, [writes], have pairwise distinct targets. *)
Theorem convolutionParallel_pixels (schedule : list (list write) → list write)
    (numCPU : positive) (img subimg : RGBA) :
  (∀ ws, schedule ws ≡ₚ mjoin ws) →
  well_formed img → well_formed subimg →
  Min (Bounds img) = mkPoint 0 0 → Min (Bounds subimg) = mkPoint 0 0 →
  Dx (Bounds subimg) ≤ Dx (Bounds img) → Dy (Bounds subimg) ≤ Dy (Bounds img) →
  let nw := X (Max (Bounds subimg)) in
  let nh := Y (Max (Bounds subimg)) in
  let norm := PrimFloat.div 1%float (float64_of_int (wrap_int (wrap_int (nw * nh) * 3))) in
  let region := mkRectangle (Min (Bounds img))
                  (mkPoint (X (Max (Bounds img)) - nw) (Y (Max (Bounds img)) - nh)) in
  let numWorkers := Z.pos numCPU * 2 in
  ∃ (writes : list (list write)) (out : RGBA),
    mapM (convolutionParallel_worker img subimg region norm numWorkers
            (Z.quot (Dy region) numWorkers)) (seqZ 0 numWorkers) = Some writes ∧
    NoDup ((λ w, (w_x w, w_y w)) <$> mjoin writes) ∧
    convolutionParallel schedule numCPU img subimg = Some out ∧
    Bounds out = Bounds img ∧ well_formed out ∧
    ∀ x y, 0 ≤ x < X (Max (Bounds img)) → 0 ≤ y < Y (Max (Bounds img)) →
      if (x <? X (Max (Bounds img)) - nw) && (y <? Y (Max (Bounds img)) - nh)
      then ∃ sum, sumOfAbsDiffRGBA img x y subimg = Some sum ∧
                  RGBA_RGBAAt out x y = Some (gray (gray_level norm sum)) ∧
                  (sum = 0 → RGBA_RGBAAt out x y = Some (color.mkRGBA xff xff xff xff))
      else RGBA_RGBAAt out x y = Some (color.mkRGBA x00 x00 x00 x00).
Proof.
  intros Hsched Hi Hs Himin Hsmin Hfx Hfy nw nh norm region numWorkers0.
  subst region numWorkers0.
  unfold convolutionParallel. cbv zeta. fold nw nh norm.
  unfold Dx, Dy in Hfx, Hfy. rewrite Himin, Hsmin in Hfx, Hfy. cbn [X Y] in Hfx, Hfy.
  rewrite !Z.sub_0_r in Hfx, Hfy. fold nw nh in Hfx, Hfy.
  assert (Hnw : 0 ≤ nw)
    by (pose proof (wf_dx _ Hs) as Hd; unfold Dx in Hd; rewrite Hsmin in Hd; cbn in Hd;
        unfold nw; lia).
  assert (Hnh : 0 ≤ nh)
    by (pose proof (wf_dy _ Hs) as Hd; unfold Dy in Hd; rewrite Hsmin in Hd; cbn in Hd;
        unfold nh; lia).
  set (W := X (Max (Bounds img))) in *. set (H := Y (Max (Bounds img))) in *.
  set (imgr := mkRectangle _ _). set (numWorkers := Z.pos numCPU * 2).
  assert (Hn : 0 < numWorkers) by (subst numWorkers; lia).
  assert (Hdy : Dy imgr = H - nh) by (unfold Dy, imgr; cbn [Min Max Y]; rewrite Himin; cbn; lia).
  rewrite Hdy. set (sliceHeight := Z.quot (H - nh) numWorkers).
  assert (Hdy0 : 0 ≤ H - nh) by lia.
  set (pixel := λ o : Z * Z,
         mkWrite o.1 o.2 (gray (gray_level norm (default 0 (sumOfAbsDiffRGBA img o.1 o.2 subimg))))).
  assert (Hsum : ∀ x y, 0 ≤ x < W - nw → 0 ≤ y < H - nh →
            is_Some (sumOfAbsDiffRGBA img x y subimg)).
  { intros x y Hx Hy. apply sumOfAbsDiffRGBA_in_region; try done.
    - rewrite Himin. unfold Dx. rewrite Hsmin. cbn [X]. fold W nw. lia.
    - rewrite Himin. unfold Dy. rewrite Hsmin. cbn [Y]. fold H nh. lia. }
  (* what the workers write *)
  set (rows := λ id : Z,
         let ya := 0 + id * sliceHeight in
         let yb := if id =? numWorkers - 1 then H - nh else ya + sliceHeight in
         seqZ ya (yb - ya)).
  assert (Hworkers :
    mapM (convolutionParallel_worker img subimg imgr norm numWorkers sliceHeight)
         (seqZ 0 numWorkers)
    = Some ((λ id, pixel <$> (rows id ≫= λ y, seqZ 0 (W - nw - 0) ≫= λ x, [(x, y)]))
              <$> seqZ 0 numWorkers)).
  { apply mapM_fmap_all. intros id Hid%elem_of_seqZ.
    unfold convolutionParallel_worker. cbv zeta.
    change (X (Max imgr)) with (W - nw). change (Y (Max imgr)) with (H - nh).
    apply mapM_fmap_all. intros [x y] Hxy%elem_of_offsets. cbn [fst snd].
    pose proof (worker_rows 0 (H - nh) numWorkers id ltac:(lia) Hdy0 Hn ltac:(lia)) as Hrows.
    cbv zeta in Hrows. fold sliceHeight in Hrows. rewrite !Z.add_0_l in Hrows.
    destruct (Hsum x y) as [sum Hsum'];
      [lia|destruct (Z.eqb_spec id (numWorkers - 1)); lia|].
    unfold pixel. cbn [fst snd]. rewrite Hsum'. done. }
  rewrite Hworkers. cbn [mbind option_bind].
  set (writes := (λ id, pixel <$> _) <$> seqZ 0 numWorkers).
  assert (Hall : mjoin writes = pixel <$> offsets 0 (W - nw) 0 (H - nh)).
  { unfold writes. rewrite list_join_bind, list_fmap_bind. unfold compose, id.
    rewrite <- list_fmap_bind_r. f_equal.
    rewrite <- list_bind_assoc. unfold offsets. f_equal.
    rewrite Z.sub_0_r. apply (rows_partition (H - nh) numWorkers Hdy0 Hn). }
  assert (Htargets : ∀ l : list (Z * Z), (λ w, (w_x w, w_y w)) <$> (pixel <$> l) = l).
  { induction l as [|[x y] l IH]; [done|]. rewrite !fmap_cons, IH. done. }
  (* the writes hit distinct pixels of the output *)
  assert (Hout0 : well_formed (NewRGBA (Bounds img)))
    by (apply NewRGBA_well_formed; [apply (wf_dx _ Hi)|apply (wf_dy _ Hi)]).
  destruct (foldM_Set_distinct (schedule writes) (NewRGBA (Bounds img)) Hout0)
    as (out & Hfold & Hout & Hbounds & Hwritten & Hother).
  { rewrite Hsched, Hall. apply Forall_fmap, Forall_forall.
    intros [x y] Hxy%elem_of_offsets. unfold compose, pixel. cbn [w_x w_y fst snd NewRGBA Bounds].
    rewrite Himin. cbn [X Y]. fold W H. lia. }
  { rewrite Hsched, Hall, Htargets. apply NoDup_offsets. }
  exists writes, out. split; [done|].
  split; [rewrite Hall, Htargets; apply NoDup_offsets|].
  split; [done|]. split; [done|]. split; [done|].
  intros x y Hx Hy.
  destruct (Z.ltb_spec x (W - nw)) as [Hxin|Hxout], (Z.ltb_spec y (H - nh)) as [Hyin|Hyout];
    cbn [andb].
  - destruct (Hsum x y) as [sum Hsum']; [lia|lia|]. exists sum. split; [done|].
    assert (Hat : RGBA_RGBAAt out x y = Some (gray (gray_level norm sum))).
    { specialize (Hwritten (pixel (x, y))). unfold pixel in Hwritten at 2 3 4.
      cbn [w_x w_y w_c fst snd] in Hwritten. rewrite Hsum' in Hwritten. apply Hwritten.
      rewrite Hsched, Hall. apply list_elem_of_fmap_2, elem_of_offsets. lia. }
    split; [done|]. intros ->. rewrite Hat, gray_level_zero. done.
  - rewrite Hother.
    + apply NewRGBA_At; rewrite Himin; cbn [X Y]; fold W H; lia.
    + cbn [NewRGBA Bounds]. rewrite Himin. cbn [X]. fold W. lia.
    + cbn [NewRGBA Bounds]. rewrite Himin. cbn [Y]. fold H. lia.
    + rewrite Hsched, Hall, Htargets. intros Hxy%elem_of_offsets. lia.
  - rewrite Hother.
    + apply NewRGBA_At; rewrite Himin; cbn [X Y]; fold W H; lia.
    + cbn [NewRGBA Bounds]. rewrite Himin. cbn [X]. fold W. lia.
    + cbn [NewRGBA Bounds]. rewrite Himin. cbn [Y]. fold H. lia.
    + rewrite Hsched, Hall, Htargets. intros Hxy%elem_of_offsets. lia.
  - rewrite Hother.
    + apply NewRGBA_At; rewrite Himin; cbn [X Y]; fold W H; lia.
    + cbn [NewRGBA Bounds]. rewrite Himin. cbn [X]. fold W. lia.
    + cbn [NewRGBA Bounds]. rewrite Himin. cbn [Y]. fold H. lia.
    + rewrite Hsched, Hall, Htargets. intros Hxy%elem_of_offsets. lia.
Qed.

Lemma convolutionParallel_pixels_witness :
  let schedule := λ ws : list (list write), mjoin ws in
  (∀ ws, schedule ws ≡ₚ mjoin ws) ∧
  (well_formed gradient_haystack ∧ well_formed gradient_needle) ∧
  (Min (Bounds gradient_haystack) = mkPoint 0 0 ∧ Min (Bounds gradient_needle) = mkPoint 0 0) ∧
  (Dx (Bounds gradient_needle) ≤ Dx (Bounds gradient_haystack) ∧
   Dy (Bounds gradient_needle) ≤ Dy (Bounds gradient_haystack)) ∧
  ∃ (writes : list (list write)) (out : RGBA),
    NoDup ((λ w, (w_x w, w_y w)) <$> mjoin writes) ∧
    length (mjoin writes) = 16%nat ∧
    convolutionParallel schedule 1 gradient_haystack gradient_needle = Some out ∧
    Bounds out = Bounds gradient_haystack ∧
    RGBA_RGBAAt out 2 2 = Some (color.mkRGBA xff xff xff xff) ∧
    RGBA_RGBAAt out 5 5 = Some (color.mkRGBA x00 x00 x00 x00).
Proof.
  intros schedule.
  assert (Hsched : ∀ ws, schedule ws ≡ₚ mjoin ws) by (intros ws; reflexivity).
  assert (Hh : well_formed gradient_haystack) by (split; vm_compute; congruence).
  assert (Hn : well_formed gradient_needle) by (split; vm_compute; congruence).
  assert (Hhm : Min (Bounds gradient_haystack) = mkPoint 0 0) by reflexivity.
  assert (Hnm : Min (Bounds gradient_needle) = mkPoint 0 0) by reflexivity.
  assert (Hfx : Dx (Bounds gradient_needle) ≤ Dx (Bounds gradient_haystack))
    by (vm_compute; congruence).
  assert (Hfy : Dy (Bounds gradient_needle) ≤ Dy (Bounds gradient_haystack))
    by (vm_compute; congruence).
  refine (conj Hsched (conj (conj Hh Hn) (conj (conj Hhm Hnm) (conj (conj Hfx Hfy) _)))).
  destruct (convolutionParallel_pixels schedule 1 gradient_haystack gradient_needle
              Hsched Hh Hn Hhm Hnm Hfx Hfy)
    as (writes & out & Hwrites & Hdistinct & Hout & Hb & _ & Hpix).
  exists writes, out. split; [exact Hdistinct|]. split.
  { vm_compute in Hwrites. injection Hwrites as <-. reflexivity. }
  split; [exact Hout|]. split; [exact Hb|]. split.
  - destruct (Hpix 2 2 ltac:(vm_compute; split; congruence) ltac:(vm_compute; split; congruence))
      as (sum & Hsum & _ & Hwhite).
    apply Hwhite.
    assert (Hs : sumOfAbsDiffRGBA gradient_haystack 2 2 gradient_needle = Some 0)
      by (vm_compute; reflexivity).
    congruence.
  - exact (Hpix 5 5 ltac:(vm_compute; split; congruence) ltac:(vm_compute; split; congruence)).
Defined.

(** ** The random needle *)

(** X12: For a generator that keeps to the range of [rand.Intn],
    [randomSubimage] panics exactly on a haystack whose [Max.X] or [Max.Y]
    is not positive, and otherwise returns a needle of at least one pixel,
    with bounds at the origin, copied from a rectangle
    [[x, x + sw) x [y, y + sh)] that lies within [[0, Max.X) x [0, Max.Y)]. *)
Theorem randomSubimage_within {Image : Type} (Image_Bounds : Image → Rectangle)
    (draw_Draw_Src : Rectangle → Image → Point → list byte) (rand_Intn : nat → Z → Z)
    (img : Image) :
  (∀ i n, 0 < n → 0 ≤ rand_Intn i n < n) →
  X (Max (Image_Bounds img)) < 2 ^ 63 → Y (Max (Image_Bounds img)) < 2 ^ 63 →
  let w := X (Max (Image_Bounds img)) in
  let h := Y (Max (Image_Bounds img)) in
  (w ≤ 0 ∨ h ≤ 0 → randomSubimage Image_Bounds draw_Draw_Src rand_Intn img = None) ∧
  (0 < w → 0 < h →
   ∃ x y sw sh,
     randomSubimage Image_Bounds draw_Draw_Src rand_Intn img
       = Some (mkRGBA (draw_Draw_Src (Rect 0 0 sw sh) img (mkPoint x y)) (4 * sw)
                 (mkRectangle (mkPoint 0 0) (mkPoint sw sh))) ∧
     0 ≤ x ∧ 1 ≤ sw ∧ x + sw ≤ w ∧ 0 ≤ y ∧ 1 ≤ sh ∧ y + sh ≤ h).
Proof.
  intros Hrand Hw63 Hh63 w h. unfold randomSubimage, Intn. fold w h. split.
  - intros [Hw|Hh].
    + destruct (Z.leb_spec w 0); [done|lia].
    + destruct (Z.leb_spec w 0); [done|]. cbn [mbind option_bind].
      destruct (Z.leb_spec h 0); [done|lia].
  - intros Hw Hh.
    destruct (Z.leb_spec w 0); [lia|]. cbn [mbind option_bind].
    destruct (Z.leb_spec h 0); [lia|]. cbn [mbind option_bind].
    pose proof (Hrand 0%nat w Hw) as Hx. pose proof (Hrand 1%nat h Hh) as Hy.
    set (x := rand_Intn 0%nat w) in *. set (y := rand_Intn 1%nat h) in *.
    rewrite (wrap_int_small (w - x)), (wrap_int_small (h - y)) by lia.
    destruct (Z.leb_spec (w - x) 0); [lia|]. cbn [mbind option_bind].
    destruct (Z.leb_spec (h - y) 0); [lia|]. cbn [mbind option_bind].
    pose proof (Hrand 2%nat (w - x) ltac:(lia)) as Hsw.
    pose proof (Hrand 3%nat (h - y) ltac:(lia)) as Hsh.
    set (sw := rand_Intn 2%nat (w - x)) in *. set (sh := rand_Intn 3%nat (h - y)) in *.
    rewrite (wrap_int_small (sw + 1)), (wrap_int_small (sh + 1)) by lia.
    exists x, y, (sw + 1), (sh + 1).
    split; [|lia].
    assert (HR : Rect 0 0 (sw + 1) (sh + 1)
                 = mkRectangle (mkPoint 0 0) (mkPoint (sw + 1) (sh + 1))).
    { unfold Rect. destruct (Z.ltb_spec (sw + 1) 0); [lia|].
      destruct (Z.ltb_spec (sh + 1) 0); [lia|]. done. }
    rewrite HR at 2 3. unfold Dx. cbn [Min Max X]. rewrite Z.sub_0_r. done.
Qed.

Lemma randomSubimage_within_witness :
  let Intn := λ (i : nat) (n : Z), n - 1 in
  let draw := λ (r : Rectangle) (img : RGBA) (p : Point), @nil byte in
  (∀ i n, 0 < n → 0 ≤ Intn i n < n) ∧
  X (Max (Bounds gradient_haystack)) < 2 ^ 63 ∧ Y (Max (Bounds gradient_haystack)) < 2 ^ 63 ∧
  ∃ x y sw sh,
    randomSubimage Bounds draw Intn gradient_haystack
      = Some (mkRGBA (draw (Rect 0 0 sw sh) gradient_haystack (mkPoint x y)) (4 * sw)
                (mkRectangle (mkPoint 0 0) (mkPoint sw sh))) ∧
    0 ≤ x ∧ 1 ≤ sw ∧ x + sw ≤ 8 ∧ 0 ≤ y ∧ 1 ≤ sh ∧ y + sh ≤ 8.
Proof.
  intros Intn draw.
  assert (Hr : ∀ i n, 0 < n → 0 ≤ Intn i n < n) by (intros i n Hn; unfold Intn; lia).
  assert (Hw : X (Max (Bounds gradient_haystack)) < 2 ^ 63) by (vm_compute; reflexivity).
  assert (Hh : Y (Max (Bounds gradient_haystack)) < 2 ^ 63) by (vm_compute; reflexivity).
  refine (conj Hr (conj Hw (conj Hh _))).
  exact (proj2 (randomSubimage_within Bounds draw Intn gradient_haystack Hr Hw Hh)
           ltac:(vm_compute; reflexivity) ltac:(vm_compute; reflexivity)).
Defined.

(** ** The JSON value of a match *)

(** X13: The JSON value determines the match: [bounds] gives back the
    rectangle, [Max = (x + w, y + h)], and [match] the score. *)
Theorem Match_MarshalJSON_determines (m : Match) :
  ∃ x y w h : Z,
    Match_MarshalJSON m
      = JObject [("bounds"%string,
                  JObject [("x"%string, JInt x); ("y"%string, JInt y);
                           ("w"%string, JInt w); ("h"%string, JInt h)]);
                 ("match"%string, JFloat (m_Match m))] ∧
    m_Bounds m = mkRectangle (mkPoint x y) (mkPoint (x + w) (y + h)) ∧
    ∀ m' : Match, Match_MarshalJSON m' = Match_MarshalJSON m → m' = m.
Proof.
  destruct m as [[[x0 y0] [x1 y1]] score].
  exists x0, y0, (x1 - x0), (y1 - y0). split; [done|]. split.
  - cbn. f_equal. f_equal; lia.
  - intros [[[x0' y0'] [x1' y1']] score']. unfold Match_MarshalJSON, Dx, Dy. cbn.
    intros [= -> -> Hw Hh ->]. f_equal. f_equal. f_equal; lia.
Qed.

(** ** The size of a resized image *)

(** X14: [resizeImage] never returns an empty raster: the result has its bounds
    at the origin, a width and a height of at least 1 and four bytes per
    pixel in a row; a requested width or height of at least 1 is the width
    or height of the result. *)
Theorem resizeImage_size {Image : Type} (Image_Bounds : Image → Rectangle)
    (CatmullRom_Scale : Rectangle → Image → list byte) (img : Image) (width height : Z) :
  let resized := resizeImage Image_Bounds CatmullRom_Scale img width height in
  Min (Bounds resized) = mkPoint 0 0 ∧
  1 ≤ X (Max (Bounds resized)) ∧ 1 ≤ Y (Max (Bounds resized)) ∧
  Stride resized = 4 * X (Max (Bounds resized)) ∧
  Pix resized = CatmullRom_Scale (Bounds resized) img ∧
  (1 ≤ width → X (Max (Bounds resized)) = width) ∧
  (1 ≤ height → Y (Max (Bounds resized)) = height).
Proof.
  unfold resizeImage. cbv zeta.
  set (w1 := int_of_float64 _). set (h1 := int_of_float64 _).
  assert (HR : ∀ w h, 1 ≤ w → 1 ≤ h → Rect 0 0 w h = mkRectangle (mkPoint 0 0) (mkPoint w h)).
  { intros w h Hw Hh. unfold Rect. destruct (Z.ltb_spec w 0); [lia|].
    destruct (Z.ltb_spec h 0); [lia|]. done. }
  destruct (Z.eqb_spec width 0) as [->|Hw0]; [|destruct (Z.eqb_spec height 0) as [->|Hh0]];
    match goal with
    | |- context [Rect 0 0 ?w ?h] =>
        assert (Hw : 1 ≤ w) by (repeat case_match; lia);
        assert (Hh : 1 ≤ h) by (repeat case_match; lia);
        rewrite (HR w h Hw Hh); unfold Dx; cbn [Bounds Stride Pix Min Max X Y];
        rewrite ?Z.sub_0_r
    end;
    repeat split; try done; try lia; intros; repeat case_match; lia.
Qed.

(** ** The generic colour metric against the byte metric *)

Lemma widen_257 (v : byte) : Z.lor (u8 v) (wrap_uint32 (Z.shiftl (u8 v) 8)) = 257 * u8 v.
Proof. by destruct v. Qed.

Lemma uint32_abs_diff (a b : Z) :
  0 ≤ a < 2 ^ 32 → 0 ≤ b < 2 ^ 32 →
  (if b <? a then wrap_uint32 (a - b) else wrap_uint32 (b - a)) = Z.abs (a - b).
Proof.
  intros Ha Hb. destruct (Z.ltb_spec b a); rewrite wrap_uint32_small; lia.
Qed.

Lemma rgbAbsSum_bytes (a b : color.RGBA) :
  rgbAbsSum a b
    = 257 * (Z.abs (u8 (color.R a) - u8 (color.R b)) + Z.abs (u8 (color.G a) - u8 (color.G b))
             + Z.abs (u8 (color.B a) - u8 (color.B b))) / 255.
Proof.
  destruct a as [ar ag ab aa], b as [br bg bb ba].
  pose proof (u8_range ar). pose proof (u8_range ag). pose proof (u8_range ab).
  pose proof (u8_range br). pose proof (u8_range bg). pose proof (u8_range bb).
  unfold rgbAbsSum, color.Color_RGBA, color.RGBA_Color. cbv zeta.
  cbn [color.R color.G color.B color.A]. rewrite !widen_257.
  rewrite !uint32_abs_diff by lia.
  rewrite (wrap_uint32_small (Z.abs _ + Z.abs _)) by lia.
  rewrite wrap_uint32_small by lia. f_equal. lia.
Qed.

(** X15: On two [color.RGBA] values [rgbAbsSum] is [257 * s / 255] for the sum
    [s] of the three byte differences that [rgbAbsSumSlice] returns: the
    16 bit channels are 257 times the bytes.  It is [s] for [s < 128] and
    up to 6 more beyond, 771 instead of 765 between black and white. *)
Theorem rgbAbsSum_RGBA (a b : color.RGBA) :
  ∃ s : Z,
    rgbAbsSumSlice [color.R a; color.G a; color.B a] [color.R b; color.G b; color.B b] = Some s ∧
    0 ≤ s ≤ 765 ∧
    rgbAbsSum a b = 257 * s / 255 ∧
    s ≤ rgbAbsSum a b ≤ s + 6 ∧
    (rgbAbsSum a b = s ↔ s < 128).
Proof.
  destruct a as [ar ag ab aa], b as [br bg bb ba].
  exists (Z.abs (u8 ar - u8 br) + Z.abs (u8 ag - u8 bg) + Z.abs (u8 ab - u8 bb)).
  pose proof (u8_range ar). pose proof (u8_range ag). pose proof (u8_range ab).
  pose proof (u8_range br). pose proof (u8_range bg). pose proof (u8_range bb).
  set (s := _ + _ + _).
  assert (Hs : 0 ≤ s ≤ 765) by (subst s; lia).
  assert (Hsum : rgbAbsSum (color.mkRGBA ar ag ab aa) (color.mkRGBA br bg bb ba) = 257 * s / 255)
    by apply rgbAbsSum_bytes.
  split.
  - unfold rgbAbsSumSlice.
    cbn [lookup list_lookup mbind option_bind color.R color.G color.B color.A].
    rewrite !uint8_abs_diff, !bitwiseAbsDiff_abs.
    rewrite (wrap_uint32_small (Z.abs _ + Z.abs _)) by lia.
    rewrite wrap_uint32_small by lia. done.
  - split; [done|]. split; [done|]. rewrite Hsum.
    replace (257 * s) with (s * 255 + 2 * s) by lia.
    rewrite Z.div_add_l by lia.
    assert (0 ≤ 2 * s / 255 ≤ 6).
    { split; [apply Z.div_pos; lia|]. apply Z.div_le_upper_bound; lia. }
    split; [lia|]. split.
    + intros Heq. destruct (Z_lt_le_dec s 128); [done|].
      assert (1 ≤ 2 * s / 255) by (apply Z.div_le_lower_bound; lia). lia.
    + intros Hlt. rewrite (Z.div_small (2 * s)) by lia. lia.
Qed.

Lemma RGBAAt_channels (p : RGBA) (x y : Z) :
  well_formed p →
  X (Min (Bounds p)) ≤ x < X (Max (Bounds p)) → Y (Min (Bounds p)) ≤ y < Y (Max (Bounds p)) →
  ∃ c, RGBA_RGBAAt p x y = Some c ∧
       u8 (color.R c) = channel p x y 0 ∧ u8 (color.G c) = channel p x y 1 ∧
       u8 (color.B c) = channel p x y 2 ∧ u8 (color.A c) = channel p x y 3.
Proof.
  intros Hp Hx Hy. destruct (PixOffset_in_range p x y Hp Hx Hy) as [H0 Hlen].
  set (n := Z.to_nat (PixOffset p x y)).
  destruct (lookup_lt_is_Some_2 (Pix p) (n + 0)) as [b0 E0]; [lia|].
  destruct (lookup_lt_is_Some_2 (Pix p) (n + 1)) as [b1 E1]; [lia|].
  destruct (lookup_lt_is_Some_2 (Pix p) (n + 2)) as [b2 E2]; [lia|].
  destruct (lookup_lt_is_Some_2 (Pix p) (n + 3)) as [b3 E3]; [lia|].
  exists (color.mkRGBA b0 b1 b2 b3). split.
  - apply RGBAAt_bytes; [done|done|done|]. fold n. cbn [color.R color.G color.B color.A].
    intros j Hj. destruct j as [|[|[|[|j]]]]; [done|done|done|done|lia].
  - unfold channel, index. cbn [color.R color.G color.B color.A].
    repeat match goal with
           | |- context [0 <=? ?i] => destruct (Z.leb_spec 0 i); [|lia]
           end.
    replace (Z.to_nat (PixOffset p x y + 0)) with (n + 0)%nat by lia.
    replace (Z.to_nat (PixOffset p x y + 1)) with (n + 1)%nat by lia.
    replace (Z.to_nat (PixOffset p x y + 2)) with (n + 2)%nat by lia.
    replace (Z.to_nat (PixOffset p x y + 3)) with (n + 3)%nat by lia.
    rewrite E0, E1, E2, E3. done.
Qed.

Lemma Zsum_le {A : Type} (f g : A → Z) (l : list A) :
  Forall (λ a, f a ≤ g a) l → Zsum (f <$> l) ≤ Zsum (g <$> l).
Proof.
  induction 1 as [|a l Ha _ IH]; [done|]. rewrite !fmap_cons, !Zsum_cons. lia.
Qed.

Lemma Zsum_plus_const {A : Type} (f : A → Z) (c : Z) (l : list A) :
  Zsum ((λ a, f a + c) <$> l) = Zsum (f <$> l) + c * Z.of_nat (length l).
Proof.
  induction l as [|a l IH]; [cbn; lia|].
  rewrite !fmap_cons, !Zsum_cons, IH, length_cons. lia.
Qed.

(** X16: The generic [sumOfAbsDiff] on two [*image.RGBA] rasters, the needle
    within the haystack and small enough for neither sum to wrap: its sum
    is at least that of [sumOfAbsDiffRGBA] and exceeds it by at most 6 for
    each pixel of the needle, every pixel contributing
    [257 * d / 255] for its byte difference [d]. *)
Theorem sumOfAbsDiff_above_sumOfAbsDiffRGBA (img : RGBA) (x y : Z) (subimg : RGBA) :
  well_formed img → well_formed subimg → placed_within img x y subimg →
  Dx (Bounds subimg) * Dy (Bounds subimg) * 771 < 2 ^ 32 →
  ∃ s s' : Z,
    sumOfAbsDiffRGBA img x y subimg = Some s ∧
    sumOfAbsDiff img x y subimg = Some s' ∧
    s ≤ s' ≤ s + 6 * (Dx (Bounds subimg) * Dy (Bounds subimg)) ∧
    s' = Zsum ((λ ny, Zsum ((λ nx, 257 * pixel_abs_diff img x y subimg nx ny / 255)
                              <$> seqZ 0 (Dx (Bounds subimg))))
                 <$> seqZ 0 (Dy (Bounds subimg))).
Proof.
  intros Hi Hs Hin Hsmall.
  pose proof (wf_dx _ Hs) as Hw. pose proof (wf_dy _ Hs) as Hh.
  set (w := Dx (Bounds subimg)) in *. set (h := Dy (Bounds subimg)) in *.
  set (g := λ ny nx : Z, 257 * pixel_abs_diff img x y subimg nx ny / 255).
  assert (Hg : ∀ ny nx, pixel_abs_diff img x y subimg nx ny ≤ g ny nx
                        ≤ pixel_abs_diff img x y subimg nx ny + 6).
  { intros ny nx. unfold g. pose proof (pixel_abs_diff_range img x y subimg nx ny) as Hr.
    set (d := pixel_abs_diff img x y subimg nx ny) in *.
    replace (257 * d) with (d * 255 + 2 * d) by lia. rewrite Z.div_add_l by lia.
    assert (0 ≤ 2 * d / 255 ≤ 6); [|lia].
    split; [apply Z.div_pos; lia|apply Z.div_le_upper_bound; lia]. }
  set (row := λ ny, Zsum ((λ nx, pixel_abs_diff img x y subimg nx ny) <$> seqZ 0 w)).
  set (row' := λ ny, Zsum (g ny <$> seqZ 0 w)).
  assert (Hrow : ∀ ny, row ny ≤ row' ny ≤ row ny + 6 * w).
  { intros ny. unfold row, row'. split.
    - apply Zsum_le, Forall_forall. intros nx _. apply Hg.
    - etrans; [apply (Zsum_le _ (λ nx, pixel_abs_diff img x y subimg nx ny + 6)),
                 Forall_forall; intros nx _; apply Hg|].
      rewrite Zsum_plus_const, length_seqZ. lia. }
  assert (Hrows : Zsum (row <$> seqZ 0 h) ≤ Zsum (row' <$> seqZ 0 h)
                  ≤ Zsum (row <$> seqZ 0 h) + 6 * (w * h)).
  { split.
    - apply Zsum_le, Forall_forall. intros ny _. apply Hrow.
    - etrans; [apply (Zsum_le _ (λ ny, row ny + 6 * w)), Forall_forall; intros ny _; apply Hrow|].
      rewrite Zsum_plus_const, length_seqZ. lia. }
  pose proof (patch_abs_diff_range img x y subimg Hw Hh) as Hpatch.
  unfold patch_abs_diff in Hpatch. cbv zeta in Hpatch. fold w h row in Hpatch.
  exists (Zsum (row <$> seqZ 0 h)), (Zsum (row' <$> seqZ 0 h)).
  split; [|split; [|split; [done|done]]].
  - rewrite (sumOfAbsDiffRGBA_wraps _ _ _ _ Hi Hs Hin). unfold patch_abs_diff. cbv zeta.
    fold w h row. rewrite wrap_uint32_small by lia. done.
  - unfold sumOfAbsDiff. cbv zeta.
    change (image_Bounds subimg) with (Bounds subimg). fold w h.
    rewrite (foldM_uint32_sum _ row'); [rewrite Z.add_0_l, wrap_uint32_small by lia; done|lia|].
    apply Forall_forall. intros ny Hny%elem_of_seqZ s Hs0.
    apply foldM_uint32_sum; [done|].
    apply Forall_forall. intros nx Hnx%elem_of_seqZ s' _.
    destruct Hin as (Hx0 & Hx1 & Hy0 & Hy1). fold w h in Hx1, Hy1.
    destruct (RGBAAt_channels img (x + nx) (y + ny) Hi) as (t & Ht & Ht0 & Ht1 & Ht2 & _);
      [lia|lia|].
    destruct (RGBAAt_channels subimg (X (Min (Bounds subimg)) + nx)
                (Y (Min (Bounds subimg)) + ny) Hs) as (n & Hn & Hn0 & Hn1 & Hn2 & _);
      [unfold w, Dx in *; lia|unfold h, Dy in *; lia|].
    change (image_At img (x + nx) (y + ny)) with (RGBA_RGBAAt img (x + nx) (y + ny)).
    change (image_At subimg ?a ?b) with (RGBA_RGBAAt subimg a b).
    rewrite Ht, Hn. cbn [mbind option_bind]. rewrite rgbAbsSum_bytes.
    rewrite Ht0, Ht1, Ht2, Hn0, Hn1, Hn2. unfold g, pixel_abs_diff. cbv zeta.
    cbn [fmap list_fmap Zsum foldr]. do 4 f_equal. lia.
Qed.

Lemma sumOfAbsDiff_above_sumOfAbsDiffRGBA_witness :
  well_formed gradient_haystack ∧ well_formed gradient_needle ∧
  placed_within gradient_haystack 1 1 gradient_needle ∧
  Dx (Bounds gradient_needle) * Dy (Bounds gradient_needle) * 771 < 2 ^ 32 ∧
  ∃ s s' : Z,
    sumOfAbsDiffRGBA gradient_haystack 1 1 gradient_needle = Some s ∧
    sumOfAbsDiff gradient_haystack 1 1 gradient_needle = Some s' ∧
    s ≤ s' ≤ s + 6 * (Dx (Bounds gradient_needle) * Dy (Bounds gradient_needle)).
Proof.
  assert (Hh : well_formed gradient_haystack) by (split; vm_compute; congruence).
  assert (Hn : well_formed gradient_needle) by (split; vm_compute; congruence).
  assert (Hin : placed_within gradient_haystack 1 1 gradient_needle)
    by (vm_compute; intuition congruence).
  assert (Hsmall : Dx (Bounds gradient_needle) * Dy (Bounds gradient_needle) * 771 < 2 ^ 32)
    by (vm_compute; reflexivity).
  refine (conj Hh (conj Hn (conj Hin (conj Hsmall _)))).
  destruct (sumOfAbsDiff_above_sumOfAbsDiffRGBA gradient_haystack 1 1 gradient_needle
              Hh Hn Hin Hsmall) as (s & s' & H1 & H2 & H3 & _).
  exists s, s'. exact (conj H1 (conj H2 H3)).
Defined.

(** ** The mean colour *)

Lemma byte_of_Z_u8 (b : byte) : byte_of_Z (u8 b) = b.
Proof. by destruct b. Qed.

Lemma Color_RGBA_257 (c : color.RGBA) :
  color.Color_RGBA c
    = (257 * u8 (color.R c), 257 * u8 (color.G c), 257 * u8 (color.B c), 257 * u8 (color.A c)).
Proof. unfold color.Color_RGBA, color.RGBA_Color. cbv zeta. by rewrite !widen_257. Qed.

Section mean.

Context {I : Type} `{!image_Image I color.RGBA}.
Variable img : I.
Variable c : color.RGBA.

Local Abbreviation acc_of := (λ k : Z,
  (k * (257 * u8 (color.R c)), k * (257 * u8 (color.G c)), k * (257 * u8 (color.B c)),
   k * (257 * u8 (color.A c)), k)).

Local Abbreviation step := (λ (y : Z) '(r, g, b, a, count) (x : Z),
  pixel ← image_At img x y;
  let '(pr, pg, pb, pa) := color.Color_RGBA pixel in
  Some (wrap_uint32 (r + pr), wrap_uint32 (g + pg), wrap_uint32 (b + pb),
        wrap_uint32 (a + pa), wrap_uint32 (count + 1))).

Lemma mean_row (y : Z) (xs : list Z) :
  ∀ k : Z, 0 ≤ k → k + Z.of_nat (length xs) ≤ 65536 →
    (∀ x, x ∈ xs → image_At img x y = Some c) →
    foldM (step y) (acc_of k) xs = Some (acc_of (k + Z.of_nat (length xs))).
Proof.
  pose proof (u8_range (color.R c)). pose proof (u8_range (color.G c)).
  pose proof (u8_range (color.B c)). pose proof (u8_range (color.A c)).
  induction xs as [|x xs IH]; intros k Hk Hlen Hat.
  - cbn [foldM length]. by rewrite Z.add_0_r.
  - cbn [foldM]. rewrite Hat by left. cbn [mbind option_bind].
    rewrite Color_RGBA_257. cbn [mbind option_bind].
    rewrite length_cons in Hlen.
    assert (Hfit : ∀ v, 0 ≤ v < 256 → 0 ≤ k * (257 * v) + 257 * v < 2 ^ 32).
    { intros v Hv.
      assert ((k + 1) * (257 * v) ≤ 65536 * (257 * 255))
        by (apply Z.mul_le_mono_nonneg; lia).
      nia. }
    rewrite !wrap_uint32_small by first [by apply Hfit|lia].
    replace (k * (257 * u8 (color.R c)) + 257 * u8 (color.R c))
      with ((k + 1) * (257 * u8 (color.R c))) by lia.
    replace (k * (257 * u8 (color.G c)) + 257 * u8 (color.G c))
      with ((k + 1) * (257 * u8 (color.G c))) by lia.
    replace (k * (257 * u8 (color.B c)) + 257 * u8 (color.B c))
      with ((k + 1) * (257 * u8 (color.B c))) by lia.
    replace (k * (257 * u8 (color.A c)) + 257 * u8 (color.A c))
      with ((k + 1) * (257 * u8 (color.A c))) by lia.
    rewrite IH; [|lia|lia|intros x' Hx'; apply Hat; by right].
    rewrite length_cons.
    replace (k + 1 + Z.of_nat (length xs)) with (k + Z.of_nat (S (length xs))) by lia. done.
Qed.

Lemma mean_rows (xs ys : list Z) :
  ∀ k : Z, 0 ≤ k → k + Z.of_nat (length xs) * Z.of_nat (length ys) ≤ 65536 →
    (∀ x y, x ∈ xs → y ∈ ys → image_At img x y = Some c) →
    foldM (λ acc y, foldM (step y) acc xs) (acc_of k) ys
      = Some (acc_of (k + Z.of_nat (length xs) * Z.of_nat (length ys))).
Proof.
  induction ys as [|y ys IH]; intros k Hk Hlen Hat.
  - cbn [foldM length]. replace (k + Z.of_nat (length xs) * Z.of_nat 0) with k by lia. done.
  - cbn [foldM]. rewrite length_cons in Hlen.
    rewrite mean_row; [|done|nia|intros x Hx; apply Hat; [done|by left]].
    cbn [mbind option_bind].
    rewrite IH; [|lia|nia|intros x y' Hx Hy'; apply Hat; [done|by right]].
    rewrite length_cons.
    replace (k + Z.of_nat (length xs) + Z.of_nat (length xs) * Z.of_nat (length ys))
      with (k + Z.of_nat (length xs) * Z.of_nat (S (length ys))) by lia. done.
Qed.

End mean.

Lemma foldM_skip {S A : Type} (l : list A) (s : S) : foldM (λ s _, Some s) s l = Some s.
Proof. induction l as [|a l IH]; [done|apply IH]. Qed.

(** X17: [calculateMeanColor] panics on an image without pixels (it divides by
    the pixel count), and on an image of at most 65536 pixels that all
    have the colour [c] it returns [c]: up to that size the [uint32] sums
    of the 16 bit channels do not wrap. *)
Theorem calculateMeanColor_uniform {I : Type} `{!image_Image I color.RGBA} (img : I)
    (c : color.RGBA) :
  let w := Dx (image_Bounds img) in
  let h := Dy (image_Bounds img) in
  (w ≤ 0 ∨ h ≤ 0 → calculateMeanColor img = None) ∧
  (0 < w → 0 < h → w * h ≤ 65536 →
   (∀ x y, X (Min (image_Bounds img)) ≤ x < X (Max (image_Bounds img)) →
           Y (Min (image_Bounds img)) ≤ y < Y (Max (image_Bounds img)) →
           image_At img x y = Some c) →
   calculateMeanColor img = Some c).
Proof.
  intros w h. unfold calculateMeanColor. cbv zeta. unfold w, h, Dx, Dy. split.
  - intros [Hw|Hh].
    + rewrite (seqZ_nil (X _)) by lia.
      cbn [foldM]. rewrite foldM_skip. done.
    + rewrite (seqZ_nil (Y _)) by lia. done.
  - intros Hw Hh Hsize Hat.
    pose proof (mean_rows img c (seqZ (X (Min (image_Bounds img)))
                                   (X (Max (image_Bounds img)) - X (Min (image_Bounds img))))
                  (seqZ (Y (Min (image_Bounds img)))
                     (Y (Max (image_Bounds img)) - Y (Min (image_Bounds img)))) 0) as Hrows.
    rewrite !length_seqZ, !Z2Nat.id in Hrows by lia. cbv beta in Hrows.
    rewrite !Z.mul_0_l in Hrows. rewrite Hrows; [|lia|lia|].
    + cbn [mbind option_bind]. rewrite Z.add_0_l.
      set (n := _ * _) in *.
      destruct (Z.eqb_spec n 0); [subst n; nia|].
      pose proof (u8_range (color.R c)). pose proof (u8_range (color.G c)).
      pose proof (u8_range (color.B c)). pose proof (u8_range (color.A c)).
      assert (Hmean : ∀ v, 0 ≤ v < 256 →
                wrap_uint8 (Z.shiftr (n * (257 * v) / n) 8) = v).
      { intros v Hv. rewrite Z.mul_comm, Z.div_mul by lia.
        rewrite Z.shiftr_div_pow2 by lia.
        replace (257 * v) with (v * 2 ^ 8 + v) by lia.
        rewrite Z.div_add_l, (Z.div_small v) by lia.
        rewrite Z.add_0_r. apply wrap_uint8_small. lia. }
      rewrite !Hmean, !byte_of_Z_u8 by done. by destruct c.
    + intros x y Hx%elem_of_seqZ Hy%elem_of_seqZ. apply Hat; lia.
Qed.

Lemma calculateMeanColor_uniform_witness :
  let img := uniform x80 4 4 in
  (0 < 4 ∧ 0 < 4 ∧ 4 * 4 ≤ 65536) ∧
  calculateMeanColor img = Some (color.mkRGBA x80 x80 x80 x80).
Proof.
  intros img.
  assert (H : 0 < 4 ∧ 0 < 4 ∧ 4 * 4 ≤ 65536) by lia.
  split; [exact H|].
  apply (proj2 (calculateMeanColor_uniform img (color.mkRGBA x80 x80 x80 x80)));
    [vm_compute; reflexivity|vm_compute; reflexivity|vm_compute; congruence|].
  intros x y Hx Hy. cbn in Hx, Hy.
  assert (Hxs : x = 0 ∨ x = 1 ∨ x = 2 ∨ x = 3) by lia.
  assert (Hys : y = 0 ∨ y = 1 ∨ y = 2 ∨ y = 3) by lia.
  destruct Hxs as [->|[->|[->| ->]]], Hys as [->|[->|[->| ->]]]; vm_compute; reflexivity.
Defined.

(** ** A search that does not end *)

(** X18: With [-img-min-width] at the least [int], [-2^63], the search does not
    end: the first level is left at once, [imgWidth *= 2] wraps to 0, and
    at width 0 every level is left with the width still 0.  (The other
    options and the rasters are as usual: non-negative.) *)
Theorem findImage_least_width_loops {Image : Type} (Image_Bounds : Image → Rectangle)
    (CatmullRom_Scale : Rectangle → Image → list byte) (rt : Runtime) (numCPU : positive)
    (fuel : nat) (imgsrc subsrc : Image) (opts : Opts) :
  imgMinWidth opts = - 2 ^ 63 →
  0 ≤ imgMaxWidth opts → 0 ≤ subMinArea opts →
  0 ≤ X (Max (Image_Bounds imgsrc)) →
  0 ≤ Dx (Image_Bounds subsrc) → 0 ≤ Dy (Image_Bounds subsrc) →
  findImage Image_Bounds CatmullRom_Scale rt numCPU fuel imgsrc subsrc opts = OutOfFuel.
Proof.
  intros Hmin Hmax Harea Hwidth Hdx Hdy. unfold findImage. cbv zeta.
  set (opts1 := mkOpts _ _ _ _ _).
  set (opts2 := if _ <? _ then _ else _).
  assert (Hmin2 : imgMinWidth opts2 = - 2 ^ 63).
  { assert (imgMinWidth opts1 = - 2 ^ 63) by (subst opts1; cbn [imgMinWidth]; by rewrite Hmin).
    subst opts2. by destruct (_ <? _). }
  assert (Harea2 : 1 ≤ subMinArea opts2).
  { assert (1 ≤ subMinArea opts1)
      by (subst opts1; cbn [subMinArea]; destruct (Z.eqb_spec (subMinArea opts) 0);
          [done|lia]).
    subst opts2. by destruct (_ <? _). }
  assert (Hmax2 : 0 ≤ imgMaxWidth opts2).
  { assert (0 ≤ imgMaxWidth opts1)
      by (subst opts1; cbn [imgMaxWidth]; destruct (Z.eqb_spec (imgMaxWidth opts) 0);
          [done|lia]).
    subst opts2. destruct (_ <? _); cbn [imgMaxWidth]; lia. }
  rewrite Hmin2. destruct fuel as [|fuel]; [done|]. cbn [outer_loop].
  destruct (Z.ltb_spec (imgMaxWidth opts2) (- 2 ^ 63)); [lia|]. cbv zeta.
  rewrite least_width_breaks.
  change (wrap_int (- 2 ^ 63 * 2)) with 0.
  by apply outer_loop_stuck.
Qed.

Lemma findImage_least_width_loops_witness :
  let opts := mkOpts (- 2 ^ 63) 0 0 0 0 in
  imgMinWidth opts = - 2 ^ 63 ∧ 0 ≤ imgMaxWidth opts ∧ 0 ≤ subMinArea opts ∧
  0 ≤ X (Max (Bounds gradient_haystack)) ∧
  0 ≤ Dx (Bounds gradient_needle) ∧ 0 ≤ Dy (Bounds gradient_needle) ∧
  findImage Bounds nearest_Scale in_order 1 1000 gradient_haystack gradient_needle opts
    = OutOfFuel.
Proof.
  intros opts.
  assert (H1 : imgMinWidth opts = - 2 ^ 63) by reflexivity.
  assert (H2 : 0 ≤ imgMaxWidth opts) by (simpl; lia).
  assert (H3 : 0 ≤ subMinArea opts) by (simpl; lia).
  assert (H4 : 0 ≤ X (Max (Bounds gradient_haystack))) by (vm_compute; congruence).
  assert (H5 : 0 ≤ Dx (Bounds gradient_needle)) by (vm_compute; congruence).
  assert (H6 : 0 ≤ Dy (Bounds gradient_needle)) by (vm_compute; congruence).
  refine (conj H1 (conj H2 (conj H3 (conj H4 (conj H5 (conj H6 _)))))).
  exact (findImage_least_width_loops Bounds nearest_Scale in_order 1 1000 gradient_haystack
           gradient_needle opts H1 H2 H3 H4 H5 H6).
Defined.

(** ** Where the result of a search comes from *)

Section provenance.

Context {Image : Type}.
Variable Image_Bounds : Image → Rectangle.
Variable CatmullRom_Scale : Rectangle → Image → list byte.
Variable rt : Runtime.
Variable numCPU : positive.
Variable subsrc imgsrc : Image.
Variable opts : Opts.

Local Abbreviation resize := (resizeImage Image_Bounds CatmullRom_Scale).
Local Abbreviation body := (inner_body Image_Bounds CatmullRom_Scale rt numCPU subsrc opts).
Local Abbreviation inner := (inner_loop Image_Bounds CatmullRom_Scale rt numCPU subsrc opts).
Local Abbreviation outer :=
  (outer_loop Image_Bounds CatmullRom_Scale rt numCPU subsrc opts imgsrc).

(** [matches] is what the matcher returned for the haystack resized to
    some width and the needle resized for some division, scaled back by
    [1 / imgScale]. *)
Local Abbreviation from_level := (λ (img : RGBA) (imgScale : float) (matches : Matches),
  ∃ (div : Z) (divMatches : Matches),
    convolutionTopKParallel rt numCPU img
      (resize subsrc (sub_size Image_Bounds subsrc imgScale div).1
                     (sub_size Image_Bounds subsrc imgScale div).2)
      (opt_k opts) = Some divMatches ∧
    matches = Matches_Scale divMatches (PrimFloat.div 1%float imgScale)).

Local Abbreviation from_matcher := (λ matches : Matches,
  matches = [] ∨
  ∃ imgWidth : Z,
    from_level (resize imgsrc imgWidth 0)
      (PrimFloat.div (float64_of_int imgWidth)
         (float64_of_int (X (Max (Image_Bounds imgsrc))))) matches).

Lemma inner_loop_provenance (fuel : nat) (img : RGBA) (imgWidth imgHeight : Z)
    (imgScale : float) (P : Matches → Prop) :
  (∀ matches, from_level img imgScale matches → P matches) →
  ∀ (div : Z) (lastTopMatch : float) (matches : Matches) (subruns : nat)
    (result : Matches) (done : bool),
    P matches →
    inner fuel img imgWidth imgHeight imgScale div lastTopMatch matches subruns
      = Returns (result, done) →
    P result.
Proof.
  intros Hlevel.
  induction fuel as [|fuel IH]; intros div last ms sr result dn Hm; [done|].
  cbn [inner_loop]. destruct (_ <? _); [by intros [= <- <-]|].
  unfold inner_body.
  destruct (sub_size Image_Bounds subsrc imgScale div) as [sw sh] eqn:Hsize. cbv zeta.
  destruct (_ || _); [by intros [= <- <-]|].
  destruct (convolutionTopKParallel _ _ _ _ _) as [divMatches|] eqn:Hconv; [|done].
  cbn [mbind option_bind].
  destruct (_ =? _)%nat; [by intros [= <- <-]|].
  destruct (divMatches !! 0%nat) as [top|]; [|done]. cbn [mbind option_bind].
  destruct (PrimFloat.ltb _ _).
  - destruct (_ <? _)%nat; [done|]. by intros [= <- <-].
  - apply IH. apply Hlevel. exists div, divMatches. rewrite Hsize. done.
Qed.

Lemma outer_loop_provenance (fuel : nat) :
  ∀ (imgWidth : Z) (matches result : Matches),
    from_matcher matches → outer fuel imgWidth matches = Returns result → from_matcher result.
Proof.
  induction fuel as [|fuel IH]; intros w ms result Hm; [done|].
  cbn [outer_loop]. destruct (_ <? _); [by intros [= <-]|]. cbv zeta.
  destruct (inner _ _ _ _ _ _ _ _ _) as [[ms' dn]| |] eqn:Hinner; [|done|done].
  apply (inner_loop_provenance _ _ _ _ _ from_matcher) in Hinner; [| |done].
  - destruct dn; [by intros [= <-]|]. by apply IH.
  - intros ms0 Hms0. right. by exists w.
Qed.

End provenance.

(** X19: A search returns nothing or the matches of one call of the matcher,
    on the haystack resized to some width and the needle resized for some
    division, with the rectangles scaled back by [1 / imgScale]; the
    scores are those of that call. *)
Theorem findImage_provenance {Image : Type} (Image_Bounds : Image → Rectangle)
    (CatmullRom_Scale : Rectangle → Image → list byte) (rt : Runtime) (numCPU : positive)
    (fuel : nat) (imgsrc subsrc : Image) (opts : Opts) (result : Matches) :
  findImage Image_Bounds CatmullRom_Scale rt numCPU fuel imgsrc subsrc opts = Returns result →
  result = [] ∨
  ∃ (imgWidth div : Z) (divMatches : Matches),
    let imgScale := PrimFloat.div (float64_of_int imgWidth)
                      (float64_of_int (X (Max (Image_Bounds imgsrc)))) in
    let size := sub_size Image_Bounds subsrc imgScale div in
    convolutionTopKParallel rt numCPU
      (resizeImage Image_Bounds CatmullRom_Scale imgsrc imgWidth 0)
      (resizeImage Image_Bounds CatmullRom_Scale subsrc size.1 size.2)
      (if opt_k opts =? 0 then 6 else opt_k opts) = Some divMatches ∧
    result = Matches_Scale divMatches (PrimFloat.div 1%float imgScale) ∧
    m_Match <$> result = m_Match <$> divMatches.
Proof.
  unfold findImage. cbv zeta. intros Hres.
  apply outer_loop_provenance in Hres; [|by left].
  destruct Hres as [->|(w & div & divMatches & Hconv & ->)]; [by left|right].
  exists w, div, divMatches. cbv zeta. split; [|split; [done|]].
  - rewrite <- Hconv. by destruct (_ <? _).
  - unfold Matches_Scale. rewrite <- list_fmap_compose. done.
Qed.

Lemma findImage_provenance_witness :
  let opts := mkOpts 8 8 1 4 2 in
  let result := match findImage Bounds nearest_Scale in_order 1 9 gradient_haystack
                        gradient_needle opts with
                | Returns ms => ms
                | _ => []
                end in
  findImage Bounds nearest_Scale in_order 1 9 gradient_haystack gradient_needle opts
    = Returns result ∧
  (result = [] ∨
   ∃ (imgWidth div : Z) (divMatches : Matches),
     result = Matches_Scale divMatches
                (PrimFloat.div 1%float
                   (PrimFloat.div (float64_of_int imgWidth)
                      (float64_of_int (X (Max (Bounds gradient_haystack))))))).
Proof.
  intros opts result.
  assert (H : findImage Bounds nearest_Scale in_order 1 9 gradient_haystack gradient_needle opts
              = Returns result) by (vm_compute; reflexivity).
  split; [exact H|].
  destruct (findImage_provenance Bounds nearest_Scale in_order 1 9 gradient_haystack
              gradient_needle opts result H) as [Hnil|(w & div & divMatches & _ & Hres & _)].
  - left. exact Hnil.
  - right. exists w, div, divMatches. exact Hres.
Defined.


(** ** Rounding to nearest *)

Lemma shr_1_r (mrs : shr_record) : 0 ≤ shr_m mrs → shr_r (shr_1 mrs) = Z.odd (shr_m mrs).
Proof.
  destruct mrs as [m r s]. cbn [shr_m]. intros Hm.
  destruct m as [|[p|p|]|p]; cbn [shr_1 shr_r]; try lia; reflexivity.
Qed.

(** After a shift by [p] bits the round bit is bit [p - 1] of the
    mantissa. *)
Lemma iter_shr_1_r (p : positive) (mrs : shr_record) :
  0 ≤ shr_m mrs →
  shr_r (SpecFloat.iter_pos shr_1 p mrs) = Z.odd (shr_m mrs / 2 ^ (Z.pos p - 1)).
Proof.
  revert mrs. induction p as [p IH|p IH|]; intros mrs Hm; cbn [SpecFloat.iter_pos].
  - pose proof (Z.pow_pos_nonneg 2 (Z.pos p) ltac:(lia) ltac:(lia)) as Hpow.
    pose proof (Z.pow_pos_nonneg 2 (Z.pos p - 1) ltac:(lia) ltac:(lia)) as Hpow'.
    assert (H1 : 0 ≤ shr_m (shr_1 mrs)) by (rewrite shr_1_m by done; apply Z.div_pos; lia).
    assert (H2 : 0 ≤ shr_m (SpecFloat.iter_pos shr_1 p (shr_1 mrs)))
      by (rewrite iter_shr_1_m by done; apply Z.div_pos; lia).
    rewrite IH, iter_shr_1_m, shr_1_m by done.
    rewrite !Z.div_div by lia. do 2 f_equal.
    replace (Z.pos p~1 - 1) with (1 + Z.pos p + (Z.pos p - 1)) by lia.
    rewrite !Z.pow_add_r by lia. lia.
  - pose proof (Z.pow_pos_nonneg 2 (Z.pos p) ltac:(lia) ltac:(lia)) as Hpow.
    pose proof (Z.pow_pos_nonneg 2 (Z.pos p - 1) ltac:(lia) ltac:(lia)) as Hpow'.
    assert (H2 : 0 ≤ shr_m (SpecFloat.iter_pos shr_1 p mrs))
      by (rewrite iter_shr_1_m by done; apply Z.div_pos; lia).
    rewrite IH, iter_shr_1_m by done.
    rewrite !Z.div_div by lia. do 2 f_equal.
    replace (Z.pos p~0 - 1) with (Z.pos p + (Z.pos p - 1)) by lia.
    rewrite !Z.pow_add_r by lia. lia.
  - rewrite shr_1_r by done. change (2 ^ (1 - 1)) with 1. by rewrite Z.div_1_r.
Qed.

Lemma odd_quotient_remainder (m k : Z) :
  0 ≤ m → 0 < k → Z.odd (m / 2 ^ (k - 1)) = true → 2 ^ k ≤ 2 * (m mod 2 ^ k).
Proof.
  intros Hm Hk Hodd.
  assert (Hp : 0 < 2 ^ (k - 1)) by (apply Z.pow_pos_nonneg; lia).
  assert (H2k : 2 ^ k = 2 * 2 ^ (k - 1)).
  { replace k with (1 + (k - 1)) at 1 by lia. rewrite Z.pow_add_r by lia. done. }
  rewrite H2k.
  rewrite Z.mul_comm, Z.rem_mul_r by lia.
  rewrite (Zmod_odd (m / 2 ^ (k - 1))), Hodd.
  pose proof (Z.mod_pos_bound m (2 ^ (k - 1)) Hp). lia.
Qed.

Lemma loc_of_shr_record_of_loc (m : Z) (l : location) :
  loc_of_shr_record (shr_record_of_loc m l) = l.
Proof. by destruct l as [|[]]. Qed.

Lemma round_up_only_if (m : Z) (l : location) :
  round_nearest_even m l ≠ m → l = loc_Inexact Eq ∨ l = loc_Inexact Gt.
Proof. destruct l as [|[]]; cbn; auto; intros H; by destruct H. Qed.

Lemma loc_round_bit (mrs : shr_record) :
  loc_of_shr_record mrs = loc_Inexact Eq ∨ loc_of_shr_record mrs = loc_Inexact Gt →
  shr_r mrs = true.
Proof. destruct mrs as [m [] []]; cbn; intros [?|?]; congruence. Qed.

(** The rounding of [mx * 2^ex] at the exponent [e1] it is shifted to: the
    quotient by [2^(e1 - ex)], or one more, and one more only if the
    remainder is at least half ([2 * rem >= 2^(e1 - ex)]) or, when nothing
    is shifted out, the location says so. *)
Lemma binary_round_aux_nearest (sx : bool) (mx ex : Z) (lx : location) :
  0 ≤ mx →
  let e1 := Z.max ex (fexp prec emax (Zdigits2 mx + ex)) in
  ∃ m2,
    binary_round_aux prec emax sx mx ex lx = finish_round sx m2 e1 ∧
    (m2 = mx / 2 ^ (e1 - ex) ∨
     m2 = mx / 2 ^ (e1 - ex) + 1 ∧
     (0 < e1 - ex → 2 ^ (e1 - ex) ≤ 2 * (mx mod 2 ^ (e1 - ex))) ∧
     (e1 - ex = 0 → lx = loc_Inexact Eq ∨ lx = loc_Inexact Gt)) ∧
    m2 ≤ 2 ^ 53.
Proof.
  intros Hmx e1.
  assert (Hround : ∃ mrs1, shr_fexp prec emax mx ex lx = (mrs1, e1) ∧
            shr_m mrs1 = mx / 2 ^ (e1 - ex) ∧
            (loc_of_shr_record mrs1 = loc_Inexact Eq ∨ loc_of_shr_record mrs1 = loc_Inexact Gt →
             (0 < e1 - ex → 2 ^ (e1 - ex) ≤ 2 * (mx mod 2 ^ (e1 - ex))) ∧
             (e1 - ex = 0 → lx = loc_Inexact Eq ∨ lx = loc_Inexact Gt))).
  { unfold shr_fexp, shr. subst e1.
    set (f := fexp prec emax (Zdigits2 mx + ex)).
    destruct (f - ex) as [|p|p] eqn:Hdiff.
    - exists (shr_record_of_loc mx lx). replace (Z.max ex f) with ex by lia.
      rewrite Z.sub_diag, Z.div_1_r, shr_record_of_loc_m, loc_of_shr_record_of_loc.
      split; [done|]. split; [done|]. intros Hl. split; [lia|done].
    - exists (SpecFloat.iter_pos shr_1 p (shr_record_of_loc mx lx)).
      replace (Z.max ex f) with (ex + Z.pos p) by lia.
      rewrite iter_shr_1_m by (rewrite shr_record_of_loc_m; done).
      rewrite shr_record_of_loc_m. replace (ex + Z.pos p - ex) with (Z.pos p) by lia.
      split; [done|]. split; [done|]. intros Hl%loc_round_bit.
      rewrite iter_shr_1_r, shr_record_of_loc_m in Hl by (rewrite shr_record_of_loc_m; done).
      split; [|lia]. intros _. by apply odd_quotient_remainder.
    - exists (shr_record_of_loc mx lx). replace (Z.max ex f) with ex by lia.
      rewrite Z.sub_diag, Z.div_1_r, shr_record_of_loc_m, loc_of_shr_record_of_loc.
      split; [done|]. split; [done|]. intros Hl. split; [lia|done]. }
  destruct Hround as (mrs1 & Hshr & Hm1 & Hup).
  unfold binary_round_aux. rewrite Hshr.
  set (m1 := mx / 2 ^ (e1 - ex)) in *.
  assert (He1 : -1074 ≤ e1) by (subst e1; rewrite fexp64; lia).
  assert (Hshift : 0 ≤ e1 - ex) by (subst e1; lia).
  assert (Hm1pos : 0 ≤ m1) by (apply Z.div_pos; [done|apply Z.pow_pos_nonneg; lia]).
  assert (Hm1lt : m1 < 2 ^ 53).
  { destruct (Z.eq_dec mx 0) as [->|Hne].
    { subst m1. rewrite Z.div_0_l by (apply Z.pow_nonzero; lia). lia. }
    pose proof (Zdigits2_bounds mx ltac:(lia)) as [_ Hhi].
    pose proof (Zdigits2_pos mx ltac:(lia)) as HD.
    assert (Hfe : Zdigits2 mx + ex - 53 ≤ e1) by (subst e1; rewrite fexp64; lia).
    apply Z.div_lt_upper_bound; [apply Z.pow_pos_nonneg; lia|].
    rewrite <- Z.pow_add_r by lia.
    eapply Z.lt_le_trans; [exact Hhi|]. apply Z.pow_le_mono_r; lia. }
  set (m2 := round_nearest_even (shr_m mrs1) (loc_of_shr_record mrs1)).
  assert (Hm2 : m2 = m1 ∨ m2 = m1 + 1)
    by (subst m2; rewrite Hm1; apply round_nearest_even_cases).
  assert (Hm2pos : 0 ≤ m2) by lia.
  destruct (shr_fexp_shape m2 e1 loc_Exact Hm2pos) as (mrs2 & -> & Hm3 & Hsame2).
  exists m2. split; [|split; [|lia]].
  - unfold finish_round.
    destruct (Z.eqb_spec m2 0) as [Hz|Hnz].
    + rewrite Hm3, Hz, Z.div_0_l by (apply Z.pow_nonzero; lia). done.
    + destruct (Z.eqb_spec m2 (2 ^ 53)) as [Htop|Hntop].
      * assert (Hd : Zdigits2 m2 = 54) by (rewrite Htop; reflexivity).
        rewrite Hd, fexp64 in *.
        replace (Z.max e1 (Z.max (54 + e1 - 53) (-1074))) with (e1 + 1) in * by lia.
        replace (e1 + 1 - e1) with 1 in Hm3 by lia.
        rewrite Htop in Hm3. change (2 ^ 53 / 2 ^ 1) with (Z.pos (2 ^ 52)) in Hm3.
        rewrite Hm3. done.
      * assert (Hd : Zdigits2 m2 ≤ 53) by (apply Zdigits2_le; lia).
        rewrite fexp64 in *.
        replace (Z.max e1 (Z.max (Zdigits2 m2 + e1 - 53) (-1074))) with e1 in * by lia.
        rewrite Z.sub_diag, Z.div_1_r in Hm3. rewrite Hm3.
        destruct m2 as [|p|p]; try lia. done.
  - destruct (Z.eq_dec m2 m1) as [Heq|Hne]; [by left|right].
    split; [lia|]. apply Hup. apply (round_up_only_if (shr_m mrs1)).
    fold m2. rewrite Hm1. done.
Qed.

Lemma new_location_up (n r : Z) :
  new_location n r = loc_Inexact Eq ∨ new_location n r = loc_Inexact Gt → n ≤ 2 * r.
Proof.
  unfold new_location, new_location_even, new_location_odd.
  destruct (Z.even n); (match goal with |- context [if ?c then _ else _] => destruct c end); try (intros [?|?]; congruence).
  - destruct (Z.compare_spec (2 * r) n); intros [?|?]; try congruence; lia.
  - destruct (Z.compare_spec (2 * r + 1) n); intros [?|?]; try congruence; lia.
Qed.

(** The quotient of two normal numbers: rounded to nearest, so that the
    result times the divisor exceeds the dividend by at most half a unit
    in the last place. *)
Lemma SFdiv_normal (m1 m2 : positive) (e1 e2 : Z) :
  2 ^ 52 ≤ Z.pos m1 < 2 ^ 53 → 2 ^ 52 ≤ Z.pos m2 < 2 ^ 53 → -1021 ≤ e1 - e2 →
  ∃ mz k,
    SFdiv prec emax (S754_finite false m1 e1) (S754_finite false m2 e2)
      = finish_round false mz (e1 - e2 - 53 + k) ∧
    (k = 0 ∨ k = 1) ∧ 2 ^ 52 ≤ mz ≤ 2 ^ 53 ∧
    2 * (mz * 2 ^ k) * Z.pos m2 ≤ 2 * (Z.pos m1 * 2 ^ 53) + Z.pos m2 * 2 ^ k ∧
    (k = 1 → Z.pos m2 ≤ Z.pos m1) ∧
    Z.pos m1 * 2 ^ 53 < (mz + 1) * 2 ^ k * Z.pos m2.
Proof.
  intros Hm1 Hm2 He. unfold SFdiv, SFdiv_core_binary. cbv zeta.
  rewrite (Zdigits2_unique (Z.pos m1) 53), (Zdigits2_unique (Z.pos m2) 53)
    by (try lia; simpl; lia).
  rewrite fexp64.
  replace (Z.min (Z.max (53 + e1 - (53 + e2) - 53) (-1074)) (e1 - e2)) with (e1 - e2 - 53) by lia.
  replace (e1 - e2 - (e1 - e2 - 53)) with 53 by lia.
  rewrite Z.shiftl_mul_pow2 by lia.
  pose proof (Z_div_mod (Z.pos m1 * 2 ^ 53) (Z.pos m2) ltac:(lia)) as Hdm.
  destruct (Z.div_eucl (Z.pos m1 * 2 ^ 53) (Z.pos m2)) as [q r].
  destruct Hdm as [Heq Hr].
  assert (Hqlo : 2 ^ 52 ≤ q) by nia.
  assert (Hqhi : q < 2 ^ 54) by nia.
  cbn [xorb].
  destruct (binary_round_aux_nearest false q (e1 - e2 - 53) (new_location (Z.pos m2) r)
              ltac:(lia)) as (mz & -> & Hmz & Htop).
  cbv zeta in Hmz. rewrite fexp64 in *.
  destruct (Z_lt_ge_dec q (2 ^ 53)) as [Hsmall|Hbig].
  - assert (Hd : Zdigits2 q = 53) by (apply Zdigits2_unique; [|lia]; simpl; lia).
    rewrite Hd in *.
    replace (Z.max (e1 - e2 - 53) (Z.max (53 + (e1 - e2 - 53) - 53) (-1074)))
      with (e1 - e2 - 53) in * by lia.
    rewrite Z.sub_diag in Hmz. change (2 ^ 0) with 1 in Hmz. rewrite Z.div_1_r in Hmz.
    exists mz, 0. rewrite Z.add_0_r. split; [done|]. split; [by left|].
    change (2 ^ 0) with 1. rewrite !Z.mul_1_r.
    destruct Hmz as [->|(-> & _ & Hloc)].
    + split; [lia|]. split; [nia|]. split; [lia|nia].
    + specialize (Hloc eq_refl). apply new_location_up in Hloc.
      split; [lia|]. split; [nia|]. split; [lia|nia].
  - assert (Hd : Zdigits2 q = 54) by (apply Zdigits2_unique; [|lia]; simpl; lia).
    rewrite Hd in *.
    replace (Z.max (e1 - e2 - 53) (Z.max (54 + (e1 - e2 - 53) - 53) (-1074)))
      with (e1 - e2 - 53 + 1) in * by lia.
    replace (e1 - e2 - 53 + 1 - (e1 - e2 - 53)) with 1 in Hmz by lia.
    change (2 ^ 1) with 2 in *.
    exists mz, 1. split; [done|]. split; [by right|].
    change (2 ^ 1) with 2.
    pose proof (Z.div_mod q 2 ltac:(lia)) as Hq2.
    pose proof (Z.mod_pos_bound q 2 ltac:(lia)) as Hq2'.
    assert (Hle : Z.pos m2 ≤ Z.pos m1) by nia.
    destruct Hmz as [->|(-> & Hhalf & _)].
    + split; [lia|]. split; [nia|]. split; [done|nia].
    + specialize (Hhalf ltac:(lia)).
      split; [lia|]. split; [nia|]. split; [done|nia].
Qed.

(** [1 / d] for an integer [0 < d < 2^53]: finite, positive, and times [d]
    below [1 + 2^-53]. *)
Lemma recip_nearest (d : Z) :
  0 < d < 2 ^ 53 →
  ∃ mR eR,
    Prim2SF (PrimFloat.div 1%float (float64_of_int d)) = S754_finite false mR eR ∧
    -106 ≤ eR ≤ -52 ∧ Z.pos mR < 2 ^ 53 ∧
    2 * Z.pos mR * d < 2 ^ (1 - eR) + 2 ^ (- eR - 52).
Proof.
  intros Hd. rewrite div_spec, Prim2SF_one, float64_of_int_exact by done.
  unfold SF64div.
  pose proof (Zdigits2_bounds d ltac:(lia)) as [Hlo Hhi].
  pose proof (Zdigits2_pos d ltac:(lia)) as HD.
  assert (HD53 : Zdigits2 d ≤ 53) by (apply Zdigits2_le; lia).
  set (D := Zdigits2 d) in *.
  set (b := 2 ^ (53 - D)).
  assert (Hb : 0 < b) by (apply Z.pow_pos_nonneg; lia).
  assert (HbD : 2 ^ D * b = 2 ^ 53)
    by (subst b; rewrite <- Z.pow_add_r by lia; f_equal; lia).
  assert (HbD' : 2 ^ (D - 1) * b = 2 ^ 52)
    by (subst b; rewrite <- Z.pow_add_r by lia; f_equal; lia).
  assert (Hm2 : 2 ^ 52 ≤ d * b < 2 ^ 53) by nia.
  destruct (SFdiv_normal (2 ^ 52) (Z.to_pos (d * b)) (-52) (D - 53))
    as (mz & k & -> & Hk & Hmz & Hnear & Hk1 & _).
  { change (Z.pos (2 ^ 52)) with (2 ^ 52). lia. }
  { rewrite Z2Pos.id by lia. done. }
  { lia. }
  rewrite Z2Pos.id in * by lia. change (Z.pos (2 ^ 52)) with (2 ^ 52) in *.
  replace (-52 - (D - 53) - 53 + k) with (-52 - D + k) by lia.
  assert (HpD : 2 ^ (1 - (-52 - D)) = 2 ^ 53 * 2 ^ D)
    by (rewrite <- Z.pow_add_r by lia; f_equal; lia).
  assert (HpD2 : 2 ^ (- (-52 - D) - 52) = 2 ^ D) by (f_equal; lia).
  assert (HpD3 : 2 ^ D = 2 * 2 ^ (D - 1)).
  { replace D with (1 + (D - 1)) at 1 by lia. rewrite Z.pow_add_r by lia. done. }
  assert (H2D : 0 < 2 ^ (D - 1)) by (apply Z.pow_pos_nonneg; lia).
  unfold finish_round.
  destruct (Z.eqb_spec mz 0); [lia|].
  destruct Hk as [->| ->].
  - change (2 ^ 0) with 1 in Hnear. rewrite Z.add_0_r.
    assert (Hstrict : 2 * mz * d < 2 ^ 53 * 2 ^ D + 2 ^ D).
    { assert (2 * mz * (d * b) < (2 ^ 53 * 2 ^ D + 2 ^ D) * b) by nia.
      apply (Z.mul_lt_mono_pos_r b); [done|]. lia. }
    destruct (Z.eqb_spec mz (2 ^ 53)) as [->|Hne].
    + destruct (Z.leb_spec (-52 - D + 1) (emax - prec)); [|change (emax - prec) with 971 in *; lia].
      exists (2 ^ 52)%positive, (-52 - D + 1). split; [done|]. split; [lia|].
      split; [done|].
      replace (1 - (-52 - D + 1)) with (52 + D) by lia.
      replace (- (-52 - D + 1) - 52) with (D - 1) by lia.
      rewrite Z.pow_add_r by lia. change (Z.pos (2 ^ 52)) with (2 ^ 52). lia.
    + destruct (Z.leb_spec (-52 - D) (emax - prec)); [|change (emax - prec) with 971 in *; lia].
      exists (Z.to_pos mz), (-52 - D). split; [done|]. split; [lia|].
      rewrite Z2Pos.id by lia. split; [lia|].
      rewrite HpD, HpD2. done.
  - specialize (Hk1 eq_refl). change (2 ^ 1) with 2 in Hnear.
    assert (Hdb : d * b = 2 ^ 52) by lia.
    assert (Hmz52 : mz = 2 ^ 52) by lia.
    assert (Hd2 : d = 2 ^ (D - 1)).
    { apply (Z.mul_cancel_r _ _ b); lia. }
    destruct (Z.eqb_spec mz (2 ^ 53)); [lia|].
    destruct (Z.leb_spec (-52 - D + 1) (emax - prec)); [|change (emax - prec) with 971 in *; lia].
    exists (Z.to_pos mz), (-52 - D + 1). split; [done|]. split; [lia|].
    rewrite Z2Pos.id by lia. split; [lia|].
    replace (1 - (-52 - D + 1)) with (52 + D) by lia.
    replace (- (-52 - D + 1) - 52) with (D - 1) by lia.
    rewrite Z.pow_add_r by lia. rewrite Hmz52, Hd2. lia.
Qed.

(** A product below [1 + 2^-53] rounds to at most 1. *)
Lemma round_at_most_one (M E : Z) :
  0 < M → -1000 ≤ E ≤ -52 → 2 * M < 2 ^ (1 - E) + 2 ^ (- E - 52) →
  SF_at_most_one (binary_round_aux prec emax false M E loc_Exact).
Proof.
  intros HM HE Hlt.
  destruct (binary_round_aux_nearest false M E loc_Exact ltac:(lia)) as (m2 & -> & Hm2 & Htop).
  cbv zeta in Hm2. rewrite fexp64 in *.
  pose proof (Zdigits2_bounds M HM) as [Hlo Hhi].
  pose proof (Zdigits2_pos M HM) as HD.
  set (D := Zdigits2 M) in *.
  set (t := - E).
  assert (Ht1 : 2 ^ (1 - E) = 2 * 2 ^ t)
    by (subst t; replace (1 - E) with (1 + - E) by lia; rewrite Z.pow_add_r by lia; done).
  assert (Ht2 : 2 ^ (- E - 52) ≤ 2 ^ t) by (subst t; apply Z.pow_le_mono_r; lia).
  assert (Htpos : 0 < 2 ^ t) by (apply Z.pow_pos_nonneg; subst t; lia).
  assert (HDt : D ≤ t + 1).
  { destruct (Z_le_gt_dec D (t + 1)) as [|Hgt]; [done|].
    assert (2 ^ (t + 1) ≤ 2 ^ (D - 1)) by (apply Z.pow_le_mono_r; lia).
    rewrite Z.pow_add_r in H by lia. lia. }
  assert (Hq : 0 ≤ M / 2 ^ (Z.max E (Z.max (D + E - 53) (-1074)) - E))
    by (apply Z.div_pos; [lia|apply Z.pow_pos_nonneg; lia]).
  assert (Hm2pos : 0 ≤ m2) by lia.
  assert (Hfin : ∀ e, - 1074 ≤ e ≤ -53 → SF_at_most_one (finish_round false m2 e)).
  { intros e He. unfold finish_round.
    destruct (Z.eqb_spec m2 0); [done|].
    destruct (Z.eqb_spec m2 (2 ^ 53)).
    - destruct (Z.leb_spec (e + 1) (emax - prec)); [|change (emax - prec) with 971 in *; lia].
      cbn [SF_at_most_one]. split; [lia|].
      change (Z.pos (2 ^ 52)) with (2 ^ 52). apply Z.pow_le_mono_r; lia.
    - destruct (Z.leb_spec e (emax - prec)); [|change (emax - prec) with 971 in *; lia].
      cbn [SF_at_most_one]. split; [lia|]. rewrite Z2Pos.id by lia.
      etrans; [exact Htop|]. apply Z.pow_le_mono_r; lia. }
  assert (Hone : m2 ≤ 2 ^ 52 → SF_at_most_one (finish_round false m2 (-52))).
  { intros Hle. unfold finish_round.
    destruct (Z.eqb_spec m2 0); [done|].
    destruct (Z.eqb_spec m2 (2 ^ 53)); [lia|].
    destruct (Z.leb_spec (-52) (emax - prec)); [|change (emax - prec) with 971 in *; lia].
    cbn [SF_at_most_one]. split; [lia|]. rewrite Z2Pos.id by lia. done. }
  destruct (Z_le_gt_dec D t) as [Hsmall|Hbig].
  - (* below 1 *)
    destruct (Z.eq_dec E (-52)) as [->|HneE].
    + replace (Z.max (-52) (Z.max (D + -52 - 53) (-1074))) with (-52) in * by lia.
      change (-52 - -52) with 0 in Hm2. change (2 ^ 0) with 1 in Hm2. rewrite Z.div_1_r in Hm2.
      apply Hone.
      assert (M < 2 ^ 52).
      { eapply Z.lt_le_trans; [exact Hhi|]. apply Z.pow_le_mono_r; subst t; lia. }
      destruct Hm2 as [->|(_ & _ & Hloc)]; [lia|].
      destruct (Hloc eq_refl); congruence.
    + apply Hfin. subst t. lia.
  - (* in [1, 1 + 2^-53) *)
    assert (HD' : D = t + 1) by lia.
    replace (Z.max E (Z.max (D + E - 53) (-1074))) with (-52) in * by (subst t; lia).
    apply Hone.
    replace (D - 1) with t in Hlo by lia.
    destruct (Z.eq_dec E (-52)) as [->|HneE].
    + change (-52 - -52) with 0 in Hm2. change (2 ^ 0) with 1 in Hm2. rewrite Z.div_1_r in Hm2.
      destruct Hm2 as [->|(_ & _ & Hloc)].
      * subst t. change (2 ^ (1 - -52)) with (2 ^ 53) in Hlt.
        change (2 ^ (- -52 - 52)) with 1 in Hlt. lia.
      * destruct (Hloc eq_refl); congruence.
    + set (k := -52 - E) in *.
      assert (Hk : 0 < k) by (subst k; lia).
      assert (Hk2 : 2 ^ k = 2 * 2 ^ (k - 1)).
      { replace k with (1 + (k - 1)) at 1 by lia. rewrite Z.pow_add_r by lia. done. }
      assert (Hk1 : 0 < 2 ^ (k - 1)) by (apply Z.pow_pos_nonneg; lia).
      assert (Htk : 2 ^ t = 2 ^ 52 * 2 ^ k)
        by (rewrite <- Z.pow_add_r by lia; f_equal; subst t k; lia).
      replace (- E - 52) with k in Hlt by (subst k; lia).
      assert (Hquot : M / 2 ^ k = 2 ^ 52).
      { symmetry. apply (Z.div_unique M (2 ^ k) (2 ^ 52) (M - 2 ^ 52 * 2 ^ k)); lia. }
      assert (Hrem : M mod 2 ^ k = M - 2 ^ 52 * 2 ^ k).
      { symmetry. apply (Z.mod_unique M (2 ^ k) (2 ^ 52) (M - 2 ^ 52 * 2 ^ k)); lia. }
      rewrite Hquot, Hrem in Hm2.
      destruct Hm2 as [->|(_ & Hhalf & _)]; [lia|].
      specialize (Hhalf Hk). lia.
Qed.

(** A raw sum that does not exceed the norm's denominator gives a
    product of at most 1. *)
Lemma mul_recip_at_most_one (s d : Z) :
  0 ≤ s ≤ d → 0 < d < 2 ^ 53 →
  SF_at_most_one
    (Prim2SF (PrimFloat.mul (float64_of_int s) (PrimFloat.div 1%float (float64_of_int d)))).
Proof.
  intros Hs Hd. rewrite mul_spec. unfold SF64mul.
  destruct (recip_nearest d Hd) as (mR & eR & -> & HeR & HmR & Hnear).
  destruct (Z.eq_dec s 0) as [->|Hne]; [by rewrite float64_of_int_zero|].
  rewrite float64_of_int_exact by lia.
  pose proof (Zdigits2_bounds s ltac:(lia)) as [Hlo Hhi].
  pose proof (Zdigits2_pos s ltac:(lia)) as HD.
  assert (HD53 : Zdigits2 s ≤ 53) by (apply Zdigits2_le; lia).
  set (D := Zdigits2 s) in *.
  set (a := 2 ^ (53 - D)).
  assert (Ha : 0 < a) by (apply Z.pow_pos_nonneg; lia).
  cbn [SFmul xorb]. rewrite Pos2Z.inj_mul, Z2Pos.id by nia.
  apply round_at_most_one; [nia|lia|].
  replace (1 - (D - 53 + eR)) with (53 - D + (1 - eR)) by lia.
  replace (- (D - 53 + eR) - 52) with (53 - D + (- eR - 52)) by lia.
  rewrite !Z.pow_add_r by lia. fold a.
  set (P := 2 ^ (1 - eR)) in *. set (Q := 2 ^ (- eR - 52)) in *.
  assert (H1 : 2 * (s * a * Z.pos mR) ≤ a * (2 * Z.pos mR * d)) by nia.
  assert (H2 : a * (2 * Z.pos mR * d) < a * (P + Q)) by (apply Z.mul_lt_mono_pos_l; lia).
  lia.
Qed.

(** [1 - p] is not negative when [p] is at most 1. *)
Lemma SFsub_one_nonneg (p : spec_float) :
  SF_at_most_one p →
  SF_signed false (SFsub prec emax (S754_finite false (2 ^ 52)%positive (-52)) p).
Proof.
  destruct p as [[]|s| |[] mp ep]; cbn [SF_at_most_one]; try done. intros [Hep Hmp].
  unfold SFsub. cbv zeta. unfold cond_Zopp.
  set (ez := Z.min (-52) ep).
  rewrite !shl_align_value by (subst ez; lia).
  set (A := Z.pos (2 ^ 52) * 2 ^ (-52 - ez)).
  set (B := Z.pos mp * 2 ^ (ep - ez)).
  assert (HA : A = 2 ^ (- ez)).
  { subst A. change (Z.pos (2 ^ 52)) with (2 ^ 52).
    rewrite <- Z.pow_add_r by (subst ez; lia). f_equal. lia. }
  assert (HB : B ≤ A).
  { subst B. rewrite HA.
    replace (- ez) with (- ep + (ep - ez)) by lia. rewrite Z.pow_add_r by (subst ez; lia).
    apply Z.mul_le_mono_nonneg_r; [|done]. apply Z.pow_nonneg. lia. }
  destruct (A - B) as [|n|n] eqn:Hn; [done| |lia].
  unfold binary_normalize.
  destruct (binary_round_shape false n ez) as (m2 & -> & _).
  apply finish_round_signed.
Qed.

Lemma ltb_zero_nonneg (x : float) : SF_signed false (Prim2SF x) → PrimFloat.ltb x 0 = false.
Proof.
  intros Hx. rewrite ltb_spec. change (Prim2SF 0) with (S754_zero false).
  destruct (Prim2SF x) as [s|s| |s m e]; cbn in Hx; subst; done.
Qed.

Lemma leb_zero_nonneg (x : float) : SF_signed false (Prim2SF x) → PrimFloat.leb 0 x = true.
Proof.
  intros Hx. rewrite leb_spec. change (Prim2SF 0) with (S754_zero false).
  destruct (Prim2SF x) as [s|s| |s m e]; cbn in Hx; subst; done.
Qed.

Lemma score_signed (s d : Z) :
  0 ≤ s ≤ d → 0 < d < 2 ^ 53 →
  SF_signed false
    (Prim2SF (PrimFloat.sub 1
                (PrimFloat.mul (float64_of_int s) (PrimFloat.div 1 (float64_of_int d))))).
Proof.
  intros Hs Hd. rewrite sub_spec, Prim2SF_one.
  apply SFsub_one_nonneg. by apply mul_recip_at_most_one.
Qed.

Lemma digits_of_canonical (z : Z) :
  0 < z < 2 ^ 53 →
  2 ^ 52 ≤ z * 2 ^ (53 - Zdigits2 z) < 2 ^ 53.
Proof.
  intros Hz.
  pose proof (Zdigits2_bounds z ltac:(lia)) as [Hlo Hhi].
  pose proof (Zdigits2_pos z ltac:(lia)) as HD.
  assert (HD53 : Zdigits2 z ≤ 53) by (apply Zdigits2_le; lia).
  set (D := Zdigits2 z) in *.
  assert (Hb : 0 < 2 ^ (53 - D)) by (apply Z.pow_pos_nonneg; lia).
  assert (HbD : 2 ^ D * 2 ^ (53 - D) = 2 ^ 53)
    by (rewrite <- Z.pow_add_r by lia; f_equal; lia).
  assert (HbD' : 2 ^ (D - 1) * 2 ^ (53 - D) = 2 ^ 52)
    by (rewrite <- Z.pow_add_r by lia; f_equal; lia).
  nia.
Qed.

(** The product of two integers is exact when it is below [2^53]. *)
Lemma float64_mul_int_exact (a b : Z) :
  0 ≤ a < 2 ^ 53 → 0 ≤ b < 2 ^ 53 → a * b < 2 ^ 53 →
  Prim2SF (PrimFloat.mul (float64_of_int a) (float64_of_int b))
    = Prim2SF (float64_of_int (a * b)).
Proof.
  intros Ha Hb Hab. rewrite mul_spec. unfold SF64mul.
  destruct (Z.eq_dec a 0) as [->|Ha0].
  { rewrite Z.mul_0_l, float64_of_int_zero.
    destruct (Z.eq_dec b 0) as [->|Hb0]; [by rewrite float64_of_int_zero|].
    by rewrite float64_of_int_exact by lia. }
  destruct (Z.eq_dec b 0) as [->|Hb0].
  { rewrite Z.mul_0_r, float64_of_int_zero. by rewrite float64_of_int_exact by lia. }
  assert (Hab0 : 0 < a * b) by nia.
  rewrite !float64_of_int_exact by lia.
  pose proof (digits_of_canonical a ltac:(lia)) as Hca.
  pose proof (digits_of_canonical b ltac:(lia)) as Hcb.
  pose proof (digits_of_canonical (a * b) ltac:(lia)) as Hcab.
  pose proof (Zdigits2_bounds a ltac:(lia)) as [Hloa Hhia].
  pose proof (Zdigits2_bounds b ltac:(lia)) as [Hlob Hhib].
  pose proof (Zdigits2_bounds (a * b) ltac:(lia)) as [Hloab Hhiab].
  pose proof (Zdigits2_pos a ltac:(lia)) as HDa.
  pose proof (Zdigits2_pos b ltac:(lia)) as HDb.
  pose proof (Zdigits2_pos (a * b) ltac:(lia)) as HDab.
  assert (HDab53 : Zdigits2 (a * b) ≤ 53) by (apply Zdigits2_le; lia).
  assert (HDa53 : Zdigits2 a ≤ 53) by (apply Zdigits2_le; lia).
  assert (HDb53 : Zdigits2 b ≤ 53) by (apply Zdigits2_le; lia).
  set (da := Zdigits2 a) in *. set (db := Zdigits2 b) in *. set (dab := Zdigits2 (a * b)) in *.
  assert (Hdig : da + db - 2 < dab).
  { apply (Z.pow_lt_mono_r_iff 2); [lia|lia|].
    replace (da + db - 2) with ((da - 1) + (db - 1)) by lia. rewrite Z.pow_add_r by lia.
    eapply Z.le_lt_trans; [|exact Hhiab].
    apply Z.mul_le_mono_nonneg; try done; apply Z.pow_nonneg; lia. }
  cbn [SFmul xorb]. rewrite Pos2Z.inj_mul, !Z2Pos.id by lia.
  set (n := 53 - da - db + dab).
  replace (da - 53 + (db - 53)) with (dab - 53 - n) by (subst n; lia).
  replace (a * 2 ^ (53 - da) * (b * 2 ^ (53 - db)))
    with (Z.pos (Z.to_pos (a * b * 2 ^ (53 - dab))) * 2 ^ n).
  2:{ rewrite Z2Pos.id by lia.
      replace (a * b * 2 ^ (53 - dab) * 2 ^ n) with (a * b * (2 ^ (53 - dab) * 2 ^ n)) by lia.
      rewrite <- Z.pow_add_r by (subst n; lia).
      replace (a * 2 ^ (53 - da) * (b * 2 ^ (53 - db)))
        with (a * b * (2 ^ (53 - da) * 2 ^ (53 - db))) by lia.
      rewrite <- Z.pow_add_r by lia. do 2 f_equal. subst n. lia. }
  apply binary_round_aux_exact; [subst n; lia| |change (emax - prec) with 971; lia].
  assert (Hd53 : Zdigits2 (Z.pos (Z.to_pos (a * b * 2 ^ (53 - dab)))) = 53).
  { rewrite Z2Pos.id by lia. apply Zdigits2_unique; [|lia]. simpl. lia. }
  simpl Zdigits2 in Hd53. rewrite Hd53, fexp64. lia.
Qed.

(** [int] of a rounding result in [[n, n + 1)]. *)
Lemma int_of_finish_round (f : float) (mz ez n : Z) :
  Prim2SF f = finish_round false mz ez →
  ez ≤ 0 → 0 ≤ n < 2 ^ 63 → n * 2 ^ (- ez) ≤ mz < (n + 1) * 2 ^ (- ez) →
  int_of_float64 f = n.
Proof.
  intros Hf Hez Hn Hmz. unfold int_of_float64. rewrite Hf. unfold finish_round.
  assert (Hp : 0 < 2 ^ (- ez)) by (apply Z.pow_pos_nonneg; lia).
  assert (Hfin : ∀ a, a = n →
            (if (- 2 ^ 63 <=? a) && (a <? 2 ^ 63) then a else int_indefinite) = n).
  { intros a ->. destruct (Z.leb_spec (- 2 ^ 63) n); [|lia].
    destruct (Z.ltb_spec n (2 ^ 63)); [done|lia]. }
  assert (Hquot : mz / 2 ^ (- ez) = n).
  { symmetry. apply (Z.div_unique mz (2 ^ (- ez)) n (mz - n * 2 ^ (- ez))); lia. }
  destruct (Z.eqb_spec mz 0) as [->|Hnz].
  { rewrite Z.div_0_l in Hquot by lia. done. }
  destruct (Z.eqb_spec mz (2 ^ 53)) as [->|Hne].
  - destruct (Z.leb_spec (ez + 1) (emax - prec)); [|change (emax - prec) with 971 in *; lia].
    cbv zeta. apply Hfin. change (Z.pos (2 ^ 52)) with (2 ^ 52).
    destruct (Z.leb_spec 0 (ez + 1)).
    + assert (Hez' : ez = 0 ∨ ez = -1) by lia.
      destruct Hez' as [-> | ->]; rewrite <- Hquot; reflexivity.
    + assert (Hp' : 0 < 2 ^ (- (ez + 1))) by (apply Z.pow_pos_nonneg; lia).
      assert (Hsplit : 2 ^ (- ez) = 2 * 2 ^ (- (ez + 1))).
      { replace (- ez) with (1 + - (ez + 1)) by lia. rewrite Z.pow_add_r by lia. done. }
      rewrite <- Hquot, Hsplit, <- Z.div_div by lia. reflexivity.
  - destruct (Z.leb_spec ez (emax - prec)); [|change (emax - prec) with 971 in *; lia].
    cbv zeta. apply Hfin. rewrite Z2Pos.id by nia.
    destruct (Z.leb_spec 0 ez); [|done].
    replace ez with 0 in * by lia. change (2 ^ (- 0)) with 1 in Hquot.
    rewrite Z.div_1_r in Hquot. change (2 ^ 0) with 1. lia.
Qed.

(** The size [resizeImage] derives: [int(float64(w) * float64(H) /
    float64(W))] is the integer quotient [w * H / W]. *)
Lemma derived_size_exact (w H W : Z) :
  0 ≤ w < 2 ^ 53 → 0 ≤ H < 2 ^ 53 → w * H < 2 ^ 52 → 0 < W < 2 ^ 53 →
  int_of_float64
    (PrimFloat.div (PrimFloat.mul (float64_of_int w) (float64_of_int H)) (float64_of_int W))
  = w * H / W.
Proof.
  intros Hw HH HP HW.
  assert (HP0' : 0 ≤ w * H) by nia.
  destruct (Z.eq_dec (w * H) 0) as [Hzero|HP0].
  { unfold int_of_float64. rewrite div_spec, float64_mul_int_exact by lia.
    rewrite Hzero, float64_of_int_zero, float64_of_int_exact by lia. done. }
  set (P := w * H) in *.
  pose proof (digits_of_canonical P ltac:(lia)) as HcP.
  pose proof (digits_of_canonical W ltac:(lia)) as HcW.
  pose proof (Zdigits2_pos P ltac:(lia)) as HDP.
  pose proof (Zdigits2_pos W ltac:(lia)) as HDW.
  assert (HDP52 : Zdigits2 P ≤ 52) by (apply Zdigits2_le; lia).
  assert (HDW53 : Zdigits2 W ≤ 53) by (apply Zdigits2_le; lia).
  set (dP := Zdigits2 P) in *. set (dW := Zdigits2 W) in *.
  set (a := 2 ^ (53 - dP)) in *. set (b := 2 ^ (53 - dW)) in *.
  assert (Ha : 2 ≤ a).
  { subst a. change 2 with (2 ^ 1) at 1. apply Z.pow_le_mono_r; lia. }
  assert (Hb : 0 < b) by (apply Z.pow_pos_nonneg; lia).
  assert (Hb52 : b ≤ 2 ^ 52) by (subst b; apply Z.pow_le_mono_r; lia).
  destruct (SFdiv_normal (Z.to_pos (P * a)) (Z.to_pos (W * b)) (dP - 53) (dW - 53))
    as (mz & k & Hdiv & Hk & Hmz & Hnear & _ & Hfloor).
  { rewrite Z2Pos.id by lia. done. }
  { rewrite Z2Pos.id by lia. done. }
  { lia. }
  rewrite !Z2Pos.id in Hnear, Hfloor by lia.
  pose proof (Z.div_mod P W ltac:(lia)) as Hdm.
  pose proof (Z.mod_pos_bound P W ltac:(lia)) as Hrem.
  assert (Hn : 0 ≤ P / W) by (apply Z.div_pos; lia).
  assert (Hn' : P / W ≤ P).
  { apply Z.div_le_upper_bound; [lia|].
    apply (Z.le_trans _ (1 * P)); [lia|apply Z.mul_le_mono_nonneg_r; lia]. }
  set (n := P / W) in *.
  apply (int_of_finish_round _ mz (dP - 53 - (dW - 53) - 53 + k)).
  - rewrite div_spec, float64_mul_int_exact by lia. fold P.
    rewrite !float64_of_int_exact by lia. exact Hdiv.
  - destruct Hk; lia.
  - lia.
  - set (E := 2 ^ (- (dP - 53 - (dW - 53) - 53 + k))).
    assert (HE : E * 2 ^ k * b = a * 2 ^ 53).
    { subst E a b. rewrite <- !Z.pow_add_r by (destruct Hk; lia). f_equal.
      destruct Hk; lia. }
    assert (HEpos : 0 < E) by (subst E; apply Z.pow_pos_nonneg; destruct Hk; lia).
    assert (H2k : 1 ≤ 2 ^ k ≤ 2) by (destruct Hk as [-> | ->]; simpl; lia).
    assert (Hpos : 0 < 2 ^ k * b * W) by nia.
    split.
    + (* [n <= P / W < (mz + 1) * 2^ez], and [n] is a multiple of [2^ez] *)
      assert (Hlow : (2 ^ k * b * W) * (n * E) < (2 ^ k * b * W) * (mz + 1)).
      { replace (2 ^ k * b * W * (n * E)) with (W * n * (E * 2 ^ k * b)) by lia.
        rewrite HE.
        assert (HT : W * n * (a * 2 ^ 53) ≤ P * (a * 2 ^ 53))
          by (apply Z.mul_le_mono_nonneg_r; lia).
        lia. }
      apply Z.mul_lt_mono_pos_l in Hlow; lia.
    + assert (Hscaled : 2 * (mz * 2 ^ k) * (W * b) < 2 * (2 ^ k * b * W) * ((n + 1) * E)).
      { eapply Z.le_lt_trans; [exact Hnear|].
        replace (2 * (2 ^ k * b * W) * ((n + 1) * E))
          with (2 * W * (n + 1) * (E * 2 ^ k * b)) by lia.
        rewrite HE.
        assert (HPn : P + 1 ≤ W * (n + 1)) by lia.
        assert (Hx : W * b * 2 ^ k < 2 * (a * 2 ^ 53)).
        { assert (W * b * 2 ^ k ≤ W * b * 2) by (apply Z.mul_le_mono_nonneg_l; lia).
          lia. }
        set (T := a * 2 ^ 53) in *.
        assert (HT : (P + 1) * T ≤ W * (n + 1) * T)
          by (apply Z.mul_le_mono_nonneg_r; [subst T|]; lia).
        replace (P * a * 2 ^ 53) with (P * T) by (subst T; lia).
        lia. }
      apply (Z.mul_lt_mono_pos_l (2 * (2 ^ k * b * W))); [lia|]. lia.
Qed.

(** For a width that does not exceed the source's, the derived height does
    not exceed the source's height. *)
Lemma derived_height_le (w W H : Z) :
  1 ≤ w ≤ W → W < 2 ^ 26 → 0 ≤ H < 2 ^ 26 →
  int_of_float64
    (PrimFloat.div (PrimFloat.mul (float64_of_int w) (float64_of_int H)) (float64_of_int W))
  ≤ H.
Proof.
  intros Hw HW HH.
  assert (HP : w * H < 2 ^ 52).
  { assert (w * H ≤ (2 ^ 26 - 1) * (2 ^ 26 - 1)) by (apply Z.mul_le_mono_nonneg; lia). lia. }
  rewrite derived_size_exact by lia.
  apply Z.div_le_upper_bound; [lia|]. nia.
Qed.

(** ** The coordinate round trip at the scale of a level *)

(** The arithmetic of a truncated product: [mx / (P * S)] is the exact
    product, [m2 / P] its rounding, [k] the truncation of that, and
    [Q / D] the rational the product approximates. *)
Lemma floor_of_product (k D Q u S P m2 mx : Z) :
  0 < u → 0 < S → 0 < P → 0 < D → 0 ≤ Q → 0 ≤ k →
  P * S = u → k * P ≤ m2 < (k + 1) * P → 2 ^ 52 ≤ m2 →
  (m2 - 1) * S ≤ mx < (m2 + 1) * S →
  2 ^ 50 * (mx * D) ≤ (2 ^ 50 + 1) * (Q * u) →
  (2 ^ 50 - 1) * (Q * u) ≤ 2 ^ 50 * (mx * D) →
  5 * Q + D < 2 ^ 52 →
  k * D ≤ Q ≤ k * D + D.
Proof.
  intros Hu HS HP HD HQ Hk HPS Hm2 Hnormal Hmx Hup Hlow Hsmall. subst u. split.
  - destruct (Z_le_gt_dec (k * D) Q) as [|Hgt]; [done|exfalso].
    assert (A1 : (k * P - 1) * S ≤ (m2 - 1) * S) by (apply Z.mul_le_mono_nonneg_r; lia).
    assert (A2 : (k * P * S - S) * D ≤ mx * D) by (apply Z.mul_le_mono_nonneg_r; lia).
    assert (A3 : 2 ^ 52 * S < (k + 1) * P * S) by (apply Z.mul_lt_mono_pos_r; lia).
    assert (A4 : 2 ^ 52 * S * D < (k + 1) * P * S * D) by (apply Z.mul_lt_mono_pos_r; lia).
    assert (Hneg : P * S * ((2 ^ 52 - 1) * (k * D) - (2 ^ 52 + 4) * Q - D) < 0) by lia.
    assert (Hbr : 0 ≤ (2 ^ 52 - 1) * (k * D) - (2 ^ 52 + 4) * Q - D) by lia.
    pose proof (Z.mul_nonneg_nonneg (P * S) _ ltac:(lia) Hbr). lia.
  - destruct (Z_le_gt_dec Q (k * D + D)) as [|Hgt]; [done|exfalso].
    assert (B1 : (m2 + 1) * S ≤ (k + 1) * P * S) by (apply Z.mul_le_mono_nonneg_r; lia).
    assert (B2 : mx * D < (k + 1) * P * S * D) by (apply Z.mul_lt_mono_pos_r; lia).
    assert (Hneg : P * S * ((2 ^ 50 - 1) * Q - 2 ^ 50 * (k * D + D)) < 0) by lia.
    assert (Hbr : 0 ≤ (2 ^ 50 - 1) * Q - 2 ^ 50 * (k * D + D)) by lia.
    pose proof (Z.mul_nonneg_nonneg (P * S) _ ltac:(lia) Hbr). lia.
Qed.

(** [int(float64(a) * t)] for a factor [t] within [2^-50] of [N / D]: the
    coordinate [a] comes out as the quotient [a * N / D], or as one less
    when that quotient is exact and the product was rounded down. *)
Lemma scaled_coordinate (a N D : Z) (t : float) (mt : positive) (et : Z) :
  Prim2SF t = S754_finite false mt et →
  2 ^ 52 ≤ Z.pos mt < 2 ^ 53 → -103 ≤ et ≤ 0 →
  0 ≤ a → 0 < N → 0 < D → 5 * (a * N) + D < 2 ^ 52 →
  2 ^ 50 * Z.abs (Z.pos mt * D - N * 2 ^ (- et)) ≤ N * 2 ^ (- et) →
  let k := int_of_float64 (PrimFloat.mul (float64_of_int a) t) in
  0 ≤ k ∧ k * D ≤ a * N ≤ k * D + D.
Proof.
  intros Ht Hmt Het Ha HN HD Hsmall Hnear k. subst k.
  destruct (Z.eq_dec a 0) as [->|Hne].
  { unfold int_of_float64. rewrite mul_spec, float64_of_int_zero, Ht. cbn. lia. }
  assert (HaN : a ≤ a * N).
  { apply (Z.le_trans _ (a * 1)); [lia|apply Z.mul_le_mono_nonneg_l; lia]. }
  pose proof (digits_of_canonical a ltac:(lia)) as Hca.
  pose proof (Zdigits2_pos a ltac:(lia)) as Hda.
  assert (Hda53 : Zdigits2 a ≤ 53) by (apply Zdigits2_le; lia).
  set (da := Zdigits2 a) in *.
  set (A := 2 ^ (53 - da)) in *.
  set (T := 2 ^ (- et)) in *.
  assert (HA : 0 < A) by (apply Z.pow_pos_nonneg; lia).
  assert (HT : 0 < T) by (apply Z.pow_pos_nonneg; lia).
  set (mx := a * A * Z.pos mt).
  assert (Hmx : 2 ^ 104 ≤ mx < 2 ^ 106).
  { subst mx. split.
    - change (2 ^ 104) with (2 ^ 52 * 2 ^ 52). apply Z.mul_le_mono_nonneg; lia.
    - change (2 ^ 106) with (2 ^ 53 * 2 ^ 53). apply Z.mul_lt_mono_nonneg; lia. }
  pose proof (Zdigits2_bounds mx ltac:(lia)) as [Hdlo Hdhi].
  pose proof (Zdigits2_pos mx ltac:(lia)) as Hdpos.
  set (dm := Zdigits2 mx) in *.
  assert (Hdm : 105 ≤ dm ≤ 106).
  { split.
    - assert (104 < dm); [|lia]. apply (Z.pow_lt_mono_r_iff 2); lia.
    - assert (dm - 1 < 106); [|lia].
      apply (Z.pow_lt_mono_r_iff 2); lia. }
  set (sh := dm - 53). set (S := 2 ^ sh).
  assert (HS : 0 < S) by (apply Z.pow_pos_nonneg; lia).
  assert (HS52 : 2 ^ (dm - 1) = 2 ^ 52 * S).
  { subst S sh. rewrite <- Z.pow_add_r by lia. f_equal. lia. }
  (* the product stays far below [2^53]: the exponent of the result is negative *)
  assert (Hup : 2 ^ 50 * (mx * D) ≤ (2 ^ 50 + 1) * (a * N * (A * T))).
  { replace (2 ^ 50 * (mx * D)) with (a * A * (2 ^ 50 * (Z.pos mt * D))) by (subst mx; ring).
    replace ((2 ^ 50 + 1) * (a * N * (A * T))) with (a * A * ((2 ^ 50 + 1) * (N * T))) by ring.
    apply Z.mul_le_mono_nonneg_l; lia. }
  assert (Hlow : (2 ^ 50 - 1) * (a * N * (A * T)) ≤ 2 ^ 50 * (mx * D)).
  { replace (2 ^ 50 * (mx * D)) with (a * A * (2 ^ 50 * (Z.pos mt * D))) by (subst mx; ring).
    replace ((2 ^ 50 - 1) * (a * N * (A * T))) with (a * A * ((2 ^ 50 - 1) * (N * T))) by ring.
    apply Z.mul_le_mono_nonneg_l; lia. }
  assert (HAT : 4 * S < A * T).
  { assert (H1 : mx * 1 ≤ mx * D) by (apply Z.mul_le_mono_nonneg_l; lia).
    assert (H2 : a * N * (A * T) ≤ (2 ^ 50 - 1) * (A * T))
      by (apply Z.mul_le_mono_nonneg_r; lia).
    lia. }
  set (E := 53 - da + - et - sh).
  assert (HE : 2 < E).
  { assert (Hpow : 2 ^ (sh + 2) < 2 ^ (53 - da + - et)).
    { rewrite !Z.pow_add_r by lia. fold S A T. lia. }
    apply Z.pow_lt_mono_r_iff in Hpow; subst E; lia. }
  set (P := 2 ^ E).
  assert (HP : 0 < P) by (apply Z.pow_pos_nonneg; lia).
  assert (HPS : P * S = A * T).
  { subst P S A T E. rewrite <- !Z.pow_add_r by lia. f_equal. lia. }
  destruct (binary_round_aux_shape false mx (da - 53 + et) loc_Exact ltac:(lia))
    as (m2 & Hround & Hm2lo & Hm2hi & Hm253 & _).
  fold dm in Hround, Hm2lo, Hm2hi. rewrite fexp64 in Hround, Hm2lo, Hm2hi.
  replace (Z.max (da - 53 + et) (Z.max (dm + (da - 53 + et) - 53) (-1074)))
    with (- E) in Hround, Hm2lo, Hm2hi by (subst E sh; lia).
  replace (- E - (da - 53 + et)) with sh in Hm2lo, Hm2hi by (subst E; lia).
  fold S in Hm2lo, Hm2hi.
  pose proof (Z.mul_div_le mx S HS) as Hq1.
  pose proof (Z.mul_succ_div_gt mx S HS) as Hq2.
  assert (Hq52 : 2 ^ 52 ≤ mx / S) by (apply Z.div_le_lower_bound; lia).
  set (q0 := mx / S) in *.
  assert (Hmx2 : (m2 - 1) * S ≤ mx < (m2 + 1) * S).
  { assert ((m2 - 1) * S ≤ q0 * S) by (apply Z.mul_le_mono_nonneg_r; lia).
    assert ((q0 + 1) * S ≤ (m2 + 1) * S) by (apply Z.mul_le_mono_nonneg_r; lia).
    lia. }
  pose proof (Z.mul_div_le m2 P HP) as Hn1.
  pose proof (Z.mul_succ_div_gt m2 P HP) as Hn2.
  assert (Hn0 : 0 ≤ m2 / P) by (apply Z.div_pos; lia).
  assert (Hn63 : m2 / P ≤ m2).
  { apply Z.div_le_upper_bound; [lia|].
    apply (Z.le_trans _ (1 * m2)); [lia|apply Z.mul_le_mono_nonneg_r; lia]. }
  set (n := m2 / P) in *.
  assert (Hint : int_of_float64 (PrimFloat.mul (float64_of_int a) t) = n).
  { apply (int_of_finish_round _ m2 (- E)).
    - rewrite mul_spec, float64_of_int_exact, Ht by lia. unfold SF64mul.
      cbn [SFmul xorb]. rewrite Pos2Z.inj_mul, Z2Pos.id by lia. exact Hround.
    - lia.
    - lia.
    - rewrite Z.opp_involutive. fold P. lia. }
  rewrite Hint. split; [done|].
  apply (floor_of_product n D (a * N) (A * T) S P m2 mx); try done; try lia.
Qed.

(** A rounding result with a full significand is a finite number. *)
Lemma finish_round_normal (mz ez : Z) :
  2 ^ 52 ≤ mz ≤ 2 ^ 53 → ez + 1 ≤ emax - prec →
  ∃ (m : positive) (e : Z),
    finish_round false mz ez = S754_finite false m e ∧
    2 ^ 52 ≤ Z.pos m < 2 ^ 53 ∧
    (e = ez ∧ Z.pos m = mz ∨ e = ez + 1 ∧ 2 * Z.pos m = mz).
Proof.
  intros Hmz Hez. unfold finish_round.
  destruct (Z.eqb_spec mz 0) as [->|_]; [lia|].
  destruct (Z.eqb_spec mz (2 ^ 53)) as [->|Hne].
  - destruct (Z.leb_spec (ez + 1) (emax - prec)); [|lia].
    exists (2 ^ 52)%positive, (ez + 1). split; [done|]. split; [done|]. right. done.
  - destruct (Z.leb_spec ez (emax - prec)); [|lia].
    exists (Z.to_pos mz), ez. rewrite Z2Pos.id by lia. split; [done|]. split; [lia|]. by left.
Qed.

(** The scale of a level, [float64(w) / float64(W)], is within one unit
    of its last place of [w / W]. *)
Lemma level_scale_near (w W : Z) :
  0 < w → w ≤ W → W < 2 ^ 51 →
  ∃ (ms : positive) (es : Z),
    Prim2SF (PrimFloat.div (float64_of_int w) (float64_of_int W)) = S754_finite false ms es ∧
    2 ^ 52 ≤ Z.pos ms < 2 ^ 53 ∧ -103 ≤ es ≤ -52 ∧
    Z.abs (Z.pos ms * W - w * 2 ^ (- es)) ≤ W.
Proof.
  intros Hw HwW HW.
  pose proof (digits_of_canonical w ltac:(lia)) as Hcw.
  pose proof (digits_of_canonical W ltac:(lia)) as HcW.
  pose proof (Zdigits2_pos w ltac:(lia)) as Hdw.
  pose proof (Zdigits2_pos W ltac:(lia)) as HdW.
  assert (HdW51 : Zdigits2 W ≤ 51) by (apply Zdigits2_le; lia).
  pose proof (Zdigits2_bounds w ltac:(lia)) as [Hwlo Hwhi].
  pose proof (Zdigits2_bounds W ltac:(lia)) as [HWlo HWhi].
  assert (Hdle : Zdigits2 w ≤ Zdigits2 W).
  { assert (Zdigits2 w - 1 < Zdigits2 W); [|lia].
    apply (Z.pow_lt_mono_r_iff 2); lia. }
  set (dw := Zdigits2 w) in *. set (dW := Zdigits2 W) in *.
  set (a := 2 ^ (53 - dw)) in *. set (b := 2 ^ (53 - dW)) in *.
  assert (Ha : 0 < a) by (apply Z.pow_pos_nonneg; lia).
  assert (Hb : 0 < b) by (apply Z.pow_pos_nonneg; lia).
  destruct (SFdiv_normal (Z.to_pos (w * a)) (Z.to_pos (W * b)) (dw - 53) (dW - 53))
    as (mz & k & Hdiv & Hk & Hmz & Hnear & Hk1 & Hfloor).
  { rewrite Z2Pos.id by lia. done. }
  { rewrite Z2Pos.id by lia. done. }
  { lia. }
  rewrite !Z2Pos.id in Hnear, Hfloor, Hk1 by lia.
  set (es0 := dw - 53 - (dW - 53) - 53 + k) in *.
  assert (H2k : 1 ≤ 2 ^ k ≤ 2) by (destruct Hk as [-> | ->]; simpl; lia).
  set (T0 := 2 ^ (- es0)).
  assert (HT0 : 0 < T0) by (apply Z.pow_pos_nonneg; destruct Hk; subst es0; lia).
  assert (HE : T0 * 2 ^ k * b = a * 2 ^ 53).
  { subst T0 a b es0. rewrite <- !Z.pow_add_r by (destruct Hk; lia). f_equal.
    destruct Hk; lia. }
  (* the quotient's significand against [w / W] *)
  assert (Hpos : 0 < 2 ^ k * b) by (apply Z.mul_pos_pos; lia).
  assert (Hhi : 2 * (mz * W - w * T0) ≤ W).
  { apply (Z.mul_le_mono_pos_l _ _ (2 ^ k * b)); [done|].
    replace (2 ^ k * b * (2 * (mz * W - w * T0)))
      with (2 * (mz * 2 ^ k) * (W * b) - 2 * (w * (T0 * 2 ^ k * b))) by ring.
    rewrite HE. replace (2 * (w * (a * 2 ^ 53))) with (2 * (w * a * 2 ^ 53)) by ring.
    replace (2 ^ k * b * W) with (W * b * 2 ^ k) by ring. lia. }
  assert (Hlo : - W < mz * W - w * T0).
  { apply (Z.mul_lt_mono_pos_l (2 ^ k * b)); [done|].
    replace (2 ^ k * b * (mz * W - w * T0))
      with (mz * 2 ^ k * (W * b) - w * (T0 * 2 ^ k * b)) by ring.
    rewrite HE. replace (w * (a * 2 ^ 53)) with (w * a * 2 ^ 53) by ring.
    replace (2 ^ k * b * - W) with (- (2 ^ k * (W * b))) by ring.
    replace ((mz + 1) * 2 ^ k * (W * b)) with (mz * 2 ^ k * (W * b) + 2 ^ k * (W * b))
      in Hfloor by ring.
    lia. }
  (* at [w = W] the quotient is 1 *)
  assert (Htop : es0 = -52 → mz = 2 ^ 52).
  { intros Hes. assert (k = 1) by (destruct Hk; subst es0; lia).
    assert (dw = dW) by (subst es0; lia).
    specialize (Hk1 ltac:(done)).
    assert (Hab : a = b) by (subst a b; congruence).
    assert (w * a ≤ W * a) by (apply Z.mul_le_mono_nonneg_r; lia).
    assert (Heq : w * a = W * b) by (rewrite <- Hab in *; lia).
    subst k. change (2 ^ 1) with 2 in *. rewrite Heq in Hnear.
    assert (Hnear' : (W * b) * (4 * mz) ≤ (W * b) * (2 ^ 54 + 2)) by lia.
    apply Z.mul_le_mono_pos_l in Hnear'; lia. }
  destruct (finish_round_normal mz es0) as (ms & es & Hfin & Hms & Hcase).
  { lia. }
  { change (emax - prec) with 971. destruct Hk; subst es0; lia. }
  exists ms, es. split.
  { rewrite div_spec, !float64_of_int_exact by lia. fold dw dW a b.
    unfold SF64div. rewrite Hdiv. exact Hfin. }
  split; [done|].
  destruct Hcase as [[-> ->]|[-> Hhalf]].
  - split; [destruct Hk; subst es0; lia|]. fold T0. lia.
  - assert (Hes0 : es0 ≤ -53).
    { destruct (Z_le_gt_dec es0 (-53)); [done|].
      assert (es0 = -52) by (destruct Hk; subst es0; lia). specialize (Htop ltac:(done)). lia. }
    split; [destruct Hk; subst es0; lia|].
    assert (HT : T0 = 2 * 2 ^ (- (es0 + 1))).
    { subst T0. replace (- es0) with (1 + - (es0 + 1)) by lia.
      rewrite Z.pow_add_r by lia. done. }
    set (T := 2 ^ (- (es0 + 1))) in *. lia.
Qed.

(** The reciprocal [1 / imgScale] is within one unit of its last place of
    the reciprocal of the value of [imgScale]. *)
Lemma recip_scale_near (s : float) (ms : positive) (es : Z) :
  Prim2SF s = S754_finite false ms es →
  2 ^ 52 ≤ Z.pos ms < 2 ^ 53 → -103 ≤ es ≤ -52 →
  ∃ (mr : positive) (er : Z),
    Prim2SF (PrimFloat.div 1%float s) = S754_finite false mr er ∧
    2 ^ 52 ≤ Z.pos mr < 2 ^ 53 ∧ -53 ≤ er ≤ 0 ∧
    Z.abs (Z.pos mr * Z.pos ms - 2 ^ (- er) * 2 ^ (- es)) ≤ Z.pos ms.
Proof.
  intros Hs Hms Hes.
  destruct (SFdiv_normal (2 ^ 52)%positive ms (-52) es)
    as (mz & k & Hdiv & Hk & Hmz & Hnear & _ & Hfloor); [done|done|lia|].
  change (Z.pos (2 ^ 52) * 2 ^ 53) with (2 ^ 105) in Hnear, Hfloor.
  set (er0 := -52 - es - 53 + k) in *.
  assert (H2k : 1 ≤ 2 ^ k ≤ 2) by (destruct Hk as [-> | ->]; simpl; lia).
  set (Ts := 2 ^ (- es)).
  set (T0 := 2 ^ (- er0)).
  assert (HTs : 0 < Ts) by (apply Z.pow_pos_nonneg; lia).
  assert (HT0 : 0 < T0) by (apply Z.pow_pos_nonneg; destruct Hk; subst er0; lia).
  assert (HE : T0 * Ts * 2 ^ k = 2 ^ 105).
  { subst T0 Ts er0. rewrite <- !Z.pow_add_r by (destruct Hk; lia). f_equal.
    destruct Hk; lia. }
  assert (Hpos : 0 < 2 ^ k) by lia.
  assert (Hhi : 2 * (mz * Z.pos ms - T0 * Ts) ≤ Z.pos ms).
  { apply (Z.mul_le_mono_pos_l _ _ (2 ^ k)); [done|].
    replace (2 ^ k * (2 * (mz * Z.pos ms - T0 * Ts)))
      with (2 * (mz * 2 ^ k) * Z.pos ms - 2 * (T0 * Ts * 2 ^ k)) by ring.
    rewrite HE. lia. }
  assert (Hlo : - Z.pos ms < mz * Z.pos ms - T0 * Ts).
  { apply (Z.mul_lt_mono_pos_l (2 ^ k)); [done|].
    replace (2 ^ k * (mz * Z.pos ms - T0 * Ts))
      with (mz * 2 ^ k * Z.pos ms - T0 * Ts * 2 ^ k) by ring.
    rewrite HE.
    replace ((mz + 1) * 2 ^ k * Z.pos ms) with (mz * 2 ^ k * Z.pos ms + 2 ^ k * Z.pos ms)
      in Hfloor by ring.
    lia. }
  destruct (finish_round_normal mz er0) as (mr & er & Hfin & Hmr & Hcase).
  { lia. }
  { change (emax - prec) with 971. destruct Hk; subst er0; lia. }
  exists mr, er. split.
  { rewrite div_spec, Prim2SF_one, Hs. unfold SF64div. rewrite Hdiv. exact Hfin. }
  split; [done|].
  destruct Hcase as [[-> ->]|[-> Hhalf]].
  - split; [destruct Hk; subst er0; lia|]. fold T0 Ts. lia.
  - split; [destruct Hk; subst er0; lia|]. fold Ts.
    assert (HT : T0 = 2 * 2 ^ (- (er0 + 1))).
    { subst T0. replace (- er0) with (1 + - (er0 + 1)) by lia.
      rewrite Z.pow_add_r by (destruct Hk; subst er0; lia). done. }
    set (T := 2 ^ (- (er0 + 1))) in *.
    replace (T0 * Ts) with (2 * (T * Ts)) in Hhi, Hlo by (rewrite HT; ring).
    replace (mz * Z.pos ms) with (2 * (Z.pos mr * Z.pos ms)) in Hhi, Hlo
      by (rewrite <- Hhalf; ring).
    lia.
Qed.

(** From the two roundings: [1 / imgScale] against [W / w]. *)
Lemma recip_scale_ratio (w W ms mr Ts Tr : Z) :
  0 < w → 0 < W → 0 < Tr → 2 ^ 52 ≤ ms → 2 ^ 52 ≤ mr →
  Z.abs (ms * W - w * Ts) ≤ W → Z.abs (mr * ms - Tr * Ts) ≤ ms →
  2 ^ 50 * Z.abs (mr * w - W * Tr) ≤ W * Tr.
Proof.
  intros Hw HW HTr Hms Hmr He2 He1.
  set (e1 := mr * ms - Tr * Ts) in *. set (e2 := ms * W - w * Ts) in *.
  set (x := mr * w - W * Tr).
  assert (Hx : ms * x = w * e1 - Tr * e2) by (subst x e1 e2; ring).
  assert (H1 : w * - ms ≤ w * e1 ≤ w * ms)
    by (split; apply Z.mul_le_mono_nonneg_l; lia).
  assert (H2 : Tr * - W ≤ Tr * e2 ≤ Tr * W)
    by (split; apply Z.mul_le_mono_nonneg_l; lia).
  assert (H3 : 2 ^ 52 * (Tr * W) ≤ ms * (Tr * W)).
  { apply Z.mul_le_mono_nonneg_r; [|lia]. apply Z.mul_nonneg_nonneg; lia. }
  assert (H4 : 2 ^ 52 * w ≤ mr * w) by (apply Z.mul_le_mono_nonneg_r; lia).
  assert (Hup : ms * (2 ^ 52 * x) ≤ ms * (2 ^ 52 * w + Tr * W)) by lia.
  assert (Hdn : ms * (2 ^ 52 * - x) ≤ ms * (2 ^ 52 * w + Tr * W)) by lia.
  apply Z.mul_le_mono_pos_l in Hup; [|lia]. apply Z.mul_le_mono_pos_l in Hdn; [|lia].
  assert (Hw' : mr * w = W * Tr + x) by (subst x; lia).
  lia.
Qed.

(** One coordinate through [Match_Scale] at the scale of a level and back:
    the result is not above the coordinate, and below it by at most
    [W / w + 1]. *)
Lemma round_trip_at_scale (w W c : Z) :
  1 ≤ w ≤ W → W < 2 ^ 24 → 0 ≤ c < 2 ^ 24 →
  let imgScale := PrimFloat.div (float64_of_int w) (float64_of_int W) in
  let down := int_of_float64 (PrimFloat.mul (float64_of_int c) imgScale) in
  let back := int_of_float64
                (PrimFloat.mul (float64_of_int down) (PrimFloat.div 1%float imgScale)) in
  (0 ≤ down ∧ down * W ≤ c * w ≤ down * W + W) ∧
  (0 ≤ back ∧ back * w ≤ down * W ≤ back * w + w).
Proof.
  intros Hw HW Hc imgScale down back.
  destruct (level_scale_near w W) as (ms & es & Hs & Hms & Hes & Hnear); [lia..|].
  destruct (recip_scale_near imgScale ms es Hs Hms Hes) as (mr & er & Hr & Hmr & Her & Hrnear).
  assert (Hcw : c * w < 2 ^ 48).
  { change (2 ^ 48) with (2 ^ 24 * 2 ^ 24). apply Z.mul_lt_mono_nonneg; lia. }
  assert (Hcw0 : 0 ≤ c * w) by (apply Z.mul_nonneg_nonneg; lia).
  assert (HTs : 0 < 2 ^ (- es)) by (apply Z.pow_pos_nonneg; lia).
  assert (HTr : 0 < 2 ^ (- er)) by (apply Z.pow_pos_nonneg; lia).
  assert (Hdown : 0 ≤ down ∧ down * W ≤ c * w ≤ down * W + W).
  { apply (scaled_coordinate c w W imgScale ms es); try done; try lia.
    set (Ts := 2 ^ (- es)) in *.
    assert (Hbig : 2 ^ 52 * W ≤ Z.pos ms * W) by (apply Z.mul_le_mono_nonneg_r; lia).
    lia. }
  split; [done|].
  destruct Hdown as (Hd0 & Hd1 & Hd2).
  apply (scaled_coordinate down W w (PrimFloat.div 1%float imgScale) mr er);
    try done; try lia.
  apply (recip_scale_ratio w W (Z.pos ms) (Z.pos mr) (2 ^ (- es)) (2 ^ (- er)));
    try done; try lia.
Qed.

(** The widths of the levels of a search: with a minimum width that is
    not negative and a haystack narrower than [2^62], every level the
    outer loop runs has a width from 1 to the haystack's [Max.X]. *)
Lemma level_width_in_range {Image : Type} (Image_Bounds : Image → Rectangle)
    (CatmullRom_Scale : Rectangle → Image → list byte) (rt : Runtime) (numCPU : positive)
    (imgsrc subsrc : Image) (opts : Opts) (imgWidth : Z) (matches : Matches) :
  let opts' := effective_opts Image_Bounds imgsrc opts in
  0 ≤ imgMinWidth opts → X (Max (Image_Bounds imgsrc)) < 2 ^ 62 →
  outer_reaches Image_Bounds CatmullRom_Scale rt numCPU subsrc opts' imgsrc imgWidth matches →
  1 ≤ imgWidth ∧ (imgWidth ≤ imgMaxWidth opts' → imgWidth ≤ X (Max (Image_Bounds imgsrc))).
Proof.
  intros opts' Hmin HW Hreach.
  assert (Hmin' : 1 ≤ imgMinWidth opts').
  { subst opts'. unfold effective_opts. cbv zeta.
    destruct (_ <? _); cbn [imgMinWidth];
      destruct (Z.eqb_spec (imgMinWidth opts) 0); cbn [imgMinWidth DEFAULT_OPTS]; lia. }
  assert (Hmax' : imgMaxWidth opts' ≤ X (Max (Image_Bounds imgsrc))).
  { subst opts'. unfold effective_opts. cbv zeta.
    destruct (Z.ltb_spec (X (Max (Image_Bounds imgsrc)))
                (imgMaxWidth
                   {| imgMinWidth := if imgMinWidth opts =? 0
                                     then imgMinWidth DEFAULT_OPTS else imgMinWidth opts;
                      imgMaxWidth := if imgMaxWidth opts =? 0
                                     then imgMaxWidth DEFAULT_OPTS else imgMaxWidth opts;
                      subMinArea := if subMinArea opts =? 0
                                    then subMinArea DEFAULT_OPTS else subMinArea opts;
                      subMaxDiv := if subMaxDiv opts =? 0
                                   then subMaxDiv DEFAULT_OPTS else subMaxDiv opts;
                      opt_k := if opt_k opts =? 0 then opt_k DEFAULT_OPTS else opt_k opts |}));
      cbn [imgMaxWidth] in *; lia. }
  split; [|lia].
  induction Hreach as [|w ms ms' _ IH Hle _]; [done|].
  rewrite wrap_int_small; lia.
Qed.

(** C8 (amended): the scale of a level is [imgScale = float64(imgWidth) /
    float64(Max.X)] with [1 <= imgWidth <= Max.X].  For a haystack
    narrower than [2^24] and a rectangle with coordinates in [[0, 2^24)],
    scaling by [imgScale] takes every coordinate [c] to the quotient
    [c * imgWidth / Max.X] (or to one less, when the quotient is exact),
    and scaling that by [1 / imgScale] to a value from
    [c - Max.X / imgWidth - 1] to [c]: the result is not above [c], and
    below it by at most [1 / imgScale + 1] pixels.  The score is
    unchanged. *)
Theorem C8_round_trip_within_scale (m : Match) (imgWidth W : Z) :
  1 ≤ imgWidth ≤ W → W < 2 ^ 24 →
  0 ≤ X (Min (m_Bounds m)) < 2 ^ 24 → 0 ≤ Y (Min (m_Bounds m)) < 2 ^ 24 →
  0 ≤ X (Max (m_Bounds m)) < 2 ^ 24 → 0 ≤ Y (Max (m_Bounds m)) < 2 ^ 24 →
  let imgScale := PrimFloat.div (float64_of_int imgWidth) (float64_of_int W) in
  let scaled := Match_Scale m imgScale in
  let back := Match_Scale scaled (PrimFloat.div 1%float imgScale) in
  (scaled_to imgWidth W (X (Min (m_Bounds m))) (X (Min (m_Bounds scaled))) ∧
   within_scale imgWidth W (X (Min (m_Bounds m))) (X (Min (m_Bounds back)))) ∧
  (scaled_to imgWidth W (Y (Min (m_Bounds m))) (Y (Min (m_Bounds scaled))) ∧
   within_scale imgWidth W (Y (Min (m_Bounds m))) (Y (Min (m_Bounds back)))) ∧
  (scaled_to imgWidth W (X (Max (m_Bounds m))) (X (Max (m_Bounds scaled))) ∧
   within_scale imgWidth W (X (Max (m_Bounds m))) (X (Max (m_Bounds back)))) ∧
  (scaled_to imgWidth W (Y (Max (m_Bounds m))) (Y (Max (m_Bounds scaled))) ∧
   within_scale imgWidth W (Y (Max (m_Bounds m))) (Y (Max (m_Bounds back)))) ∧
  m_Match back = m_Match m.
Proof.
  intros Hw HW Hx0 Hy0 Hx1 Hy1 imgScale scaled back.
  assert (Hone : ∀ c, 0 ≤ c < 2 ^ 24 →
            let down := int_of_float64 (PrimFloat.mul (float64_of_int c) imgScale) in
            scaled_to imgWidth W c down ∧
            within_scale imgWidth W c
              (int_of_float64
                 (PrimFloat.mul (float64_of_int down) (PrimFloat.div 1%float imgScale)))).
  { intros c Hc.
    destruct (round_trip_at_scale imgWidth W c Hw HW Hc)
      as ((Hd0 & Hd1 & Hd2) & (Hb0 & Hb1 & Hb2)).
    fold imgScale in Hd0, Hd1, Hd2, Hb0, Hb1, Hb2.
    set (down := int_of_float64 (PrimFloat.mul (float64_of_int c) imgScale)) in *.
    cbv zeta.
    set (up := int_of_float64 (PrimFloat.mul (float64_of_int down) _)) in *.
    unfold scaled_to, within_scale. split; [done|]. split.
    - assert (Hle : imgWidth * up ≤ imgWidth * c) by lia.
      apply Z.mul_le_mono_pos_l in Hle; lia.
    - lia. }
  unfold back, scaled, Match_Scale. cbn [m_Bounds m_Match Min Max X Y].
  repeat split; try (apply Hone; lia).
Qed.

Lemma C8_round_trip_within_scale_witness :
  let m := mkMatch (mkRectangle (mkPoint 7 7) (mkPoint 150 150)) 1%float in
  let imgScale := PrimFloat.div (float64_of_int 8) (float64_of_int 800) in
  let scaled := Match_Scale m imgScale in
  let back := Match_Scale scaled (PrimFloat.div 1%float imgScale) in
  (1 ≤ 8 ≤ 800 ∧ 800 < 2 ^ 24 ∧ 0 ≤ 7 < 2 ^ 24 ∧ 0 ≤ 150 < 2 ^ 24) ∧
  m_Bounds scaled = mkRectangle (mkPoint 0 0) (mkPoint 1 1) ∧
  m_Bounds back = mkRectangle (mkPoint 0 0) (mkPoint 100 100) ∧
  (scaled_to 8 800 7 (X (Min (m_Bounds scaled))) ∧
   within_scale 8 800 7 (X (Min (m_Bounds back)))) ∧
  (scaled_to 8 800 150 (X (Max (m_Bounds scaled))) ∧
   within_scale 8 800 150 (X (Max (m_Bounds back)))).
Proof.
  intros m imgScale scaled back.
  assert (Hw : 1 ≤ 8 ≤ 800) by lia.
  assert (HW : 800 < 2 ^ 24) by lia.
  assert (H7 : 0 ≤ 7 < 2 ^ 24) by lia.
  assert (H150 : 0 ≤ 150 < 2 ^ 24) by lia.
  refine (conj (conj Hw (conj HW (conj H7 H150))) (conj _ (conj _ _)));
    [vm_compute; reflexivity|vm_compute; reflexivity|].
  destruct (C8_round_trip_within_scale m 8 800 Hw HW H7 H7 H150 H150)
    as (Hx0 & _ & Hx1 & _).
  exact (conj Hx0 Hx1).
Defined.

(** C8, as stated, fails at the scales of the search: at the first level
    of a haystack 32 pixels wide, [imgScale = 8 / 32], the rectangle
    [(7,7)-(150,150)] comes back as [(4,4)-(148,148)], three and two pixels
    off; at [imgScale = 8 / 800] it comes back as [(0,0)-(100,100)]; at
    [64 / 100] the coordinate 3 comes back as 1 and at [8 / 49] the
    coordinate 49 as 42.  Without a limit on the coordinates the result
    can also lie above the coordinate: at [imgScale = 8 / 8] the
    coordinate [2^54 + 3] comes back as [2^54 + 4]. *)
Lemma C8_counterexample_round_trip_off_by_three :
  let round_trip (w W : Z) (m : Match) :=
    let imgScale := PrimFloat.div (float64_of_int w) (float64_of_int W) in
    Match_Scale (Match_Scale m imgScale) (PrimFloat.div 1%float imgScale) in
  let m := mkMatch (mkRectangle (mkPoint 7 7) (mkPoint 150 150)) 1%float in
  let small := mkMatch (mkRectangle (mkPoint 3 3) (mkPoint 49 49)) 1%float in
  let large := mkMatch (mkRectangle (mkPoint 0 0) (mkPoint (2 ^ 54 + 3) 5)) 1%float in
  round_trip 8 32 m = mkMatch (mkRectangle (mkPoint 4 4) (mkPoint 148 148)) 1%float ∧
  round_trip 8 800 m = mkMatch (mkRectangle (mkPoint 0 0) (mkPoint 100 100)) 1%float ∧
  round_trip 64 100 small = mkMatch (mkRectangle (mkPoint 1 1) (mkPoint 48 48)) 1%float ∧
  round_trip 8 49 small = mkMatch (mkRectangle (mkPoint 0 0) (mkPoint 42 42)) 1%float ∧
  round_trip 8 8 large = mkMatch (mkRectangle (mkPoint 0 0) (mkPoint (2 ^ 54 + 4) 5)) 1%float ∧
  ¬ (Z.abs (7 - 4) ≤ 1) ∧ ¬ (Z.abs (150 - 100) ≤ 1) ∧ ¬ (Z.abs (3 - 1) ≤ 1) ∧
  ¬ (Z.abs (49 - 42) ≤ 1) ∧ ¬ (2 ^ 54 + 4 ≤ 2 ^ 54 + 3).
Proof.
  intros round_trip m small large.
  repeat (split; [vm_compute; reflexivity|]).
  repeat split; lia.
Qed.

(** ** Scores are not negative *)

Lemma foldM_grows {A : Type} (c : Z) (f : Z → A → option Z) (l : list A) (s0 s : Z) :
  (∀ s a s', 0 ≤ s → f s a = Some s' → 0 ≤ s' ≤ s + c) →
  0 ≤ s0 → foldM f s0 l = Some s → 0 ≤ s ≤ s0 + c * Z.of_nat (length l).
Proof.
  intros Hstep. revert s0. induction l as [|a l IH]; intros s0 Hs0; cbn [foldM length].
  - intros [= <-]. lia.
  - destruct (f s0 a) as [s1|] eqn:Hf; cbn; [|done].
    apply Hstep in Hf; [|done]. intros Hrest. apply IH in Hrest; [|lia].
    rewrite Nat2Z.inj_succ. lia.
Qed.

Lemma rgbAbsSumSliceBitwise_le (a b : list byte) (d : Z) :
  rgbAbsSumSliceBitwise a b = Some d → 0 ≤ d ≤ 765.
Proof.
  unfold rgbAbsSumSliceBitwise. intros Hd. simplify_option_eq.
  repeat match goal with
         | |- context [bitwiseAbsDiff ?x ?y] =>
             lazymatch goal with
             | _ : 0 ≤ bitwiseAbsDiff x y ≤ 255 |- _ => fail
             | _ => pose proof (bitwiseAbsDiff_range x y)
             end
         end.
  rewrite (wrap_uint32_small (bitwiseAbsDiff _ _ + bitwiseAbsDiff _ _)) by lia.
  rewrite wrap_uint32_small by lia. lia.
Qed.

(** The raw sum of an offset is at most 765 per needle pixel. *)
Lemma sumOfAbsDiffRGBA_le (img : RGBA) (x y : Z) (subimg : RGBA) (sum : Z) :
  sumOfAbsDiffRGBA img x y subimg = Some sum →
  0 < Dx (Bounds subimg) * Dy (Bounds subimg) →
  0 ≤ sum ≤ 765 * (Dx (Bounds subimg) * Dy (Bounds subimg)).
Proof.
  unfold sumOfAbsDiffRGBA. cbv zeta.
  set (w := Dx (Bounds subimg)) in *. set (h := Dy (Bounds subimg)) in *.
  intros Hsum Harea.
  apply (foldM_grows (765 * Z.of_nat (length (seqZ 0 w)))) in Hsum; [| |done].
  - rewrite !length_seqZ in Hsum. nia.
  - intros s ny s' Hs Hrow.
    apply (foldM_grows 765) in Hrow; [lia| |done].
    intros s1 nx s2 Hs1 Hpix. simplify_option_eq.
    match goal with H : rgbAbsSumSliceBitwise _ _ = Some ?d |- _ =>
      apply rgbAbsSumSliceBitwise_le in H; unfold wrap_uint32;
      pose proof (Z.mod_pos_bound (s1 + d) (2 ^ 32) ltac:(lia));
      pose proof (Z.mod_le (s1 + d) (2 ^ 32) ltac:(lia) ltac:(lia)) end.
    lia.
Qed.

(** A score [1 - float64(sum) * norm] at or above zero, as a comparison. *)
Lemma normalize_not_negative (img subimg : RGBA) (m0 : Match) :
  X (Min (Bounds subimg)) = 0 → Y (Min (Bounds subimg)) = 0 →
  0 < Dx (Bounds subimg) * Dy (Bounds subimg) * 255 * 3 < 2 ^ 53 →
  (m0 = zeroMatch ∨
   ∃ x y sum, sumOfAbsDiffRGBA img x y subimg = Some sum ∧
              m0 = candidate (Rect x y (x + Dx (Bounds subimg)) (y + Dy (Bounds subimg)), sum)) →
  SF_signed false (Prim2SF (m_Match (normalize (norm_of (Bounds subimg)) m0))).
Proof.
  intros Hx Hy Harea Hm0.
  set (d := Dx (Bounds subimg) * Dy (Bounds subimg) * 255 * 3) in *.
  assert (Hnorm : norm_of (Bounds subimg) = PrimFloat.div 1 (float64_of_int d)).
  { unfold norm_of, d. unfold Dx, Dy in *. rewrite Hx, Hy, !Z.sub_0_r in *.
    set (a := X (Max (Bounds subimg)) * Y (Max (Bounds subimg))) in *.
    assert (0 < a) by nia.
    rewrite (wrap_int_small a) by lia.
    rewrite (wrap_int_small (a * 255)) by lia.
    rewrite (wrap_int_small (a * 255 * 3)) by lia. done. }
  rewrite Hnorm. cbn [normalize m_Match].
  destruct Hm0 as [->|(x & y & sum & Hsum & ->)].
  - change (m_Match zeroMatch) with (float64_of_int 0). apply score_signed; lia.
  - cbn [candidate fst snd m_Match].
    apply sumOfAbsDiffRGBA_le in Hsum; [|lia].
    apply score_signed; lia.
Qed.

(** X20: Every score the parallel matcher returns for a needle at the origin of
    fewer than [2^53 / 765] pixels is at least 0: the raw sum of an offset is
    at most [765 * w * h], [1 / float64(765 * w * h)] is rounded to nearest, and
    the rounded product cannot exceed 1. *)
Theorem convolutionTopKParallel_scores_not_negative (rt : Runtime) (numCPU : positive)
    (img subimg : RGBA) (k : Z) (result : Matches) :
  admissible rt →
  X (Min (Bounds subimg)) = 0 → Y (Min (Bounds subimg)) = 0 →
  0 < Dx (Bounds subimg) * Dy (Bounds subimg) * 255 * 3 < 2 ^ 53 →
  convolutionTopKParallel rt numCPU img subimg k = Some result →
  Forall (λ m, PrimFloat.leb 0 (m_Match m) = true ∧ PrimFloat.ltb (m_Match m) 0 = false) result.
Proof.
  intros Hrt Hx Hy Harea Hres.
  pose proof (convolutionTopKParallel_elements _ _ _ _ _ _ Hrt Hres) as Hall.
  eapply Forall_impl; [exact Hall|]. clear Hall.
  intros m (m0 & -> & Hm0).
  pose proof (normalize_not_negative img subimg m0 Hx Hy Harea Hm0) as Hs.
  split; [by apply leb_zero_nonneg|by apply ltb_zero_nonneg].
Qed.

Lemma convolutionTopKParallel_scores_not_negative_witness :
  let haystack := uniform x00 2 2 in
  let needle := uniform xff 1 1 in
  let result := [mkMatch (Rect 0 0 1 1) 0x1p-53%float;
                 mkMatch (mkRectangle (mkPoint 0 0) (mkPoint 0 0)) 1%float] in
  admissible in_order ∧
  X (Min (Bounds needle)) = 0 ∧ Y (Min (Bounds needle)) = 0 ∧
  0 < Dx (Bounds needle) * Dy (Bounds needle) * 255 * 3 < 2 ^ 53 ∧
  convolutionTopKParallel in_order 4 haystack needle 2 = Some result ∧
  Forall (λ m, PrimFloat.leb 0 (m_Match m) = true ∧ PrimFloat.ltb (m_Match m) 0 = false) result.
Proof.
  intros haystack needle result.
  assert (H1 : X (Min (Bounds needle)) = 0) by reflexivity.
  assert (H2 : Y (Min (Bounds needle)) = 0) by reflexivity.
  assert (H3 : 0 < Dx (Bounds needle) * Dy (Bounds needle) * 255 * 3 < 2 ^ 53)
    by (vm_compute; split; reflexivity).
  assert (H4 : convolutionTopKParallel in_order 4 haystack needle 2 = Some result)
    by (vm_compute; reflexivity).
  refine (conj in_order_admissible (conj H1 (conj H2 (conj H3 (conj H4 _))))).
  exact (convolutionTopKParallel_scores_not_negative in_order 4 haystack needle 2 result
           in_order_admissible H1 H2 H3 H4).
Defined.

(** ** The size [resizeImage] derives *)

(** X21: [resizeImage] with one side left 0 keeps the aspect ratio exactly: the
    missing side is the integer quotient [given * other / own] of the
    source's sides, and 1 where that quotient is 0.  The three [float64]
    operations lose nothing as long as the product is below [2^52]. *)
Theorem resizeImage_aspect {Image : Type} (Image_Bounds : Image → Rectangle)
    (CatmullRom_Scale : Rectangle → Image → list byte) (img : Image) (given : Z) :
  let W := Dx (Image_Bounds img) in
  let H := Dy (Image_Bounds img) in
  1 ≤ given →
  (0 < W < 2 ^ 53 → 0 ≤ H → given * H < 2 ^ 52 →
   Bounds (resizeImage Image_Bounds CatmullRom_Scale img given 0)
   = mkRectangle (mkPoint 0 0) (mkPoint given (Z.max 1 (given * H / W)))) ∧
  (0 < H < 2 ^ 53 → 0 ≤ W → given * W < 2 ^ 52 →
   Bounds (resizeImage Image_Bounds CatmullRom_Scale img 0 given)
   = mkRectangle (mkPoint 0 0) (mkPoint (Z.max 1 (given * W / H)) given)).
Proof.
  intros W H Hg.
  assert (HR : ∀ w h, 1 ≤ w → 1 ≤ h → Rect 0 0 w h = mkRectangle (mkPoint 0 0) (mkPoint w h)).
  { intros a b Ha Hb. unfold Rect. destruct (Z.ltb_spec a 0); [lia|].
    destruct (Z.ltb_spec b 0); [lia|]. done. }
  assert (Hclamp : ∀ other own, 0 < own < 2 ^ 53 → 0 ≤ other → given * other < 2 ^ 52 →
            let d := int_of_float64
                       (PrimFloat.div
                          (PrimFloat.mul (float64_of_int given) (float64_of_int other))
                          (float64_of_int own)) in
            (if d <? 1 then 1 else d) = Z.max 1 (given * other / own)).
  { intros other own Hown Hother Hprod d.
    destruct (Z.eq_dec other 0) as [->|Hne].
    - assert (Hd : d = 0 ∨ d = - 2 ^ 63).
      { apply int_of_float64_zero_or_nan. rewrite div_spec, mul_spec.
        apply SFdiv_zero_or_nan_l, SFmul_zero_or_nan_r. by rewrite float64_of_int_zero. }
      rewrite Z.mul_0_r, Z.div_0_l by lia.
      destruct (Z.ltb_spec d 1); lia.
    - assert (Hd : d = given * other / own).
      { apply derived_size_exact; lia. }
      rewrite Hd. destruct (Z.ltb_spec (given * other / own) 1); lia. }
  split; intros Hown Hother Hprod; unfold resizeImage; cbv zeta;
    fold (Dx (Image_Bounds img)) (Dy (Image_Bounds img)); fold W H.
  - destruct (Z.eqb_spec given 0); [lia|]. cbn [Z.eqb].
    rewrite (Hclamp H W Hown Hother Hprod).
    destruct (Z.ltb_spec given 1); [lia|].
    rewrite HR by lia. done.
  - cbn [Z.eqb].
    rewrite (Hclamp W H Hown Hother Hprod).
    destruct (Z.ltb_spec given 1); [lia|].
    rewrite HR by lia. done.
Qed.

Lemma resizeImage_aspect_witness :
  1 ≤ 6 ∧
  0 < Dx (Bounds gradient_haystack) < 2 ^ 53 ∧ 0 ≤ Dy (Bounds gradient_haystack) ∧
  6 * Dy (Bounds gradient_haystack) < 2 ^ 52 ∧
  Bounds (resizeImage Bounds nearest_Scale gradient_haystack 6 0)
  = mkRectangle (mkPoint 0 0)
      (mkPoint 6 (Z.max 1 (6 * Dy (Bounds gradient_haystack) / Dx (Bounds gradient_haystack)))).
Proof.
  assert (H1 : 1 ≤ 6) by lia.
  assert (H2 : 0 < Dx (Bounds gradient_haystack) < 2 ^ 53) by (vm_compute; split; reflexivity).
  assert (H3 : 0 ≤ Dy (Bounds gradient_haystack)) by (vm_compute; congruence).
  assert (H4 : 6 * Dy (Bounds gradient_haystack) < 2 ^ 52) by (vm_compute; reflexivity).
  refine (conj H1 (conj H2 (conj H3 (conj H4 _)))).
  exact (proj1 (resizeImage_aspect Bounds nearest_Scale gradient_haystack 6 H1) H2 H3 H4).
Defined.

(** ** A search that returns *)

Lemma length_bind_const {A B : Type} (f : A → list B) (c : nat) (l : list A) :
  (∀ a, a ∈ l → length (f a) = c) → length (l ≫= f) = (c * length l)%nat.
Proof.
  induction l as [|a l IH]; intros Hl; [cbn; lia|].
  rewrite bind_cons, length_app, IH, Hl; [cbn [length]; lia|by left|].
  intros a' Ha'. apply Hl. by right.
Qed.

(** The stand-in resampler fills the destination. *)
Lemma nearest_Scale_length (src : RGBA) (w h : Z) :
  well_formed src → 1 ≤ w → 1 ≤ h →
  length (nearest_Scale (Rect 0 0 w h) src) = Z.to_nat (4 * w * h).
Proof.
  intros [_ _ Hstride Hlen] Hw Hh. unfold nearest_Scale.
  assert (HrX : Dx (Rect 0 0 w h) = w).
  { unfold Rect. destruct (Z.ltb_spec w 0); [lia|]. destruct (Z.ltb_spec h 0); [lia|].
    unfold Dx. cbn. lia. }
  assert (HrY : Dy (Rect 0 0 w h) = h).
  { unfold Rect. destruct (Z.ltb_spec w 0); [lia|]. destruct (Z.ltb_spec h 0); [lia|].
    unfold Dy. cbn. lia. }
  rewrite HrX, HrY.
  destruct (Z.leb_spec (Dx (Bounds src)) 0) as [|Hdx]; cbn [orb];
    [by rewrite length_replicate|].
  destruct (Z.leb_spec (Dy (Bounds src)) 0) as [|Hdy]; [by rewrite length_replicate|].
  rewrite (length_bind_const _ (4 * Z.to_nat w)).
  { rewrite length_seqZ. lia. }
  intros y Hy%elem_of_seqZ.
  rewrite (length_bind_const _ 4).
  { rewrite length_seqZ. lia. }
  intros x Hx%elem_of_seqZ. cbv zeta.
  rewrite length_take, length_drop. unfold PixOffset. rewrite Hstride.
  set (sx := x * Dx (Bounds src) / w). set (sy := y * Dy (Bounds src) / h).
  assert (Hsx : 0 ≤ sx < Dx (Bounds src)).
  { subst sx. split; [apply Z.div_pos; nia|apply Z.div_lt_upper_bound; nia]. }
  assert (Hsy : 0 ≤ sy < Dy (Bounds src)).
  { subst sy. split; [apply Z.div_pos; nia|apply Z.div_lt_upper_bound; nia]. }
  replace (Y (Min (Bounds src)) + sy - Y (Min (Bounds src))) with sy by lia.
  replace (X (Min (Bounds src)) + sx - X (Min (Bounds src))) with sx by lia.
  nia.
Qed.

Section returns.

Context {Image : Type}.
Variable Image_Bounds : Image → Rectangle.
Variable CatmullRom_Scale : Rectangle → Image → list byte.
Variable rt : Runtime.
Variable numCPU : positive.
Variable subsrc imgsrc : Image.
Variable opts : Opts.

Local Abbreviation resize := (resizeImage Image_Bounds CatmullRom_Scale).
Local Abbreviation inner := (inner_loop Image_Bounds CatmullRom_Scale rt numCPU subsrc opts).
Local Abbreviation outer :=
  (outer_loop Image_Bounds CatmullRom_Scale rt numCPU subsrc opts imgsrc).

Local Abbreviation fills := (fills CatmullRom_Scale).

Lemma resize_shape (src : Image) (w h : Z) :
  fills src →
  well_formed (resize src w h) ∧ Min (Bounds (resize src w h)) = mkPoint 0 0 ∧
  1 ≤ X (Max (Bounds (resize src w h))) ∧ 1 ≤ Y (Max (Bounds (resize src w h))) ∧
  (1 ≤ w → X (Max (Bounds (resize src w h))) = w) ∧
  (1 ≤ h → Y (Max (Bounds (resize src w h))) = h) ∧
  (1 ≤ w → h = 0 →
   Y (Max (Bounds (resize src w h)))
   = Z.max 1 (int_of_float64
                (PrimFloat.div
                   (PrimFloat.mul (float64_of_int w)
                      (float64_of_int (Y (Max (Image_Bounds src)) - Y (Min (Image_Bounds src)))))
                   (float64_of_int (X (Max (Image_Bounds src)) - X (Min (Image_Bounds src))))))).
Proof.
  intros Hfill. unfold resizeImage. cbv zeta.
  set (w1 := int_of_float64 _). set (h1 := int_of_float64 _).
  assert (HR : ∀ w h, 1 ≤ w → 1 ≤ h → Rect 0 0 w h = mkRectangle (mkPoint 0 0) (mkPoint w h)).
  { intros a b Ha Hb. unfold Rect. destruct (Z.ltb_spec a 0); [lia|].
    destruct (Z.ltb_spec b 0); [lia|]. done. }
  destruct (Z.eqb_spec w 0) as [->|Hw0]; [|destruct (Z.eqb_spec h 0) as [->|Hh0]];
    match goal with
    | |- context [Rect 0 0 ?a ?b] =>
        assert (Ha : 1 ≤ a) by (repeat case_match; lia);
        assert (Hb : 1 ≤ b) by (repeat case_match; lia);
        pose proof (Hfill a b Ha Hb) as Hlen;
        rewrite (HR a b Ha Hb) in *; set (a' := a) in *; set (b' := b) in *
    end;
    (split; [split; unfold Dx, Dy; cbn [Bounds Stride Pix Min Max X Y]; rewrite ?Hlen; lia|]);
    cbn [Bounds Stride Pix Min Max X Y]; subst a' b';
    repeat split; try done; try lia; intros; repeat case_match; lia.
Qed.

Hypothesis rt_admissible : admissible rt.
Hypothesis fills_subsrc : fills subsrc.
Hypothesis needle_dx : 0 ≤ Dx (Image_Bounds subsrc).
Hypothesis needle_dy : 0 ≤ Dy (Image_Bounds subsrc).
Hypothesis subMinArea_pos : 1 ≤ subMinArea opts.
Hypothesis subMaxDiv_small : subMaxDiv opts < 2 ^ 62.
Hypothesis capacity_accepted : Z.max (opt_k opts) 1 * (Z.pos numCPU * 2) * 40 ≤ 2 ^ 48.

(** The needle size of a step is not negative, or the indefinite integer. *)
Lemma sub_size_sign (imgScale : float) (div n : Z) :
  1 ≤ div → 0 ≤ n → SF_nonneg_or_nan (Prim2SF imgScale) →
  let s := int_of_float64
             (PrimFloat.mul
                (PrimFloat.mul (float64_of_int n) (PrimFloat.div 1%float (float64_of_int div)))
                imgScale) in
  0 ≤ s ∨ s = - 2 ^ 63.
Proof.
  intros Hdiv Hn Hscale s. apply int_of_float64_nonneg_or_nan.
  rewrite !mul_spec.
  apply SFmul_nonneg_or_nan; [|done].
  apply SFmul_nonneg_or_nan.
  - by apply SF_signed_nonneg, float64_of_int_nonneg.
  - apply SF_signed_nonneg. apply (recip_float64_of_int div). lia.
Qed.

(** On a well-formed level image of less than [2^20] pixels a side, the
    matcher returns, and with scores that are not negative. *)
Lemma matcher_returns_scored (img subimg : RGBA) (k : Z) :
  well_formed img → well_formed subimg →
  Min (Bounds img) = mkPoint 0 0 → Min (Bounds subimg) = mkPoint 0 0 →
  1 ≤ X (Max (Bounds subimg)) ≤ X (Max (Bounds img)) →
  1 ≤ Y (Max (Bounds subimg)) ≤ Y (Max (Bounds img)) →
  X (Max (Bounds img)) < 2 ^ 20 → Y (Max (Bounds img)) < 2 ^ 20 →
  Z.max k 1 * (Z.pos numCPU * 2) * 40 ≤ 2 ^ 48 →
  ∃ result,
    convolutionTopKParallel rt numCPU img subimg k = Some result ∧
    Forall (λ m, SF_signed false (Prim2SF (m_Match m))) result.
Proof.
  intros Hi Hs Himin Hsmin Hx Hy HX HY Hcap.
  assert (Hdx : Dx (Bounds subimg) = X (Max (Bounds subimg)))
    by (unfold Dx; rewrite Hsmin; cbn; lia).
  assert (Hdy : Dy (Bounds subimg) = Y (Max (Bounds subimg)))
    by (unfold Dy; rewrite Hsmin; cbn; lia).
  assert (Hidx : Dx (Bounds img) = X (Max (Bounds img)))
    by (unfold Dx; rewrite Himin; cbn; lia).
  assert (Hidy : Dy (Bounds img) = Y (Max (Bounds img)))
    by (unfold Dy; rewrite Himin; cbn; lia).
  assert (Hret : ∃ result, convolutionTopKParallel rt numCPU img subimg k = Some result).
  { unfold convolutionTopKParallel. cbv zeta.
    set (k' := if k <? 1 then 1 else k).
    assert (Hk' : 1 ≤ k') by (subst k'; destruct (Z.ltb_spec k 1); lia).
    set (numWorkers := Z.pos numCPU * 2).
    set (inner := Rect _ _ _ _). set (sliceHeight := Z.quot _ _).
    destruct (mapM_choice
                (worker img subimg k' inner (Dx (Bounds subimg)) (Dy (Bounds subimg))
                   numWorkers sliceHeight)
                (λ p : list (Rectangle * Z), candidate <$> p) (λ _ _, True)
                (seqZ 0 numWorkers)) as (ps & -> & _).
    { intros id Hid%elem_of_seqZ.
      destruct (worker_sends img subimg k' numWorkers id) as (retained & _ & Hw & _);
        try done; try lia.
      - rewrite Himin. cbn. lia.
      - exists retained. done. }
    assert (Hk'max : k' = Z.max k 1) by (subst k'; destruct (Z.ltb_spec k 1); lia).
    cbn. rewrite makeslice_Match_accepts by (subst numWorkers; lia).
    cbn. unfold reslice.
    destruct (decide _) as [|Hno]; [by eexists|].
    exfalso. apply Hno. subst numWorkers. nia. }
  destruct Hret as [result Hres]. exists result. split; [done|].
  pose proof (convolutionTopKParallel_elements _ _ _ _ _ _ rt_admissible Hres) as Hall.
  eapply Forall_impl; [exact Hall|]. clear Hall.
  intros m (m0 & -> & Hm0).
  apply (normalize_not_negative img subimg m0); [by rewrite Hsmin|by rewrite Hsmin| |done].
  rewrite Hdx, Hdy.
  assert (X (Max (Bounds subimg)) * Y (Max (Bounds subimg)) < 2 ^ 20 * 2 ^ 20)
    by (apply Z.mul_lt_mono_nonneg; lia).
  nia.
Qed.

Section level.

Variable img : RGBA.
Variable imgScale : float.

Hypothesis img_wf : well_formed img.
Hypothesis img_min : Min (Bounds img) = mkPoint 0 0.
Hypothesis img_width : X (Max (Bounds img)) < 2 ^ 20.
Hypothesis img_height : Y (Max (Bounds img)) < 2 ^ 20.
Hypothesis imgScale_sign : SF_nonneg_or_nan (Prim2SF imgScale).

(** A step of the inner loop does not panic; at the first step of a level,
    where [lastTopMatch] is 0, it cannot take the early stop. *)
Lemma inner_body_no_panic (div : Z) (lastTopMatch : float) (matches : Matches)
    (subruns : nat) :
  1 ≤ div → (subruns = 0%nat → lastTopMatch = 0%float) →
  ∃ st,
    inner_body Image_Bounds CatmullRom_Scale rt numCPU subsrc opts img
      (X (Max (Bounds img))) (Y (Max (Bounds img))) imgScale div lastTopMatch matches subruns
    = Some st ∧
    (∀ last' ms' sr', st = Continue last' ms' sr' → sr' ≠ 0%nat).
Proof.
  intros Hdiv Hfirst. unfold inner_body, sub_size. cbv zeta.
  pose proof (sub_size_sign imgScale div _ Hdiv needle_dx imgScale_sign) as Hsw.
  pose proof (sub_size_sign imgScale div _ Hdiv needle_dy imgScale_sign) as Hsh.
  cbv zeta in Hsw, Hsh.
  set (sw := int_of_float64
               (PrimFloat.mul
                  (PrimFloat.mul (float64_of_int (Dx (Image_Bounds subsrc))) _) imgScale)) in *.
  set (sh := int_of_float64
               (PrimFloat.mul
                  (PrimFloat.mul (float64_of_int (Dy (Image_Bounds subsrc))) _) imgScale)) in *.
  destruct ((wrap_int (sw * sh) <? subMinArea opts) || (X (Max (Bounds img)) <=? sw)
            || (Y (Max (Bounds img)) <=? sh)) eqn:Hguard.
  { eexists. split; [done|]. intros ? ? ? [=]. }
  apply orb_false_elim in Hguard as [Hguard Hh%Z.leb_gt].
  apply orb_false_elim in Hguard as [Harea%Z.ltb_ge Hw%Z.leb_gt].
  assert (Hsw1 : 1 ≤ sw).
  { destruct (Z_le_gt_dec 1 sw); [done|].
    assert (Hz : sw = 0 ∨ sw = - 2 ^ 63) by lia.
    pose proof (sarea_not_positive sw sh (or_introl Hz)). lia. }
  assert (Hsh1 : 1 ≤ sh).
  { destruct (Z_le_gt_dec 1 sh); [done|].
    assert (Hz : sh = 0 ∨ sh = - 2 ^ 63) by lia.
    pose proof (sarea_not_positive sw sh (or_intror Hz)). lia. }
  destruct (resize_shape subsrc sw sh fills_subsrc)
    as (Hwf & Hmin & _ & _ & HX & HY & _).
  specialize (HX Hsw1). specialize (HY Hsh1).
  destruct (matcher_returns_scored img (resize subsrc sw sh) (opt_k opts))
    as (divMatches & -> & Hscores); try done; try lia.
  cbn [mbind option_bind].
  destruct divMatches as [|top rest]; [eexists; split; [done|intros ? ? ? [=]]|].
  cbn [length Nat.eqb lookup list_lookup mbind option_bind].
  apply Forall_cons in Hscores as [Htop _].
  destruct (PrimFloat.ltb (m_Match top) lastTopMatch) eqn:Hlt.
  - destruct subruns as [|n].
    + rewrite (Hfirst eq_refl), (ltb_zero_nonneg _ Htop) in Hlt. done.
    + eexists. split; [done|]. intros ? ? ? [=].
  - eexists. split; [done|]. intros ? ? ? [= _ _ <-]. done.
Qed.

Lemma inner_loop_no_panic (fuel : nat) :
  ∀ (div : Z) (lastTopMatch : float) (matches : Matches) (subruns : nat),
    1 ≤ div → (subruns = 0%nat → lastTopMatch = 0%float) →
    inner fuel img (X (Max (Bounds img))) (Y (Max (Bounds img))) imgScale
      div lastTopMatch matches subruns ≠ Panics.
Proof.
  induction fuel as [|fuel IH]; intros div last ms sr Hdiv Hfirst; cbn [inner_loop]; [done|].
  destruct (Z.ltb_spec (subMaxDiv opts) div) as [|Hle]; [done|].
  destruct (inner_body_no_panic div last ms sr Hdiv Hfirst) as (st & -> & Hsr).
  destruct st as [last' ms' sr'|ms'|ms']; try done.
  rewrite wrap_int_small by lia.
  apply IH; [lia|]. intros ->. by destruct (Hsr last' ms' 0%nat).
Qed.

End level.

Hypothesis fills_imgsrc : fills imgsrc.
Hypothesis haystack_min : Min (Image_Bounds imgsrc) = mkPoint 0 0.
Hypothesis haystack_width : X (Max (Image_Bounds imgsrc)) < 2 ^ 20.
Hypothesis haystack_height : 0 ≤ Y (Max (Image_Bounds imgsrc)) < 2 ^ 20.
Hypothesis imgMaxWidth_le : imgMaxWidth opts ≤ X (Max (Image_Bounds imgsrc)).

Lemma outer_loop_no_panic (fuel : nat) :
  ∀ (imgWidth : Z) (matches : Matches), 1 ≤ imgWidth → outer fuel imgWidth matches ≠ Panics.
Proof.
  induction fuel as [|fuel IH]; intros w ms Hw; cbn [outer_loop]; [done|].
  destruct (Z.ltb_spec (imgMaxWidth opts) w) as [|Hle]; [done|]. cbv zeta.
  destruct (resize_shape imgsrc w 0 fills_imgsrc) as (Hwf & Hmin & _ & Hh1 & HX & _ & HY).
  specialize (HX Hw). specialize (HY Hw eq_refl).
  rewrite haystack_min in HY. cbn [X Y] in HY. rewrite !Z.sub_0_r in HY.
  pose proof (derived_height_le w (X (Max (Image_Bounds imgsrc)))
                (Y (Max (Image_Bounds imgsrc))) ltac:(lia) ltac:(lia) ltac:(lia)) as Hder.
  pose proof (inner_loop_no_panic (resize imgsrc w 0)
                (PrimFloat.div (float64_of_int w)
                   (float64_of_int (X (Max (Image_Bounds imgsrc)))))
                Hwf Hmin ltac:(lia) ltac:(lia)
                ltac:(apply imgScale_nonneg_or_nan; lia)
                (S fuel) 1 0%float ms 0%nat ltac:(lia) ltac:(done)) as Hinner.
  rewrite HX in Hinner.
  destruct (inner (S fuel) _ _ _ _ _ _ _ _) as [[ms' [|]]| |]; try done.
  rewrite wrap_int_small by lia.
  apply IH. lia.
Qed.

End returns.

(** X22: [findImage] returns: for an admissible run-time, a resampler that fills
    its destination, a haystack at the origin of less than [2^20] pixels a
    side, a needle with non-negative bounds, options with non-negative
    [imgMinWidth] and [subMinArea], [subMaxDiv] below [2^62] and [k] at
    most [2^20], and at most [2^16] CPUs, every run of at least 125
    iterations ends with a list of matches.  [make] accepts the capacity
    [k * numWorkers], no slice is read out of range, and the early stop
    never indexes [run.Subruns[len(run.Subruns)-2]] with a single subrun,
    because the first top score of a level is not below 0. *)
Theorem findImage_returns {Image : Type} (Image_Bounds : Image → Rectangle)
    (CatmullRom_Scale : Rectangle → Image → list byte) (rt : Runtime) (numCPU : positive)
    (imgsrc subsrc : Image) (opts : Opts) (fuel : nat) :
  admissible rt →
  fills CatmullRom_Scale imgsrc → fills CatmullRom_Scale subsrc →
  Min (Image_Bounds imgsrc) = mkPoint 0 0 →
  X (Max (Image_Bounds imgsrc)) < 2 ^ 20 → 0 ≤ Y (Max (Image_Bounds imgsrc)) < 2 ^ 20 →
  0 ≤ Dx (Image_Bounds subsrc) → 0 ≤ Dy (Image_Bounds subsrc) →
  0 ≤ imgMinWidth opts → 0 ≤ subMinArea opts → subMaxDiv opts < 2 ^ 62 →
  opt_k opts ≤ 2 ^ 20 → Z.pos numCPU ≤ 2 ^ 16 →
  (125 ≤ fuel)%nat →
  ∃ result : Matches,
    findImage Image_Bounds CatmullRom_Scale rt numCPU fuel imgsrc subsrc opts = Returns result.
Proof.
  intros Hrt Hfi Hfs Hmin0 HW HH Hdx Hdy Hmin Harea Hdiv Hk Hcpu Hfuel.
  unfold findImage. cbv zeta.
  set (opts1 := mkOpts _ _ _ _ _).
  set (opts2 := if _ <? _ then _ else _).
  assert (Hmin2 : 1 ≤ imgMinWidth opts2).
  { assert (1 ≤ imgMinWidth opts1)
      by (subst opts1; cbn [imgMinWidth]; destruct (Z.eqb_spec (imgMinWidth opts) 0);
          [done|lia]).
    subst opts2. by destruct (_ <? _). }
  assert (Harea2 : 1 ≤ subMinArea opts2).
  { assert (1 ≤ subMinArea opts1)
      by (subst opts1; cbn [subMinArea]; destruct (Z.eqb_spec (subMinArea opts) 0);
          [done|lia]).
    subst opts2. by destruct (_ <? _). }
  assert (Hdiv2 : subMaxDiv opts2 < 2 ^ 62).
  { assert (subMaxDiv opts1 < 2 ^ 62)
      by (subst opts1; cbn [subMaxDiv]; destruct (Z.eqb_spec (subMaxDiv opts) 0);
          [done|lia]).
    subst opts2. by destruct (_ <? _). }
  assert (Hmax2 : imgMaxWidth opts2 ≤ X (Max (Image_Bounds imgsrc))).
  { subst opts2. destruct (Z.ltb_spec (X (Max (Image_Bounds imgsrc))) (imgMaxWidth opts1));
      cbn [imgMaxWidth]; lia. }
  assert (Hn : imgMaxWidth opts2 < imgMinWidth opts2 * 2 ^ Z.of_nat 62)
    by (change (2 ^ Z.of_nat 62) with (2 ^ 62); nia).
  assert (Hcap2 : Z.max (opt_k opts2) 1 * (Z.pos numCPU * 2) * 40 ≤ 2 ^ 48).
  { assert (Hk1 : Z.max (opt_k opts1) 1 ≤ 2 ^ 20).
    { subst opts1. cbn [opt_k]. destruct (Z.eqb_spec (opt_k opts) 0); cbn; lia. }
    assert (Hk2 : Z.max (opt_k opts2) 1 ≤ 2 ^ 20) by (subst opts2; by destruct (_ <? _)).
    assert (Z.max (opt_k opts2) 1 * (Z.pos numCPU * 2) ≤ 2 ^ 20 * (2 ^ 16 * 2))
      by (apply Z.mul_le_mono_nonneg; lia).
    lia. }
  destruct (outer_loop_fuel Image_Bounds CatmullRom_Scale rt numCPU subsrc imgsrc opts2
              Hdiv2 ltac:(lia) 62 _ fuel [] Hmin2 Hn Hfuel) as [-> Hfuel125].
  pose proof (outer_loop_no_panic Image_Bounds CatmullRom_Scale rt numCPU subsrc imgsrc opts2
                Hrt Hfs Hdx Hdy Harea2 Hdiv2 Hcap2 Hfi Hmin0 HW HH Hmax2 (62 + 63)
                (imgMinWidth opts2) [] Hmin2) as Hpanic.
  destruct (outer_loop _ _ _ _ _ _ _ _ _ _) as [result| |]; [by exists result|done|done].
Qed.

Lemma findImage_returns_witness :
  let opts := mkOpts 8 8 1 4 2 in
  admissible in_order ∧
  fills nearest_Scale gradient_haystack ∧ fills nearest_Scale gradient_needle ∧
  Min (Bounds gradient_haystack) = mkPoint 0 0 ∧
  X (Max (Bounds gradient_haystack)) < 2 ^ 20 ∧
  0 ≤ Y (Max (Bounds gradient_haystack)) < 2 ^ 20 ∧
  0 ≤ Dx (Bounds gradient_needle) ∧ 0 ≤ Dy (Bounds gradient_needle) ∧
  0 ≤ imgMinWidth opts ∧ 0 ≤ subMinArea opts ∧ subMaxDiv opts < 2 ^ 62 ∧
  opt_k opts ≤ 2 ^ 20 ∧ Z.pos 1 ≤ 2 ^ 16 ∧
  (125 ≤ 125)%nat ∧
  ∃ result : Matches,
    findImage Bounds nearest_Scale in_order 1 125 gradient_haystack gradient_needle opts
      = Returns result.
Proof.
  intros opts.
  assert (Hfi : fills nearest_Scale gradient_haystack).
  { intros w h Hw Hh. by apply nearest_Scale_length. }
  assert (Hfs : fills nearest_Scale gradient_needle).
  { intros w h Hw Hh. by apply nearest_Scale_length. }
  assert (H0 : Min (Bounds gradient_haystack) = mkPoint 0 0) by reflexivity.
  assert (HW : X (Max (Bounds gradient_haystack)) < 2 ^ 20) by (vm_compute; reflexivity).
  assert (HH : 0 ≤ Y (Max (Bounds gradient_haystack)) < 2 ^ 20)
    by (vm_compute; split; [congruence|reflexivity]).
  assert (Hdx : 0 ≤ Dx (Bounds gradient_needle)) by (vm_compute; congruence).
  assert (Hdy : 0 ≤ Dy (Bounds gradient_needle)) by (vm_compute; congruence).
  assert (Hmin : 0 ≤ imgMinWidth opts) by (simpl; lia).
  assert (Harea : 0 ≤ subMinArea opts) by (simpl; lia).
  assert (Hdiv : subMaxDiv opts < 2 ^ 62) by (simpl; lia).
  assert (Hk : opt_k opts ≤ 2 ^ 20) by (simpl; lia).
  assert (Hcpu : Z.pos 1 ≤ 2 ^ 16) by lia.
  refine (conj in_order_admissible (conj Hfi (conj Hfs (conj H0 (conj HW (conj HH
            (conj Hdx (conj Hdy (conj Hmin (conj Harea (conj Hdiv (conj Hk (conj Hcpu
               (conj (le_n _) _)))))))))))))).
  exact (findImage_returns Bounds nearest_Scale in_order 1 gradient_haystack gradient_needle
           opts 125 in_order_admissible Hfi Hfs H0 HW HH Hdx Hdy Hmin Harea Hdiv Hk Hcpu
           (le_n _)).
Defined.
